(** * pveclib [vec_f128_ppc.h]: soft-float IEEE binary128 on 128-bit vectors

    A shallow embedding of the POWER8 (software) branches of the
    quad-precision operations of [src/pveclib/vec_f128_ppc.h].

    A vector register is a [Z] in [0, 2^128).  The C casts between
    [vui8_t], [vui16_t], [vui32_t], [vui64_t], [vui128_t], [vb128_t] and
    [__binary128] (through the [__VF_128] union) reinterpret the same 128
    bits, so they are the identity here.  Elements are numbered as the
    PowerISA numbers them (element 0 is the most significant), which is what
    the source's [VEC_DW_H], [VEC_DW_L], [VEC_WE_1], [VEC_HW_H] and
    [VEC_BYTE_H] macros select on either endian. *)

From Stdlib Require Import ZArith Lia Bool List Btauto.
From coqutil Require Import Z.bitblast.
Import ListNotations.
Local Open Scope Z_scope.

(** ** Vector registers and their elements *)

Definition vec := Z.

Definition is_vec (v : Z) : Prop := 0 <= v < 2 ^ 128.

Definition ones128 : Z := Z.ones 128.

(** [CONST_VINT128_W (w0, w1, w2, w3)]: four words, [w0] the most
    significant; a negative literal such as [-1] wraps to 32 bits. *)
Definition CONST_VINT128_W (w0 w1 w2 w3 : Z) : Z :=
  (w0 mod 2 ^ 32) * 2 ^ 96 + (w1 mod 2 ^ 32) * 2 ^ 64
  + (w2 mod 2 ^ 32) * 2 ^ 32 + (w3 mod 2 ^ 32).

(** [CONST_VINT64_DW (dh, dl)]: two doublewords, [dh] the high one. *)
Definition CONST_VINT64_DW (dh dl : Z) : Z :=
  (dh mod 2 ^ 64) * 2 ^ 64 + (dl mod 2 ^ 64).

Definition dw_h (v : Z) : Z := (v / 2 ^ 64) mod 2 ^ 64.
Definition dw_l (v : Z) : Z := v mod 2 ^ 64.

(** Element [i] (PowerISA numbering) of a vector of [n] elements of [w] bits. *)
Definition elem (w : Z) (n : nat) (i : Z) (v : Z) : Z :=
  (v / 2 ^ (w * (Z.of_nat n - 1 - i))) mod 2 ^ w.

(** A vector of [n] elements of [w] bits, all equal to [x]. *)
Fixpoint splat (w : Z) (n : nat) (x : Z) : Z :=
  match n with
  | O => 0
  | S n' => x mod 2 ^ w + 2 ^ w * splat w n' x
  end.

(** Element-wise binary operation, on [n] elements of [w] bits. *)
Fixpoint map2_lanes (w : Z) (n : nat) (f : Z -> Z -> Z) (a b : Z) : Z :=
  match n with
  | O => 0
  | S n' => (f (a mod 2 ^ w) (b mod 2 ^ w)) mod 2 ^ w
            + 2 ^ w * map2_lanes w n' f (a / 2 ^ w) (b / 2 ^ w)
  end.

(** The predicate [p] holds on every pair of corresponding elements. *)
Fixpoint all2_lanes (w : Z) (n : nat) (p : Z -> Z -> bool) (a b : Z) : bool :=
  match n with
  | O => true
  | S n' => p (a mod 2 ^ w) (b mod 2 ^ w) && all2_lanes w n' p (a / 2 ^ w) (b / 2 ^ w)
  end.

(** The predicate [p] holds on some pair of corresponding elements. *)
Fixpoint any2_lanes (w : Z) (n : nat) (p : Z -> Z -> bool) (a b : Z) : bool :=
  match n with
  | O => false
  | S n' => p (a mod 2 ^ w) (b mod 2 ^ w) || any2_lanes w n' p (a / 2 ^ w) (b / 2 ^ w)
  end.

(** An element read as a two's complement signed integer. *)
Definition signed (w x : Z) : Z := if x <? 2 ^ (w - 1) then x else x - 2 ^ w.

(** A compare result element: all ones when true, zero when false. *)
Definition bmask (w : Z) (c : bool) : Z := if c then Z.ones w else 0.

(** ** Compiler built-ins (AltiVec / VSX), with their PowerISA meaning *)

Definition vec_and (a b : Z) : Z := Z.land a b.
Definition vec_or (a b : Z) : Z := Z.lor a b.
Definition vec_xor (a b : Z) : Z := Z.lxor a b.
Definition vec_andc (a b : Z) : Z := Z.ldiff a b.
Definition vec_nor (a b : Z) : Z := Z.ldiff ones128 (Z.lor a b).
(** [vec_sel (a, b, m)]: bits of [b] where [m] is 1, bits of [a] elsewhere. *)
Definition vec_sel (a b m : Z) : Z := Z.lor (Z.ldiff a m) (Z.land b m).

Definition vec_splat_u8 (c : Z) : Z := splat 8 16 c.
Definition vec_splat_u16 (c : Z) : Z := splat 16 8 c.
Definition vec_splat_u32 (c : Z) : Z := splat 32 4 c.
Definition vec_splat_s32 (c : Z) : Z := splat 32 4 c.

(** [vec_splat (v, i)] on byte, halfword and word elements. *)
Definition vec_splat_b (v i : Z) : Z := splat 8 16 (elem 8 16 i v).
Definition vec_splat_h (v i : Z) : Z := splat 16 8 (elem 16 8 i v).
Definition vec_splat_w (v i : Z) : Z := splat 32 4 (elem 32 4 i v).

Definition vec_cmpgt_w (a b : Z) : Z := map2_lanes 32 4 (fun x y => bmask 32 (y <? x)) a b.
Definition vec_cmpeq_w (a b : Z) : Z := map2_lanes 32 4 (fun x y => bmask 32 (x =? y)) a b.
Definition vec_cmpgt_h (a b : Z) : Z := map2_lanes 16 8 (fun x y => bmask 16 (y <? x)) a b.

Definition vec_all_eq_w (a b : Z) : bool := all2_lanes 32 4 Z.eqb a b.
Definition vec_all_eq_h (a b : Z) : bool := all2_lanes 16 8 Z.eqb a b.
Definition vec_all_gt_b (a b : Z) : bool := all2_lanes 8 16 (fun x y => y <? x) a b.
Definition vec_all_le_b (a b : Z) : bool := all2_lanes 8 16 Z.leb a b.

(** [vec_sld (a, b, n)]: the high 16 bytes of [a || b] shifted left [n]
    bytes, that is bytes [n .. n+15] of the 32 bytes [a || b]. *)
Definition vec_sld (a b n : Z) : Z :=
  Z.land (Z.shiftr (Z.lor (Z.shiftl a 128) b) (128 - 8 * n)) (Z.ones 128).

(** [vec_sl] on words: each word shifted left by the low 5 bits of the
    corresponding word of [b]. *)
Definition vec_sl_w (a b : Z) : Z := map2_lanes 32 4 (fun x y => x * 2 ^ (y mod 32)) a b.

(** [vec_sra] on bytes: each byte shifted right algebraically by the low 3
    bits of the corresponding byte of [b]. *)
Definition vec_sra_b (a b : Z) : Z :=
  map2_lanes 8 16 (fun x y => signed 8 x / 2 ^ (y mod 8)) a b.

(** [vec_packpx (a, b)]: each word packed to a 1/5/5/5 pixel halfword; the
    four pixels of [a] are the high halfwords of the result. *)
Definition pixel (x : Z) : Z :=
  ((x / 2 ^ 24) mod 2) * 2 ^ 15 + ((x / 2 ^ 19) mod 2 ^ 5) * 2 ^ 10
  + ((x / 2 ^ 11) mod 2 ^ 5) * 2 ^ 5 + (x / 2 ^ 3) mod 2 ^ 5.

Definition pack4 (v : Z) : Z :=
  pixel (elem 32 4 0 v) * 2 ^ 48 + pixel (elem 32 4 1 v) * 2 ^ 32
  + pixel (elem 32 4 2 v) * 2 ^ 16 + pixel (elem 32 4 3 v).

Definition vec_packpx (a b : Z) : Z := pack4 a * 2 ^ 64 + pack4 b.

(** ** Operations of the integer headers the source includes *)

(** Modelled from the spec: [vec_splat_u64] and [vec_splat_u128] of
    [vec_int64_ppc.h] / [vec_int128_ppc.h] (not under src): the small
    constant in every doubleword, respectively in the quadword. *)
Definition vec_splat_u64 (c : Z) : Z := splat 64 2 c.
Definition vec_splat_u128 (c : Z) : Z := c mod 2 ^ 128.

(** Modelled from the spec: the doubleword permutes of [vec_int64_ppc.h]
    (not under src): splat one doubleword, swap the two, merge the two high
    (algebraic high) or the two low doublewords of a pair. *)
Definition vec_splatd (v i : Z) : Z := splat 64 2 (elem 64 2 i v).
Definition vec_swapd (v : Z) : Z := dw_l v * 2 ^ 64 + dw_h v.
Definition vec_mrgahd (a b : Z) : Z := dw_h a * 2 ^ 64 + dw_h b.
Definition vec_mrgald (a b : Z) : Z := dw_l a * 2 ^ 64 + dw_l b.

(** Modelled from the spec: the select/blend by boolean mask of the
    consumed large-integer interface ([vec_selud], [vec_seluq], not under
    src): a bitwise select like [vec_sel]. *)
Definition vec_selud (a b m : Z) : Z := vec_sel a b m.
Definition vec_seluq (a b m : Z) : Z := vec_sel a b m.

(** Modelled from the spec: doubleword modular add and subtract, unsigned
    minimum, and the unsigned / signed doubleword compares of
    [vec_int64_ppc.h] (not under src). *)
Definition vec_addudm (a b : Z) : Z := map2_lanes 64 2 Z.add a b.
Definition vec_subudm (a b : Z) : Z := map2_lanes 64 2 Z.sub a b.
Definition vec_minud (a b : Z) : Z := map2_lanes 64 2 Z.min a b.
Definition vec_cmpequd (a b : Z) : Z := map2_lanes 64 2 (fun x y => bmask 64 (x =? y)) a b.
Definition vec_cmpltud (a b : Z) : Z := map2_lanes 64 2 (fun x y => bmask 64 (x <? y)) a b.
Definition vec_cmpgtud (a b : Z) : Z := map2_lanes 64 2 (fun x y => bmask 64 (y <? x)) a b.
Definition vec_cmpgtsd (a b : Z) : Z :=
  map2_lanes 64 2 (fun x y => bmask 64 (signed 64 y <? signed 64 x)) a b.

Definition vec_cmpud_all_eq (a b : Z) : bool := all2_lanes 64 2 Z.eqb a b.
Definition vec_cmpud_all_lt (a b : Z) : bool := all2_lanes 64 2 Z.ltb a b.
Definition vec_cmpud_all_le (a b : Z) : bool := all2_lanes 64 2 Z.leb a b.
Definition vec_cmpud_all_gt (a b : Z) : bool := all2_lanes 64 2 (fun x y => y <? x) a b.
Definition vec_cmpud_all_ge (a b : Z) : bool := all2_lanes 64 2 (fun x y => y <=? x) a b.
Definition vec_cmpud_any_eq (a b : Z) : bool := any2_lanes 64 2 Z.eqb a b.
Definition vec_cmpud_any_ne (a b : Z) : bool :=
  any2_lanes 64 2 (fun x y => negb (x =? y)) a b.
Definition vec_cmpsd_all_lt (a b : Z) : bool :=
  all2_lanes 64 2 (fun x y => signed 64 x <? signed 64 y) a b.
Definition vec_cmpsd_all_gt (a b : Z) : bool :=
  all2_lanes 64 2 (fun x y => signed 64 y <? signed 64 x) a b.

(** Modelled from the spec: doubleword shift right ([vec_vsrd] of
    [vec_int64_ppc.h], not under src): each doubleword shifted right by the
    low 6 bits of the corresponding doubleword of [b]. *)
Definition vec_vsrd (a b : Z) : Z := map2_lanes 64 2 (fun x y => x / 2 ^ (y mod 64)) a b.

(** Modelled from the spec: halfword shift right immediate ([vec_srhi] of
    [vec_int16_ppc.h], not under src). *)
Definition vec_srhi (a n : Z) : Z := map2_lanes 16 8 (fun x _ => x / 2 ^ n) a 0.

(** Modelled from the spec: quadword add / subtract modulo 2^128 and the
    carry out of the quadword add ([vec_adduqm], [vec_subuqm], [vec_addcuq]
    of [vec_int128_ppc.h], not under src). *)
Definition vec_adduqm (a b : Z) : Z := (a + b) mod 2 ^ 128.
Definition vec_subuqm (a b : Z) : Z := (a - b) mod 2 ^ 128.
Definition vec_addcuq (a b : Z) : Z := (a + b) / 2 ^ 128.

(** Modelled from the spec: the double-width unsigned multiply
    ([vec_muludq] of [vec_int128_ppc.h], not under src): the pair (high
    quadword stored through the pointer, low quadword returned). *)
Definition vec_muludq (a b : Z) : Z * Z := ((a * b) / 2 ^ 128, (a * b) mod 2 ^ 128).

(** Modelled from the spec: quadword logical shifts ([vec_slqi],
    [vec_srqi], [vec_slq], [vec_srq] of [vec_int128_ppc.h], not under src).
    The immediate forms shift by a constant below 128; the variable forms
    take the count from the low 7 bits of the quadword [b]. *)
Definition vec_slqi (a n : Z) : Z := (a * 2 ^ n) mod 2 ^ 128.
Definition vec_srqi (a n : Z) : Z := a / 2 ^ n.
Definition vec_slq (a b : Z) : Z := (a * 2 ^ (b mod 128)) mod 2 ^ 128.
Definition vec_srq (a b : Z) : Z := a / 2 ^ (b mod 128).

(** Modelled from the spec: double-quadword shift left ([vec_sldqi],
    [vec_sldq] of [vec_int128_ppc.h], not under src): the high quadword of
    [vh || vl] shifted left, no bit lost across the two lanes. *)
Definition vec_sldqi (vh vl n : Z) : Z := ((vh * 2 ^ 128 + vl) * 2 ^ n / 2 ^ 128) mod 2 ^ 128.
Definition vec_sldq (vh vl b : Z) : Z := vec_sldqi vh vl (b mod 128).

(** Modelled from the spec: count leading zeros of the quadword
    ([vec_clzq] of [vec_int128_ppc.h], not under src); 128 for zero. *)
Definition vec_clzq (a : Z) : Z := if a =? 0 then 128 else 127 - Z.log2 a.

(** Modelled from the spec: quadword compares ([vec_cmpequq],
    [vec_cmpltuq], [vec_cmpgtuq], [vec_cmpuq_all_eq], [vec_cmpuq_all_gt] of
    [vec_int128_ppc.h], not under src). *)
Definition vec_cmpequq (a b : Z) : Z := bmask 128 (a =? b).
Definition vec_cmpltuq (a b : Z) : Z := bmask 128 (a <? b).
Definition vec_cmpgtuq (a b : Z) : Z := bmask 128 (b <? a).
Definition vec_cmpuq_all_eq (a b : Z) : bool := a =? b.
Definition vec_cmpuq_all_gt (a b : Z) : bool := b <? a.

(** Modelled from the spec: set a quadword bool from the sign bit
    ([vec_setb_sq]) and from the carry bit ([vec_setb_cyq]) of
    [vec_int128_ppc.h] (not under src). *)
Definition vec_setb_sq (a : Z) : Z := bmask 128 (Z.testbit a 127).
Definition vec_setb_cyq (c : Z) : Z := bmask 128 (Z.testbit c 0).

(** Modelled from the spec: insert exponent double-precision
    ([vec_xviexpdp] of [vec_f64_ppc.h], not under src): in each doubleword
    the 11 exponent bits of [sig] are replaced by the low 11 bits of [exp]. *)
Definition vec_xviexpdp (sig exp : Z) : Z :=
  map2_lanes 64 2
    (fun s e => Z.lor (Z.ldiff s (Z.shiftl (Z.ones 11) 52)) (Z.shiftl (e mod 2 ^ 11) 52))
    sig exp.

(** Modelled from the spec: doubleword count leading zeros ([vec_clzd] of
    [vec_int64_ppc.h], not under src); 64 for a zero doubleword. *)
Definition clz (w x : Z) : Z := if x =? 0 then w else w - 1 - Z.log2 x.
Definition vec_clzd (a : Z) : Z := map2_lanes 64 2 (fun x _ => clz 64 x) a 0.

(** ** Element selectors of [vec_common_ppc.h] (PowerISA numbering) *)

Definition VEC_DW_H : Z := 0.
Definition VEC_DW_L : Z := 1.
Definition VEC_WE_1 : Z := 1.
Definition VEC_WE_3 : Z := 3.
Definition VEC_HW_H : Z := 0.
Definition VEC_BYTE_H : Z := 0.

(** ** Constants and masks (vec_f128_ppc.h, lines 3738-3972) *)

Definition q_zero : Z := CONST_VINT128_W 0 0 0 0.
Definition q_ones : Z := CONST_VINT128_W (-1) (-1) (-1) (-1).

Definition vec_const64_f128_128 : Z :=
  let dw64 := vec_clzd q_zero in
  vec_addudm dw64 dw64.

Definition vec_mask64_f128exp : Z :=
  let expmask := vec_splat_u8 (-8) in
  let expmask := vec_sld q_zero expmask 4 in
  vec_packpx expmask expmask.

Definition vec_mask128_f128exp : Z :=
  let expmask := vec_splat_u8 (-8) in
  let expmask := vec_sld expmask q_zero 12 in
  vec_packpx expmask q_zero.

Definition vec_mask128_f128mag : Z := vec_srqi q_ones 1.

Definition vec_mask128_f128sig : Z := vec_sld q_zero q_ones 14.

Definition vec_mask128_f128Lbit : Z :=
  let hidden := vec_splat_u32 1 in
  vec_sld hidden q_zero 14.

Definition vec_mask128_f128Qbit : Z :=
  let QNaNbit := vec_sl_w q_ones q_ones in
  vec_sld QNaNbit q_zero 10.

(** ** Transfers between [__binary128] and the vector types: the same bits *)

Definition vec_xfer_bin128_2_vui8t (f128 : Z) : Z := f128.
Definition vec_xfer_bin128_2_vui64t (f128 : Z) : Z := f128.
Definition vec_xfer_vui32t_2_bin128 (f128 : Z) : Z := f128.
Definition vec_xfer_vui128t_2_bin128 (f128 : Z) : Z := f128.

Definition vec_and_bin128_2_vui32t (f128 mask : Z) : Z := vec_and f128 mask.
Definition vec_andc_bin128_2_vui32t (f128 mask : Z) : Z := vec_andc f128 mask.
Definition vec_or_bin128_2_vui32t (f128 mask : Z) : Z := vec_or f128 mask.
Definition vec_xor_bin128_2_vui32t (f128 mask : Z) : Z := vec_xor f128 mask.
Definition vec_mrgh_bin128_2_vui64t (vfa vfb : Z) : Z := vec_mrgahd vfa vfb.

(** ** Classification and sign (lines 4763-4775, 5000-5006, 7666-7684,
       7793-7797, 7886-7908, 7953-7975) *)

Definition vec_all_isnanf128 (f128 : Z) : bool :=
  let magmask := vec_mask128_f128mag in
  let expmask := vec_mask128_f128exp in
  let tmp := vec_and_bin128_2_vui32t f128 magmask in
  vec_cmpuq_all_gt tmp expmask.

Definition vec_const_nanf128 : Z :=
  let posnan := CONST_VINT128_W 0x7fff8000 0 0 0 in
  vec_xfer_vui32t_2_bin128 posnan.

Definition vec_isnanf128 (f128 : Z) : Z :=
  let signmask := CONST_VINT128_W 0x80000000 0 0 0 in
  let expmask := CONST_VINT128_W 0x7fff0000 0 0 0 in
  let tmp := vec_andc_bin128_2_vui32t f128 signmask in
  vec_cmpgtuq tmp expmask.

Definition vec_isunorderedf128 (vfa vfb : Z) : Z :=
  vec_or (vec_isnanf128 vfa) (vec_isnanf128 vfb).

Definition vec_negf128 (f128 : Z) : Z :=
  let signmask := CONST_VINT128_W 0x80000000 0 0 0 in
  let tmp := vec_xor_bin128_2_vui32t f128 signmask in
  vec_xfer_vui32t_2_bin128 tmp.

Definition vec_setb_qp (f128 : Z) : Z :=
  let shift := vec_splat_u8 7 in
  let t128 := vec_xfer_bin128_2_vui8t f128 in
  let splat := vec_splat_b t128 VEC_BYTE_H in
  vec_sra_b splat shift.

(** ** Insert / extract exponent and significand (lines 9715-9892) *)

Definition vec_xsiexpqp (sig exp : Z) : Z :=
  let expmask := vec_mask128_f128exp in
  let tmp := vec_sld exp exp 6 in
  let t128 := vec_sel sig tmp expmask in
  vec_xfer_vui32t_2_bin128 t128.

Definition vec_xsxexpqp (f128 : Z) : Z :=
  let expmask := vec_mask128_f128exp in
  let tmp := vec_and_bin128_2_vui32t f128 expmask in
  vec_sld tmp tmp 10.

Definition vec_xsxsigqp (f128 : Z) : Z :=
  let zero := CONST_VINT128_W 0 0 0 0 in
  let sigmask := vec_mask128_f128sig in
  let expmask := vec_mask128_f128exp in
  let hidden := vec_mask128_f128Lbit in
  let tmp := vec_and_bin128_2_vui32t f128 expmask in
  let normal := vec_nor (vec_cmpeq_w tmp expmask) (vec_cmpeq_w tmp zero) in
  let t128 := vec_and_bin128_2_vui32t f128 sigmask in
  vec_sel t128 normal hidden.

Definition vec_xxxexpqpp (vfa vfb : Z) : Z :=
  let exp_mask := vec_mask64_f128exp in
  let tmp := vec_mrgh_bin128_2_vui64t vfa vfb in
  let rtmp := vec_sld tmp tmp 10 in
  vec_and rtmp exp_mask.

(** ** Compare equal, IEEE unordered (lines 5168-5199) *)

Definition vec_cmpequqp (vfa vfb : Z) : Z :=
  let signmask := CONST_VINT128_W 0x80000000 0 0 0 in
  let unordered := vec_isunorderedf128 vfa vfb in
  let vra := vec_xfer_bin128_2_vui64t vfa in
  let vrb := vec_xfer_bin128_2_vui64t vfb in
  let or_ab := vec_or vra vrb in
  let eq_s := vec_cmpequq or_ab signmask in
  let cmps := vec_cmpequq vra vrb in
  let result := vec_or cmps eq_s in
  vec_andc result unordered.

(** ** Round to odd

    The final rounding step of add and subtract (lines 8212-8216 and
    8484-8488, the same text): the GRX bits are the low 3 bits of the
    intermediate result [s_sig]. *)
Definition round_to_odd_grx (s_sig : Z) : Z :=
  let grx_mask := vec_splat_u128 7 in
  let p_tmp := vec_and s_sig grx_mask in
  let p_odd := vec_addcuq p_tmp q_ones in
  let q_sig := vec_srqi s_sig 3 in
  vec_or q_sig p_odd.

(** The final rounding step of multiply (lines 9610-9612): the whole low
    quadword of the product holds the bits below the significand. *)
Definition round_to_odd_low (q_sig p_sig_l : Z) : Z :=
  let p_odd := vec_addcuq p_sig_l q_ones in
  vec_or q_sig p_odd.

(** ** Add, round to odd (lines 8035-8275) *)

(** Lines 8142-8158: align the smaller operand, shifted-out bits go to X. *)
Definition xsaddqpo_align (a_exp b_exp b_sig : Z) : Z :=
  if vec_cmpud_all_lt b_exp a_exp then
    let exp_128 := vec_const64_f128_128 in
    let d_exp := vec_subudm a_exp b_exp in
    let exp_mask := vec_cmpltud d_exp exp_128 in
    let l_exp := vec_subudm exp_128 d_exp in
    let t_sig := vec_srq b_sig d_exp in
    let x_bits := vec_slq b_sig l_exp in
    let t_sig := vec_seluq q_zero t_sig exp_mask in
    let x_bits := vec_seluq b_sig x_bits exp_mask in
    let p_odd := vec_addcuq x_bits q_ones in
    vec_or t_sig p_odd
  else b_sig.

(** Lines 8172-8211: carry out of the L-bit, or significand below the
    normal range. *)
Definition xsaddqpo_normalize (s_sig q_exp : Z) : Z * Z :=
  let xbitmask := vec_splat_u128 1 in
  let exp_min := vec_splat_u64 1 in
  let t_sig_L := vec_splat_u8 7 in
  let t_sig_C := vec_splat_u8 15 in
  let exp_one := exp_min in
  let exp_dnrm := q_zero in
  let t_sig := vec_splat_b s_sig 1 in
  if vec_all_gt_b t_sig t_sig_C then
    let p_odd := vec_and s_sig xbitmask in
    let s_sig := vec_srqi s_sig 1 in
    let s_sig := vec_or s_sig p_odd in
    let q_exp := vec_addudm q_exp exp_one in
    (s_sig, q_exp)
  else if vec_all_le_b t_sig t_sig_L then
    let exp_12 := vec_splat_u64 12 in
    let c_sig := vec_clzq s_sig in
    let c_exp := vec_splatd c_sig VEC_DW_L in
    let c_exp := vec_subudm c_exp exp_12 in
    let d_exp := vec_subudm q_exp exp_min in
    let d_exp := vec_minud c_exp d_exp in
    let nrm_mask := vec_cmpgtsd q_exp exp_min in
    let exp_mask := vec_cmpgtud q_exp c_exp in
    let c_sig := vec_slq s_sig d_exp in
    let q_exp := vec_subudm q_exp d_exp in
    let exp_mask := vec_and exp_mask nrm_mask in
    let q_exp := vec_selud exp_dnrm q_exp exp_mask in
    let s_sig := vec_seluq s_sig c_sig nrm_mask in
    (s_sig, q_exp)
  else (s_sig, q_exp).

(** Lines 8106-8228, shared with subtract (lines 8378-8500, the same
    text): from the operand signs, magnitudes, significands with the L-bit
    and corrected exponents to the packed result. *)
Definition xsaddqpo_combine (a_mag b_mag a_sign b_sign a_sig b_sig x_exp : Z) : Z :=
  let exp_naninf := vec_mask64_f128exp in
  let q_sign := vec_xor a_sign b_sign in
  let a_sig := vec_slqi a_sig 3 in
  let b_sig := vec_slqi b_sig 3 in
  let diff_sign := vec_setb_sq q_sign in
  let a_lt_b := vec_cmpltuq a_mag b_mag in
  let a_tmp := a_sig in
  let b_tmp := b_sig in
  let x_tmp := vec_swapd x_exp in
  let q_sign := vec_sel a_sign b_sign a_lt_b in
  let x_exp := vec_selud x_exp x_tmp a_lt_b in
  let a_exp := vec_splatd x_exp VEC_DW_H in
  let b_exp := vec_splatd x_exp VEC_DW_L in
  let q_exp := a_exp in
  let a_sig := vec_seluq a_tmp b_tmp a_lt_b in
  let b_sig := vec_seluq b_tmp a_tmp a_lt_b in
  let b_sig := xsaddqpo_align a_exp b_exp b_sig in
  let add_sig := vec_adduqm a_sig b_sig in
  let sub_sig := vec_subuqm a_sig b_sig in
  let s_sig := vec_seluq add_sig sub_sig diff_sign in
  if vec_cmpuq_all_eq s_sig q_zero then
    let q_sign := vec_sel a_sign q_zero diff_sign in
    vec_xfer_vui32t_2_bin128 q_sign
  else
    let '(s_sig, q_exp) := xsaddqpo_normalize s_sig q_exp in
    let q_sig := round_to_odd_grx s_sig in
    if vec_cmpud_all_ge q_exp exp_naninf then
      let f128_max := CONST_VINT128_W 0x7ffeffff (-1) (-1) (-1) in
      let f128_smax := vec_or f128_max q_sign in
      vec_xfer_vui32t_2_bin128 f128_smax
    else
      let q_sig := vec_or q_sig q_sign in
      vec_xsiexpqp q_sig q_exp.

(** Lines 8087-8103 (and 8357-8373): significands with the hidden bit, and
    exponents corrected to E_min for zeros and denormals. *)
Definition xsaddqpo_extract (a_mag b_mag x_exp : Z) : Z * Z * Z :=
  let exp_min := vec_splat_u64 1 in
  let sigmask := vec_mask128_f128sig in
  let hidden := vec_mask128_f128Lbit in
  let a_s32 := vec_and a_mag sigmask in
  let b_s32 := vec_and b_mag sigmask in
  let x_norm := vec_cmpgt_w x_exp q_zero in
  let a_norm := vec_splat_w x_norm VEC_WE_1 in
  let b_norm := vec_splat_w x_norm VEC_WE_3 in
  let a_sig := vec_sel a_s32 a_norm hidden in
  let b_sig := vec_sel b_s32 b_norm hidden in
  let x_exp := vec_selud exp_min x_exp x_norm in
  (a_sig, b_sig, x_exp).

Definition vec_xsaddqpo (vfa vfb : Z) : Z :=
  let magmask := vec_mask128_f128mag in
  let exp_naninf := vec_mask64_f128exp in
  let x_exp := vec_xxxexpqpp vfa vfb in
  let a_mag := vec_and_bin128_2_vui32t vfa magmask in
  let b_mag := vec_and_bin128_2_vui32t vfb magmask in
  let a_sign := vec_andc_bin128_2_vui32t vfa magmask in
  let b_sign := vec_andc_bin128_2_vui32t vfb magmask in
  if vec_cmpud_all_lt x_exp exp_naninf then
    let '(a_sig, b_sig, x_exp) := xsaddqpo_extract a_mag b_mag x_exp in
    xsaddqpo_combine a_mag b_mag a_sign b_sign a_sig b_sig x_exp
  else
    let q_nan := vec_mask128_f128Qbit in
    if vec_all_isnanf128 vfa then
      let vf128 := vec_or_bin128_2_vui32t vfa q_nan in
      vec_xfer_vui32t_2_bin128 vf128
    else if vec_all_isnanf128 vfb then
      let vf128 := vec_or_bin128_2_vui32t vfb q_nan in
      vec_xfer_vui32t_2_bin128 vf128
    else
      let a_exp := vec_splatd x_exp VEC_DW_H in
      if vec_cmpud_all_eq x_exp exp_naninf && vec_cmpud_any_ne a_sign b_sign then
        vec_const_nanf128
      else if vec_cmpud_any_eq a_exp exp_naninf then vfa
      else vfb.

(** ** Subtract, round to odd (lines 8303-8547) *)

Definition vec_xssubqpo (vfa vfb : Z) : Z :=
  let magmask := vec_mask128_f128mag in
  let exp_naninf := vec_mask64_f128exp in
  let x_exp := vec_xxxexpqpp vfa vfb in
  let a_mag := vec_and_bin128_2_vui32t vfa magmask in
  let b_mag := vec_and_bin128_2_vui32t vfb magmask in
  let a_sign := vec_andc_bin128_2_vui32t vfa magmask in
  let b_sign := vec_andc_bin128_2_vui32t vfb magmask in
  if vec_cmpud_all_lt x_exp exp_naninf then
    let signmask := vec_nor magmask magmask in
    let '(a_sig, b_sig, x_exp) := xsaddqpo_extract a_mag b_mag x_exp in
    let b_sign := vec_xor signmask b_sign in
    xsaddqpo_combine a_mag b_mag a_sign b_sign a_sig b_sig x_exp
  else
    let q_nan := vec_mask128_f128Qbit in
    if vec_all_isnanf128 vfa then
      let vf128 := vec_or_bin128_2_vui32t vfa q_nan in
      vec_xfer_vui32t_2_bin128 vf128
    else if vec_all_isnanf128 vfb then
      let vf128 := vec_or_bin128_2_vui32t vfb q_nan in
      vec_xfer_vui32t_2_bin128 vf128
    else
      let a_exp := vec_splatd x_exp VEC_DW_H in
      if vec_cmpud_all_eq x_exp exp_naninf && vec_cmpud_all_eq a_sign b_sign then
        vec_const_nanf128
      else if vec_cmpud_any_eq a_exp exp_naninf then vfa
      else vec_negf128 vfb.

(** ** Multiply, round to odd (lines 9380-9684) *)

(** Lines 9424-9448: significands with the hidden bit. *)
Definition xsmulqpo_extract (vfa vfb a_mag b_mag : Z) : Z * Z :=
  let sigmask := vec_mask128_f128sig in
  let x_hidden := vec_splat_u16 1 in
  let a_s32 := vec_and_bin128_2_vui32t vfa sigmask in
  let b_s32 := vec_and_bin128_2_vui32t vfb sigmask in
  let a_e16 := vec_andc a_mag sigmask in
  let b_e16 := vec_andc b_mag sigmask in
  let a_norm := vec_cmpgt_h a_e16 q_zero in
  let b_norm := vec_cmpgt_h b_e16 q_zero in
  let a_sig := vec_sel a_s32 x_hidden a_norm in
  let b_sig := vec_sel b_s32 x_hidden b_norm in
  (a_sig, b_sig).

(** Lines 9478-9487: the product exponent. *)
Definition xsmulqpo_exp (x_exp : Z) : Z :=
  let exp_naninf := vec_mask64_f128exp in
  let exp_dnrm := q_zero in
  let exp_min := vec_splat_u64 1 in
  let exp_bias := vec_srhi exp_naninf 1 in
  let exp_mask := vec_cmpequd x_exp exp_dnrm in
  let x_exp := vec_selud x_exp exp_min exp_mask in
  let q_exp := vec_addudm x_exp (vec_swapd x_exp) in
  vec_subudm q_exp exp_bias.

(** Lines 9490-9507: carry, shift the product right one bit, exponent +1. *)
Definition xsmulqpo_carry (p_sig_h p_sig_l q_exp : Z) : Z * Z * Z :=
  let exp_one := vec_splat_u64 1 in
  let sig_l_mask := vec_splat_u16 1 in
  let t_sig := vec_splat_h p_sig_h VEC_HW_H in
  let carry_mask := vec_cmpgt_h t_sig sig_l_mask in
  let p_tmp := vec_sldqi p_sig_h p_sig_l 120 in
  let sig_h := vec_srqi p_sig_h 1 in
  let sig_l := vec_slqi p_tmp 7 in
  let x_exp := vec_addudm q_exp exp_one in
  let p_sig_h := vec_seluq p_sig_h sig_h carry_mask in
  let p_sig_l := vec_seluq p_sig_l sig_l carry_mask in
  let q_exp := vec_selud q_exp x_exp carry_mask in
  (p_sig_h, p_sig_l, q_exp).

(** Lines 9515-9570: tiny exponent; the state is
    [(p_sig_h, p_sig_l, q_sig, q_exp)]. *)
Definition xsmulqpo_tiny (p_sig_h p_sig_l q_exp : Z) : Z * Z * Z * Z :=
  let exp_dnrm := q_zero in
  let exp_min := vec_splat_u64 1 in
  let q_sig := p_sig_h in
  if vec_cmpsd_all_lt q_exp exp_min then
    let exp_128 := vec_const64_f128_128 in
    let too_tiny := CONST_VINT64_DW 116 116 in
    let xmask := vec_srqi q_ones 3 in
    let x_exp := vec_subudm exp_min q_exp in
    if vec_cmpud_all_gt x_exp too_tiny then
      let p_sig_l := vec_srqi p_sig_l 8 in
      let p_sig_l := vec_or p_sig_l p_sig_h in
      let p_sig_l := vec_adduqm p_sig_l xmask in
      let q_sig := q_zero in
      let p_sig_l := vec_andc p_sig_l xmask in
      (p_sig_h, p_sig_l, q_sig, exp_dnrm)
    else
      let tmp := vec_and p_sig_l xmask in
      let tmp := vec_adduqm tmp xmask in
      let p_sig_l := vec_or p_sig_l tmp in
      let p_sig_l := vec_andc p_sig_l xmask in
      let l_exp := vec_subudm exp_128 x_exp in
      let p_sig_l := vec_sldq p_sig_h p_sig_l l_exp in
      let p_sig_h := vec_srq p_sig_h x_exp in
      let q_sig := p_sig_h in
      (p_sig_h, p_sig_l, q_sig, exp_dnrm)
  else (p_sig_h, p_sig_l, q_sig, q_exp).

(** Lines 9571-9607: exponent not tiny but the significand below the normal
    range; the state is [(p_sig_l, q_sig, q_exp)]. *)
Definition xsmulqpo_denorm (p_sig_h p_sig_l q_sig q_exp : Z) : Z * Z * Z :=
  let exp_dnrm := q_zero in
  let exp_min := vec_splat_u64 1 in
  let t_sig := vec_splat_h p_sig_h VEC_HW_H in
  if vec_all_eq_h t_sig q_zero then
    let exp_15 := vec_splat_u64 15 in
    let c_sig := vec_clzq p_sig_h in
    let c_exp := vec_splatd c_sig VEC_DW_L in
    let c_exp := vec_subudm c_exp exp_15 in
    let d_exp := vec_subudm q_exp exp_min in
    let d_exp := vec_minud c_exp d_exp in
    let exp_mask := vec_cmpgtud q_exp c_exp in
    if vec_cmpsd_all_gt q_exp exp_min then
      let p_sig_h := vec_sldq p_sig_h p_sig_l d_exp in
      let p_sig_l := vec_slq p_sig_l d_exp in
      let q_sig := p_sig_h in
      let q_exp := vec_subudm q_exp d_exp in
      let q_exp := vec_selud exp_dnrm q_exp exp_mask in
      (p_sig_l, q_sig, q_exp)
    else
      (p_sig_l, q_sig, exp_dnrm)
  else (p_sig_l, q_sig, q_exp).

Definition vec_xsmulqpo (vfa vfb : Z) : Z :=
  let exp_naninf := vec_mask64_f128exp in
  let magmask := vec_mask128_f128mag in
  let x_exp := vec_xxxexpqpp vfa vfb in
  let a_mag := vec_and_bin128_2_vui32t vfa magmask in
  let b_mag := vec_and_bin128_2_vui32t vfb magmask in
  let a_sign := vec_andc_bin128_2_vui32t vfa magmask in
  let b_sign := vec_andc_bin128_2_vui32t vfb magmask in
  let q_sign := vec_xor a_sign b_sign in
  if vec_cmpud_all_lt x_exp exp_naninf then
    let '(a_sig, b_sig) := xsmulqpo_extract vfa vfb a_mag b_mag in
    let a_sig := vec_slqi a_sig 8 in
    let b_sig := vec_slqi b_sig 8 in
    let '(p_sig_h, p_sig_l) := vec_muludq a_sig b_sig in
    if vec_all_eq_w a_sig q_zero || vec_all_eq_w b_sig q_zero then
      vec_xfer_vui32t_2_bin128 q_sign
    else
      let q_exp := xsmulqpo_exp x_exp in
      let '(p_sig_h, p_sig_l, q_exp) := xsmulqpo_carry p_sig_h p_sig_l q_exp in
      let '(p_sig_h, p_sig_l, q_sig, q_exp) := xsmulqpo_tiny p_sig_h p_sig_l q_exp in
      let '(p_sig_l, q_sig, q_exp) := xsmulqpo_denorm p_sig_h p_sig_l q_sig q_exp in
      let q_sig := round_to_odd_low q_sig p_sig_l in
      if vec_cmpud_all_ge q_exp exp_naninf then
        let f128_max := CONST_VINT128_W 0x7ffeffff (-1) (-1) (-1) in
        let f128_smax := vec_or f128_max q_sign in
        vec_xfer_vui32t_2_bin128 f128_smax
      else
        let q_sig := vec_or q_sig q_sign in
        let expmask := vec_sld exp_naninf q_zero 14 in
        let tmp := vec_sld q_exp q_zero 14 in
        let t128 := vec_sel q_sig tmp expmask in
        vec_xfer_vui32t_2_bin128 t128
  else
    let q_nan := vec_mask128_f128Qbit in
    let q_inf := vec_mask128_f128exp in
    if vec_all_isnanf128 vfa then
      let vf128 := vec_or_bin128_2_vui32t vfa q_nan in
      vec_xfer_vui32t_2_bin128 vf128
    else if vec_all_isnanf128 vfb then
      let vf128 := vec_or_bin128_2_vui32t vfb q_nan in
      vec_xfer_vui32t_2_bin128 vf128
    else if vec_cmpud_all_eq x_exp exp_naninf then
      let q_sig := q_inf in
      let q_sig := vec_or q_sig q_sign in
      vec_xfer_vui128t_2_bin128 q_sig
    else if vec_cmpuq_all_eq a_mag q_zero || vec_cmpuq_all_eq b_mag q_zero then
      vec_const_nanf128
    else
      let q_sig := q_inf in
      let q_sig := vec_or q_sig q_sign in
      vec_xfer_vui128t_2_bin128 q_sig.

(** ** Conversions *)

(** Quad to double, round to odd (lines 8675-8780). *)
Definition vec_xscvqpdpo (f128 : Z) : Z :=
  let q_zero := 0 in
  let q_ones := vec_splat_s32 (-1) in
  let qpdp_delta := CONST_VINT64_DW (0x3fff - 0x3ff) 0 in
  let exp_tiny := CONST_VINT64_DW (0x3fff - 1022) (0x3fff - 1022) in
  let exp_high := CONST_VINT64_DW (0x3fff + 1023) (0x3fff + 1023) in
  let signmask := CONST_VINT128_W 0x80000000 0 0 0 in
  let q_naninf := CONST_VINT64_DW 0x7fff 0x7fff in
  let d_naninf := CONST_VINT64_DW 0x7ff 0 in
  let q_exp := vec_xsxexpqp f128 in
  let x_exp := vec_splatd q_exp VEC_DW_H in
  let q_sig := vec_xsxsigqp f128 in
  let q_sign := vec_and_bin128_2_vui32t f128 signmask in
  let '(d_sig, d_exp) :=
    if negb (vec_cmpud_all_eq x_exp q_naninf) then
      if vec_cmpud_all_ge x_exp exp_tiny then
        if vec_cmpud_all_le x_exp exp_high then
          let q_sig := vec_slqi q_sig 4 in
          let d_X := vec_cmpgtud q_sig q_zero in
          let d_X := vec_mrgald q_zero d_X in
          let d_X := vec_slqi d_X 1 in
          let d_sig := vec_or q_sig d_X in
          let d_exp := vec_subudm q_exp qpdp_delta in
          (d_sig, d_exp)
        else
          let d_sig := CONST_VINT64_DW 0x001fffffffffffff 0 in
          let d_exp := CONST_VINT64_DW 0x7fe 0 in
          (d_sig, d_exp)
      else
        let exp_tinyr := CONST_VINT64_DW (0x3fff - (1022 + 53)) (0x3fff - (1022 + 53)) in
        let q_delta := vec_subudm exp_tiny x_exp in
        let d_exp := q_zero in
        if vec_cmpud_all_gt x_exp exp_tinyr then
          let q_sig := vec_slqi q_sig 4 in
          let d_sig := vec_srq q_sig q_delta in
          let d_X := vec_cmpgtud d_sig q_zero in
          let d_X := vec_mrgald q_zero d_X in
          let d_X := vec_slqi d_X 1 in
          let d_sig := vec_or d_sig d_X in
          (d_sig, d_exp)
        else
          let d_X := vec_addcuq q_sig q_ones in
          let d_sig := vec_swapd d_X in
          (d_sig, d_exp)
    else
      let q_quiet := CONST_VINT64_DW 0x0000800000000000 0 in
      let is_inf := vec_cmpequq q_sig q_zero in
      let x_sig := vec_or q_sig q_quiet in
      let q_sig := vec_sel x_sig q_sig is_inf in
      let d_sig := vec_slqi q_sig 4 in
      let d_exp := d_naninf in
      (d_sig, d_exp) in
  let d_sig := CONST_VINT64_DW (dw_h d_sig) 0 in
  let d_sig := vec_or d_sig q_sign in
  vec_xviexpdp d_sig d_exp.

(** Quad to unsigned doubleword, round toward zero (lines 8807-8865). *)
Definition vec_xscvqpudz (f128 : Z) : Z :=
  let q_zero := CONST_VINT64_DW 0 0 in
  let q_ones := CONST_VINT64_DW (-1) (-1) in
  let exp_low := CONST_VINT64_DW 0x3fff 0x3fff in
  let exp_high := CONST_VINT64_DW (0x3fff + 64) (0x3fff + 64) in
  let exp_63 := CONST_VINT64_DW (0x3fff + 63) (0x3fff + 63) in
  let q_naninf := CONST_VINT64_DW 0x7fff 0x7fff in
  let q_exp := vec_xsxexpqp f128 in
  let q_sig := vec_xsxsigqp f128 in
  let x_exp := vec_splatd q_exp VEC_DW_H in
  let b_sign := vec_setb_qp f128 in
  let result :=
    if negb (vec_cmpud_all_eq x_exp q_naninf) then
      if vec_cmpud_all_ge x_exp exp_low && vec_cmpud_all_eq b_sign q_zero then
        if vec_cmpud_all_lt x_exp exp_high then
          let q_sig := vec_slqi q_sig 15 in
          let q_delta := vec_subudm exp_63 x_exp in
          vec_vsrd q_sig q_delta
        else q_ones
      else q_zero
    else
      let is_inf := vec_cmpequq q_sig q_zero in
      vec_andc is_inf b_sign in
  vec_mrgahd result q_zero.

(** Quad to unsigned quadword, round toward zero (lines 8891-8948). *)
Definition vec_xscvqpuqz (f128 : Z) : Z :=
  let q_zero := 0 in
  let q_ones := vec_splat_s32 (-1) in
  let exp_low := CONST_VINT64_DW 0x3fff 0x3fff in
  let exp_high := CONST_VINT64_DW (0x3fff + 128) (0x3fff + 128) in
  let exp_127 := CONST_VINT64_DW (0x3fff + 127) (0x3fff + 127) in
  let q_naninf := CONST_VINT64_DW 0x7fff 0x7fff in
  let q_exp := vec_xsxexpqp f128 in
  let q_sig := vec_xsxsigqp f128 in
  let x_exp := vec_splatd q_exp VEC_DW_H in
  let b_sign := vec_setb_qp f128 in
  if negb (vec_cmpud_all_eq x_exp q_naninf) then
    if vec_cmpud_all_ge x_exp exp_low && vec_cmpud_all_eq b_sign q_zero then
      if vec_cmpud_all_lt x_exp exp_high then
        let q_sig := vec_slqi q_sig 15 in
        let q_delta := vec_subudm exp_127 x_exp in
        vec_srq q_sig q_delta
      else q_ones
    else q_zero
  else
    let is_inf := vec_cmpequq q_sig q_zero in
    vec_andc is_inf b_sign.

(** Unsigned quadword to quad, round to nearest even (lines 9271-9352). *)
Definition vec_xscvuqqp (int128 : Z) : Z :=
  let q_zero := 0 in
  let lowmask := CONST_VINT128_W 0 0 0 1 in
  let q_sig := int128 in
  if vec_cmpuq_all_eq q_sig q_zero then
    vec_xfer_vui128t_2_bin128 q_zero
  else
    let q_expm := CONST_VINT64_DW 0 (0x3fff + 127) in
    let i64_clz := vec_clzq q_sig in
    let q_sig := vec_slq q_sig i64_clz in
    let q_exp := vec_subudm q_expm i64_clz in
    let RXmask := CONST_VINT128_W 0 0 0 0x3fff in
    let q_odd := vec_srhi q_sig 15 in
    let q_odd := vec_and q_odd lowmask in
    let q_sig := vec_or q_sig q_odd in
    let q_carry := vec_addcuq q_sig RXmask in
    let q_sig := vec_adduqm q_sig RXmask in
    let qcmask := vec_setb_cyq q_carry in
    let q_sigc := vec_sldqi q_carry q_sig 112 in
    let q_sig := vec_srqi q_sig 15 in
    let q_sig := vec_sel q_sig q_sigc qcmask in
    let q_exp := vec_addudm q_exp q_carry in
    let q_exp := vec_swapd q_exp in
    vec_xsiexpqp q_sig q_exp.

(** ** The binary128 format

    Bit 127 is the sign, bits 126-112 the biased exponent (bias 16383),
    bits 111-0 the fraction; bit 111 marks a quiet NaN. *)

Definition qp_sign (v : Z) : bool := Z.testbit v 127.
Definition qp_exp (v : Z) : Z := (v / 2 ^ 112) mod 2 ^ 15.
Definition qp_frac (v : Z) : Z := v mod 2 ^ 112.

Definition sign_bit (s : bool) : Z := if s then 2 ^ 127 else 0.
Definition qp_pack (s : bool) (e f : Z) : Z := sign_bit s + e * 2 ^ 112 + f.

Definition qp_is_nan (v : Z) : bool := (qp_exp v =? 0x7fff) && negb (qp_frac v =? 0).
Definition qp_is_inf (v : Z) : bool := (qp_exp v =? 0x7fff) && (qp_frac v =? 0).
Definition qp_is_finite (v : Z) : bool := qp_exp v <? 0x7fff.
Definition qp_is_zero (v : Z) : bool := (qp_exp v =? 0) && (qp_frac v =? 0).
Definition qp_is_quiet (v : Z) : bool := Z.testbit v 111.

(** The quiet bit, the default quiet NaN and the largest finite magnitude. *)
Definition qp_qbit : Z := 2 ^ 111.
Definition qp_default_nan : Z := qp_pack false 0x7fff (2 ^ 111).
Definition qp_max_finite : Z := qp_pack false 0x7ffe (2 ^ 112 - 1).

(** The significand of a finite value, with the implicit bit of a normal
    one, and its exponent, E_min for zero and subnormal values. *)
Definition qp_sig (v : Z) : Z := qp_frac v + (if 0 <? qp_exp v then 2 ^ 112 else 0).
Definition qp_e (v : Z) : Z := Z.max (qp_exp v) 1.

(** The value of a finite [v], scaled to an integer: [v] is worth
    [qp_scaled v * 2^(-16494)], as the least subnormal is [2^(-16494)]. *)
Definition qp_scaled (v : Z) : Z :=
  (if qp_sign v then -1 else 1) * (qp_sig v * 2 ^ (qp_e v - 1)).

(** The value 1 on the scale of [qp_scaled]. *)
Definition qp_one : Z := 2 ^ 16494.

(** The first magnitude too large for binary128, [2^16384], on the scale of
    [qp_scaled]. *)
Definition qp_overflow_bound : Z := 2 ^ 16384 * qp_one.

(** A doubleword pair. *)
Definition mk_dw (h l : Z) : Z := h * 2 ^ 64 + l.

(** ** The binary64 format (bit 63 sign, bits 62-52 exponent, bits 51-0
       fraction; bit 51 marks a quiet NaN) *)

Definition dp_pack (s : bool) (e f : Z) : Z := (if s then 2 ^ 63 else 0) + e * 2 ^ 52 + f.
Definition dp_sign (d : Z) : bool := Z.testbit d 63.
Definition dp_exp (d : Z) : Z := (d / 2 ^ 52) mod 2 ^ 11.
Definition dp_frac (d : Z) : Z := d mod 2 ^ 52.
Definition dp_is_nan (d : Z) : bool := (dp_exp d =? 0x7ff) && negb (dp_frac d =? 0).
Definition dp_is_inf (d : Z) : bool := (dp_exp d =? 0x7ff) && (dp_frac d =? 0).
Definition dp_is_quiet (d : Z) : bool := Z.testbit d 51.

(** ** Further built-ins and helpers used by the compares, the
       classification and the integer conversions *)

(** [CONST_VINT128_DW (dh, dl)] of [vec_common_ppc.h]: two doublewords,
    [dh] the high one. *)
Definition CONST_VINT128_DW (dh dl : Z) : Z :=
  (dh mod 2 ^ 64) * 2 ^ 64 + (dl mod 2 ^ 64).

Definition VEC_W_H : Z := 0.

(** [vec_all_eq] on doublewords, [vec_all_ne] and [vec_any_gt] on
    (unsigned) words. *)
Definition vec_all_eq_d (a b : Z) : bool := all2_lanes 64 2 Z.eqb a b.
Definition vec_all_ne_w (a b : Z) : bool :=
  all2_lanes 32 4 (fun x y => negb (x =? y)) a b.
Definition vec_any_gt_w (a b : Z) : bool := any2_lanes 32 4 (fun x y => y <? x) a b.

(** Modelled from the spec: the remaining quadword compares of
    [vec_int128_ppc.h] (not under src): unsigned greater/less or equal and
    not equal, the signed compares on the two's complement reading, and
    their all-true predicates. *)
Definition vec_cmpgeuq (a b : Z) : Z := bmask 128 (b <=? a).
Definition vec_cmpleuq (a b : Z) : Z := bmask 128 (a <=? b).
Definition vec_cmpneuq (a b : Z) : Z := bmask 128 (negb (a =? b)).
Definition vec_cmpgesq (a b : Z) : Z := bmask 128 (signed 128 b <=? signed 128 a).
Definition vec_cmpgtsq (a b : Z) : Z := bmask 128 (signed 128 b <? signed 128 a).
Definition vec_cmplesq (a b : Z) : Z := bmask 128 (signed 128 a <=? signed 128 b).
Definition vec_cmpltsq (a b : Z) : Z := bmask 128 (signed 128 a <? signed 128 b).
Definition vec_cmpuq_all_ne (a b : Z) : bool := negb (a =? b).
Definition vec_cmpuq_all_ge (a b : Z) : bool := b <=? a.
Definition vec_cmpuq_all_le (a b : Z) : bool := a <=? b.
Definition vec_cmpuq_all_lt (a b : Z) : bool := a <? b.

(** Modelled from the spec: quadword two's complement negate ([vec_negsq]
    of [vec_int128_ppc.h], not under src) and doubleword shift left
    ([vec_vsld] of [vec_int64_ppc.h], not under src): each doubleword
    shifted left by the low 6 bits of the corresponding doubleword of [b]. *)
Definition vec_negsq (a : Z) : Z := (0 - a) mod 2 ^ 128.
Definition vec_vsld (a b : Z) : Z := map2_lanes 64 2 (fun x y => x * 2 ^ (y mod 64)) a b.

(** The remaining transfers: the same bits. *)
Definition vec_xfer_bin128_2_vui32t (f128 : Z) : Z := f128.
Definition vec_xfer_bin128_2_vui128t (f128 : Z) : Z := f128.
Definition vec_xfer_vui64t_2_bin128 (f128 : Z) : Z := f128.

(** Lines 3991-4021. *)
Definition vec_sel_bin128_2_bin128 (vfa vfb mask : Z) : Z :=
  let result := vec_sel vfa vfb mask in
  vec_xfer_vui32t_2_bin128 result.

(** ** Absolute value, copy sign, select, sign bit (lines 4649-4667,
       4949-4968, 7853-7871, 7925-7929, 7995-8008) *)

Definition vec_absf128 (f128 : Z) : Z :=
  let signmask := CONST_VINT128_W 0x80000000 0 0 0 in
  let tmp := vec_andc_bin128_2_vui32t f128 signmask in
  vec_xfer_vui32t_2_bin128 tmp.

Definition vec_nabsf128 (f128 : Z) : Z :=
  let signmask := CONST_VINT128_W 0x80000000 0 0 0 in
  let tmp := vec_andc_bin128_2_vui32t f128 signmask in
  vec_xfer_vui32t_2_bin128 tmp.

Definition vec_copysignf128 (f128x f128y : Z) : Z :=
  let signmask := CONST_VINT128_W 0x80000000 0 0 0 in
  let tmpx := vec_xfer_bin128_2_vui32t f128x in
  let tmpy := vec_xfer_bin128_2_vui32t f128y in
  let tmp := vec_sel tmpy tmpx signmask in
  vec_xfer_vui32t_2_bin128 tmp.

Definition vec_self128 (vfa vfb mask : Z) : Z := vec_sel_bin128_2_bin128 vfa vfb mask.

Definition vec_signbitf128 (f128 : Z) : bool :=
  let signmask := CONST_VINT128_W 0x80000000 0 0 0 in
  let tmp := vec_and_bin128_2_vui32t f128 signmask in
  vec_all_eq_w tmp signmask.

(** ** Constants (lines 4975-5018) *)

Definition vec_const_huge_valf128 : Z :=
  let posinf := CONST_VINT128_W 0x7fff0000 0 0 0 in
  vec_xfer_vui32t_2_bin128 posinf.

Definition vec_const_inff128 : Z :=
  let posinf := CONST_VINT128_W 0x7fff0000 0 0 0 in
  vec_xfer_vui32t_2_bin128 posinf.

Definition vec_const_nansf128 : Z :=
  let signan := CONST_VINT128_W 0x7fff4000 0 0 0 in
  vec_xfer_vui32t_2_bin128 signan.

(** ** Data class predicates returning [int] (lines 4690-4927) *)

Definition vec_all_isfinitef128 (f128 : Z) : bool :=
  let expmask := CONST_VINT128_W 0x7fff0000 0 0 0 in
  let tmp := vec_and_bin128_2_vui32t f128 expmask in
  negb (vec_all_eq_w tmp expmask).

Definition vec_all_isinff128 (f128 : Z) : bool :=
  let magmask := vec_mask128_f128mag in
  let expmask := vec_mask128_f128exp in
  let tmp := vec_and_bin128_2_vui32t f128 magmask in
  vec_all_eq_w tmp expmask.

Definition vec_all_isnormalf128 (f128 : Z) : bool :=
  let expmask := CONST_VINT128_W 0x7fff0000 0 0 0 in
  let vec_zero := CONST_VINT128_W 0 0 0 0 in
  let tmp := vec_and_bin128_2_vui32t f128 expmask in
  negb (vec_all_eq_w tmp expmask || vec_all_eq_w tmp vec_zero).

Definition vec_all_issubnormalf128 (f128 : Z) : bool :=
  let minnorm := CONST_VINT128_DW 0x0001000000000000 0 in
  let vec_zero := CONST_VINT128_DW 0 0 in
  let signmask := CONST_VINT128_W 0x80000000 0 0 0 in
  let tmp1 := vec_andc_bin128_2_vui32t f128 signmask in
  vec_cmpuq_all_gt minnorm tmp1 && negb (vec_cmpuq_all_eq tmp1 vec_zero).

Definition vec_all_isunorderedf128 (vfa vfb : Z) : bool :=
  vec_all_isnanf128 vfa || vec_all_isnanf128 vfb.

Definition vec_all_iszerof128 (f128 : Z) : bool :=
  let vec_zero := CONST_VINT128_DW 0 0 in
  let signmask := CONST_VINT128_W 0x80000000 0 0 0 in
  let tmp2 := vec_andc_bin128_2_vui32t f128 signmask in
  vec_all_eq_d tmp2 vec_zero.

(** ** Data class predicates returning a vector bool (lines 7530-7841) *)

Definition vec_isfinitef128 (f128 : Z) : Z :=
  let expmask := CONST_VINT128_W 0x7fff0000 0 0 0 in
  let tmp := vec_and_bin128_2_vui32t f128 expmask in
  let tmp2 := vec_cmpeq_w tmp expmask in
  let tmp3 := vec_splat_w tmp2 VEC_W_H in
  vec_nor tmp3 tmp3.

(** The [int] result is 1, -1 or 0. *)
Definition vec_isinf_signf128 (f128 : Z) : Z :=
  let signmask := CONST_VINT128_W 0x80000000 0 0 0 in
  let expmask := CONST_VINT128_W 0x7fff0000 0 0 0 in
  let t128 := vec_xfer_bin128_2_vui32t f128 in
  let tmp := vec_andc_bin128_2_vui32t f128 signmask in
  if vec_all_eq_w tmp expmask then
    if vec_any_gt_w t128 expmask then -1 else 1
  else 0.

Definition vec_isinff128 (f128 : Z) : Z :=
  let signmask := CONST_VINT128_W 0x80000000 0 0 0 in
  let expmask := CONST_VINT128_W 0x7fff0000 0 0 0 in
  let tmp := vec_andc_bin128_2_vui32t f128 signmask in
  vec_cmpequq tmp expmask.

Definition vec_isnormalf128 (f128 : Z) : Z :=
  let expmask := CONST_VINT128_W 0x7fff0000 0 0 0 in
  let vec_zero := CONST_VINT128_W 0 0 0 0 in
  let tmp := vec_and_bin128_2_vui32t f128 expmask in
  let result := vec_nor (vec_cmpeq_w tmp expmask) (vec_cmpeq_w tmp vec_zero) in
  vec_splat_w result VEC_W_H.

Definition vec_issubnormalf128 (f128 : Z) : Z :=
  let signmask := CONST_VINT128_W 0x80000000 0 0 0 in
  let vec_zero := CONST_VINT128_W 0 0 0 0 in
  let minnorm := CONST_VINT128_W 0x00010000 0 0 0 in
  let tmp := vec_andc_bin128_2_vui32t f128 signmask in
  let tmp2 := vec_cmpltuq tmp minnorm in
  let tmpz := vec_cmpequq tmp vec_zero in
  vec_andc tmp2 tmpz.

Definition vec_iszerof128 (f128 : Z) : Z :=
  let vec_zero := CONST_VINT128_DW 0 0 in
  let signmask := CONST_VINT128_W 0x80000000 0 0 0 in
  let t128 := vec_andc_bin128_2_vui32t f128 signmask in
  vec_cmpequq t128 vec_zero.

(** ** Compares returning a vector bool (lines 5050-6259)

    Three families: total order ([to]), zeros unordered ([uz]: +0 and -0
    compare equal, NaNs are not tested) and IEEE unordered ([u]: as [uz],
    and false, for not-equal true, when an operand is a NaN). *)

Definition vec_cmpeqtoqp (vfa vfb : Z) : Z :=
  let vra := vec_xfer_bin128_2_vui128t vfa in
  let vrb := vec_xfer_bin128_2_vui128t vfb in
  vec_cmpequq vra vrb.

Definition vec_cmpequzqp (vfa vfb : Z) : Z :=
  let signmask := CONST_VINT128_W 0x80000000 0 0 0 in
  let vra := vec_xfer_bin128_2_vui64t vfa in
  let vrb := vec_xfer_bin128_2_vui64t vfb in
  let or_ab := vec_or vra vrb in
  let eq_s := vec_cmpequq or_ab signmask in
  let cmps := vec_cmpequq vra vrb in
  vec_or cmps eq_s.

(** Lines 5254-5268, 5474-5488, 5694-5708, 5914-5928: the total-order
    compares select the unsigned compare when [vfa] is negative and the
    signed compare otherwise. *)
Definition vec_cmpgetoqp (vfa vfb : Z) : Z :=
  let shift := vec_splat_u8 7 in
  let vfa128 := vec_xfer_bin128_2_vui128t vfa in
  let vfb128 := vec_xfer_bin128_2_vui128t vfb in
  let splatvfa := vec_splat_b vfa128 VEC_BYTE_H in
  let signbool := vec_sra_b splatvfa shift in
  let agtb := vec_cmpgesq vfa128 vfb128 in
  let altb := vec_cmpleuq vfa128 vfb128 in
  vec_sel agtb altb signbool.

Definition vec_cmpgttoqp (vfa vfb : Z) : Z :=
  let shift := vec_splat_u8 7 in
  let vfa128 := vec_xfer_bin128_2_vui128t vfa in
  let vfb128 := vec_xfer_bin128_2_vui128t vfb in
  let splatvfa := vec_splat_b vfa128 VEC_BYTE_H in
  let signbool := vec_sra_b splatvfa shift in
  let agtb := vec_cmpgtsq vfa128 vfb128 in
  let altb := vec_cmpltuq vfa128 vfb128 in
  vec_sel agtb altb signbool.

Definition vec_cmpletoqp (vfa vfb : Z) : Z :=
  let shift := vec_splat_u8 7 in
  let vfa128 := vec_xfer_bin128_2_vui128t vfa in
  let vfb128 := vec_xfer_bin128_2_vui128t vfb in
  let splatvfa := vec_splat_b vfa128 VEC_BYTE_H in
  let signbool := vec_sra_b splatvfa shift in
  let altb := vec_cmplesq vfa128 vfb128 in
  let agtb := vec_cmpgeuq vfa128 vfb128 in
  vec_sel altb agtb signbool.

Definition vec_cmplttoqp (vfa vfb : Z) : Z :=
  let shift := vec_splat_u8 7 in
  let vfa128 := vec_xfer_bin128_2_vui128t vfa in
  let vfb128 := vec_xfer_bin128_2_vui128t vfb in
  let splatvfa := vec_splat_b vfa128 VEC_BYTE_H in
  let signbool := vec_sra_b splatvfa shift in
  let altb := vec_cmpltsq vfa128 vfb128 in
  let agtb := vec_cmpgtuq vfa128 vfb128 in
  vec_sel altb agtb signbool.

Definition vec_cmpnetoqp (vfa vfb : Z) : Z :=
  let vra := vec_xfer_bin128_2_vui128t vfa in
  let vrb := vec_xfer_bin128_2_vui128t vfb in
  vec_cmpneuq vra vrb.

(** The conversion that each [uz] and [u] ordered compare below applies to
    both operands (for example lines 5325-5338, the same text in each):
    named here once, to state what the compares decide. *)
Definition cmp_operand (vf : Z) : Z :=
  let zero := CONST_VINT128_W 0 0 0 0 in
  let signmask := CONST_VINT128_W 0x80000000 0 0 0 in
  let vr := vec_xfer_bin128_2_vui128t vf in
  let ge0 := vec_setb_qp vf in
  let vrp := vec_xor vr signmask in
  let vrn := vec_subuqm zero vr in
  vec_sel vrp vrn ge0.

Definition vec_cmpgeuzqp (vfa vfb : Z) : Z :=
  let zero := CONST_VINT128_W 0 0 0 0 in
  let signmask := CONST_VINT128_W 0x80000000 0 0 0 in
  let vra := vec_xfer_bin128_2_vui128t vfa in
  let vrb := vec_xfer_bin128_2_vui128t vfb in
  let age0 := vec_setb_qp vfa in
  let vrap := vec_xor vra signmask in
  let vran := vec_subuqm zero vra in
  let vra := vec_sel vrap vran age0 in
  let bge0 := vec_setb_qp vfb in
  let vrbp := vec_xor vrb signmask in
  let vrbn := vec_subuqm zero vrb in
  let vrb := vec_sel vrbp vrbn bge0 in
  vec_cmpgeuq vra vrb.

Definition vec_cmpgtuzqp (vfa vfb : Z) : Z :=
  let zero := CONST_VINT128_W 0 0 0 0 in
  let signmask := CONST_VINT128_W 0x80000000 0 0 0 in
  let vra := vec_xfer_bin128_2_vui128t vfa in
  let vrb := vec_xfer_bin128_2_vui128t vfb in
  let age0 := vec_setb_qp vfa in
  let vrap := vec_xor vra signmask in
  let vran := vec_subuqm zero vra in
  let vra := vec_sel vrap vran age0 in
  let bge0 := vec_setb_qp vfb in
  let vrbp := vec_xor vrb signmask in
  let vrbn := vec_subuqm zero vrb in
  let vrb := vec_sel vrbp vrbn bge0 in
  vec_cmpgtuq vra vrb.

Definition vec_cmpleuzqp (vfa vfb : Z) : Z :=
  let zero := CONST_VINT128_W 0 0 0 0 in
  let signmask := CONST_VINT128_W 0x80000000 0 0 0 in
  let vra := vec_xfer_bin128_2_vui128t vfa in
  let vrb := vec_xfer_bin128_2_vui128t vfb in
  let age0 := vec_setb_qp vfa in
  let vrap := vec_xor vra signmask in
  let vran := vec_subuqm zero vra in
  let vra := vec_sel vrap vran age0 in
  let bge0 := vec_setb_qp vfb in
  let vrbp := vec_xor vrb signmask in
  let vrbn := vec_subuqm zero vrb in
  let vrb := vec_sel vrbp vrbn bge0 in
  vec_cmpleuq vra vrb.

Definition vec_cmpltuzqp (vfa vfb : Z) : Z :=
  let zero := CONST_VINT128_W 0 0 0 0 in
  let signmask := CONST_VINT128_W 0x80000000 0 0 0 in
  let vra := vec_xfer_bin128_2_vui128t vfa in
  let vrb := vec_xfer_bin128_2_vui128t vfb in
  let age0 := vec_setb_qp vfa in
  let vrap := vec_xor vra signmask in
  let vran := vec_subuqm zero vra in
  let vra := vec_sel vrap vran age0 in
  let bge0 := vec_setb_qp vfb in
  let vrbp := vec_xor vrb signmask in
  let vrbn := vec_subuqm zero vrb in
  let vrb := vec_sel vrbp vrbn bge0 in
  vec_cmpltuq vra vrb.

Definition vec_cmpneuzqp (vfa vfb : Z) : Z :=
  let signmask := CONST_VINT128_W 0x80000000 0 0 0 in
  let vra := vec_xfer_bin128_2_vui64t vfa in
  let vrb := vec_xfer_bin128_2_vui64t vfb in
  let or_ab := vec_or vra vrb in
  let eq_s := vec_cmpequq or_ab signmask in
  let cmps := vec_cmpequq vra vrb in
  vec_nor cmps eq_s.

Definition vec_cmpgeuqp (vfa vfb : Z) : Z :=
  let zero := CONST_VINT128_W 0 0 0 0 in
  let signmask := CONST_VINT128_W 0x80000000 0 0 0 in
  let unordered := vec_isunorderedf128 vfa vfb in
  let vra := vec_xfer_bin128_2_vui128t vfa in
  let vrb := vec_xfer_bin128_2_vui128t vfb in
  let age0 := vec_setb_qp vfa in
  let vrap := vec_xor vra signmask in
  let vran := vec_subuqm zero vra in
  let vra := vec_sel vrap vran age0 in
  let bge0 := vec_setb_qp vfb in
  let vrbp := vec_xor vrb signmask in
  let vrbn := vec_subuqm zero vrb in
  let vrb := vec_sel vrbp vrbn bge0 in
  let result := vec_cmpgeuq vra vrb in
  vec_andc result unordered.

Definition vec_cmpgtuqp (vfa vfb : Z) : Z :=
  let zero := CONST_VINT128_W 0 0 0 0 in
  let signmask := CONST_VINT128_W 0x80000000 0 0 0 in
  let unordered := vec_isunorderedf128 vfa vfb in
  let vra := vec_xfer_bin128_2_vui128t vfa in
  let vrb := vec_xfer_bin128_2_vui128t vfb in
  let age0 := vec_setb_qp vfa in
  let vrap := vec_xor vra signmask in
  let vran := vec_subuqm zero vra in
  let vra := vec_sel vrap vran age0 in
  let bge0 := vec_setb_qp vfb in
  let vrbp := vec_xor vrb signmask in
  let vrbn := vec_subuqm zero vrb in
  let vrb := vec_sel vrbp vrbn bge0 in
  let result := vec_cmpgtuq vra vrb in
  vec_andc result unordered.

Definition vec_cmpleuqp (vfa vfb : Z) : Z :=
  let zero := CONST_VINT128_W 0 0 0 0 in
  let signmask := CONST_VINT128_W 0x80000000 0 0 0 in
  let unordered := vec_isunorderedf128 vfa vfb in
  let vra := vec_xfer_bin128_2_vui128t vfa in
  let vrb := vec_xfer_bin128_2_vui128t vfb in
  let age0 := vec_setb_qp vfa in
  let vrap := vec_xor vra signmask in
  let vran := vec_subuqm zero vra in
  let vra := vec_sel vrap vran age0 in
  let bge0 := vec_setb_qp vfb in
  let vrbp := vec_xor vrb signmask in
  let vrbn := vec_subuqm zero vrb in
  let vrb := vec_sel vrbp vrbn bge0 in
  let result := vec_cmpleuq vra vrb in
  vec_andc result unordered.

Definition vec_cmpltuqp (vfa vfb : Z) : Z :=
  let zero := CONST_VINT128_W 0 0 0 0 in
  let signmask := CONST_VINT128_W 0x80000000 0 0 0 in
  let unordered := vec_isunorderedf128 vfa vfb in
  let vra := vec_xfer_bin128_2_vui128t vfa in
  let vrb := vec_xfer_bin128_2_vui128t vfb in
  let age0 := vec_setb_qp vfa in
  let vrap := vec_xor vra signmask in
  let vran := vec_subuqm zero vra in
  let vra := vec_sel vrap vran age0 in
  let bge0 := vec_setb_qp vfb in
  let vrbp := vec_xor vrb signmask in
  let vrbn := vec_subuqm zero vrb in
  let vrb := vec_sel vrbp vrbn bge0 in
  let result := vec_cmpltuq vra vrb in
  vec_andc result unordered.

Definition vec_cmpneuqp (vfa vfb : Z) : Z :=
  let signmask := CONST_VINT128_W 0x80000000 0 0 0 in
  let unordered := vec_isunorderedf128 vfa vfb in
  let vra := vec_xfer_bin128_2_vui64t vfa in
  let vrb := vec_xfer_bin128_2_vui64t vfb in
  let or_ab := vec_or vra vrb in
  let eq_s := vec_cmpequq or_ab signmask in
  let cmps := vec_cmpequq vra vrb in
  let result := vec_nor cmps eq_s in
  vec_or result unordered.

(** ** Compares returning [int] (lines 6296-7319) *)

Definition vec_cmpqp_all_toeq (vfa vfb : Z) : bool :=
  let vra := vec_xfer_bin128_2_vui128t vfa in
  let vrb := vec_xfer_bin128_2_vui128t vfb in
  vec_cmpuq_all_eq vra vrb.

Definition vec_cmpqp_all_uzeq (vfa vfb : Z) : bool :=
  let signmask := CONST_VINT128_W 0x80000000 0 0 0 in
  let vra := vec_xfer_bin128_2_vui64t vfa in
  let vrb := vec_xfer_bin128_2_vui64t vfb in
  let or_ab := vec_or vra vrb in
  vec_cmpuq_all_eq or_ab signmask || vec_cmpuq_all_eq vra vrb.

Definition vec_cmpqp_all_eq (vfa vfb : Z) : bool :=
  let signmask := CONST_VINT128_W 0x80000000 0 0 0 in
  let vra := vec_xfer_bin128_2_vui64t vfa in
  let vrb := vec_xfer_bin128_2_vui64t vfb in
  let or_ab := vec_or vra vrb in
  (vec_cmpuq_all_eq or_ab signmask || vec_cmpuq_all_eq vra vrb)
  && negb (vec_all_isunorderedf128 vfa vfb).

Definition vec_cmpqp_all_toge (vfa vfb : Z) : bool :=
  let shift := vec_splat_u8 7 in
  let zeros := vec_splat_u32 0 in
  let vfa128 := vec_xfer_bin128_2_vui128t vfa in
  let vfb128 := vec_xfer_bin128_2_vui128t vfb in
  let splatvfa := vec_splat_b vfa128 VEC_BYTE_H in
  let signbool := vec_sra_b splatvfa shift in
  let agtb := vec_cmpgesq vfa128 vfb128 in
  let altb := vec_cmpleuq vfa128 vfb128 in
  let togt := vec_sel agtb altb signbool in
  vec_all_ne_w togt zeros.

Definition vec_cmpqp_all_togt (vfa vfb : Z) : bool :=
  let shift := vec_splat_u8 7 in
  let zeros := vec_splat_u32 0 in
  let vfa128 := vec_xfer_bin128_2_vui128t vfa in
  let vfb128 := vec_xfer_bin128_2_vui128t vfb in
  let splatvfa := vec_splat_b vfa128 VEC_BYTE_H in
  let signbool := vec_sra_b splatvfa shift in
  let agtb := vec_cmpgtsq vfa128 vfb128 in
  let altb := vec_cmpltuq vfa128 vfb128 in
  let togt := vec_sel agtb altb signbool in
  vec_all_ne_w togt zeros.

Definition vec_cmpqp_all_tole (vfa vfb : Z) : bool :=
  let shift := vec_splat_u8 7 in
  let zeros := vec_splat_u32 0 in
  let vfa128 := vec_xfer_bin128_2_vui128t vfa in
  let vfb128 := vec_xfer_bin128_2_vui128t vfb in
  let splatvfa := vec_splat_b vfa128 VEC_BYTE_H in
  let signbool := vec_sra_b splatvfa shift in
  let altb := vec_cmplesq vfa128 vfb128 in
  let agtb := vec_cmpgeuq vfa128 vfb128 in
  let tolt := vec_sel altb agtb signbool in
  vec_all_ne_w tolt zeros.

Definition vec_cmpqp_all_tolt (vfa vfb : Z) : bool :=
  let shift := vec_splat_u8 7 in
  let zeros := vec_splat_u32 0 in
  let vfa128 := vec_xfer_bin128_2_vui128t vfa in
  let vfb128 := vec_xfer_bin128_2_vui128t vfb in
  let splatvfa := vec_splat_b vfa128 VEC_BYTE_H in
  let signbool := vec_sra_b splatvfa shift in
  let altb := vec_cmpltsq vfa128 vfb128 in
  let agtb := vec_cmpgtuq vfa128 vfb128 in
  let tolt := vec_sel altb agtb signbool in
  vec_all_ne_w tolt zeros.

Definition vec_cmpqp_all_tone (vfa vfb : Z) : bool :=
  let vra := vec_xfer_bin128_2_vui128t vfa in
  let vrb := vec_xfer_bin128_2_vui128t vfb in
  vec_cmpuq_all_ne vra vrb.

Definition vec_cmpqp_all_uzge (vfa vfb : Z) : bool :=
  let zero := CONST_VINT128_W 0 0 0 0 in
  let signmask := CONST_VINT128_W 0x80000000 0 0 0 in
  let vra := vec_xfer_bin128_2_vui128t vfa in
  let vrb := vec_xfer_bin128_2_vui128t vfb in
  let age0 := vec_setb_qp vfa in
  let vrap := vec_xor vra signmask in
  let vran := vec_subuqm zero vra in
  let vra := vec_sel vrap vran age0 in
  let bge0 := vec_setb_qp vfb in
  let vrbp := vec_xor vrb signmask in
  let vrbn := vec_subuqm zero vrb in
  let vrb := vec_sel vrbp vrbn bge0 in
  vec_cmpuq_all_ge vra vrb.

Definition vec_cmpqp_all_uzgt (vfa vfb : Z) : bool :=
  let zero := CONST_VINT128_W 0 0 0 0 in
  let signmask := CONST_VINT128_W 0x80000000 0 0 0 in
  let vra := vec_xfer_bin128_2_vui128t vfa in
  let vrb := vec_xfer_bin128_2_vui128t vfb in
  let age0 := vec_setb_qp vfa in
  let vrap := vec_xor vra signmask in
  let vran := vec_subuqm zero vra in
  let vra := vec_sel vrap vran age0 in
  let bge0 := vec_setb_qp vfb in
  let vrbp := vec_xor vrb signmask in
  let vrbn := vec_subuqm zero vrb in
  let vrb := vec_sel vrbp vrbn bge0 in
  vec_cmpuq_all_gt vra vrb.

Definition vec_cmpqp_all_uzle (vfa vfb : Z) : bool :=
  let zero := CONST_VINT128_W 0 0 0 0 in
  let signmask := CONST_VINT128_W 0x80000000 0 0 0 in
  let vra := vec_xfer_bin128_2_vui128t vfa in
  let vrb := vec_xfer_bin128_2_vui128t vfb in
  let age0 := vec_setb_qp vfa in
  let vrap := vec_xor vra signmask in
  let vran := vec_subuqm zero vra in
  let vra := vec_sel vrap vran age0 in
  let bge0 := vec_setb_qp vfb in
  let vrbp := vec_xor vrb signmask in
  let vrbn := vec_subuqm zero vrb in
  let vrb := vec_sel vrbp vrbn bge0 in
  vec_cmpuq_all_le vra vrb.

Definition vec_cmpqp_all_uzlt (vfa vfb : Z) : bool :=
  let zero := CONST_VINT128_W 0 0 0 0 in
  let signmask := CONST_VINT128_W 0x80000000 0 0 0 in
  let vra := vec_xfer_bin128_2_vui128t vfa in
  let vrb := vec_xfer_bin128_2_vui128t vfb in
  let age0 := vec_setb_qp vfa in
  let vrap := vec_xor vra signmask in
  let vran := vec_subuqm zero vra in
  let vra := vec_sel vrap vran age0 in
  let bge0 := vec_setb_qp vfb in
  let vrbp := vec_xor vrb signmask in
  let vrbn := vec_subuqm zero vrb in
  let vrb := vec_sel vrbp vrbn bge0 in
  vec_cmpuq_all_lt vra vrb.

Definition vec_cmpqp_all_uzne (vfa vfb : Z) : bool :=
  let signmask := CONST_VINT128_W 0x80000000 0 0 0 in
  let vra := vec_xfer_bin128_2_vui64t vfa in
  let vrb := vec_xfer_bin128_2_vui64t vfb in
  let or_ab := vec_or vra vrb in
  vec_cmpuq_all_ne or_ab signmask && vec_cmpuq_all_ne vra vrb.

Definition vec_cmpqp_all_ge (vfa vfb : Z) : bool :=
  let zero := CONST_VINT128_W 0 0 0 0 in
  let signmask := CONST_VINT128_W 0x80000000 0 0 0 in
  let vra := vec_xfer_bin128_2_vui128t vfa in
  let vrb := vec_xfer_bin128_2_vui128t vfb in
  let age0 := vec_setb_qp vfa in
  let vrap := vec_xor vra signmask in
  let vran := vec_subuqm zero vra in
  let vra := vec_sel vrap vran age0 in
  let bge0 := vec_setb_qp vfb in
  let vrbp := vec_xor vrb signmask in
  let vrbn := vec_subuqm zero vrb in
  let vrb := vec_sel vrbp vrbn bge0 in
  vec_cmpuq_all_ge vra vrb && negb (vec_all_isunorderedf128 vfa vfb).

Definition vec_cmpqp_all_gt (vfa vfb : Z) : bool :=
  let zero := CONST_VINT128_W 0 0 0 0 in
  let signmask := CONST_VINT128_W 0x80000000 0 0 0 in
  let vra := vec_xfer_bin128_2_vui128t vfa in
  let vrb := vec_xfer_bin128_2_vui128t vfb in
  let age0 := vec_setb_qp vfa in
  let vrap := vec_xor vra signmask in
  let vran := vec_subuqm zero vra in
  let vra := vec_sel vrap vran age0 in
  let bge0 := vec_setb_qp vfb in
  let vrbp := vec_xor vrb signmask in
  let vrbn := vec_subuqm zero vrb in
  let vrb := vec_sel vrbp vrbn bge0 in
  vec_cmpuq_all_gt vra vrb && negb (vec_all_isunorderedf128 vfa vfb).

Definition vec_cmpqp_all_le (vfa vfb : Z) : bool :=
  let zero := CONST_VINT128_W 0 0 0 0 in
  let signmask := CONST_VINT128_W 0x80000000 0 0 0 in
  let vra := vec_xfer_bin128_2_vui128t vfa in
  let vrb := vec_xfer_bin128_2_vui128t vfb in
  let age0 := vec_setb_qp vfa in
  let vrap := vec_xor vra signmask in
  let vran := vec_subuqm zero vra in
  let vra := vec_sel vrap vran age0 in
  let bge0 := vec_setb_qp vfb in
  let vrbp := vec_xor vrb signmask in
  let vrbn := vec_subuqm zero vrb in
  let vrb := vec_sel vrbp vrbn bge0 in
  vec_cmpuq_all_le vra vrb && negb (vec_all_isunorderedf128 vfa vfb).

Definition vec_cmpqp_all_lt (vfa vfb : Z) : bool :=
  let zero := CONST_VINT128_W 0 0 0 0 in
  let signmask := CONST_VINT128_W 0x80000000 0 0 0 in
  let vra := vec_xfer_bin128_2_vui128t vfa in
  let vrb := vec_xfer_bin128_2_vui128t vfb in
  let age0 := vec_setb_qp vfa in
  let vrap := vec_xor vra signmask in
  let vran := vec_subuqm zero vra in
  let vra := vec_sel vrap vran age0 in
  let bge0 := vec_setb_qp vfb in
  let vrbp := vec_xor vrb signmask in
  let vrbn := vec_subuqm zero vrb in
  let vrb := vec_sel vrbp vrbn bge0 in
  vec_cmpuq_all_lt vra vrb && negb (vec_all_isunorderedf128 vfa vfb).

Definition vec_cmpqp_all_ne (vfa vfb : Z) : bool :=
  let signmask := CONST_VINT128_W 0x80000000 0 0 0 in
  let vra := vec_xfer_bin128_2_vui64t vfa in
  let vrb := vec_xfer_bin128_2_vui64t vfb in
  let or_ab := vec_or vra vrb in
  (vec_cmpuq_all_ne or_ab signmask && vec_cmpuq_all_ne vra vrb)
  || vec_all_isunorderedf128 vfa vfb.

(** ** Exponent compares (lines 7352-7508) *)

Definition vec_cmpqp_exp_eq (vfa vfb : Z) : bool :=
  let expmask := CONST_VINT128_W 0x7fff0000 0 0 0 in
  let vra := vec_and_bin128_2_vui32t vfa expmask in
  let vrb := vec_and_bin128_2_vui32t vfb expmask in
  vec_cmpuq_all_eq vra vrb.

Definition vec_cmpqp_exp_gt (vfa vfb : Z) : bool :=
  let expmask := CONST_VINT128_W 0x7fff0000 0 0 0 in
  let vra := vec_and_bin128_2_vui32t vfa expmask in
  let vrb := vec_and_bin128_2_vui32t vfb expmask in
  vec_cmpuq_all_gt vra vrb.

Definition vec_cmpqp_exp_lt (vfa vfb : Z) : bool :=
  let expmask := CONST_VINT128_W 0x7fff0000 0 0 0 in
  let vra := vec_and_bin128_2_vui32t vfa expmask in
  let vrb := vec_and_bin128_2_vui32t vfb expmask in
  vec_cmpuq_all_lt vra vrb.

Definition vec_cmpqp_exp_unordered (vfa vfb : Z) : bool :=
  let expmask := CONST_VINT128_W 0x7fff0000 0 0 0 in
  let vra := vec_and_bin128_2_vui32t vfa expmask in
  let vrb := vec_and_bin128_2_vui32t vfb expmask in
  vec_cmpuq_all_lt vra vrb.

(** ** Integer and double to quad conversions (lines 8571-9239) *)

(** Signed doubleword to quad (lines 8974-9030); the low doubleword of the
    operand is cleared first. *)
Definition vec_xscvsdqp (int64 : Z) : Z :=
  let d_zero := CONST_VINT64_DW 0 0 in
  let signmask := CONST_VINT128_W 0x80000000 0 0 0 in
  let int64 := CONST_VINT64_DW (dw_h int64) 0 in
  if vec_cmpud_all_eq int64 d_zero then
    vec_xfer_vui64t_2_bin128 d_zero
  else
    let q_expm := CONST_VINT64_DW (0x3fff + 63) 0 in
    let q_sign := vec_and int64 signmask in
    let d_neg := vec_subudm d_zero int64 in
    let d_sign := vec_cmpequd q_sign signmask in
    let d_sig := vec_sel int64 d_neg d_sign in
    let i64_clz := vec_clzd d_sig in
    let d_sig := vec_vsld d_sig i64_clz in
    let q_exp := vec_subudm q_expm i64_clz in
    let q_sig := vec_srqi d_sig 15 in
    let q_sig := vec_or q_sig q_sign in
    vec_xsiexpqp q_sig q_exp.

(** Unsigned doubleword to quad (lines 9054-9098). *)
Definition vec_xscvudqp (int64 : Z) : Z :=
  let d_zero := CONST_VINT64_DW 0 0 in
  let int64 := CONST_VINT64_DW (dw_h int64) 0 in
  if vec_cmpud_all_eq int64 d_zero then
    vec_xfer_vui64t_2_bin128 d_zero
  else
    let q_expm := CONST_VINT64_DW (0x3fff + 63) 0 in
    let i64_clz := vec_clzd int64 in
    let d_sig := vec_vsld int64 i64_clz in
    let q_exp := vec_subudm q_expm i64_clz in
    let q_sig := vec_srqi d_sig 15 in
    vec_xsiexpqp q_sig q_exp.

(** Signed quadword to quad, round to nearest even (lines 9130-9245). *)
Definition vec_xscvsqqp (int128 : Z) : Z :=
  let q_zero := 0 in
  let lowmask := CONST_VINT128_W 0 0 0 1 in
  let signmask := CONST_VINT128_W 0x80000000 0 0 0 in
  if vec_cmpuq_all_eq int128 q_zero then
    vec_xfer_vui128t_2_bin128 q_zero
  else
    let q_sign := vec_and int128 signmask in
    let q_neg := vec_negsq int128 in
    let b_sign := vec_setb_sq int128 in
    let q_sig := vec_seluq int128 q_neg b_sign in
    let q_expm := CONST_VINT64_DW 0 (0x3fff + 127) in
    let i64_clz := vec_clzq q_sig in
    let q_sig := vec_slq q_sig i64_clz in
    let q_exp := vec_subudm q_expm i64_clz in
    let RXmask := CONST_VINT128_W 0 0 0 0x3fff in
    let q_odd := vec_srhi q_sig 15 in
    let q_odd := vec_and q_odd lowmask in
    let q_sig := vec_or q_sig q_odd in
    let q_carry := vec_addcuq q_sig RXmask in
    let q_sig := vec_adduqm q_sig RXmask in
    let qcmask := vec_setb_cyq q_carry in
    let q_sigc := vec_sldqi q_carry q_sig 112 in
    let q_sig := vec_srqi q_sig 15 in
    let q_sig := vec_sel q_sig q_sigc qcmask in
    let q_exp := vec_addudm q_exp q_carry in
    let q_exp := vec_swapd q_exp in
    let q_sig := vec_or q_sig q_sign in
    vec_xsiexpqp q_sig q_exp.

(** The normalisation and round to nearest even that vec_xscvuqqp (lines
    9304-9345) and vec_xscvsqqp (lines 9187-9230, the same text) apply to
    the nonzero magnitude: named here once, to relate the two.  It gives
    the significand and the exponent that are inserted. *)
Definition cvt_quadword_round (q_sig : Z) : Z * Z :=
  let lowmask := CONST_VINT128_W 0 0 0 1 in
  let q_expm := CONST_VINT64_DW 0 (0x3fff + 127) in
  let i64_clz := vec_clzq q_sig in
  let q_sig := vec_slq q_sig i64_clz in
  let q_exp := vec_subudm q_expm i64_clz in
  let RXmask := CONST_VINT128_W 0 0 0 0x3fff in
  let q_odd := vec_srhi q_sig 15 in
  let q_odd := vec_and q_odd lowmask in
  let q_sig := vec_or q_sig q_odd in
  let q_carry := vec_addcuq q_sig RXmask in
  let q_sig := vec_adduqm q_sig RXmask in
  let qcmask := vec_setb_cyq q_carry in
  let q_sigc := vec_sldqi q_carry q_sig 112 in
  let q_sig := vec_srqi q_sig 15 in
  let q_sig := vec_sel q_sig q_sigc qcmask in
  let q_exp := vec_addudm q_exp q_carry in
  let q_exp := vec_swapd q_exp in
  (q_sig, q_exp).

(** Modelled from the spec: extract exponent and extract significand
    double-precision ([vec_xvxexpdp], [vec_xvxsigdp] of [vec_f64_ppc.h], not
    under src), on each doubleword: the 11 exponent bits, and the 52
    fraction bits with the implicit bit restored for a normal value
    (exponent neither 0 nor 2047). *)
Definition vec_xvxexpdp (f64 : Z) : Z :=
  map2_lanes 64 2 (fun x _ => (x / 2 ^ 52) mod 2 ^ 11) f64 0.
Definition vec_xvxsigdp (f64 : Z) : Z :=
  map2_lanes 64 2
    (fun x _ => x mod 2 ^ 52
                + (if (0 <? (x / 2 ^ 52) mod 2 ^ 11) && ((x / 2 ^ 52) mod 2 ^ 11 <? 0x7ff)
                   then 2 ^ 52 else 0))
    f64 0.

(** Double to quad (lines 8571-8646); the low doubleword of the operand is
    cleared first. *)
Definition vec_xscvdpqp (f64 : Z) : Z :=
  let exp_delta := CONST_VINT64_DW (0x3fff - 0x3ff) 0 in
  let d_naninf := CONST_VINT64_DW 0x7ff 0 in
  let d_denorm := CONST_VINT64_DW 0 0 in
  let signmask := CONST_VINT128_W 0x80000000 0 0 0 in
  let f64 := CONST_VINT64_DW (dw_h f64) 0 in
  let d_exp := vec_xvxexpdp f64 in
  let d_sig := vec_xvxsigdp f64 in
  let q_sign := vec_and f64 signmask in
  let '(q_sig, q_exp) :=
    if negb (vec_cmpud_all_eq d_exp d_naninf) then
      if negb (vec_cmpud_all_eq d_exp d_denorm) then
        let q_sig := vec_srqi d_sig 4 in
        let q_exp := vec_addudm d_exp exp_delta in
        (q_sig, q_exp)
      else
        if vec_cmpud_all_eq d_sig d_denorm then
          let q_sig := d_sig in
          let q_exp := d_exp in
          (q_sig, q_exp)
        else
          let q_denorm := CONST_VINT64_DW (0x3fff - (1023 - 12)) 0 in
          let f64_clz := vec_clzd d_sig in
          let d_sig := vec_vsld d_sig f64_clz in
          let q_exp := vec_subudm q_denorm f64_clz in
          let q_sig := vec_srqi d_sig 15 in
          (q_sig, q_exp)
    else
      let q_sig := vec_srqi d_sig 4 in
      let q_exp := CONST_VINT64_DW 0x7fff 0 in
      (q_sig, q_exp) in
  let q_sig := vec_or q_sig q_sign in
  vec_xsiexpqp q_sig q_exp.

(** ** Orders on bit patterns, to state what the compares decide *)

(** The magnitude field: exponent and fraction. *)
Definition qp_magnitude (v : Z) : Z := v mod 2 ^ 127.

(** Signed magnitude: +0 and -0 coincide. *)
Definition qp_signed_magnitude (v : Z) : Z :=
  if qp_sign v then - qp_magnitude v else qp_magnitude v.

(** The total order: every negative pattern is below every non-negative
    one, -0 is just below +0. *)
Definition qp_total_order (v : Z) : Z :=
  if qp_sign v then - qp_magnitude v - 1 else qp_magnitude v.

Definition qp_is_normal (v : Z) : bool := (0 <? qp_exp v) && (qp_exp v <? 0x7fff).
Definition qp_is_subnormal (v : Z) : bool := (qp_exp v =? 0) && negb (qp_frac v =? 0).

(** The value of a finite double [d], scaled to an integer: [d] is worth
    [dp_scaled d * 2^(-1074)], as the least subnormal double is
    [2^(-1074)]; and the factor between this scale and that of
    [qp_scaled], [2^(16494 - 1074)]. *)
Definition dp_sig (d : Z) : Z := dp_frac d + (if 0 <? dp_exp d then 2 ^ 52 else 0).
Definition dp_e (d : Z) : Z := Z.max (dp_exp d) 1.
Definition dp_scaled (d : Z) : Z :=
  (if dp_sign d then -1 else 1) * (dp_sig d * 2 ^ (dp_e d - 1)).
Definition dp_qp_scale : Z := 2 ^ 15420.

(** ** The intermediate results that the final rounding steps receive *)

(** Lines 8105-8211 of add, and 8377-8483 of subtract (the same text),
    the part of [xsaddqpo_combine] before the rounding step: the sum (or
    difference) [s_sum] of the aligned significands, which is tested for
    zero, then the normalised significand [s_sig] with the Guard, Round
    and Sticky bits in its low three bits, its exponent [q_exp] and the
    sign of the result. *)
Definition xsaddqpo_sum (a_mag b_mag a_sign b_sign a_sig b_sig x_exp : Z) : Z * Z * Z * Z :=
  let q_sign := vec_xor a_sign b_sign in
  let a_sig := vec_slqi a_sig 3 in
  let b_sig := vec_slqi b_sig 3 in
  let diff_sign := vec_setb_sq q_sign in
  let a_lt_b := vec_cmpltuq a_mag b_mag in
  let a_tmp := a_sig in
  let b_tmp := b_sig in
  let x_tmp := vec_swapd x_exp in
  let q_sign := vec_sel a_sign b_sign a_lt_b in
  let x_exp := vec_selud x_exp x_tmp a_lt_b in
  let a_exp := vec_splatd x_exp VEC_DW_H in
  let b_exp := vec_splatd x_exp VEC_DW_L in
  let q_exp := a_exp in
  let a_sig := vec_seluq a_tmp b_tmp a_lt_b in
  let b_sig := vec_seluq b_tmp a_tmp a_lt_b in
  let b_sig := xsaddqpo_align a_exp b_exp b_sig in
  let add_sig := vec_adduqm a_sig b_sig in
  let sub_sig := vec_subuqm a_sig b_sig in
  let s_sum := vec_seluq add_sig sub_sig diff_sign in
  let '(s_sig, q_exp) := xsaddqpo_normalize s_sum q_exp in
  (s_sum, s_sig, q_exp, q_sign).

(** The intermediate result of [vec_xsaddqpo] for finite operands (lines
    8062-8211). *)
Definition xsaddqpo_intermediate (vfa vfb : Z) : Z * Z * Z * Z :=
  let magmask := vec_mask128_f128mag in
  let x_exp := vec_xxxexpqpp vfa vfb in
  let a_mag := vec_and_bin128_2_vui32t vfa magmask in
  let b_mag := vec_and_bin128_2_vui32t vfb magmask in
  let a_sign := vec_andc_bin128_2_vui32t vfa magmask in
  let b_sign := vec_andc_bin128_2_vui32t vfb magmask in
  let '(a_sig, b_sig, x_exp) := xsaddqpo_extract a_mag b_mag x_exp in
  xsaddqpo_sum a_mag b_mag a_sign b_sign a_sig b_sig x_exp.

(** The intermediate result of [vec_xssubqpo] for finite operands (lines
    8330-8483): as for add, with the sign of [vfb] inverted. *)
Definition xssubqpo_intermediate (vfa vfb : Z) : Z * Z * Z * Z :=
  let magmask := vec_mask128_f128mag in
  let x_exp := vec_xxxexpqpp vfa vfb in
  let a_mag := vec_and_bin128_2_vui32t vfa magmask in
  let b_mag := vec_and_bin128_2_vui32t vfb magmask in
  let a_sign := vec_andc_bin128_2_vui32t vfa magmask in
  let b_sign := vec_andc_bin128_2_vui32t vfb magmask in
  let signmask := vec_nor magmask magmask in
  let '(a_sig, b_sig, x_exp) := xsaddqpo_extract a_mag b_mag x_exp in
  let b_sign := vec_xor signmask b_sign in
  xsaddqpo_sum a_mag b_mag a_sign b_sign a_sig b_sig x_exp.

(** The intermediate result of [vec_xsmulqpo] for finite nonzero operands
    (lines 9408-9607): the bits of the product below the significand
    [p_sig_l], the truncated significand [q_sig], its exponent [q_exp] and
    the sign of the result. *)
Definition xsmulqpo_intermediate (vfa vfb : Z) : Z * Z * Z * Z :=
  let magmask := vec_mask128_f128mag in
  let x_exp := vec_xxxexpqpp vfa vfb in
  let a_mag := vec_and_bin128_2_vui32t vfa magmask in
  let b_mag := vec_and_bin128_2_vui32t vfb magmask in
  let a_sign := vec_andc_bin128_2_vui32t vfa magmask in
  let b_sign := vec_andc_bin128_2_vui32t vfb magmask in
  let q_sign := vec_xor a_sign b_sign in
  let '(a_sig, b_sig) := xsmulqpo_extract vfa vfb a_mag b_mag in
  let a_sig := vec_slqi a_sig 8 in
  let b_sig := vec_slqi b_sig 8 in
  let '(p_sig_h, p_sig_l) := vec_muludq a_sig b_sig in
  let q_exp := xsmulqpo_exp x_exp in
  let '(p_sig_h, p_sig_l, q_exp) := xsmulqpo_carry p_sig_h p_sig_l q_exp in
  let '(p_sig_h, p_sig_l, q_sig, q_exp) := xsmulqpo_tiny p_sig_h p_sig_l q_exp in
  let '(p_sig_l, q_sig, q_exp) := xsmulqpo_denorm p_sig_h p_sig_l q_sig q_exp in
  (p_sig_l, q_sig, q_exp, q_sign).

(** Lines 9625-9632 of multiply: sign and exponent merged into the
    significand. *)
Definition xsmulqpo_insert (q_sig q_sign q_exp : Z) : Z :=
  let exp_naninf := vec_mask64_f128exp in
  let q_sig := vec_or q_sig q_sign in
  let expmask := vec_sld exp_naninf q_zero 14 in
  let tmp := vec_sld q_exp q_zero 14 in
  let t128 := vec_sel q_sig tmp expmask in
  vec_xfer_vui32t_2_bin128 t128.

(** * Proofs *)

(** ** Arithmetic and bit-level helpers *)

Lemma pow2_pos k : 0 < 2 ^ k \/ k < 0.
Proof. destruct (Z.lt_ge_cases k 0); [right|left]; [|apply Z.pow_pos_nonneg]; lia. Qed.

Lemma testbit_high n k i : 0 <= n < 2 ^ k -> k <= i -> Z.testbit n i = false.
Proof.
  intros Hn Hi. destruct (Z.eq_dec n 0) as [->|Hne]; [apply Z.testbit_0_l|].
  apply Z.bits_above_log2; [lia|].
  assert (Z.log2 n < k); [|lia].
  apply Z.log2_lt_pow2; lia.
Qed.

(** Bits known to be clear from a range hypothesis or a negative index. *)
Ltac testbit_bounds :=
  repeat match goal with
  | H : 0 <= ?n < 2 ^ ?k |- context [Z.testbit ?n ?j] =>
      rewrite (testbit_high n k j H) by lia
  | |- context [Z.testbit ?n ?j] => rewrite (Z.testbit_neg_r n j) by lia
  end.

Lemma add_lor_disj a b k : 0 <= k -> 0 <= b < 2 ^ k -> a * 2 ^ k + b = Z.lor (Z.shiftl a k) b.
Proof.
  intros Hk Hb. rewrite <- Z.shiftl_mul_pow2 by lia.
  symmetry. apply Z.or_to_plus.
  apply Z.bits_inj'; intros i Hi. rewrite Z.land_spec, Z.bits_0.
  destruct (Z.lt_ge_cases i k).
  - rewrite Z.shiftl_spec_low by lia. reflexivity.
  - rewrite (testbit_high b k) by lia. apply andb_false_r.
Qed.

Lemma lor_range a b k : 0 <= k -> 0 <= a < 2 ^ k -> 0 <= b < 2 ^ k -> 0 <= Z.lor a b < 2 ^ k.
Proof.
  intros Hk Ha Hb.
  assert (E : Z.lor a b = Z.lor a b mod 2 ^ k).
  { apply Z.bits_inj'; intros i Hi. rewrite Z.testbit_mod_pow2 by lia.
    destruct (Z.ltb_spec i k); [reflexivity|].
    rewrite Z.lor_spec. testbit_bounds. reflexivity. }
  rewrite E. apply Z.mod_pos_bound. apply Z.pow_pos_nonneg; lia.
Qed.

Lemma is_vec_mod v : is_vec (v mod 2 ^ 128).
Proof. unfold is_vec. apply Z.mod_pos_bound. lia. Qed.

(** ** Doubleword lanes *)

Lemma mk_dw_mod h l : 0 <= l < 2 ^ 64 -> mk_dw h l mod 2 ^ 64 = l.
Proof. intros. unfold mk_dw. rewrite Z.add_comm, Z.mod_add by lia. apply Z.mod_small; lia. Qed.

Lemma mk_dw_div h l : 0 <= l < 2 ^ 64 -> mk_dw h l / 2 ^ 64 = h.
Proof. intros. unfold mk_dw. rewrite Z.add_comm, Z.div_add by lia. rewrite Z.div_small; lia. Qed.

Lemma mk_dw_range h l : 0 <= h < 2 ^ 64 -> 0 <= l < 2 ^ 64 -> is_vec (mk_dw h l).
Proof. unfold is_vec, mk_dw. lia. Qed.

Lemma dw_h_mk h l : 0 <= h < 2 ^ 64 -> 0 <= l < 2 ^ 64 -> dw_h (mk_dw h l) = h.
Proof. intros. unfold dw_h. rewrite mk_dw_div by lia. apply Z.mod_small; lia. Qed.

Lemma dw_l_mk h l : 0 <= l < 2 ^ 64 -> dw_l (mk_dw h l) = l.
Proof. apply mk_dw_mod. Qed.

Lemma mk_dw_inj h l h' l' :
  0 <= l < 2 ^ 64 -> 0 <= l' < 2 ^ 64 -> mk_dw h l = mk_dw h' l' -> h = h' /\ l = l'.
Proof. unfold mk_dw. lia. Qed.

Section DW.
Variables ah al bh bl : Z.
Hypothesis Hah : 0 <= ah < 2 ^ 64.
Hypothesis Hal : 0 <= al < 2 ^ 64.
Hypothesis Hbh : 0 <= bh < 2 ^ 64.
Hypothesis Hbl : 0 <= bl < 2 ^ 64.

Lemma map2_dw f :
  map2_lanes 64 2 f (mk_dw ah al) (mk_dw bh bl)
  = mk_dw (f ah bh mod 2 ^ 64) (f al bl mod 2 ^ 64).
Proof.
  cbn [map2_lanes]. rewrite !mk_dw_mod, !mk_dw_div by lia.
  rewrite (Z.mod_small ah), (Z.mod_small bh) by lia. unfold mk_dw. lia.
Qed.

Lemma all2_dw p :
  all2_lanes 64 2 p (mk_dw ah al) (mk_dw bh bl) = p al bl && p ah bh.
Proof.
  cbn [all2_lanes]. rewrite !mk_dw_mod, !mk_dw_div by lia.
  rewrite (Z.mod_small ah), (Z.mod_small bh) by lia. now rewrite andb_true_r.
Qed.

Lemma any2_dw p :
  any2_lanes 64 2 p (mk_dw ah al) (mk_dw bh bl) = p al bl || p ah bh.
Proof.
  cbn [any2_lanes]. rewrite !mk_dw_mod, !mk_dw_div by lia.
  rewrite (Z.mod_small ah), (Z.mod_small bh) by lia. now rewrite orb_false_r.
Qed.

Lemma elem_dw_h : elem 64 2 VEC_DW_H (mk_dw ah al) = ah.
Proof.
  unfold elem, VEC_DW_H. change (64 * (Z.of_nat 2 - 1 - 0)) with 64.
  rewrite mk_dw_div by lia. apply Z.mod_small; lia.
Qed.

Lemma elem_dw_l : elem 64 2 VEC_DW_L (mk_dw ah al) = al.
Proof.
  unfold elem, VEC_DW_L. change (64 * (Z.of_nat 2 - 1 - 1)) with 0.
  rewrite Z.pow_0_r, Z.div_1_r. apply mk_dw_mod; lia.
Qed.

Lemma swapd_mk : vec_swapd (mk_dw ah al) = mk_dw al ah.
Proof. unfold vec_swapd. now rewrite dw_h_mk, dw_l_mk by lia. Qed.
End DW.

Lemma splat_dw x : 0 <= x < 2 ^ 64 -> splat 64 2 x = mk_dw x x.
Proof. intros. cbn [splat]. rewrite Z.mod_small by lia. unfold mk_dw. lia. Qed.

Lemma const_dw h l : 0 <= h < 2 ^ 64 -> 0 <= l < 2 ^ 64 -> CONST_VINT64_DW h l = mk_dw h l.
Proof. intros. unfold CONST_VINT64_DW, mk_dw. now rewrite !Z.mod_small by lia. Qed.

(** ** The masks are the constants their source comments give *)

Lemma q_zero_eq : q_zero = 0.
Proof. reflexivity. Qed.

Lemma q_ones_eq : q_ones = Z.ones 128.
Proof. reflexivity. Qed.

Lemma mask64_exp_eq : vec_mask64_f128exp = mk_dw 0x7fff 0x7fff.
Proof. vm_compute. reflexivity. Qed.

Lemma mask128_exp_eq : vec_mask128_f128exp = Z.shiftl (Z.ones 15) 112.
Proof. vm_compute. reflexivity. Qed.

Lemma mask128_mag_eq : vec_mask128_f128mag = Z.ones 127.
Proof. vm_compute. reflexivity. Qed.

Lemma mask128_sig_eq : vec_mask128_f128sig = Z.ones 112.
Proof. vm_compute. reflexivity. Qed.

Lemma mask128_Lbit_eq : vec_mask128_f128Lbit = 2 ^ 112.
Proof. vm_compute. reflexivity. Qed.

Lemma mask128_Qbit_eq : vec_mask128_f128Qbit = 2 ^ 111.
Proof. vm_compute. reflexivity. Qed.

Lemma const64_128_eq : vec_const64_f128_128 = mk_dw 128 128.
Proof. vm_compute. reflexivity. Qed.

Lemma signmask_eq : CONST_VINT128_W 0x80000000 0 0 0 = 2 ^ 127.
Proof. reflexivity. Qed.

(** ** Fields of a binary128 value *)

Lemma qp_exp_range v : 0 <= qp_exp v < 2 ^ 15.
Proof. unfold qp_exp. apply Z.mod_pos_bound. lia. Qed.

Lemma qp_frac_range v : 0 <= qp_frac v < 2 ^ 112.
Proof. unfold qp_frac. apply Z.mod_pos_bound. lia. Qed.

Lemma qp_sign_div v : is_vec v -> qp_sign v = (v / 2 ^ 127 =? 1).
Proof.
  intros [H0 H1]. unfold qp_sign.
  assert (Hd : 0 <= v / 2 ^ 127 < 2).
  { split; [apply Z.div_pos; lia|apply Z.div_lt_upper_bound; lia]. }
  destruct (Z.testbit v 127) eqn:Hb.
  - rewrite Z.testbit_true in Hb by lia. rewrite Z.mod_small in Hb by lia. now rewrite Hb.
  - rewrite Z.testbit_false in Hb by lia. rewrite Z.mod_small in Hb by lia. now rewrite Hb.
Qed.

(** Every vector is the packing of its three fields. *)
Lemma qp_fields v : is_vec v -> v = qp_pack (qp_sign v) (qp_exp v) (qp_frac v).
Proof.
  intros Hv. rewrite qp_sign_div by assumption.
  destruct Hv as [H0 H1]. unfold qp_pack, sign_bit, qp_exp, qp_frac.
  assert (Hd : 0 <= v / 2 ^ 127 < 2).
  { split; [apply Z.div_pos; lia|apply Z.div_lt_upper_bound; lia]. }
  pose proof (Z.div_mod v (2 ^ 112) ltac:(lia)).
  pose proof (Z.div_mod (v / 2 ^ 112) (2 ^ 15) ltac:(lia)).
  assert (v / 2 ^ 112 / 2 ^ 15 = v / 2 ^ 127).
  { rewrite Z.div_div by lia. reflexivity. }
  destruct (v / 2 ^ 127 =? 1) eqn:E; lia.
Qed.

Section Pack.
Variables (s : bool) (e f : Z).
Hypothesis He : 0 <= e < 2 ^ 15.
Hypothesis Hf : 0 <= f < 2 ^ 112.

Lemma qp_pack_range : is_vec (qp_pack s e f).
Proof. unfold is_vec, qp_pack, sign_bit. destruct s; lia. Qed.

Lemma qp_frac_pack : qp_frac (qp_pack s e f) = f.
Proof.
  unfold qp_frac, qp_pack, sign_bit.
  replace ((if s then 2 ^ 127 else 0) + e * 2 ^ 112 + f)
    with (f + ((if s then 2 ^ 15 else 0) + e) * 2 ^ 112) by (destruct s; lia).
  rewrite Z.mod_add by lia. apply Z.mod_small; lia.
Qed.

Lemma qp_exp_pack : qp_exp (qp_pack s e f) = e.
Proof.
  unfold qp_exp, qp_pack, sign_bit.
  replace ((if s then 2 ^ 127 else 0) + e * 2 ^ 112 + f)
    with (f + ((if s then 2 ^ 15 else 0) + e) * 2 ^ 112) by (destruct s; lia).
  rewrite Z.div_add, Z.div_small by lia.
  replace (0 + ((if s then 2 ^ 15 else 0) + e)) with (e + (if s then 1 else 0) * 2 ^ 15)
    by (destruct s; lia).
  rewrite Z.mod_add by lia. apply Z.mod_small; lia.
Qed.

Lemma qp_sign_pack : qp_sign (qp_pack s e f) = s.
Proof.
  rewrite qp_sign_div by apply qp_pack_range.
  unfold qp_pack, sign_bit.
  replace ((if s then 2 ^ 127 else 0) + e * 2 ^ 112 + f)
    with ((e * 2 ^ 112 + f) + (if s then 1 else 0) * 2 ^ 127) by (destruct s; lia).
  rewrite Z.div_add, Z.div_small by lia. now destruct s.
Qed.
End Pack.

Lemma qp_mag v : is_vec v -> v mod 2 ^ 127 = qp_exp v * 2 ^ 112 + qp_frac v.
Proof.
  intros Hv. pose proof (qp_exp_range v). pose proof (qp_frac_range v).
  rewrite (qp_fields v Hv) at 1. unfold qp_pack, sign_bit.
  replace ((if qp_sign v then 2 ^ 127 else 0) + qp_exp v * 2 ^ 112 + qp_frac v)
    with ((qp_exp v * 2 ^ 112 + qp_frac v) + (if qp_sign v then 1 else 0) * 2 ^ 127)
    by (destruct (qp_sign v); lia).
  rewrite Z.mod_add by lia. apply Z.mod_small; lia.
Qed.

(** ** Sign, magnitude and exponents of the operands *)

Lemma mag_eq v : is_vec v ->
  vec_and_bin128_2_vui32t v vec_mask128_f128mag = qp_exp v * 2 ^ 112 + qp_frac v.
Proof.
  intros Hv. unfold vec_and_bin128_2_vui32t, vec_and.
  rewrite mask128_mag_eq, Z.land_ones by lia. now apply qp_mag.
Qed.

Lemma sign_eq v : is_vec v ->
  vec_andc_bin128_2_vui32t v vec_mask128_f128mag = sign_bit (qp_sign v).
Proof.
  intros Hv. unfold vec_andc_bin128_2_vui32t, vec_andc.
  rewrite mask128_mag_eq, Z.ldiff_ones_r by lia.
  rewrite Z.shiftr_div_pow2, Z.shiftl_mul_pow2 by lia.
  rewrite qp_sign_div by assumption. destruct Hv.
  assert (Hd : 0 <= v / 2 ^ 127 < 2).
  { split; [apply Z.div_pos; lia|apply Z.div_lt_upper_bound; lia]. }
  unfold sign_bit. destruct (v / 2 ^ 127 =? 1) eqn:E; lia.
Qed.

Lemma xxxexpqpp_eq vfa vfb : is_vec vfa -> is_vec vfb ->
  vec_xxxexpqpp vfa vfb = mk_dw (qp_exp vfa) (qp_exp vfb).
Proof.
  intros Ha Hb. unfold vec_xxxexpqpp, vec_mrgh_bin128_2_vui64t, vec_mrgahd, vec_sld, vec_and.
  cbv zeta. rewrite mask64_exp_eq. unfold mk_dw, qp_exp, dw_h.
  pose proof (Z.mod_pos_bound (vfa / 2 ^ 64) (2 ^ 64) ltac:(lia)).
  pose proof (Z.mod_pos_bound (vfb / 2 ^ 64) (2 ^ 64) ltac:(lia)).
  pose proof (Z.mod_pos_bound (vfb / 2 ^ 112) (2 ^ 15) ltac:(lia)).
  rewrite (add_lor_disj _ _ 64) by lia.
  rewrite (add_lor_disj _ (_ mod 2 ^ 15) 64) by lia.
  replace (32767 * 2 ^ 64 + 32767) with (Z.lor (Z.shiftl (Z.ones 15) 64) (Z.ones 15))
    by reflexivity.
  rewrite <- !Z.shiftr_div_pow2, <- !Z.land_ones by lia.
  change (128 - 8 * 10) with 48.
  Z.bitblast.
Qed.

(** ** Finite / NaN / Infinity dispatch *)

Lemma all_finite_eq ea eb : 0 <= ea < 2 ^ 15 -> 0 <= eb < 2 ^ 15 ->
  vec_cmpud_all_lt (mk_dw ea eb) vec_mask64_f128exp = (ea <? 0x7fff) && (eb <? 0x7fff).
Proof.
  intros. unfold vec_cmpud_all_lt. rewrite mask64_exp_eq, all2_dw by lia. apply andb_comm.
Qed.

Lemma all_isnan_eq v : is_vec v -> vec_all_isnanf128 v = qp_is_nan v.
Proof.
  intros Hv. unfold vec_all_isnanf128. cbv zeta. rewrite mag_eq by assumption.
  rewrite mask128_exp_eq. unfold vec_cmpuq_all_gt, qp_is_nan.
  pose proof (qp_exp_range v). pose proof (qp_frac_range v).
  change (Z.shiftl (Z.ones 15) 112) with (32767 * 2 ^ 112).
  destruct (qp_exp v =? 32767) eqn:E1; destruct (qp_frac v =? 0) eqn:E2; cbn [andb negb]; lia.
Qed.

Lemma quiet_or v : vec_or_bin128_2_vui32t v vec_mask128_f128Qbit = Z.lor v qp_qbit.
Proof. unfold vec_or_bin128_2_vui32t, vec_or. now rewrite mask128_Qbit_eq. Qed.

Lemma qp_exp_bits v : qp_exp v = Z.land (Z.shiftr v 112) (Z.ones 15).
Proof. unfold qp_exp. now rewrite Z.land_ones, Z.shiftr_div_pow2 by lia. Qed.

Lemma qp_frac_bits v : qp_frac v = Z.land v (Z.ones 112).
Proof. unfold qp_frac. now rewrite Z.land_ones by lia. Qed.

(** ORing the quiet bit into a NaN leaves a quiet NaN with the same sign,
    exponent and payload. *)
Lemma quieted_nan v : is_vec v -> qp_is_nan v = true ->
  is_vec (Z.lor v qp_qbit)
  /\ qp_is_nan (Z.lor v qp_qbit) = true
  /\ qp_is_quiet (Z.lor v qp_qbit) = true
  /\ qp_sign (Z.lor v qp_qbit) = qp_sign v.
Proof.
  intros Hv Hn. unfold qp_qbit.
  assert (He : qp_exp (Z.lor v (2 ^ 111)) = qp_exp v).
  { rewrite !qp_exp_bits. apply Z.bits_inj'; intros i Hi.
    rewrite !Z.land_spec, !Z.shiftr_spec, Z.lor_spec by lia.
    rewrite (Z.pow2_bits_false 111 (i + 112)) by lia. now rewrite orb_false_r. }
  assert (Hq : Z.testbit (2 ^ 111) 111 = true) by reflexivity.
  assert (Hs : Z.testbit (2 ^ 111) 127 = false) by reflexivity.
  split; [split|split; [|split]].
  - apply Z.lor_nonneg. destruct Hv. lia.
  - destruct Hv as [H0 H1]. destruct (Z.eq_dec (Z.lor v (2 ^ 111)) 0) as [->|Hne]; [lia|].
    apply Z.log2_lt_pow2.
    + pose proof (Z.lor_nonneg v (2 ^ 111)). lia.
    + rewrite Z.log2_lor by lia.
      apply Z.max_lub_lt; [|reflexivity].
      destruct (Z.eq_dec v 0) as [->|Hv0]; [reflexivity|]. apply Z.log2_lt_pow2; lia.
  - unfold qp_is_nan in *. rewrite He.
    apply andb_true_iff in Hn as [Hn1 Hn2]. rewrite Hn1. cbn [andb].
    apply negb_true_iff, Z.eqb_neq. intros Hf.
    assert (Hb : Z.testbit (qp_frac (Z.lor v (2 ^ 111))) 111 = true).
    { rewrite qp_frac_bits, Z.land_spec, Z.lor_spec, Hq, orb_true_r. reflexivity. }
    rewrite Hf in Hb. discriminate.
  - unfold qp_is_quiet. now rewrite Z.lor_spec, Hq, orb_true_r.
  - unfold qp_sign. now rewrite Z.lor_spec, Hs, orb_false_r.
Qed.

Lemma nan_not_finite v : qp_is_nan v = true -> (qp_exp v <? 0x7fff) = false.
Proof. unfold qp_is_nan. intros H. apply andb_true_iff in H as [H _]. lia. Qed.

Lemma xsaddqpo_nan vfa vfb : is_vec vfa -> is_vec vfb ->
  (qp_is_nan vfa || qp_is_nan vfb) = true ->
  vec_xsaddqpo vfa vfb = (if qp_is_nan vfa then Z.lor vfa qp_qbit else Z.lor vfb qp_qbit).
Proof.
  intros Ha Hb Hn. unfold vec_xsaddqpo. cbv zeta.
  rewrite xxxexpqpp_eq, all_finite_eq by auto using qp_exp_range.
  rewrite !all_isnan_eq, !quiet_or by assumption.
  unfold vec_xfer_vui32t_2_bin128.
  destruct (qp_is_nan vfa) eqn:Na.
  - rewrite (nan_not_finite vfa Na). reflexivity.
  - cbn [orb] in Hn. rewrite Hn, (nan_not_finite vfb Hn), andb_false_r. reflexivity.
Qed.

Lemma xsmulqpo_nan vfa vfb : is_vec vfa -> is_vec vfb ->
  (qp_is_nan vfa || qp_is_nan vfb) = true ->
  vec_xsmulqpo vfa vfb = (if qp_is_nan vfa then Z.lor vfa qp_qbit else Z.lor vfb qp_qbit).
Proof.
  intros Ha Hb Hn. unfold vec_xsmulqpo. cbv zeta.
  rewrite xxxexpqpp_eq, all_finite_eq by auto using qp_exp_range.
  rewrite !all_isnan_eq, !quiet_or by assumption.
  unfold vec_xfer_vui32t_2_bin128.
  destruct (qp_is_nan vfa) eqn:Na.
  - rewrite (nan_not_finite vfa Na). reflexivity.
  - cbn [orb] in Hn. rewrite Hn, (nan_not_finite vfb Hn), andb_false_r. reflexivity.
Qed.

(** C3. NaN propagation in vec_xsaddqpo and vec_xsmulqpo: when an operand
    is a NaN, the result is [vfa] with the quiet bit ORed in if [vfa] is a
    NaN, otherwise [vfb] with the quiet bit ORed in; it is a quiet NaN,
    whatever the other operand is. *)
Theorem nan_operand_propagates_quiet (vfa vfb : Z) :
  is_vec vfa -> is_vec vfb -> (qp_is_nan vfa || qp_is_nan vfb) = true ->
  vec_xsaddqpo vfa vfb = (if qp_is_nan vfa then Z.lor vfa qp_qbit else Z.lor vfb qp_qbit)
  /\ vec_xsmulqpo vfa vfb = (if qp_is_nan vfa then Z.lor vfa qp_qbit else Z.lor vfb qp_qbit)
  /\ qp_is_nan (vec_xsaddqpo vfa vfb) = true
  /\ qp_is_quiet (vec_xsaddqpo vfa vfb) = true
  /\ qp_is_nan (vec_xsmulqpo vfa vfb) = true
  /\ qp_is_quiet (vec_xsmulqpo vfa vfb) = true.
Proof.
  intros Ha Hb Hn.
  rewrite (xsaddqpo_nan vfa vfb Ha Hb Hn), (xsmulqpo_nan vfa vfb Ha Hb Hn).
  assert (Hq : qp_is_nan (if qp_is_nan vfa then Z.lor vfa qp_qbit else Z.lor vfb qp_qbit) = true
               /\ qp_is_quiet (if qp_is_nan vfa then Z.lor vfa qp_qbit else Z.lor vfb qp_qbit) = true).
  { destruct (qp_is_nan vfa) eqn:Na.
    - destruct (quieted_nan vfa Ha Na) as (_ & H1 & H2 & _). now split.
    - cbn [orb] in Hn. destruct (quieted_nan vfb Hb Hn) as (_ & H1 & H2 & _). now split. }
  destruct Hq as [H1 H2]. repeat split; assumption.
Qed.

Lemma nan_operand_propagates_quiet_witness :
  vec_xsaddqpo (qp_pack true 0x7fff 5) (qp_pack false 0x3fff 0)
  = Z.lor (qp_pack true 0x7fff 5) qp_qbit.
Proof.
  apply (proj1 (nan_operand_propagates_quiet (qp_pack true 0x7fff 5) (qp_pack false 0x3fff 0)
                  ltac:(vm_compute; split; [discriminate|reflexivity])
                  ltac:(vm_compute; split; [discriminate|reflexivity])
                  ltac:(vm_compute; reflexivity))).
Defined.

(** ** The Infinity rows of the special-case table *)

Lemma sign_bit_dw s : sign_bit s = mk_dw (if s then 2 ^ 63 else 0) 0.
Proof. destruct s; reflexivity. Qed.

Lemma any_ne_sign sa sb :
  vec_cmpud_any_ne (sign_bit sa) (sign_bit sb) = xorb sa sb.
Proof.
  unfold vec_cmpud_any_ne. rewrite !sign_bit_dw, any2_dw by (destruct sa, sb; lia).
  destruct sa, sb; reflexivity.
Qed.

Lemma all_eq_sign sa sb :
  vec_cmpud_all_eq (sign_bit sa) (sign_bit sb) = negb (xorb sa sb).
Proof.
  unfold vec_cmpud_all_eq. rewrite !sign_bit_dw, all2_dw by (destruct sa, sb; lia).
  destruct sa, sb; reflexivity.
Qed.

Lemma all_naninf_eq ea eb : 0 <= ea < 2 ^ 15 -> 0 <= eb < 2 ^ 15 ->
  vec_cmpud_all_eq (mk_dw ea eb) vec_mask64_f128exp = (ea =? 0x7fff) && (eb =? 0x7fff).
Proof.
  intros. unfold vec_cmpud_all_eq. rewrite mask64_exp_eq, all2_dw by lia. apply andb_comm.
Qed.

Lemma any_naninf_h ea eb : 0 <= ea < 2 ^ 15 -> 0 <= eb < 2 ^ 15 ->
  vec_cmpud_any_eq (vec_splatd (mk_dw ea eb) VEC_DW_H) vec_mask64_f128exp = (ea =? 0x7fff).
Proof.
  intros. unfold vec_cmpud_any_eq, vec_splatd.
  rewrite elem_dw_h, splat_dw, mask64_exp_eq, any2_dw by lia. apply orb_diag.
Qed.

Lemma xor_sign sa sb : vec_xor (sign_bit sa) (sign_bit sb) = sign_bit (xorb sa sb).
Proof. destruct sa, sb; reflexivity. Qed.

Lemma inf_or_sign s : vec_or vec_mask128_f128exp (sign_bit s) = qp_pack s 0x7fff 0.
Proof. rewrite mask128_exp_eq. destruct s; reflexivity. Qed.

Lemma const_nan_eq : vec_const_nanf128 = qp_default_nan.
Proof. reflexivity. Qed.

Lemma qp_inf_fields v : qp_is_inf v = true -> qp_exp v = 0x7fff /\ qp_frac v = 0.
Proof. unfold qp_is_inf. intros H. apply andb_true_iff in H. lia. Qed.

Lemma qp_inf_not_nan v : qp_is_inf v = true -> qp_is_nan v = false.
Proof.
  intros H. destruct (qp_inf_fields v H) as [He Hf]. unfold qp_is_nan.
  rewrite He, Hf. reflexivity.
Qed.

Lemma qp_finite_not_nan v : qp_is_finite v = true -> qp_is_nan v = false.
Proof. unfold qp_is_finite, qp_is_nan. intros H. destruct (qp_exp v =? 32767) eqn:E; [lia|reflexivity]. Qed.

Lemma qp_inf_eq v : is_vec v -> qp_is_inf v = true -> v = qp_pack (qp_sign v) 0x7fff 0.
Proof.
  intros Hv H. destruct (qp_inf_fields v H) as [He Hf].
  rewrite (qp_fields v Hv) at 1. now rewrite He, Hf.
Qed.

Lemma xsaddqpo_inf_inf vfa vfb : is_vec vfa -> is_vec vfb ->
  qp_is_inf vfa = true -> qp_is_inf vfb = true ->
  vec_xsaddqpo vfa vfb = if xorb (qp_sign vfa) (qp_sign vfb) then qp_default_nan else vfa.
Proof.
  intros Ha Hb Ia Ib. unfold vec_xsaddqpo. cbv zeta.
  rewrite xxxexpqpp_eq, all_finite_eq by auto using qp_exp_range.
  rewrite !all_isnan_eq, !sign_eq by assumption.
  rewrite (qp_inf_not_nan vfa Ia), (qp_inf_not_nan vfb Ib).
  rewrite all_naninf_eq, any_naninf_h, any_ne_sign by apply qp_exp_range.
  destruct (qp_inf_fields vfa Ia) as [Ea _]. destruct (qp_inf_fields vfb Ib) as [Eb _].
  rewrite Ea, Eb. cbn [Z.ltb Z.eqb Z.compare Pos.compare Pos.compare_cont Pos.eqb andb].
  rewrite const_nan_eq. reflexivity.
Qed.

Lemma xsmulqpo_inf_inf vfa vfb : is_vec vfa -> is_vec vfb ->
  qp_is_inf vfa = true -> qp_is_inf vfb = true ->
  vec_xsmulqpo vfa vfb = qp_pack (xorb (qp_sign vfa) (qp_sign vfb)) 0x7fff 0.
Proof.
  intros Ha Hb Ia Ib. unfold vec_xsmulqpo. cbv zeta.
  rewrite xxxexpqpp_eq, all_finite_eq by auto using qp_exp_range.
  rewrite !all_isnan_eq, !sign_eq by assumption.
  rewrite (qp_inf_not_nan vfa Ia), (qp_inf_not_nan vfb Ib).
  rewrite all_naninf_eq by apply qp_exp_range.
  destruct (qp_inf_fields vfa Ia) as [Ea _]. destruct (qp_inf_fields vfb Ib) as [Eb _].
  rewrite Ea, Eb. cbn [Z.ltb Z.eqb Z.compare Pos.compare Pos.compare_cont Pos.eqb andb].
  unfold vec_xfer_vui128t_2_bin128. now rewrite xor_sign, inf_or_sign.
Qed.

(** Infinity times a finite value, in either operand order: [vi] is the
    Infinity and [vf] the finite operand. *)
Lemma xsmulqpo_inf_finite vfa vfb : is_vec vfa -> is_vec vfb ->
  (qp_is_inf vfa = true /\ qp_is_finite vfb = true)
  \/ (qp_is_finite vfa = true /\ qp_is_inf vfb = true) ->
  vec_xsmulqpo vfa vfb =
    if qp_is_zero vfa || qp_is_zero vfb then qp_default_nan
    else qp_pack (xorb (qp_sign vfa) (qp_sign vfb)) 0x7fff 0.
Proof.
  intros Ha Hb Hc. unfold vec_xsmulqpo. cbv zeta.
  rewrite xxxexpqpp_eq, all_finite_eq by auto using qp_exp_range.
  rewrite !all_isnan_eq, !sign_eq, !mag_eq by assumption.
  rewrite all_naninf_eq by apply qp_exp_range.
  unfold vec_cmpuq_all_eq, vec_xfer_vui128t_2_bin128. rewrite q_zero_eq, const_nan_eq, xor_sign, inf_or_sign.
  pose proof (qp_exp_range vfa). pose proof (qp_exp_range vfb).
  pose proof (qp_frac_range vfa). pose proof (qp_frac_range vfb).
  assert (Za : (qp_exp vfa * 2 ^ 112 + qp_frac vfa =? 0) = qp_is_zero vfa).
  { unfold qp_is_zero. destruct (qp_exp vfa =? 0) eqn:E1; destruct (qp_frac vfa =? 0) eqn:E2; cbn [andb]; lia. }
  assert (Zb : (qp_exp vfb * 2 ^ 112 + qp_frac vfb =? 0) = qp_is_zero vfb).
  { unfold qp_is_zero. destruct (qp_exp vfb =? 0) eqn:E1; destruct (qp_frac vfb =? 0) eqn:E2; cbn [andb]; lia. }
  rewrite Za, Zb.
  destruct Hc as [[Ia Fb]|[Fa Ib]].
  - rewrite (qp_inf_not_nan vfa Ia), (qp_finite_not_nan vfb Fb).
    destruct (qp_inf_fields vfa Ia) as [Ea _]. unfold qp_is_finite in Fb.
    rewrite Ea, Fb. cbn [Z.ltb Z.compare Pos.compare Pos.compare_cont andb].
    replace (qp_exp vfb =? 32767) with false by lia. rewrite andb_false_r.
    reflexivity.
  - rewrite (qp_inf_not_nan vfb Ib), (qp_finite_not_nan vfa Fa).
    destruct (qp_inf_fields vfb Ib) as [Eb _]. unfold qp_is_finite in Fa.
    rewrite Eb, Fa. cbn [Z.ltb Z.compare Pos.compare Pos.compare_cont andb].
    replace (qp_exp vfa =? 32767) with false by lia. cbn [andb].
    reflexivity.
Qed.

Lemma qp_inf_not_zero v : qp_is_inf v = true -> qp_is_zero v = false.
Proof.
  intros H. destruct (qp_inf_fields v H) as [He _]. unfold qp_is_zero. now rewrite He.
Qed.

Lemma qp_zero_finite v : qp_is_zero v = true -> qp_is_finite v = true.
Proof.
  unfold qp_is_zero, qp_is_finite. intros H. apply andb_true_iff in H. lia.
Qed.

(** C4. The Infinity rows of the special-case action table (no NaN
    operand): Infinity + Infinity of equal signs is that Infinity;
    Infinity + Infinity of opposite signs is the default quiet NaN (sign 0,
    exponent 32767, quiet bit 1, rest of the fraction 0); Infinity times
    Infinity, and Infinity times a nonzero finite value (in either order),
    is the Infinity whose sign is the XOR of the operand signs; Infinity
    times a zero of either sign (in either order) is the default quiet NaN. *)
Theorem infinity_action_table (vi v : Z) :
  is_vec vi -> is_vec v -> qp_is_inf vi = true ->
  (qp_is_inf v = true -> qp_sign v = qp_sign vi -> vec_xsaddqpo vi v = vi)
  /\ (qp_is_inf v = true -> qp_sign v <> qp_sign vi ->
      vec_xsaddqpo vi v = qp_pack false 0x7fff (2 ^ 111))
  /\ (qp_is_inf v = true ->
      vec_xsmulqpo vi v = qp_pack (xorb (qp_sign vi) (qp_sign v)) 0x7fff 0)
  /\ (qp_is_finite v = true -> qp_is_zero v = false ->
      vec_xsmulqpo vi v = qp_pack (xorb (qp_sign vi) (qp_sign v)) 0x7fff 0
      /\ vec_xsmulqpo v vi = qp_pack (xorb (qp_sign v) (qp_sign vi)) 0x7fff 0)
  /\ (qp_is_zero v = true ->
      vec_xsmulqpo vi v = qp_pack false 0x7fff (2 ^ 111)
      /\ vec_xsmulqpo v vi = qp_pack false 0x7fff (2 ^ 111)).
Proof.
  intros Hi Hv Ii. repeat apply conj.
  - intros Iv Hs. rewrite xsaddqpo_inf_inf, Hs by assumption.
    now rewrite xorb_nilpotent.
  - intros Iv Hs. rewrite xsaddqpo_inf_inf by assumption.
    destruct (qp_sign vi), (qp_sign v); try reflexivity; congruence.
  - intros Iv. now apply xsmulqpo_inf_inf.
  - intros Fv Zv.
    split; rewrite xsmulqpo_inf_finite, Zv, (qp_inf_not_zero vi Ii) by auto; reflexivity.
  - intros Zv. pose proof (qp_zero_finite v Zv).
    split; rewrite xsmulqpo_inf_finite, Zv, ?orb_true_r by auto; reflexivity.
Qed.

Lemma infinity_action_table_witness :
  vec_xsaddqpo (qp_pack true 0x7fff 0) (qp_pack true 0x7fff 0) = qp_pack true 0x7fff 0
  /\ vec_xsmulqpo (qp_pack true 0x7fff 0) (qp_pack true 0x7fff 0) = qp_pack false 0x7fff 0.
Proof.
  pose proof (infinity_action_table (qp_pack true 0x7fff 0) (qp_pack true 0x7fff 0)
                ltac:(vm_compute; split; [discriminate|reflexivity])
                ltac:(vm_compute; split; [discriminate|reflexivity])
                ltac:(vm_compute; reflexivity)) as (H1 & _ & H3 & _).
  split.
  - apply H1; vm_compute; reflexivity.
  - apply H3. vm_compute; reflexivity.
Defined.

(** ** Boolean masks *)

Lemma bmask_or c1 c2 : vec_or (bmask 128 c1) (bmask 128 c2) = bmask 128 (c1 || c2).
Proof. destruct c1, c2; reflexivity. Qed.

Lemma bmask_andc c1 c2 : vec_andc (bmask 128 c1) (bmask 128 c2) = bmask 128 (c1 && negb c2).
Proof. destruct c1, c2; reflexivity. Qed.

Lemma sel_ones a b : is_vec a -> is_vec b -> vec_sel a b (Z.ones 128) = b.
Proof.
  intros Ha Hb. unfold vec_sel. rewrite Z.ldiff_ones_r, Z.land_ones by lia.
  rewrite Z.shiftr_div_pow2, Z.div_small, Z.shiftl_0_l, Z.mod_small by (unfold is_vec in *; lia).
  reflexivity.
Qed.

Lemma sel_zero a b : vec_sel a b 0 = a.
Proof. unfold vec_sel. now rewrite Z.ldiff_0_r, Z.land_0_r, Z.lor_0_r. Qed.

Lemma sel_bmask a b c : is_vec a -> is_vec b ->
  vec_sel a b (bmask 128 c) = if c then b else a.
Proof. intros. destruct c; [now apply sel_ones|apply sel_zero]. Qed.

(** ** Compare equal, IEEE unordered *)

Lemma clear_sign v : is_vec v -> Z.ldiff v (2 ^ 127) = v mod 2 ^ 127.
Proof.
  intros Hv. rewrite <- Z.land_ones by lia.
  apply Z.bits_inj'; intros i Hi. rewrite Z.ldiff_spec, Z.land_spec.
  destruct (Z.lt_ge_cases i 127).
  - rewrite Z.pow2_bits_false, Z.ones_spec_low by lia. reflexivity.
  - rewrite Z.ones_spec_high, andb_false_r by lia.
    destruct (Z.eq_dec i 127) as [->|Hne].
    + rewrite Z.pow2_bits_true by lia. apply andb_false_r.
    + rewrite (testbit_high v 128) by (unfold is_vec in Hv; lia). reflexivity.
Qed.

Lemma isnan_eq v : is_vec v -> vec_isnanf128 v = bmask 128 (qp_is_nan v).
Proof.
  intros Hv. unfold vec_isnanf128, vec_andc_bin128_2_vui32t, vec_andc, vec_cmpgtuq. cbv zeta.
  rewrite signmask_eq, clear_sign, qp_mag by assumption. f_equal.
  unfold qp_is_nan. pose proof (qp_exp_range v). pose proof (qp_frac_range v).
  change (CONST_VINT128_W 2147418112 0 0 0) with (32767 * 2 ^ 112).
  destruct (qp_exp v =? 32767) eqn:E1; destruct (qp_frac v =? 0) eqn:E2; cbn [andb negb]; lia.
Qed.

Lemma qp_zero_mag v : is_vec v -> qp_is_zero v = (v mod 2 ^ 127 =? 0).
Proof.
  intros Hv. rewrite qp_mag by assumption. unfold qp_is_zero.
  pose proof (qp_exp_range v). pose proof (qp_frac_range v).
  destruct (qp_exp v =? 0) eqn:E1; destruct (qp_frac v =? 0) eqn:E2; cbn [andb]; lia.
Qed.

Lemma qp_zero_cases v : is_vec v -> qp_is_zero v = true -> v = 0 \/ v = 2 ^ 127.
Proof.
  intros Hv Hz. rewrite (qp_fields v Hv). unfold qp_is_zero in Hz.
  apply andb_true_iff in Hz as [He Hf]. apply Z.eqb_eq in He, Hf. rewrite He, Hf.
  destruct (qp_sign v); [right|left]; reflexivity.
Qed.

(** The OR of the operands is exactly the sign mask when both are zeros and
    at least one is negative. *)
Lemma or_is_signmask a b : is_vec a -> is_vec b ->
  (a =? b) || (Z.lor a b =? 2 ^ 127) = (a =? b) || (qp_is_zero a && qp_is_zero b).
Proof.
  intros Ha Hb. destruct (a =? b) eqn:Eab; [reflexivity|]. cbn [orb].
  apply Z.eqb_neq in Eab.
  destruct (Z.lor a b =? 2 ^ 127) eqn:E.
  - apply Z.eqb_eq in E. symmetry.
    assert (Hl : Z.lor (a mod 2 ^ 127) (b mod 2 ^ 127) = 0).
    { rewrite <- !Z.land_ones, <- Z.land_lor_distr_l, E by lia. reflexivity. }
    apply Z.lor_eq_0_iff in Hl as [Hl1 Hl2].
    rewrite !qp_zero_mag, Hl1, Hl2 by assumption. reflexivity.
  - apply Z.eqb_neq in E. symmetry. apply andb_false_iff.
    destruct (qp_is_zero a) eqn:Za; [|now left]. right.
    destruct (qp_is_zero b) eqn:Zb; [|reflexivity]. exfalso.
    destruct (qp_zero_cases a Ha Za) as [->| ->], (qp_zero_cases b Hb Zb) as [->| ->];
      try (apply Eab; reflexivity); apply E; reflexivity.
Qed.

Lemma cmpequqp_eq vfa vfb : is_vec vfa -> is_vec vfb ->
  vec_cmpequqp vfa vfb =
    bmask 128 (((vfa =? vfb) || (qp_is_zero vfa && qp_is_zero vfb))
               && negb (qp_is_nan vfa || qp_is_nan vfb)).
Proof.
  intros Ha Hb. unfold vec_cmpequqp, vec_isunorderedf128, vec_xfer_bin128_2_vui64t, vec_cmpequq.
  cbv zeta. rewrite !isnan_eq, !bmask_or, bmask_andc, signmask_eq by assumption.
  unfold vec_or at 1. now rewrite or_is_signmask.
Qed.

(** C9. vec_cmpequqp returns all ones exactly when neither operand is a NaN
    and the two patterns are identical or both operands are zeros (of any
    signs), and all zeros otherwise; so a NaN compared with itself is false
    and +0.0 compared with -0.0 is true. *)
Theorem cmpequqp_unordered_equality (vfa vfb : Z) :
  is_vec vfa -> is_vec vfb ->
  (vec_cmpequqp vfa vfb = Z.ones 128 \/ vec_cmpequqp vfa vfb = 0)
  /\ (vec_cmpequqp vfa vfb = Z.ones 128 <->
      qp_is_nan vfa = false /\ qp_is_nan vfb = false
      /\ (vfa = vfb \/ (qp_is_zero vfa = true /\ qp_is_zero vfb = true)))
  /\ (qp_is_nan vfa = true -> vec_cmpequqp vfa vfa = 0)
  /\ vec_cmpequqp (qp_pack false 0 0) (qp_pack true 0 0) = Z.ones 128.
Proof.
  intros Ha Hb. rewrite cmpequqp_eq by assumption.
  split; [|split; [|split]].
  - match goal with |- context [bmask 128 ?c] => destruct c end; [left|right]; reflexivity.
  - split.
    + intros H.
      destruct (qp_is_nan vfa), (qp_is_nan vfb); cbn [orb negb] in H;
        rewrite ?andb_false_r in H; try discriminate H.
      rewrite andb_true_r in H.
      split; [reflexivity|split; [reflexivity|]].
      destruct (vfa =? vfb) eqn:E; [left; now apply Z.eqb_eq|right].
      cbn [orb] in H. destruct (qp_is_zero vfa), (qp_is_zero vfb); try discriminate H.
      now split.
    + intros (Na & Nb & [E|[Za Zb]]); rewrite Na, Nb.
      * subst. now rewrite Z.eqb_refl.
      * rewrite Za, Zb, orb_true_r. reflexivity.
  - intros Na. rewrite cmpequqp_eq, Na by assumption. now rewrite andb_false_r.
  - reflexivity.
Qed.

Lemma cmpequqp_unordered_equality_witness :
  vec_cmpequqp (qp_pack false 0x7fff 1) (qp_pack false 0x7fff 1) = 0.
Proof.
  apply (proj1 (proj2 (proj2 (cmpequqp_unordered_equality
           (qp_pack false 0x7fff 1) (qp_pack false 0x7fff 1)
           ltac:(vm_compute; split; [discriminate|reflexivity])
           ltac:(vm_compute; split; [discriminate|reflexivity]))))).
  vm_compute. reflexivity.
Defined.

(** ** Round to odd *)

Lemma addcuq_ones p : is_vec p -> vec_addcuq p q_ones = if p =? 0 then 0 else 1.
Proof.
  intros [H0 H1]. unfold vec_addcuq. rewrite q_ones_eq, Z.ones_equiv.
  destruct (p =? 0) eqn:E.
  - apply Z.eqb_eq in E. subst. reflexivity.
  - apply Z.eqb_neq in E.
    replace (p + Z.pred (2 ^ 128)) with ((p - 1) + 1 * 2 ^ 128) by lia.
    rewrite Z.div_add, Z.div_small by lia. reflexivity.
Qed.

Lemma lor_1 t : 0 <= t -> Z.lor t 1 = 2 * (t / 2) + 1.
Proof.
  intros Ht. apply Z.bits_inj'; intros i Hi.
  destruct (Z.eq_dec i 0) as [->|Hne].
  - rewrite Z.lor_spec, Z.testbit_odd_0. apply orb_true_r.
  - assert (H1 : Z.testbit 1 i = false) by (apply (Z.pow2_bits_false 0); lia).
    rewrite Z.lor_spec, H1, orb_false_r.
    replace (Z.testbit (2 * (t / 2) + 1) i)
      with (Z.testbit (2 * (t / 2) + 1) (Z.succ (i - 1))) by (f_equal; lia).
    rewrite Z.testbit_odd_succ by lia.
    replace (t / 2) with (t / 2 ^ 1) by reflexivity.
    rewrite Z.div_pow2_bits by lia. f_equal. lia.
Qed.

Lemma lor_1_bounds t : 0 <= t -> t <= Z.lor t 1 <= t + 1 /\ Z.lor t 1 / 2 = t / 2.
Proof.
  intros Ht. rewrite lor_1 by assumption.
  pose proof (Z.div_mod t 2 ltac:(lia)). pose proof (Z.mod_pos_bound t 2 ltac:(lia)).
  split; [lia|].
  rewrite Z.mul_comm, Z.div_add_l by lia. change (1 / 2) with 0. lia.
Qed.

Lemma lor_1_pow2 t k : 0 <= t < 2 ^ k -> 0 < k -> Z.lor t 1 < 2 ^ k.
Proof.
  intros Ht Hk. rewrite lor_1 by lia.
  replace k with (Z.succ (k - 1)) in * by lia. rewrite Z.pow_succ_r in * by lia.
  assert (t / 2 < 2 ^ (k - 1)) by (apply Z.div_lt_upper_bound; lia). lia.
Qed.

Lemma round_to_odd_grx_eq s : is_vec s ->
  round_to_odd_grx s = if s mod 2 ^ 3 =? 0 then s / 2 ^ 3 else Z.lor (s / 2 ^ 3) 1.
Proof.
  intros Hs. unfold round_to_odd_grx, vec_splat_u128, vec_and, vec_srqi, vec_or. cbv zeta.
  change (7 mod 2 ^ 128) with (Z.ones 3). rewrite Z.land_ones by lia.
  rewrite addcuq_ones.
  - destruct (s mod 2 ^ 3 =? 0); [apply Z.lor_0_r|reflexivity].
  - pose proof (Z.mod_pos_bound s (2 ^ 3) ltac:(lia)). unfold is_vec. lia.
Qed.

Lemma round_to_odd_low_eq q p : is_vec p ->
  round_to_odd_low q p = if p =? 0 then q else Z.lor q 1.
Proof.
  intros Hp. unfold round_to_odd_low, vec_or. cbv zeta. rewrite addcuq_ones by assumption.
  destruct (p =? 0); [apply Z.lor_0_r|reflexivity].
Qed.

(** ** Splat vectors and word lanes *)

Lemma splat_S w n x : splat w (S n) x = x mod 2 ^ w + 2 ^ w * splat w n x.
Proof. reflexivity. Qed.

Lemma splat_mod w n x : 0 < w -> splat w (S n) x mod 2 ^ w = x mod 2 ^ w.
Proof.
  intros. rewrite splat_S.
  replace (x mod 2 ^ w + 2 ^ w * splat w n x) with (x mod 2 ^ w + splat w n x * 2 ^ w) by lia.
  rewrite Z.mod_add by lia. apply Z.mod_mod. lia.
Qed.

Lemma splat_div w n x : 0 < w -> splat w (S n) x / 2 ^ w = splat w n x.
Proof.
  intros. rewrite splat_S.
  replace (x mod 2 ^ w + 2 ^ w * splat w n x) with (x mod 2 ^ w + splat w n x * 2 ^ w) by lia.
  rewrite Z.div_add, Z.mod_div by lia. lia.
Qed.

Lemma map2_lanes_S w n f a b :
  map2_lanes w (S n) f a b
  = (f (a mod 2 ^ w) (b mod 2 ^ w)) mod 2 ^ w + 2 ^ w * map2_lanes w n f (a / 2 ^ w) (b / 2 ^ w).
Proof. reflexivity. Qed.

Lemma splat_mod_arg w n x : 0 < w -> splat w n (x mod 2 ^ w) = splat w n x.
Proof.
  intros. induction n as [|n IH]; [reflexivity|].
  cbn [splat]. rewrite IH, Z.mod_mod by lia. reflexivity.
Qed.

Lemma map2_lanes_splat w n f x y : 0 < w ->
  map2_lanes w n f (splat w n x) (splat w n y) = splat w n (f (x mod 2 ^ w) (y mod 2 ^ w)).
Proof.
  intros Hw. induction n as [|n IH]; [reflexivity|].
  cbn [map2_lanes]. rewrite !splat_mod, !splat_div, IH by assumption. reflexivity.
Qed.

Lemma all2_lanes_splat_gen w n p x y : 0 < w ->
  all2_lanes w n p (splat w n x) (splat w n y)
  = match n with O => true | S _ => p (x mod 2 ^ w) (y mod 2 ^ w) end.
Proof.
  intros Hw. induction n as [|n IH]; [reflexivity|].
  cbn [all2_lanes]. rewrite !splat_mod, !splat_div, IH by assumption.
  destruct n; [apply andb_true_r|apply andb_diag].
Qed.

Lemma all2_lanes_splat w n p x y : 0 < w ->
  all2_lanes w (S n) p (splat w (S n) x) (splat w (S n) y) = p (x mod 2 ^ w) (y mod 2 ^ w).
Proof. intros. now rewrite all2_lanes_splat_gen. Qed.

Lemma map2_w4 f a3 a2 a1 a0 b3 b2 b1 b0 :
  0 <= a3 < 2 ^ 32 -> 0 <= a2 < 2 ^ 32 -> 0 <= a1 < 2 ^ 32 -> 0 <= a0 < 2 ^ 32 ->
  0 <= b3 < 2 ^ 32 -> 0 <= b2 < 2 ^ 32 -> 0 <= b1 < 2 ^ 32 -> 0 <= b0 < 2 ^ 32 ->
  map2_lanes 32 4 f (CONST_VINT128_W a3 a2 a1 a0) (CONST_VINT128_W b3 b2 b1 b0)
  = CONST_VINT128_W (f a3 b3) (f a2 b2) (f a1 b1) (f a0 b0).
Proof.
  intros. unfold CONST_VINT128_W. rewrite !(Z.mod_small _ (2 ^ 32)) by lia.
  cbn [map2_lanes].
  assert (E : forall x3 x2 x1 x0, 0 <= x0 < 2 ^ 32 ->
            (x3 * 2 ^ 96 + x2 * 2 ^ 64 + x1 * 2 ^ 32 + x0) mod 2 ^ 32 = x0
            /\ (x3 * 2 ^ 96 + x2 * 2 ^ 64 + x1 * 2 ^ 32 + x0) / 2 ^ 32
               = 0 * 2 ^ 96 + x3 * 2 ^ 64 + x2 * 2 ^ 32 + x1).
  { intros x3 x2 x1 x0 Hx.
    replace (x3 * 2 ^ 96 + x2 * 2 ^ 64 + x1 * 2 ^ 32 + x0)
      with (x0 + (x3 * 2 ^ 64 + x2 * 2 ^ 32 + x1) * 2 ^ 32) by lia.
    rewrite Z.mod_add, Z.div_add, Z.mod_small, Z.div_small by lia. lia. }
  destruct (E a3 a2 a1 a0 ltac:(lia)) as [-> ->]. destruct (E b3 b2 b1 b0 ltac:(lia)) as [-> ->].
  destruct (E 0 a3 a2 a1 ltac:(lia)) as [-> ->]. destruct (E 0 b3 b2 b1 ltac:(lia)) as [-> ->].
  destruct (E 0 0 a3 a2 ltac:(lia)) as [-> ->]. destruct (E 0 0 b3 b2 ltac:(lia)) as [-> ->].
  destruct (E 0 0 0 a3 ltac:(lia)) as [-> _]. destruct (E 0 0 0 b3 ltac:(lia)) as [-> _].
  lia.
Qed.

Lemma elem_w4 a3 a2 a1 a0 :
  0 <= a3 < 2 ^ 32 -> 0 <= a2 < 2 ^ 32 -> 0 <= a1 < 2 ^ 32 -> 0 <= a0 < 2 ^ 32 ->
  elem 32 4 VEC_WE_1 (CONST_VINT128_W a3 a2 a1 a0) = a2
  /\ elem 32 4 VEC_WE_3 (CONST_VINT128_W a3 a2 a1 a0) = a0.
Proof.
  intros H3 H2 H1 H0. unfold elem, VEC_WE_1, VEC_WE_3, CONST_VINT128_W.
  rewrite (Z.mod_small a3), (Z.mod_small a2), (Z.mod_small a1), (Z.mod_small a0) by lia.
  change (32 * (Z.of_nat 4 - 1 - 1)) with 64. change (32 * (Z.of_nat 4 - 1 - 3)) with 0.
  rewrite Z.pow_0_r, Z.div_1_r. split.
  - replace (a3 * 2 ^ 96 + a2 * 2 ^ 64 + a1 * 2 ^ 32 + a0)
      with ((a1 * 2 ^ 32 + a0) + (a3 * 2 ^ 32 + a2) * 2 ^ 64) by lia.
    rewrite Z.div_add, Z.div_small by lia.
    replace (0 + (a3 * 2 ^ 32 + a2)) with (a2 + a3 * 2 ^ 32) by lia.
    rewrite Z.mod_add by lia. apply Z.mod_small. lia.
  - replace (a3 * 2 ^ 96 + a2 * 2 ^ 64 + a1 * 2 ^ 32 + a0)
      with (a0 + (a3 * 2 ^ 64 + a2 * 2 ^ 32 + a1) * 2 ^ 32) by lia.
    rewrite Z.mod_add by lia. apply Z.mod_small. lia.
Qed.

Lemma bmask_range w c : 0 <= w -> 0 <= bmask w c < 2 ^ w.
Proof.
  intros. unfold bmask. destruct c; rewrite ?Z.ones_equiv; pose proof (pow2_pos w); lia.
Qed.

(** ** Extract exponent, extract significand, insert exponent, sign mask *)

Lemma land_expmask v : Z.land v (Z.shiftl (Z.ones 15) 112) = qp_exp v * 2 ^ 112.
Proof.
  rewrite qp_exp_bits, <- Z.shiftl_mul_pow2 by lia. Z.bitblast.
Qed.

Lemma xsxexpqp_eq v : vec_xsxexpqp v = mk_dw (qp_exp v) 0.
Proof.
  unfold vec_xsxexpqp, vec_and_bin128_2_vui32t, vec_and, vec_sld, mk_dw. cbv zeta.
  rewrite mask128_exp_eq, qp_exp_bits, Z.add_0_r, <- Z.shiftl_mul_pow2 by lia.
  change (128 - 8 * 10) with 48. Z.bitblast.
Qed.


Lemma expfield_w4 e : 0 <= e < 2 ^ 15 -> e * 2 ^ 112 = CONST_VINT128_W (e * 2 ^ 16) 0 0 0.
Proof.
  intros. unfold CONST_VINT128_W. rewrite (Z.mod_small (e * 2 ^ 16)) by lia.
  change (0 mod 2 ^ 32) with 0. lia.
Qed.

(** The hidden bit is restored for a normal value only (exponent neither 0
    nor 32767). *)
Lemma xsxsigqp_eq v : is_vec v ->
  vec_xsxsigqp v =
    qp_frac v + (if (0 <? qp_exp v) && (qp_exp v <? 0x7fff) then 2 ^ 112 else 0).
Proof.
  intros Hv. unfold vec_xsxsigqp, vec_and_bin128_2_vui32t, vec_and. cbv zeta.
  rewrite mask128_exp_eq, mask128_sig_eq, mask128_Lbit_eq, land_expmask, Z.land_ones by lia.
  fold (qp_frac v). pose proof (qp_exp_range v) as He. pose proof (qp_frac_range v) as Hf.
  rewrite (expfield_w4 (qp_exp v)) by assumption.
  change (Z.shiftl (Z.ones 15) 112) with (CONST_VINT128_W (32767 * 2 ^ 16) 0 0 0).
  unfold vec_cmpeq_w. rewrite !map2_w4 by lia.
  assert (Hd : Z.ldiff (qp_frac v) (2 ^ 112) = qp_frac v).
  { apply Z.bits_inj'; intros i Hi. rewrite Z.ldiff_spec.
    destruct (Z.eq_dec i 112) as [->|Hne].
    - rewrite (testbit_high (qp_frac v) 112) by lia. reflexivity.
    - rewrite Z.pow2_bits_false by lia. apply andb_true_r. }
  unfold vec_sel. rewrite Hd.
  destruct (qp_exp v * 2 ^ 16 =? 32767 * 2 ^ 16) eqn:E1;
    destruct (qp_exp v * 2 ^ 16 =? 0) eqn:E2.
  1-3: replace ((0 <? qp_exp v) && (qp_exp v <? 32767)) with false by lia.
  4: replace ((0 <? qp_exp v) && (qp_exp v <? 32767)) with true by lia.
  1-3: cbn; rewrite Z.lor_0_r; lia.
  change (Z.land
     (vec_nor (CONST_VINT128_W (bmask 32 false) (bmask 32 (0 =? 0)) (bmask 32 (0 =? 0)) (bmask 32 (0 =? 0)))
        (CONST_VINT128_W (bmask 32 false) (bmask 32 (0 =? 0)) (bmask 32 (0 =? 0)) (bmask 32 (0 =? 0))))
     (2 ^ 112)) with (Z.shiftl 1 112).
  rewrite Z.lor_comm, <- add_lor_disj by lia. lia.
Qed.

Lemma sra_sign x : 0 <= x < 2 ^ 8 ->
  (signed 8 x / 2 ^ (7 mod 8)) mod 2 ^ 8 = bmask 8 (2 ^ 7 <=? x).
Proof.
  intros Hx. unfold signed. change (8 - 1) with 7. change (7 mod 8) with 7.
  destruct (x <? 2 ^ 7) eqn:E.
  - rewrite Z.div_small by lia. replace (2 ^ 7 <=? x) with false by lia. reflexivity.
  - replace (2 ^ 7 <=? x) with true by lia.
    replace ((x - 2 ^ 8) / 2 ^ 7) with (-1); [reflexivity|].
    apply Z.div_unique with (r := x - 2 ^ 7); lia.
Qed.

Lemma setb_qp_eq v : is_vec v -> vec_setb_qp v = bmask 128 (qp_sign v).
Proof.
  intros Hv. unfold vec_setb_qp, vec_sra_b, vec_splat_b, vec_splat_u8, vec_xfer_bin128_2_vui8t.
  cbv zeta. rewrite map2_lanes_splat by lia.
  unfold elem, VEC_BYTE_H. change (8 * (Z.of_nat 16 - 1 - 0)) with 120.
  rewrite Z.mod_mod by lia.
  pose proof (Z.mod_pos_bound (v / 2 ^ 120) (2 ^ 8) ltac:(lia)) as Hb.
  change (7 mod 2 ^ 8) with 7.
  assert (E : (2 ^ 7 <=? (v / 2 ^ 120) mod 2 ^ 8) = qp_sign v).
  { rewrite qp_sign_div by assumption. destruct Hv as [H0 H1].
    rewrite (Z.mod_small (v / 2 ^ 120)) by (split; [apply Z.div_pos|apply Z.div_lt_upper_bound]; lia).
    assert (v / 2 ^ 127 = v / 2 ^ 120 / 2 ^ 7) by (rewrite Z.div_div by lia; reflexivity).
    assert (0 <= v / 2 ^ 120 < 2 ^ 8) by (split; [apply Z.div_pos|apply Z.div_lt_upper_bound]; lia).
    pose proof (Z.div_mod (v / 2 ^ 120) (2 ^ 7) ltac:(lia)).
    pose proof (Z.mod_pos_bound (v / 2 ^ 120) (2 ^ 7) ltac:(lia)).
    destruct (2 ^ 7 <=? v / 2 ^ 120) eqn:E1; destruct (v / 2 ^ 127 =? 1) eqn:E2; lia. }
  cbv beta. rewrite <- splat_mod_arg by lia.
  rewrite sra_sign, E by assumption.
  destruct (qp_sign v); reflexivity.
Qed.

(** Insert exponent: bits 126-112 of [sig] are replaced by the low 15 bits
    of the high doubleword of [exp]. *)
Lemma xsiexpqp_eq sig e x : 0 <= e < 2 ^ 15 -> 0 <= x < 2 ^ 64 ->
  vec_xsiexpqp sig (mk_dw e x)
  = Z.lor (Z.ldiff sig (Z.shiftl (Z.ones 15) 112)) (Z.shiftl e 112).
Proof.
  intros He Hx. unfold vec_xsiexpqp, vec_xfer_vui32t_2_bin128, vec_sel, vec_sld, mk_dw. cbv zeta.
  rewrite mask128_exp_eq. rewrite (add_lor_disj e x 64) by lia.
  change (128 - 8 * 6) with 80.
  Z.bitblast; testbit_bounds; btauto.
Qed.

Lemma xsiexpqp_pack s q e x :
  0 <= q < 2 ^ 113 -> 0 <= e < 2 ^ 15 -> 0 <= x < 2 ^ 64 ->
  vec_xsiexpqp (vec_or q (sign_bit s)) (mk_dw e x) = qp_pack s e (q mod 2 ^ 112).
Proof.
  intros Hq He Hx. rewrite xsiexpqp_eq by assumption. unfold vec_or, qp_pack.
  pose proof (Z.mod_pos_bound q (2 ^ 112) ltac:(lia)) as Hm.
  set (sb := if s then 1 else 0).
  assert (Hsb : 0 <= sb < 2 ^ 1) by (unfold sb; destruct s; lia).
  replace (sign_bit s + e * 2 ^ 112 + q mod 2 ^ 112)
    with ((sb * 2 ^ 15 + e) * 2 ^ 112 + q mod 2 ^ 112)
    by (unfold sign_bit, sb; destruct s; lia).
  rewrite (add_lor_disj _ _ 112) by lia. rewrite (add_lor_disj _ e 15) by lia.
  replace (sign_bit s) with (Z.shiftl sb 127) by (unfold sb; destruct s; reflexivity).
  rewrite <- Z.land_ones by lia. clearbody sb. clear Hm.
  Z.bitblast; testbit_bounds; btauto.
Qed.

(** ** Magnitude of a finite value against a power of two *)

Lemma pow2_mul_lower s n : 2 ^ 112 <= s -> 0 <= n -> 2 ^ (112 + n) <= s * 2 ^ n.
Proof.
  intros Hs Hn. rewrite Z.pow_add_r by lia.
  apply Z.mul_le_mono_nonneg_r; [apply Z.pow_nonneg|]; lia.
Qed.

Lemma pow2_mul_upper s n : 0 <= s < 2 ^ 113 -> 0 <= n -> s * 2 ^ n < 2 ^ (113 + n).
Proof.
  intros Hs Hn. rewrite Z.pow_add_r by lia.
  apply Z.mul_lt_mono_pos_r; [apply Z.pow_pos_nonneg|]; lia.
Qed.

Lemma qp_sig_range v : 0 <= qp_sig v < 2 ^ 113.
Proof. unfold qp_sig. pose proof (qp_frac_range v). destruct (0 <? qp_exp v); lia. Qed.

Lemma qp_sig_normal v : 0 < qp_exp v -> 2 ^ 112 <= qp_sig v.
Proof.
  intros H. unfold qp_sig. pose proof (qp_frac_range v).
  replace (0 <? qp_exp v) with true by lia. lia.
Qed.

Lemma qp_sig_subnormal v : qp_exp v = 0 -> qp_sig v = qp_frac v.
Proof. intros H. unfold qp_sig. rewrite H. cbn. lia. Qed.

Lemma qp_e_range v : 1 <= qp_e v < 2 ^ 15.
Proof. unfold qp_e. pose proof (qp_exp_range v). lia. Qed.

(** The magnitude of [v] is at least [2^k] exactly when its biased exponent
    is at least [16383 + k]. *)
Lemma magnitude_ge_pow2 v k : 0 <= k ->
  2 ^ k * qp_one <= qp_sig v * 2 ^ (qp_e v - 1) <-> 16383 + k <= qp_exp v.
Proof.
  intros Hk. pose proof (qp_exp_range v) as He. pose proof (qp_sig_range v) as Hs.
  unfold qp_one. rewrite <- Z.pow_add_r by lia.
  unfold qp_e. destruct (Z.eq_dec (qp_exp v) 0) as [E0|E0].
  - rewrite E0. cbn [Z.max Z.compare]. change (1 - 1) with 0. rewrite Z.pow_0_r, Z.mul_1_r.
    rewrite qp_sig_subnormal by assumption. pose proof (qp_frac_range v).
    assert (2 ^ 112 <= 2 ^ (k + 16494)) by (apply Z.pow_le_mono_r; lia).
    split; lia.
  - rewrite Z.max_l by lia.
    pose proof (qp_sig_normal v ltac:(lia)) as Hn.
    pose proof (pow2_mul_lower (qp_sig v) (qp_exp v - 1) Hn ltac:(lia)) as Hlo.
    pose proof (pow2_mul_upper (qp_sig v) (qp_exp v - 1) Hs ltac:(lia)) as Hup.
    split; intros H.
    + destruct (Z.lt_ge_cases (qp_exp v) (16383 + k)) as [Hlt|Hge]; [|assumption]. exfalso.
      assert (2 ^ (113 + (qp_exp v - 1)) <= 2 ^ (k + 16494)) by (apply Z.pow_le_mono_r; lia).
      lia.
    + assert (2 ^ (k + 16494) <= 2 ^ (112 + (qp_exp v - 1))) by (apply Z.pow_le_mono_r; lia).
      lia.
Qed.

Lemma magnitude_ge_one v :
  qp_one <= qp_sig v * 2 ^ (qp_e v - 1) <-> 16383 <= qp_exp v.
Proof.
  pose proof (magnitude_ge_pow2 v 0 ltac:(lia)) as H.
  rewrite Z.pow_0_r, Z.mul_1_l, Z.add_0_r in H. exact H.
Qed.

Lemma div_pow2_scale s a b k : 0 <= a -> 0 <= b -> 0 <= k ->
  s * 2 ^ (a + k) / 2 ^ (b + k) = s * 2 ^ a / 2 ^ b.
Proof.
  intros. rewrite !Z.pow_add_r, Z.mul_assoc by lia.
  apply Z.div_mul_cancel_r; apply Z.pow_nonzero; lia.
Qed.

(** Scaling numerator and denominator by the same power of two. *)
Lemma div_pow2_shift s a b c d :
  0 <= a -> 0 <= b -> 0 <= c -> 0 <= d -> a - b = c - d ->
  s * 2 ^ a / 2 ^ b = s * 2 ^ c / 2 ^ d.
Proof.
  intros Ha Hb Hc Hd E. destruct (Z.le_ge_cases a c).
  - replace c with (a + (c - a)) by lia. replace d with (b + (c - a)) by lia.
    symmetry. apply div_pow2_scale; lia.
  - replace a with (c + (a - c)) by lia. replace b with (d + (a - c)) by lia.
    apply div_pow2_scale; lia.
Qed.

(** The integer part of a value of magnitude at least 1. *)
Lemma scaled_trunc v : 16383 <= qp_exp v ->
  qp_sig v * 2 ^ (qp_e v - 1) / qp_one = qp_sig v * 2 ^ (qp_exp v - 16383) / 2 ^ 112.
Proof.
  intros He. unfold qp_e, qp_one. rewrite Z.max_l by lia.
  apply div_pow2_shift; lia.
Qed.

(** ** Quad to unsigned doubleword *)

Lemma bmask128_dw c : bmask 128 c = mk_dw (bmask 64 c) (bmask 64 c).
Proof. destruct c; reflexivity. Qed.

Lemma vec_dw v : is_vec v -> v = mk_dw (v / 2 ^ 64) (v mod 2 ^ 64).
Proof. intros. unfold mk_dw. pose proof (Z.div_mod v (2 ^ 64) ltac:(lia)). lia. Qed.

Lemma div_range v k n : 0 <= v < 2 ^ n -> 0 <= k <= n -> 0 <= v / 2 ^ k < 2 ^ (n - k).
Proof.
  intros Hv Hk. split; [apply Z.div_pos; [lia|apply Z.pow_pos_nonneg; lia]|].
  apply Z.div_lt_upper_bound; [apply Z.pow_pos_nonneg; lia|].
  rewrite <- Z.pow_add_r by lia. replace (k + (n - k)) with n by lia. lia.
Qed.

Lemma xscvqpudz_eq v : is_vec v ->
  vec_xscvqpudz v =
    mk_dw (if qp_exp v =? 0x7fff
           then bmask 64 ((qp_frac v =? 0) && negb (qp_sign v))
           else if (0x3fff <=? qp_exp v) && negb (qp_sign v)
                then if qp_exp v <? 0x3fff + 64
                     then qp_sig v * 2 ^ (qp_exp v - 0x3fff) / 2 ^ 112
                     else 2 ^ 64 - 1
                else 0) 0.
Proof.
  intros Hv. unfold vec_xscvqpudz. cbv zeta.
  pose proof (qp_exp_range v) as He. pose proof (qp_frac_range v) as Hf.
  rewrite xsxexpqp_eq, xsxsigqp_eq, setb_qp_eq by assumption.
  unfold vec_splatd. rewrite elem_dw_h, splat_dw by lia.
  rewrite !const_dw by lia. change (CONST_VINT64_DW (-1) (-1)) with (mk_dw (2 ^ 64 - 1) (2 ^ 64 - 1)).
  unfold vec_cmpud_all_eq, vec_cmpud_all_ge, vec_cmpud_all_lt.
  rewrite bmask128_dw.
  rewrite !all2_dw by (try apply bmask_range; lia).
  rewrite !andb_diag.
  assert (Hm : forall h l, 0 <= h < 2 ^ 64 -> 0 <= l < 2 ^ 64 ->
               vec_mrgahd (mk_dw h l) (mk_dw 0 0) = mk_dw h 0).
  { intros h l Hh Hl. unfold vec_mrgahd. rewrite !dw_h_mk by lia. reflexivity. }
  destruct (qp_exp v =? 32767) eqn:E; cbn [negb].
  - (* Infinity or NaN *)
    replace ((0 <? qp_exp v) && (qp_exp v <? 32767)) with false by lia.
    rewrite Z.add_0_r. unfold vec_cmpequq. rewrite <- bmask128_dw, bmask_andc, bmask128_dw.
    apply Hm; apply bmask_range; lia.
  - replace (bmask 64 (qp_sign v) =? 0) with (negb (qp_sign v)) by (destruct (qp_sign v); reflexivity).
    destruct ((16383 <=? qp_exp v) && negb (qp_sign v)) eqn:E1; [|apply Hm; lia].
    apply andb_true_iff in E1 as [E1 E2].
    destruct (qp_exp v <? 16383 + 64) eqn:E3; [|apply Hm; lia].
    (* 1 <= magnitude < 2^64 *)
    replace ((0 <? qp_exp v) && (qp_exp v <? 32767)) with true by lia.
    assert (Hs : qp_frac v + 2 ^ 112 = qp_sig v).
    { unfold qp_sig. replace (0 <? qp_exp v) with true by lia. reflexivity. }
    rewrite Hs. pose proof (qp_sig_range v) as Hsr.
    unfold vec_slqi, vec_subudm, vec_vsrd.
    rewrite Z.mod_small by lia.
    rewrite map2_dw by lia.
    rewrite (Z.mod_small (16383 + 63 - qp_exp v)) by lia.
    rewrite (vec_dw (qp_sig v * 2 ^ 15)) by (unfold is_vec; lia).
    assert (Hh : 0 <= qp_sig v * 2 ^ 15 / 2 ^ 64 < 2 ^ 64).
    { apply (div_range _ 64 128); lia. }
    pose proof (Z.mod_pos_bound (qp_sig v * 2 ^ 15) (2 ^ 64) ltac:(lia)) as Hl.
    rewrite map2_dw by lia.
    rewrite Hm by (apply Z.mod_pos_bound; lia). f_equal.
    set (d := 16383 + 63 - qp_exp v). rewrite (Z.mod_small d) by (unfold d; lia).
    assert (H2d : 0 < 2 ^ d) by (apply Z.pow_pos_nonneg; unfold d; lia).
    rewrite Z.mod_small.
    2:{ split; [apply Z.div_pos; lia|]. apply Z.div_lt_upper_bound; nia. }
    rewrite Z.div_div by lia. rewrite <- Z.pow_add_r by (unfold d; lia).
    apply div_pow2_shift; unfold d; lia.
Qed.

Lemma qp_scaled_pos v : qp_sign v = false -> qp_scaled v = qp_sig v * 2 ^ (qp_e v - 1).
Proof. intros H. unfold qp_scaled. rewrite H. lia. Qed.

Lemma qp_scaled_abs v : Z.abs (qp_scaled v) = qp_sig v * 2 ^ (qp_e v - 1).
Proof.
  unfold qp_scaled. pose proof (qp_sig_range v). pose proof (qp_e_range v).
  assert (0 <= qp_sig v * 2 ^ (qp_e v - 1)) by (apply Z.mul_nonneg_nonneg; [|apply Z.pow_nonneg]; lia).
  destruct (qp_sign v); lia.
Qed.

(** C8. vec_xscvqpudz saturates: a positive finite value of magnitude at
    least 2^64, and +Infinity, give all ones (2^64 - 1); a NaN of either
    sign, every negative input, and every finite value of magnitude below 1
    give 0; a positive finite value in [1, 2^64) gives its integer part.
    The result is in doubleword 0, doubleword 1 is zero. *)
Theorem xscvqpudz_saturates (f128 : Z) :
  is_vec f128 ->
  let r := dw_h (vec_xscvqpudz f128) in
  dw_l (vec_xscvqpudz f128) = 0
  /\ (qp_is_finite f128 = true -> qp_sign f128 = false ->
      2 ^ 64 * qp_one <= qp_scaled f128 -> r = 2 ^ 64 - 1)
  /\ (qp_is_inf f128 = true -> qp_sign f128 = false -> r = 2 ^ 64 - 1)
  /\ (qp_is_nan f128 = true -> r = 0)
  /\ (qp_sign f128 = true -> r = 0)
  /\ (qp_is_finite f128 = true -> Z.abs (qp_scaled f128) < qp_one -> r = 0)
  /\ (qp_is_finite f128 = true -> qp_sign f128 = false ->
      qp_one <= qp_scaled f128 < 2 ^ 64 * qp_one ->
      r = qp_scaled f128 / qp_one).
Proof.
  intros Hv r. subst r. rewrite xscvqpudz_eq by assumption.
  pose proof (qp_exp_range f128) as He. pose proof (qp_sig_range f128) as Hs.
  pose proof (magnitude_ge_pow2 f128 64 ltac:(lia)) as M64.
  pose proof (magnitude_ge_one f128) as M0.
  set (r := if qp_exp f128 =? 32767 then _ else _).
  assert (Hr : 0 <= r < 2 ^ 64).
  { unfold r. destruct (qp_exp f128 =? 32767); [apply bmask_range; lia|].
    destruct ((16383 <=? qp_exp f128) && negb (qp_sign f128)); [|lia].
    destruct (qp_exp f128 <? 16383 + 64) eqn:E; [|lia].
    assert (0 <= 2 ^ (qp_exp f128 - 16383)) by (apply Z.pow_nonneg; lia).
    split; [apply Z.div_pos; nia|].
    apply Z.div_lt_upper_bound; [lia|].
    assert (2 ^ (qp_exp f128 - 16383) <= 2 ^ 63) by (apply Z.pow_le_mono_r; lia).
    nia. }
  rewrite dw_h_mk, dw_l_mk by lia. unfold r. clear r Hr.
  split; [reflexivity|]. repeat apply conj.
  - intros Hf Hp Hm. unfold qp_is_finite in Hf. rewrite qp_scaled_pos in Hm by assumption.
    apply M64 in Hm. rewrite Hp.
    replace (qp_exp f128 =? 32767) with false by lia.
    replace (16383 <=? qp_exp f128) with true by lia.
    replace (qp_exp f128 <? 16383 + 64) with false by lia. reflexivity.
  - intros Hi Hp. destruct (qp_inf_fields f128 Hi) as [E F]. rewrite E, F, Hp. reflexivity.
  - intros Hn. unfold qp_is_nan in Hn. apply andb_true_iff in Hn as [E F].
    rewrite E. apply negb_true_iff in F. rewrite F. reflexivity.
  - intros Hn. rewrite Hn. cbn [negb]. rewrite !andb_false_r.
    destruct (qp_exp f128 =? 32767); reflexivity.
  - intros Hf Hm. unfold qp_is_finite in Hf. rewrite qp_scaled_abs in Hm.
    replace (qp_exp f128 =? 32767) with false by lia.
    replace (16383 <=? qp_exp f128) with false by lia. reflexivity.
  - intros Hf Hp [Hm1 Hm2]. unfold qp_is_finite in Hf. rewrite qp_scaled_pos in * by assumption.
    apply M0 in Hm1. rewrite Hp.
    replace (qp_exp f128 =? 32767) with false by lia.
    replace (16383 <=? qp_exp f128) with true by lia.
    replace (qp_exp f128 <? 16383 + 64) with true by lia.
    cbn [negb andb]. symmetry. apply scaled_trunc. lia.
Qed.

Lemma xscvqpudz_saturates_witness :
  dw_h (vec_xscvqpudz (qp_pack false (16383 + 64) 0)) = 2 ^ 64 - 1
  /\ dw_h (vec_xscvqpudz (qp_pack true 0x7fff 1)) = 0.
Proof.
  split.
  - pose proof (xscvqpudz_saturates (qp_pack false (16383 + 64) 0)
                  ltac:(vm_compute; split; [discriminate|reflexivity])) as (_ & H & _).
    apply H; [vm_compute; reflexivity|vm_compute; reflexivity|].
    rewrite qp_scaled_pos by (vm_compute; reflexivity).
    apply magnitude_ge_pow2; [lia|]. vm_compute. discriminate.
  - pose proof (xscvqpudz_saturates (qp_pack true 0x7fff 1)
                  ltac:(vm_compute; split; [discriminate|reflexivity])) as (_ & _ & _ & H & _).
    apply H. vm_compute. reflexivity.
Defined.

(** ** Quad to double, the Infinity / NaN path *)

Lemma dp_insert_exp h sbit e :
  0 <= h < 2 ^ 52 -> 0 <= sbit < 2 ^ 1 -> 0 <= e < 2 ^ 11 ->
  Z.lor (Z.ldiff (Z.lor h (Z.shiftl sbit 63)) (Z.shiftl (Z.ones 11) 52)) (Z.shiftl e 52)
  = sbit * 2 ^ 63 + e * 2 ^ 52 + h.
Proof.
  intros Hh Hs He.
  replace (sbit * 2 ^ 63 + e * 2 ^ 52 + h) with ((sbit * 2 ^ 11 + e) * 2 ^ 52 + h) by lia.
  rewrite (add_lor_disj _ h 52), (add_lor_disj _ e 11) by lia.
  Z.bitblast; testbit_bounds; btauto.
Qed.

Lemma xviexpdp_h h s e :
  0 <= h < 2 ^ 52 -> 0 <= e < 2 ^ 11 ->
  vec_xviexpdp (vec_or (mk_dw h 0) (sign_bit s)) (mk_dw e 0) = mk_dw (dp_pack s e h) 0.
Proof.
  intros Hh He. unfold vec_xviexpdp, vec_or.
  set (sbit := if s then 1 else 0).
  assert (Hs : 0 <= sbit < 2 ^ 1) by (unfold sbit; destruct s; lia).
  assert (E : Z.lor (mk_dw h 0) (sign_bit s) = mk_dw (Z.lor h (Z.shiftl sbit 63)) 0).
  { unfold mk_dw, sign_bit, sbit. rewrite !Z.add_0_r, <- !Z.shiftl_mul_pow2 by lia.
    destruct s.
    - change (2 ^ 127) with (Z.shiftl (Z.shiftl 1 63) 64). rewrite <- Z.shiftl_lor. reflexivity.
    - rewrite Z.shiftl_0_l, !Z.lor_0_r. reflexivity. }
  rewrite E.
  assert (Hl : 0 <= Z.lor h (Z.shiftl sbit 63) < 2 ^ 64).
  { unfold sbit. destruct s.
    - change (Z.shiftl 1 63) with (Z.shiftl 1 63 + 0).
      rewrite Z.lor_comm, Z.add_0_r. change (Z.shiftl 1 63) with (Z.shiftl 1 63).
      rewrite <- add_lor_disj by lia. lia.
    - rewrite Z.shiftl_0_l, Z.lor_0_r. lia. }
  rewrite map2_dw by lia.
  rewrite (Z.mod_small e (2 ^ 11)) by lia.
  rewrite dp_insert_exp by assumption.
  change (Z.lor (Z.ldiff 0 (Z.shiftl (Z.ones 11) 52)) (Z.shiftl (0 mod 2 ^ 11) 52) mod 2 ^ 64)
    with 0.
  f_equal. unfold dp_pack, sbit. rewrite Z.mod_small by (destruct s; lia). destruct s; lia.
Qed.

Lemma qp_sign_land v : is_vec v ->
  vec_and_bin128_2_vui32t v (CONST_VINT128_W 0x80000000 0 0 0) = sign_bit (qp_sign v).
Proof.
  intros Hv. unfold vec_and_bin128_2_vui32t, vec_and. rewrite signmask_eq.
  unfold sign_bit, qp_sign.
  apply Z.bits_inj'; intros i Hi. rewrite Z.land_spec.
  destruct (Z.eq_dec i 127) as [->|Hne].
  - rewrite Z.pow2_bits_true, andb_true_r by lia.
    destruct (Z.testbit v 127); [now rewrite Z.pow2_bits_true by lia|now rewrite Z.bits_0].
  - rewrite Z.pow2_bits_false, andb_false_r by lia.
    destruct (Z.testbit v 127); [now rewrite Z.pow2_bits_false by lia|now rewrite Z.bits_0].
Qed.

Lemma quiet_high_bits f : 0 <= f < 2 ^ 112 ->
  Z.lor f (2 ^ 111) * 2 ^ 4 / 2 ^ 64 = Z.lor (f / 2 ^ 60) (2 ^ 51)
  /\ 0 <= Z.lor f (2 ^ 111) < 2 ^ 112.
Proof.
  intros Hf.
  assert (Hr : 0 <= Z.lor f (2 ^ 111) < 2 ^ 112) by (apply lor_range; lia).
  split; [|exact Hr].
  rewrite (div_pow2_shift _ 4 64 0 60) by lia. rewrite Z.pow_0_r, Z.mul_1_r.
  rewrite <- !Z.shiftr_div_pow2 by lia. rewrite Z.shiftr_lor. reflexivity.
Qed.

Lemma xscvqpdpo_naninf f128 : is_vec f128 -> qp_exp f128 = 0x7fff ->
  vec_xscvqpdpo f128
  = mk_dw (dp_pack (qp_sign f128) 0x7ff
             (if qp_frac f128 =? 0 then 0 else Z.lor (qp_frac f128 / 2 ^ 60) (2 ^ 51))) 0.
Proof.
  intros Hv He. unfold vec_xscvqpdpo. cbv zeta.
  pose proof (qp_frac_range f128) as Hf.
  rewrite xsxexpqp_eq, xsxsigqp_eq, qp_sign_land by assumption.
  unfold vec_splatd. rewrite He.
  rewrite elem_dw_h, splat_dw by lia.
  rewrite !const_dw by lia.
  unfold vec_cmpud_all_eq at 1. rewrite all2_dw by lia.
  cbn [Z.eqb Pos.eqb andb negb Z.ltb Z.compare Pos.compare Pos.compare_cont].
  rewrite Z.add_0_r. unfold vec_cmpequq.
  change (CONST_VINT64_DW 140737488355328 0) with (2 ^ 111).
  change (CONST_VINT64_DW 2047 0) with (mk_dw 2047 0).
  destruct (quiet_high_bits (qp_frac f128) Hf) as [Hq Hqr].
  assert (Hh : 0 <= Z.lor (qp_frac f128 / 2 ^ 60) (2 ^ 51) < 2 ^ 52).
  { rewrite <- Hq. split; [apply Z.div_pos; lia|apply Z.div_lt_upper_bound; lia]. }
  rewrite sel_bmask by (unfold is_vec, vec_or; lia).
  destruct (qp_frac f128 =? 0) eqn:Ef.
  - apply Z.eqb_eq in Ef. rewrite Ef.
    change (CONST_VINT64_DW (dw_h (vec_slqi 0 4)) 0) with (mk_dw 0 0).
    apply xviexpdp_h; lia.
  - unfold vec_slqi, vec_or, dw_h. rewrite (Z.mod_small (_ * 2 ^ 4)) by lia.
    rewrite Hq, (Z.mod_small _ (2 ^ 64)), const_dw by lia.
    apply xviexpdp_h; lia.
Qed.

Section DpPack.
Variables (s : bool) (e f : Z).
Hypothesis He : 0 <= e < 2 ^ 11.
Hypothesis Hf : 0 <= f < 2 ^ 52.

Lemma dp_pack_range : 0 <= dp_pack s e f < 2 ^ 64.
Proof. unfold dp_pack. destruct s; lia. Qed.

Lemma dp_frac_pack : dp_frac (dp_pack s e f) = f.
Proof.
  unfold dp_frac, dp_pack.
  replace ((if s then 2 ^ 63 else 0) + e * 2 ^ 52 + f)
    with (f + ((if s then 2 ^ 11 else 0) + e) * 2 ^ 52) by (destruct s; lia).
  rewrite Z.mod_add by lia. apply Z.mod_small; lia.
Qed.

Lemma dp_exp_pack : dp_exp (dp_pack s e f) = e.
Proof.
  unfold dp_exp, dp_pack.
  replace ((if s then 2 ^ 63 else 0) + e * 2 ^ 52 + f)
    with (f + ((if s then 2 ^ 11 else 0) + e) * 2 ^ 52) by (destruct s; lia).
  rewrite Z.div_add, Z.div_small by lia.
  replace (0 + ((if s then 2 ^ 11 else 0) + e)) with (e + (if s then 1 else 0) * 2 ^ 11)
    by (destruct s; lia).
  rewrite Z.mod_add by lia. apply Z.mod_small; lia.
Qed.

Lemma dp_sign_pack : dp_sign (dp_pack s e f) = s.
Proof.
  unfold dp_sign. pose proof dp_pack_range as Hr.
  destruct (Z.testbit (dp_pack s e f) 63) eqn:Hb.
  - rewrite Z.testbit_true in Hb by lia. unfold dp_pack in *.
    destruct s; [reflexivity|]. rewrite Z.div_small, Z.mod_0_l in Hb by lia. discriminate.
  - rewrite Z.testbit_false in Hb by lia. unfold dp_pack in *.
    destruct s; [|reflexivity].
    replace (2 ^ 63 + e * 2 ^ 52 + f) with ((e * 2 ^ 52 + f) + 1 * 2 ^ 63) in Hb by lia.
    rewrite Z.div_add, Z.div_small in Hb by lia. discriminate.
Qed.

Lemma dp_quiet_pack : dp_is_quiet (dp_pack s e f) = Z.testbit f 51.
Proof.
  unfold dp_is_quiet. rewrite <- dp_frac_pack at 2. unfold dp_frac.
  rewrite Z.testbit_mod_pow2 by lia. reflexivity.
Qed.
End DpPack.

(** C10. In vec_xscvqpdpo a NaN (quiet or signaling) gives a double NaN
    with the quiet bit set, the sign and the high-order payload bits of the
    input; an Infinity gives the double Infinity of the same sign, with no
    quiet bit added.  The data class is preserved by the narrowing.  The
    double is in doubleword 0, doubleword 1 is zero. *)
Theorem xscvqpdpo_nan_inf_class (f128 : Z) :
  is_vec f128 ->
  let d := dw_h (vec_xscvqpdpo f128) in
  (qp_is_nan f128 = true ->
     dw_l (vec_xscvqpdpo f128) = 0
     /\ dp_is_nan d = true /\ dp_is_quiet d = true /\ dp_sign d = qp_sign f128
     /\ dp_frac d = Z.lor (qp_frac f128 / 2 ^ 60) (2 ^ 51))
  /\ (qp_is_inf f128 = true ->
     dw_l (vec_xscvqpdpo f128) = 0
     /\ d = dp_pack (qp_sign f128) 0x7ff 0
     /\ dp_is_inf d = true /\ dp_is_quiet d = false /\ dp_sign d = qp_sign f128).
Proof.
  intros Hv d. subst d. pose proof (qp_frac_range f128) as Hf.
  destruct (quiet_high_bits (qp_frac f128) Hf) as [Hq Hqr].
  assert (Hh : 0 <= Z.lor (qp_frac f128 / 2 ^ 60) (2 ^ 51) < 2 ^ 52).
  { rewrite <- Hq. split; [apply Z.div_pos; lia|apply Z.div_lt_upper_bound; lia]. }
  assert (Hb : Z.testbit (Z.lor (qp_frac f128 / 2 ^ 60) (2 ^ 51)) 51 = true).
  { rewrite Z.lor_spec, Z.pow2_bits_true by lia. apply orb_true_r. }
  split.
  - intros Hn. unfold qp_is_nan in Hn. apply andb_true_iff in Hn as [He Hz].
    apply Z.eqb_eq in He. apply negb_true_iff in Hz.
    rewrite xscvqpdpo_naninf, Hz by assumption.
    pose proof (dp_pack_range (qp_sign f128) 2047 _ ltac:(lia) Hh).
    rewrite dw_h_mk, dw_l_mk by lia.
    unfold dp_is_nan. rewrite dp_exp_pack, dp_frac_pack, dp_sign_pack, dp_quiet_pack by lia.
    repeat split; try assumption.
    cbn [Z.eqb Pos.eqb andb]. apply negb_true_iff, Z.eqb_neq. intros E.
    rewrite E in Hb. discriminate.
  - intros Hi. destruct (qp_inf_fields f128 Hi) as [He Hz].
    rewrite xscvqpdpo_naninf, Hz by assumption. cbn [Z.eqb].
    pose proof (dp_pack_range (qp_sign f128) 2047 0 ltac:(lia) ltac:(lia)).
    rewrite dw_h_mk, dw_l_mk by lia.
    unfold dp_is_inf. rewrite dp_exp_pack, dp_frac_pack, dp_sign_pack, dp_quiet_pack by lia.
    repeat split.
Qed.

Lemma xscvqpdpo_nan_inf_class_witness :
  dp_is_nan (dw_h (vec_xscvqpdpo (qp_pack true 0x7fff 1))) = true
  /\ dw_h (vec_xscvqpdpo (qp_pack false 0x7fff 0)) = dp_pack false 0x7ff 0.
Proof.
  split.
  - pose proof (xscvqpdpo_nan_inf_class (qp_pack true 0x7fff 1)
                  ltac:(vm_compute; split; [discriminate|reflexivity])) as [H _].
    apply H. vm_compute. reflexivity.
  - pose proof (xscvqpdpo_nan_inf_class (qp_pack false 0x7fff 0)
                  ltac:(vm_compute; split; [discriminate|reflexivity])) as [_ H].
    apply H. vm_compute. reflexivity.
Defined.

(** ** Unsigned quadword to quad and back *)

Lemma clzq_eq n : 0 < n < 2 ^ 128 ->
  vec_clzq n = 127 - Z.log2 n /\ 0 <= 127 - Z.log2 n < 128
  /\ 2 ^ 127 <= n * 2 ^ (127 - Z.log2 n) < 2 ^ 128.
Proof.
  intros Hn. unfold vec_clzq. replace (n =? 0) with false by lia.
  pose proof (Z.log2_nonneg n). assert (Hl : Z.log2 n < 128) by (apply Z.log2_lt_pow2; lia).
  destruct (Z.log2_spec n ltac:(lia)) as [Hlo Hhi].
  split; [reflexivity|split; [lia|]].
  assert (Hp : 0 < 2 ^ (127 - Z.log2 n)) by (apply Z.pow_pos_nonneg; lia).
  assert (E1 : 2 ^ Z.log2 n * 2 ^ (127 - Z.log2 n) = 2 ^ 127).
  { rewrite <- Z.pow_add_r by lia. f_equal. lia. }
  assert (E2 : 2 ^ Z.succ (Z.log2 n) * 2 ^ (127 - Z.log2 n) = 2 ^ 128).
  { rewrite <- Z.pow_add_r by lia. f_equal. lia. }
  split.
  - rewrite <- E1. apply Z.mul_le_mono_nonneg_r; lia.
  - rewrite <- E2. apply Z.mul_lt_mono_pos_r; lia.
Qed.

(** An integer whose set bits span at most 113 positions has, once
    normalized, no bit below the 113-bit significand. *)
Lemma exact_low_bits n :
  0 < n < 2 ^ 128 -> (forall i, Z.testbit n i = true -> Z.log2 n - i < 113) ->
  (n * 2 ^ (127 - Z.log2 n)) mod 2 ^ 15 = 0.
Proof.
  intros Hn Hx. destruct (clzq_eq n Hn) as (_ & Hc & _).
  rewrite <- Z.land_ones, <- Z.shiftl_mul_pow2 by lia.
  apply Z.bits_inj'; intros j Hj. rewrite Z.land_spec, Z.bits_0.
  destruct (Z.lt_ge_cases j 15).
  - rewrite Z.ones_spec_low, andb_true_r by lia.
    destruct (Z.lt_ge_cases j (127 - Z.log2 n)).
    + apply Z.shiftl_spec_low. lia.
    + rewrite Z.shiftl_spec by lia.
      destruct (Z.testbit n (j - (127 - Z.log2 n))) eqn:E; [|reflexivity].
      apply Hx in E. lia.
  - rewrite Z.ones_spec_high by lia. apply andb_false_r.
Qed.

Lemma srhi_low_bit N :
  vec_and (vec_srhi N 15) (CONST_VINT128_W 0 0 0 1) = ((N mod 2 ^ 16) / 2 ^ 15) mod 2.
Proof.
  unfold vec_and, vec_srhi. change (CONST_VINT128_W 0 0 0 1) with (Z.ones 1).
  rewrite Z.land_ones by lia. rewrite (map2_lanes_S 16 7). change (2 ^ 1) with 2.
  set (r := map2_lanes 16 7 _ _ _).
  replace (((N mod 2 ^ 16) / 2 ^ 15) mod 2 ^ 16 + 2 ^ 16 * r)
    with (((N mod 2 ^ 16) / 2 ^ 15) mod 2 ^ 16 + (2 ^ 15 * r) * 2) by lia.
  rewrite Z.mod_add by lia.
  pose proof (Z.mod_pos_bound N (2 ^ 16) ltac:(lia)).
  rewrite (Z.mod_small (_ / 2 ^ 15) (2 ^ 16)); [reflexivity|].
  split; [apply Z.div_pos; lia|apply Z.div_lt_upper_bound; lia].
Qed.

(** The conversion of an exactly representable nonzero integer: no
    rounding, the exponent is the position of the leading one. *)
Lemma xscvuqqp_exact n :
  0 < n < 2 ^ 128 -> (forall i, Z.testbit n i = true -> Z.log2 n - i < 113) ->
  vec_xscvuqqp n
  = qp_pack false (0x3fff + Z.log2 n) ((n * 2 ^ (127 - Z.log2 n) / 2 ^ 15) mod 2 ^ 112)
  /\ 2 ^ 112 <= n * 2 ^ (127 - Z.log2 n) / 2 ^ 15 < 2 ^ 113.
Proof.
  intros Hn Hx. destruct (clzq_eq n Hn) as (Hc & Hcr & HN).
  pose proof (exact_low_bits n Hn Hx) as Hlow.
  set (c := 127 - Z.log2 n) in *. set (N := n * 2 ^ c) in *.
  pose proof (Z.div_mod N (2 ^ 15) ltac:(lia)) as HdN. rewrite Hlow in HdN.
  assert (Hq : 2 ^ 112 <= N / 2 ^ 15 < 2 ^ 113) by lia.
  split; [|exact Hq].
  unfold vec_xscvuqqp. cbv zeta. unfold vec_cmpuq_all_eq.
  replace (n =? 0) with false by lia. rewrite Hc.
  unfold vec_slq. rewrite (Z.mod_small c 128) by lia. fold N.
  rewrite (Z.mod_small N) by lia.
  rewrite srhi_low_bit.
  set (o := ((N mod 2 ^ 16) / 2 ^ 15) mod 2).
  assert (Ho : 0 <= o < 2) by (apply Z.mod_pos_bound; lia).
  assert (Hor : vec_or N o = N + o).
  { unfold vec_or. replace N with ((N / 2 ^ 15) * 2 ^ 15 + 0) at 1 by lia.
    rewrite (add_lor_disj _ 0 15), Z.lor_0_r, <- add_lor_disj by lia. lia. }
  rewrite Hor. change (CONST_VINT128_W 0 0 0 16383) with 16383.
  assert (Hcy : vec_addcuq (N + o) 16383 = 0).
  { unfold vec_addcuq. apply Z.div_small. lia. }
  rewrite Hcy. unfold vec_setb_cyq. rewrite Z.bits_0. cbn [bmask].
  rewrite sel_zero.
  unfold vec_adduqm, vec_srqi. rewrite (Z.mod_small (N + o + 16383)) by lia.
  assert (Hsh : (N + o + 16383) / 2 ^ 15 = N / 2 ^ 15).
  { replace (N + o + 16383) with ((o + 16383) + (N / 2 ^ 15) * 2 ^ 15) by lia.
    rewrite Z.div_add, Z.div_small by lia. lia. }
  rewrite Hsh.
  assert (Hexp : vec_swapd (vec_addudm (vec_subudm (CONST_VINT64_DW 0 (16383 + 127)) c) 0)
                 = mk_dw (16383 + 127 - c) 0).
  { change (CONST_VINT64_DW 0 (16383 + 127)) with (mk_dw 0 (16383 + 127)).
    replace c with (mk_dw 0 c) at 1 by (unfold mk_dw; lia).
    unfold vec_subudm, vec_addudm. rewrite map2_dw by lia.
    change ((0 - 0) mod 2 ^ 64) with 0. rewrite (Z.mod_small (16383 + 127 - c)) by lia.
    change 0 with (mk_dw 0 0) at 2. rewrite map2_dw by lia.
    change ((0 + 0) mod 2 ^ 64) with 0. rewrite Z.add_0_r, (Z.mod_small (16383 + 127 - c)) by lia.
    apply swapd_mk; lia. }
  rewrite Hexp.
  replace (N / 2 ^ 15) with (vec_or (N / 2 ^ 15) (sign_bit false)) at 1
    by (unfold vec_or, sign_bit; apply Z.lor_0_r).
  rewrite xsiexpqp_pack by lia.
  f_equal. unfold c. lia.
Qed.

Lemma xscvqpuqz_integer e sig k :
  2 ^ 112 <= sig < 2 ^ 113 -> 0 <= k < 128 -> e = 0x3fff + k ->
  vec_xscvqpuqz (qp_pack false e (sig mod 2 ^ 112)) = sig * 2 ^ 15 / 2 ^ (127 - k).
Proof.
  intros Hs Hk He.
  pose proof (Z.mod_pos_bound sig (2 ^ 112) ltac:(lia)) as Hm.
  assert (Hv : is_vec (qp_pack false e (sig mod 2 ^ 112))) by (apply qp_pack_range; lia).
  unfold vec_xscvqpuqz. cbv zeta.
  rewrite xsxexpqp_eq, xsxsigqp_eq, setb_qp_eq by assumption.
  rewrite qp_exp_pack, qp_frac_pack, qp_sign_pack by lia.
  unfold vec_splatd. rewrite elem_dw_h, splat_dw by lia.
  rewrite !const_dw by lia.
  unfold vec_cmpud_all_eq, vec_cmpud_all_ge, vec_cmpud_all_lt.
  cbn [bmask]. change 0 with (mk_dw 0 0) at 6 7.
  rewrite !all2_dw by lia. rewrite !andb_diag.
  replace (e =? 32767) with false by lia. replace (16383 <=? e) with true by lia.
  replace (e <? 16383 + 128) with true by lia.
  replace ((0 <? e) && (e <? 32767)) with true by lia.
  cbn [negb andb Z.eqb].
  assert (Hsig : sig mod 2 ^ 112 + 2 ^ 112 = sig).
  { pose proof (Z.div_mod sig (2 ^ 112) ltac:(lia)).
    assert (sig / 2 ^ 112 = 1); [|lia].
    symmetry. apply Z.div_unique with (r := sig - 2 ^ 112); lia. }
  rewrite Hsig. unfold vec_slqi, vec_srq, vec_subudm.
  rewrite map2_dw by lia. rewrite (Z.mod_small (sig * 2 ^ 15)) by lia.
  rewrite (Z.mod_small (16383 + 127 - e)) by lia.
  replace (mk_dw (16383 + 127 - e) (16383 + 127 - e) mod 128) with (127 - k); [reflexivity|].
  unfold mk_dw.
  replace ((16383 + 127 - e) * 2 ^ 64 + (16383 + 127 - e))
    with ((127 - k) + ((127 - k) * 2 ^ 57) * 128) by lia.
  rewrite Z.mod_add by lia. symmetry. apply Z.mod_small. lia.
Qed.

(** C7. Round trip: an unsigned 128-bit integer whose set bits span at
    most 113 positions (every set bit is less than 113 below the highest
    one; zero included) is returned exactly by vec_xscvuqqp followed by the
    truncating vec_xscvqpuqz. *)
Theorem uqqp_qpuqz_roundtrip (n : Z) :
  0 <= n < 2 ^ 128 ->
  (forall i, Z.testbit n i = true -> Z.log2 n - i < 113) ->
  vec_xscvqpuqz (vec_xscvuqqp n) = n.
Proof.
  intros Hn Hx. destruct (Z.eq_dec n 0) as [->|Hne]; [reflexivity|].
  assert (Hn' : 0 < n < 2 ^ 128) by lia.
  destruct (xscvuqqp_exact n Hn' Hx) as [E Hq]. rewrite E.
  destruct (clzq_eq n Hn') as (_ & Hc & HN).
  pose proof (exact_low_bits n Hn' Hx) as Hlow.
  rewrite (xscvqpuqz_integer _ _ (Z.log2 n)) by lia.
  set (c := 127 - Z.log2 n) in *.
  pose proof (Z.div_mod (n * 2 ^ c) (2 ^ 15) ltac:(lia)) as Hd. rewrite Hlow in Hd.
  replace (n * 2 ^ c / 2 ^ 15 * 2 ^ 15) with (n * 2 ^ c) by lia.
  apply Z.div_mul. apply Z.pow_nonzero; lia.
Qed.

Lemma uqqp_qpuqz_roundtrip_witness :
  vec_xscvqpuqz (vec_xscvuqqp (Z.shiftl 12345 100)) = Z.shiftl 12345 100.
Proof.
  apply (uqqp_qpuqz_roundtrip (Z.shiftl 12345 100)).
  - vm_compute. split; [discriminate|reflexivity].
  - intros i Hi. change (Z.log2 (Z.shiftl 12345 100)) with 113.
    destruct (Z.lt_ge_cases i 100) as [Hlt|Hge]; [|lia].
    destruct (Z.lt_ge_cases i 0) as [Hneg|Hpos].
    + rewrite Z.testbit_neg_r in Hi by lia. discriminate.
    + rewrite Z.shiftl_spec_low in Hi by lia. discriminate.
Defined.

(** ** Subtract against add of the negated operand *)

Lemma lxor_signmask m : 0 <= m < 2 ^ 127 -> Z.lxor m (2 ^ 127) = m + 2 ^ 127.
Proof.
  intros Hm. rewrite Z.lxor_lor.
  - rewrite Z.lor_comm. change (2 ^ 127) with (Z.shiftl 1 127) at 1.
    rewrite <- add_lor_disj by lia. lia.
  - apply Z.bits_inj'; intros i Hi. rewrite Z.land_spec, Z.bits_0.
    destruct (Z.eq_dec i 127) as [->|Hne].
    + rewrite (testbit_high m 127) by lia. reflexivity.
    + rewrite Z.pow2_bits_false by lia. apply andb_false_r.
Qed.

Lemma negf128_eq v : is_vec v ->
  vec_negf128 v = qp_pack (negb (qp_sign v)) (qp_exp v) (qp_frac v).
Proof.
  intros Hv. unfold vec_negf128, vec_xor_bin128_2_vui32t, vec_xfer_vui32t_2_bin128, vec_xor.
  cbv zeta. rewrite signmask_eq.
  pose proof (qp_exp_range v) as He. pose proof (qp_frac_range v) as Hf.
  rewrite (qp_fields v Hv) at 1. unfold qp_pack, sign_bit.
  set (m := qp_exp v * 2 ^ 112 + qp_frac v).
  assert (Hm : 0 <= m < 2 ^ 127) by (unfold m; lia).
  destruct (qp_sign v); cbn [negb].
  - replace (2 ^ 127 + qp_exp v * 2 ^ 112 + qp_frac v) with (m + 2 ^ 127) by (unfold m; lia).
    rewrite <- lxor_signmask by assumption.
    rewrite Z.lxor_assoc, Z.lxor_nilpotent, Z.lxor_0_r. unfold m. lia.
  - replace (0 + qp_exp v * 2 ^ 112 + qp_frac v) with m by (unfold m; lia).
    rewrite lxor_signmask by assumption. unfold m. lia.
Qed.

Lemma negf128_fields v : is_vec v ->
  is_vec (vec_negf128 v)
  /\ qp_sign (vec_negf128 v) = negb (qp_sign v)
  /\ qp_exp (vec_negf128 v) = qp_exp v
  /\ qp_frac (vec_negf128 v) = qp_frac v.
Proof.
  intros Hv. rewrite negf128_eq by assumption.
  pose proof (qp_exp_range v) as He. pose proof (qp_frac_range v) as Hf.
  split; [apply qp_pack_range; assumption|].
  rewrite qp_sign_pack, qp_exp_pack, qp_frac_pack by assumption. repeat split.
Qed.

Lemma sub_signmask : vec_nor vec_mask128_f128mag vec_mask128_f128mag = 2 ^ 127.
Proof. vm_compute. reflexivity. Qed.

Lemma xor_signmask s : vec_xor (2 ^ 127) (sign_bit s) = sign_bit (negb s).
Proof. destruct s; reflexivity. Qed.

Lemma xssubqpo_not_nan vfa vfb : is_vec vfa -> is_vec vfb ->
  qp_is_nan vfb = false ->
  vec_xssubqpo vfa vfb = vec_xsaddqpo vfa (vec_negf128 vfb).
Proof.
  intros Ha Hb Nb. destruct (negf128_fields vfb Hb) as (Hn & Sn & En & Fn).
  unfold vec_xssubqpo, vec_xsaddqpo. cbv zeta.
  rewrite !xxxexpqpp_eq, !mag_eq, !sign_eq, !all_isnan_eq by assumption.
  rewrite sub_signmask, xor_signmask.
  assert (Nn : qp_is_nan (vec_negf128 vfb) = false) by (unfold qp_is_nan; rewrite En, Fn; exact Nb).
  rewrite Nn, Nb, Sn, En, Fn.
  rewrite all_eq_sign, any_ne_sign.
  replace (xorb (qp_sign vfa) (negb (qp_sign vfb))) with (negb (xorb (qp_sign vfa) (qp_sign vfb)))
    by (destruct (qp_sign vfa), (qp_sign vfb); reflexivity).
  reflexivity.
Qed.

Lemma xssubqpo_nan vfa vfb : is_vec vfa -> is_vec vfb ->
  (qp_is_nan vfa || qp_is_nan vfb) = true ->
  vec_xssubqpo vfa vfb = (if qp_is_nan vfa then Z.lor vfa qp_qbit else Z.lor vfb qp_qbit).
Proof.
  intros Ha Hb Hn. unfold vec_xssubqpo. cbv zeta.
  rewrite xxxexpqpp_eq, all_finite_eq by auto using qp_exp_range.
  rewrite !all_isnan_eq, !quiet_or by assumption.
  unfold vec_xfer_vui32t_2_bin128.
  destruct (qp_is_nan vfa) eqn:Na.
  - rewrite (nan_not_finite vfa Na). reflexivity.
  - cbn [orb] in Hn. rewrite Hn, (nan_not_finite vfb Hn), andb_false_r. reflexivity.
Qed.

(** C5 fails as stated when both operands are NaNs: the first operand is
    tested first, so the result is [vfa] quieted, not [vfb] quieted. *)
Lemma xssubqpo_second_nan_counterexample :
  qp_is_nan (qp_pack true 0x7fff 2) = true
  /\ vec_xssubqpo (qp_pack false 0x7fff 1) (qp_pack true 0x7fff 2)
     <> Z.lor (qp_pack true 0x7fff 2) qp_qbit.
Proof. split; [reflexivity|]. vm_compute. discriminate. Qed.

(** C5 (amended). When [vfb] is not a NaN, vec_xssubqpo (vfa, vfb) is
    vec_xsaddqpo (vfa, vfb with its sign bit flipped).  When [vfb] is a NaN
    and [vfa] is not, vec_xssubqpo returns [vfb] with only the quiet bit
    ORed in, its sign unchanged, whereas adding the negated operand would
    return the NaN with the opposite sign.  When [vfa] is a NaN the result
    is [vfa] with the quiet bit ORed in. *)
Theorem xssubqpo_is_add_of_negated (vfa vfb : Z) :
  is_vec vfa -> is_vec vfb ->
  (qp_is_nan vfb = false ->
     vec_xssubqpo vfa vfb = vec_xsaddqpo vfa (vec_negf128 vfb))
  /\ (qp_is_nan vfb = true -> qp_is_nan vfa = false ->
     vec_xssubqpo vfa vfb = Z.lor vfb qp_qbit
     /\ qp_sign (vec_xssubqpo vfa vfb) = qp_sign vfb
     /\ qp_sign (vec_xsaddqpo vfa (vec_negf128 vfb)) = negb (qp_sign vfb))
  /\ (qp_is_nan vfa = true -> vec_xssubqpo vfa vfb = Z.lor vfa qp_qbit).
Proof.
  intros Ha Hb. split; [|split].
  - now apply xssubqpo_not_nan.
  - intros Nb Na. destruct (negf128_fields vfb Hb) as (Hn & Sn & En & Fn).
    assert (Nn : qp_is_nan (vec_negf128 vfb) = true) by (unfold qp_is_nan; rewrite En, Fn; exact Nb).
    rewrite xssubqpo_nan, xsaddqpo_nan, Na by (assumption || (rewrite ?Nb, ?Nn; apply orb_true_r)).
    destruct (quieted_nan vfb Hb Nb) as (_ & _ & _ & S1).
    destruct (quieted_nan _ Hn Nn) as (_ & _ & _ & S2).
    rewrite S1, S2, Sn. repeat split.
  - intros Na. rewrite xssubqpo_nan, Na by (assumption || (rewrite Na; reflexivity)). reflexivity.
Qed.

Lemma xssubqpo_is_add_of_negated_witness :
  vec_xssubqpo (qp_pack false 0x3fff 0) (qp_pack false 0x4000 0)
  = vec_xsaddqpo (qp_pack false 0x3fff 0) (vec_negf128 (qp_pack false 0x4000 0))
  /\ vec_xssubqpo (qp_pack false 0x3fff 0) (qp_pack true 0x7fff 2)
     = Z.lor (qp_pack true 0x7fff 2) qp_qbit.
Proof.
  split.
  - pose proof (xssubqpo_is_add_of_negated (qp_pack false 0x3fff 0) (qp_pack false 0x4000 0)
                  ltac:(vm_compute; split; [discriminate|reflexivity])
                  ltac:(vm_compute; split; [discriminate|reflexivity])) as [H _].
    apply H. vm_compute. reflexivity.
  - pose proof (xssubqpo_is_add_of_negated (qp_pack false 0x3fff 0) (qp_pack true 0x7fff 2)
                  ltac:(vm_compute; split; [discriminate|reflexivity])
                  ltac:(vm_compute; split; [discriminate|reflexivity])) as (_ & H & _).
    apply H; vm_compute; reflexivity.
Defined.

(** ** Add: operand extraction *)

Lemma land_ones_small x k : 0 <= x < 2 ^ k -> 0 <= k -> Z.land x (Z.ones k) = x.
Proof. intros. rewrite Z.land_ones by lia. apply Z.mod_small; lia. Qed.

Lemma ldiff_ones_small x k : 0 <= x < 2 ^ k -> 0 <= k -> Z.ldiff x (Z.ones k) = 0.
Proof.
  intros. rewrite Z.ldiff_ones_r by lia.
  rewrite Z.shiftr_div_pow2, Z.div_small by lia. apply Z.shiftl_0_l.
Qed.

(** Select under a mask that is all ones or zero in the low word of each
    doubleword, on doublewords below 2^32. *)
Lemma selud_lowword a1 a0 b1 b0 c1 c0 :
  0 <= a1 < 2 ^ 32 -> 0 <= a0 < 2 ^ 32 -> 0 <= b1 < 2 ^ 32 -> 0 <= b0 < 2 ^ 32 ->
  vec_selud (mk_dw a1 a0) (mk_dw b1 b0) (mk_dw (bmask 32 c1) (bmask 32 c0))
  = mk_dw (if c1 then b1 else a1) (if c0 then b0 else a0).
Proof.
  intros Ha1 Ha0 Hb1 Hb0. unfold vec_selud, vec_sel, mk_dw.
  destruct c1, c0; cbn [bmask]; rewrite ?Z.mul_0_l, ?Z.add_0_l, ?Z.add_0_r;
    rewrite ?(add_lor_disj a1 a0 64), ?(add_lor_disj b1 b0 64),
      ?(add_lor_disj b1 a0 64), ?(add_lor_disj a1 b0 64),
      ?(add_lor_disj (Z.ones 32) (Z.ones 32) 64) by (try (cbn; lia); lia);
    rewrite <- ?Z.shiftl_mul_pow2 by lia;
    Z.bitblast; testbit_bounds; btauto.
Qed.

Lemma expand_norm_mask c : splat 32 4 (bmask 32 c) = bmask 128 c.
Proof. destruct c; reflexivity. Qed.

Lemma sel_hidden f c : 0 <= f < 2 ^ 112 ->
  vec_sel f (bmask 128 c) (2 ^ 112) = f + (if c then 2 ^ 112 else 0).
Proof.
  intros Hf. unfold vec_sel.
  assert (Hd : Z.ldiff f (2 ^ 112) = f).
  { apply Z.bits_inj'; intros i Hi. rewrite Z.ldiff_spec.
    destruct (Z.eq_dec i 112) as [->|Hne].
    - rewrite (testbit_high f 112) by lia. reflexivity.
    - rewrite Z.pow2_bits_false by lia. apply andb_true_r. }
  rewrite Hd. destruct c; cbn [bmask].
  - rewrite Z.land_comm, land_ones_small by lia.
    rewrite Z.lor_comm. change (2 ^ 112) with (Z.shiftl 1 112) at 1.
    rewrite <- add_lor_disj by lia. lia.
  - rewrite Z.land_0_l, Z.lor_0_r. lia.
Qed.

Lemma exp_words ea eb : 0 <= ea < 2 ^ 15 -> 0 <= eb < 2 ^ 15 ->
  mk_dw ea eb = CONST_VINT128_W 0 ea 0 eb.
Proof.
  intros. unfold mk_dw, CONST_VINT128_W. rewrite !Z.mod_small by lia. lia.
Qed.

Lemma xsaddqpo_extract_eq vfa vfb : is_vec vfa -> is_vec vfb ->
  xsaddqpo_extract (qp_exp vfa * 2 ^ 112 + qp_frac vfa) (qp_exp vfb * 2 ^ 112 + qp_frac vfb)
    (mk_dw (qp_exp vfa) (qp_exp vfb))
  = (qp_sig vfa, qp_sig vfb, mk_dw (qp_e vfa) (qp_e vfb)).
Proof.
  intros Ha Hb. unfold xsaddqpo_extract. cbv zeta.
  pose proof (qp_exp_range vfa) as Hea. pose proof (qp_exp_range vfb) as Heb.
  pose proof (qp_frac_range vfa) as Hfa. pose proof (qp_frac_range vfb) as Hfb.
  rewrite mask128_sig_eq, mask128_Lbit_eq. unfold vec_and. rewrite !Z.land_ones by lia.
  replace ((qp_exp vfa * 2 ^ 112 + qp_frac vfa) mod 2 ^ 112) with (qp_frac vfa)
    by (rewrite Z.add_comm, Z.mod_add, Z.mod_small by lia; reflexivity).
  replace ((qp_exp vfb * 2 ^ 112 + qp_frac vfb) mod 2 ^ 112) with (qp_frac vfb)
    by (rewrite Z.add_comm, Z.mod_add, Z.mod_small by lia; reflexivity).
  assert (Hn : vec_cmpgt_w (mk_dw (qp_exp vfa) (qp_exp vfb)) q_zero
               = CONST_VINT128_W 0 (bmask 32 (0 <? qp_exp vfa)) 0 (bmask 32 (0 <? qp_exp vfb))).
  { unfold vec_cmpgt_w. rewrite exp_words by assumption.
    change q_zero with (CONST_VINT128_W 0 0 0 0). rewrite map2_w4 by lia. reflexivity. }
  rewrite Hn.
  pose proof (bmask_range 32 (0 <? qp_exp vfa) ltac:(lia)) as Hma.
  pose proof (bmask_range 32 (0 <? qp_exp vfb) ltac:(lia)) as Hmb.
  destruct (elem_w4 0 (bmask 32 (0 <? qp_exp vfa)) 0 (bmask 32 (0 <? qp_exp vfb))
              ltac:(lia) Hma ltac:(lia) Hmb) as [Hw1 Hw3].
  unfold vec_splat_w. rewrite Hw1, Hw3, !expand_norm_mask, !sel_hidden by assumption.
  replace (CONST_VINT128_W 0 (bmask 32 (0 <? qp_exp vfa)) 0 (bmask 32 (0 <? qp_exp vfb)))
    with (mk_dw (bmask 32 (0 <? qp_exp vfa)) (bmask 32 (0 <? qp_exp vfb)))
    by (unfold mk_dw, CONST_VINT128_W; rewrite !Z.mod_small by lia; lia).
  unfold vec_splat_u64. rewrite splat_dw by lia.
  rewrite selud_lowword by lia.
  unfold qp_sig, qp_e. repeat f_equal.
  - destruct (0 <? qp_exp vfa) eqn:E; lia.
  - destruct (0 <? qp_exp vfb) eqn:E; lia.
Qed.

(** ** Add: swap, combine and dispatch *)

Lemma setb_sq_sign s : vec_setb_sq (sign_bit s) = bmask 128 s.
Proof. destruct s; reflexivity. Qed.

Lemma slqi_small x n : 0 <= n -> 0 <= x * 2 ^ n < 2 ^ 128 -> vec_slqi x n = x * 2 ^ n.
Proof. intros. unfold vec_slqi. apply Z.mod_small. lia. Qed.

Lemma sign_bit_range s : is_vec (sign_bit s).
Proof. unfold is_vec. destruct s; cbn; lia. Qed.

Section Combine.
Variables (ma mb siga sigb ea eb : Z) (sa sb : bool).
Hypothesis Hma : 0 <= ma < 2 ^ 127.
Hypothesis Hmb : 0 <= mb < 2 ^ 127.
Hypothesis Hsa : 0 <= siga < 2 ^ 113.
Hypothesis Hsb : 0 <= sigb < 2 ^ 113.
Hypothesis Hea : 1 <= ea < 2 ^ 15.
Hypothesis Heb : 1 <= eb < 2 ^ 15.

(** The operands after the swap: [a] is the one of larger magnitude. *)
Lemma xsaddqpo_combine_eq :
  xsaddqpo_combine ma mb (sign_bit sa) (sign_bit sb) siga sigb (mk_dw ea eb)
  = let lt := ma <? mb in
    let e1 := if lt then eb else ea in
    let e2 := if lt then ea else eb in
    let a_sig := (if lt then sigb else siga) * 2 ^ 3 in
    let b_sig := xsaddqpo_align (mk_dw e1 e1) (mk_dw e2 e2) ((if lt then siga else sigb) * 2 ^ 3) in
    let s_sig := if xorb sa sb then vec_subuqm a_sig b_sig else vec_adduqm a_sig b_sig in
    let q_sign := sign_bit (if lt then sb else sa) in
    if s_sig =? 0 then (if xorb sa sb then 0 else sign_bit sa)
    else
      let '(s_sig, q_exp) := xsaddqpo_normalize s_sig (mk_dw e1 e1) in
      if vec_cmpud_all_ge q_exp vec_mask64_f128exp
      then vec_or (CONST_VINT128_W 0x7ffeffff (-1) (-1) (-1)) q_sign
      else vec_xsiexpqp (vec_or (round_to_odd_grx s_sig) q_sign) q_exp.
Proof.
  unfold xsaddqpo_combine. cbv zeta.
  rewrite xor_sign, setb_sq_sign. unfold vec_cmpltuq.
  rewrite !slqi_small by lia. rewrite swapd_mk by lia.
  unfold vec_seluq, vec_selud, vec_xfer_vui32t_2_bin128, vec_cmpuq_all_eq.
  rewrite q_zero_eq.
  pose proof (sign_bit_range sa). pose proof (sign_bit_range sb).
  assert (is_vec (siga * 2 ^ 3)) by (unfold is_vec; lia).
  assert (is_vec (sigb * 2 ^ 3)) by (unfold is_vec; lia).
  assert (is_vec (mk_dw ea eb)) by (apply mk_dw_range; lia).
  assert (is_vec (mk_dw eb ea)) by (apply mk_dw_range; lia).
  rewrite !(sel_bmask _ _ (ma <? mb)) by assumption.
  rewrite (sel_bmask (sign_bit sa) 0) by (assumption || (unfold is_vec; lia)).
  unfold vec_splatd.
  destruct (ma <? mb).
  - rewrite elem_dw_h, elem_dw_l, !splat_dw by lia.
    rewrite sel_bmask by (apply is_vec_mod).
    destruct (xorb sa sb); reflexivity.
  - rewrite elem_dw_h, elem_dw_l, !splat_dw by lia.
    rewrite sel_bmask by (apply is_vec_mod).
    destruct (xorb sa sb); reflexivity.
Qed.
End Combine.

(** ** Add: the finite path and exact zero results *)

Lemma xsaddqpo_finite vfa vfb : is_vec vfa -> is_vec vfb ->
  qp_is_finite vfa = true -> qp_is_finite vfb = true ->
  vec_xsaddqpo vfa vfb
  = xsaddqpo_combine (qp_exp vfa * 2 ^ 112 + qp_frac vfa) (qp_exp vfb * 2 ^ 112 + qp_frac vfb)
      (sign_bit (qp_sign vfa)) (sign_bit (qp_sign vfb))
      (qp_sig vfa) (qp_sig vfb) (mk_dw (qp_e vfa) (qp_e vfb)).
Proof.
  intros Ha Hb Fa Fb. unfold vec_xsaddqpo. cbv zeta.
  rewrite xxxexpqpp_eq, all_finite_eq, !mag_eq, !sign_eq by auto using qp_exp_range.
  unfold qp_is_finite in Fa, Fb. rewrite Fa, Fb. cbn [andb].
  rewrite xsaddqpo_extract_eq by assumption. reflexivity.
Qed.

Lemma qp_mag_range v : 0 <= qp_exp v * 2 ^ 112 + qp_frac v < 2 ^ 127.
Proof. pose proof (qp_exp_range v). pose proof (qp_frac_range v). lia. Qed.

Lemma qp_sig_zero v : qp_sig v = 0 -> qp_exp v = 0 /\ qp_frac v = 0.
Proof.
  unfold qp_sig. pose proof (qp_exp_range v). pose proof (qp_frac_range v).
  destruct (0 <? qp_exp v) eqn:E; lia.
Qed.

(** The scaled magnitude determines exponent and fraction. *)
Lemma scaled_magnitude_lt va vb : qp_e va < qp_e vb ->
  qp_sig va * 2 ^ (qp_e va - 1) < qp_sig vb * 2 ^ (qp_e vb - 1).
Proof.
  intros Hlt. pose proof (qp_e_range va) as Ha. pose proof (qp_e_range vb) as Hb.
  assert (Hnb : 0 < qp_exp vb) by (unfold qp_e in *; lia).
  pose proof (pow2_mul_upper (qp_sig va) (qp_e va - 1) (qp_sig_range va) ltac:(lia)) as Hup.
  pose proof (pow2_mul_lower (qp_sig vb) (qp_e vb - 1) (qp_sig_normal vb Hnb) ltac:(lia)) as Hlo.
  assert (2 ^ (113 + (qp_e va - 1)) <= 2 ^ (112 + (qp_e vb - 1))) by (apply Z.pow_le_mono_r; lia).
  lia.
Qed.

Lemma scaled_magnitude_inj va vb :
  qp_sig va * 2 ^ (qp_e va - 1) = qp_sig vb * 2 ^ (qp_e vb - 1) ->
  qp_exp va = qp_exp vb /\ qp_frac va = qp_frac vb.
Proof.
  intros E. pose proof (qp_e_range va) as Ha. pose proof (qp_e_range vb) as Hb.
  destruct (Z.lt_trichotomy (qp_e va) (qp_e vb)) as [Hlt|[Heq|Hgt]].
  - pose proof (scaled_magnitude_lt va vb Hlt). lia.
  - rewrite Heq in E. apply Z.mul_cancel_r in E; [|apply Z.pow_nonzero; lia].
    unfold qp_sig, qp_e in *.
    pose proof (qp_exp_range va). pose proof (qp_exp_range vb).
    pose proof (qp_frac_range va). pose proof (qp_frac_range vb).
    destruct (0 <? qp_exp va) eqn:E1; destruct (0 <? qp_exp vb) eqn:E2; lia.
  - pose proof (scaled_magnitude_lt vb va ltac:(lia)). lia.
Qed.

Lemma scaled_nonneg v : 0 <= qp_sig v * 2 ^ (qp_e v - 1).
Proof.
  pose proof (qp_sig_range v). pose proof (qp_e_range v).
  apply Z.mul_nonneg_nonneg; [lia|apply Z.pow_nonneg; lia].
Qed.

(** An exact sum of zero is a cancellation of equal magnitudes of opposite
    signs, or a sum of two zeros. *)
Lemma exact_zero_sum vfa vfb : qp_scaled vfa + qp_scaled vfb = 0 ->
  qp_exp vfa = qp_exp vfb /\ qp_frac vfa = qp_frac vfb
  /\ (xorb (qp_sign vfa) (qp_sign vfb) = false -> qp_sig vfa = 0).
Proof.
  unfold qp_scaled. intros E.
  pose proof (scaled_nonneg vfa) as Ha. pose proof (scaled_nonneg vfb) as Hb.
  pose proof (qp_e_range vfa) as Hea. pose proof (qp_e_range vfb) as Heb.
  assert (Hp : forall v, 0 < 2 ^ (qp_e v - 1))
    by (intros v; apply Z.pow_pos_nonneg; pose proof (qp_e_range v); lia).
  destruct (qp_sign vfa), (qp_sign vfb); cbn [xorb].
  - assert (E1 : qp_sig vfa * 2 ^ (qp_e vfa - 1) = 0) by lia.
    assert (E2 : qp_sig vfb * 2 ^ (qp_e vfb - 1) = 0) by lia.
    destruct (scaled_magnitude_inj vfa vfb ltac:(lia)) as [H1 H2].
    split; [exact H1|split; [exact H2|]]. intros _.
    apply Z.mul_eq_0_l in E1; [exact E1|]. pose proof (Hp vfa). lia.
  - destruct (scaled_magnitude_inj vfa vfb ltac:(lia)) as [H1 H2].
    split; [exact H1|split; [exact H2|]]. discriminate.
  - destruct (scaled_magnitude_inj vfa vfb ltac:(lia)) as [H1 H2].
    split; [exact H1|split; [exact H2|]]. discriminate.
  - assert (E1 : qp_sig vfa * 2 ^ (qp_e vfa - 1) = 0) by lia.
    assert (E2 : qp_sig vfb * 2 ^ (qp_e vfb - 1) = 0) by lia.
    destruct (scaled_magnitude_inj vfa vfb ltac:(lia)) as [H1 H2].
    split; [exact H1|split; [exact H2|]]. intros _.
    apply Z.mul_eq_0_l in E1; [exact E1|]. pose proof (Hp vfa). lia.
Qed.

Lemma align_same_exp e b_sig : 0 <= e < 2 ^ 64 ->
  xsaddqpo_align (mk_dw e e) (mk_dw e e) b_sig = b_sig.
Proof.
  intros He. unfold xsaddqpo_align, vec_cmpud_all_lt. rewrite all2_dw by lia.
  rewrite Z.ltb_irrefl. reflexivity.
Qed.

(** C6. In vec_xsaddqpo, when the exact sum of the finite operands is zero
    (equal magnitudes of opposite signs, or two zeros) the combined
    significand is zero and the result is +0.0 (all bits zero) if the
    operand signs differ, and the zero with the common sign if they agree.
    In particular (+0.0) + (-0.0) = +0.0. *)
Theorem xsaddqpo_exact_zero (vfa vfb : Z) :
  is_vec vfa -> is_vec vfb ->
  qp_is_finite vfa = true -> qp_is_finite vfb = true ->
  qp_scaled vfa + qp_scaled vfb = 0 ->
  vec_xsaddqpo vfa vfb
  = (if xorb (qp_sign vfa) (qp_sign vfb) then 0 else qp_pack (qp_sign vfa) 0 0)
  /\ vec_xsaddqpo (qp_pack false 0 0) (qp_pack true 0 0) = 0.
Proof.
  intros Ha Hb Fa Fb Hz. split; [|reflexivity].
  rewrite xsaddqpo_finite by assumption.
  destruct (exact_zero_sum vfa vfb Hz) as (He & Hf & Hs).
  assert (Hsig : qp_sig vfb = qp_sig vfa) by (unfold qp_sig; now rewrite He, Hf).
  assert (Hqe : qp_e vfb = qp_e vfa) by (unfold qp_e; now rewrite He).
  pose proof (qp_e_range vfa) as Hea. pose proof (qp_sig_range vfa) as Hsa.
  rewrite xsaddqpo_combine_eq by (try apply qp_mag_range; try apply qp_sig_range; apply qp_e_range).
  cbv zeta. rewrite <- He, <- Hf, Z.ltb_irrefl, Hsig, Hqe.
  rewrite align_same_exp by lia.
  unfold vec_subuqm, vec_adduqm. rewrite Z.sub_diag.
  destruct (xorb (qp_sign vfa) (qp_sign vfb)) eqn:Ex.
  - reflexivity.
  - rewrite (Hs eq_refl). cbn [Z.mul Z.add Z.modulo Z.div_eucl Z.eqb].
    unfold qp_pack. lia.
Qed.

Lemma xsaddqpo_exact_zero_witness :
  vec_xsaddqpo (qp_pack false 1 5) (qp_pack true 1 5) = 0.
Proof.
  apply (proj1 (xsaddqpo_exact_zero (qp_pack false 1 5) (qp_pack true 1 5)
                  ltac:(vm_compute; split; [discriminate|reflexivity])
                  ltac:(vm_compute; split; [discriminate|reflexivity])
                  ltac:(vm_compute; reflexivity) ltac:(vm_compute; reflexivity)
                  ltac:(vm_compute; reflexivity))).
Defined.

(** ** Add: alignment, carry and overflow *)

Lemma dw_mod128 d : 0 <= d < 128 -> mk_dw d d mod 128 = d.
Proof.
  intros Hd. unfold mk_dw.
  replace (d * 2 ^ 64 + d) with (d + (d * 2 ^ 57) * 128) by lia.
  rewrite Z.mod_add by lia. apply Z.mod_small. lia.
Qed.

(** The bits shifted out on the right are the bits an opposite left shift
    keeps. *)
Lemma shifted_out_bits b d : 0 <= b < 2 ^ 128 -> 0 < d < 128 ->
  ((b * 2 ^ (128 - d)) mod 2 ^ 128 =? 0) = (b mod 2 ^ d =? 0).
Proof.
  intros Hb Hd.
  assert (Hp : 0 < 2 ^ d) by (apply Z.pow_pos_nonneg; lia).
  assert (Hq : 0 < 2 ^ (128 - d)) by (apply Z.pow_pos_nonneg; lia).
  assert (E : 2 ^ d * 2 ^ (128 - d) = 2 ^ 128) by (rewrite <- Z.pow_add_r by lia; f_equal; lia).
  pose proof (Z.div_mod b (2 ^ d) ltac:(lia)) as Hdm.
  pose proof (Z.mod_pos_bound b (2 ^ d) Hp) as Hr.
  set (r := b mod 2 ^ d) in *. set (q := b / 2 ^ d) in *.
  replace (b * 2 ^ (128 - d)) with (r * 2 ^ (128 - d) + q * 2 ^ 128) by (rewrite <- E; nia).
  rewrite Z.mod_add by lia.
  rewrite Z.mod_small by (split; [nia|rewrite <- E; nia]).
  destruct (r =? 0) eqn:Er.
  - apply Z.eqb_eq in Er. rewrite Er. reflexivity.
  - apply Z.eqb_neq in Er. apply Z.eqb_neq. nia.
Qed.

Lemma xsaddqpo_align_eq e1 e2 b_sig :
  1 <= e1 < 2 ^ 15 -> 1 <= e2 < 2 ^ 15 -> 0 <= b_sig < 2 ^ 128 ->
  xsaddqpo_align (mk_dw e1 e1) (mk_dw e2 e2) b_sig
  = if e2 <? e1
    then if e1 - e2 <? 128
         then Z.lor (b_sig / 2 ^ (e1 - e2)) (if b_sig mod 2 ^ (e1 - e2) =? 0 then 0 else 1)
         else (if b_sig =? 0 then 0 else 1)
    else b_sig.
Proof.
  intros He1 He2 Hb. unfold xsaddqpo_align, vec_cmpud_all_lt. rewrite all2_dw by lia.
  rewrite andb_diag. destruct (e2 <? e1) eqn:Elt; [|reflexivity].
  apply Z.ltb_lt in Elt. cbv zeta.
  rewrite const64_128_eq. unfold vec_subudm, vec_cmpltud. rewrite !map2_dw by lia.
  rewrite (Z.mod_small (e1 - e2)) by lia.
  rewrite !map2_dw by (try apply Z.mod_pos_bound; lia).
  rewrite (Z.mod_small (bmask 64 _)) by (apply bmask_range; lia).
  rewrite <- bmask128_dw. unfold vec_seluq. rewrite q_zero_eq.
  assert (Hsr : is_vec (vec_srq b_sig (mk_dw (e1 - e2) (e1 - e2)))).
  { unfold vec_srq, is_vec. pose proof (Z.mod_pos_bound (mk_dw (e1 - e2) (e1 - e2)) 128 ltac:(lia)).
    assert (0 < 2 ^ (mk_dw (e1 - e2) (e1 - e2) mod 128)) by (apply Z.pow_pos_nonneg; lia).
    split; [apply Z.div_pos; lia|]. apply Z.div_lt_upper_bound; nia. }
  rewrite !sel_bmask by (try assumption; try apply is_vec_mod; unfold is_vec; lia).
  unfold vec_or. destruct (e1 - e2 <? 128) eqn:Ed.
  - apply Z.ltb_lt in Ed. unfold vec_srq, vec_slq.
    rewrite dw_mod128 by lia. rewrite (Z.mod_small (128 - (e1 - e2))) by lia.
    rewrite dw_mod128 by lia.
    rewrite addcuq_ones by apply is_vec_mod.
    rewrite shifted_out_bits by lia. reflexivity.
  - rewrite addcuq_ones by (unfold is_vec; lia). apply Z.lor_0_l.
Qed.

Lemma lor_bit_bounds x p : 0 <= x -> 0 <= p <= 1 -> x <= Z.lor x p <= x + 1.
Proof.
  intros Hx Hp. assert (p = 0 \/ p = 1) as [-> | ->] by lia.
  - rewrite Z.lor_0_r. lia.
  - apply lor_1_bounds. assumption.
Qed.

Lemma xsaddqpo_normalize_carry s_sig e :
  2 ^ 116 <= s_sig < 2 ^ 120 -> 0 <= e < 2 ^ 63 ->
  snd (xsaddqpo_normalize s_sig (mk_dw e e)) = mk_dw (e + 1) (e + 1).
Proof.
  intros Hs He. unfold xsaddqpo_normalize. cbv zeta.
  unfold vec_all_gt_b, vec_splat_b, vec_splat_u8. rewrite all2_lanes_splat by lia.
  unfold elem. change (8 * (Z.of_nat 16 - 1 - 1)) with 112.
  rewrite Z.mod_mod by lia. change (15 mod 2 ^ 8) with 15.
  assert (Hd : 2 ^ 4 <= s_sig / 2 ^ 112 < 2 ^ 8).
  { split; [apply Z.div_le_lower_bound; lia|apply Z.div_lt_upper_bound; lia]. }
  rewrite (Z.mod_small (s_sig / 2 ^ 112)) by lia.
  replace (15 <? s_sig / 2 ^ 112) with true by lia.
  cbn [snd]. unfold vec_addudm, vec_splat_u64. rewrite splat_dw, map2_dw by lia.
  rewrite Z.mod_small by lia. reflexivity.
Qed.

Lemma max_or_sign s :
  vec_or (CONST_VINT128_W 0x7ffeffff (-1) (-1) (-1)) (sign_bit s) = qp_pack s 0x7ffe (2 ^ 112 - 1).
Proof. destruct s; reflexivity. Qed.

Lemma all_ge_naninf e : 0 <= e < 2 ^ 64 ->
  vec_cmpud_all_ge (mk_dw e e) vec_mask64_f128exp = (0x7fff <=? e).
Proof.
  intros. unfold vec_cmpud_all_ge. rewrite mask64_exp_eq, all2_dw by lia. apply andb_diag.
Qed.

(** A larger (or equal) magnitude field means a larger (or equal) exponent
    and scaled magnitude. *)
Lemma mag_le_scaled va vb :
  qp_exp va * 2 ^ 112 + qp_frac va <= qp_exp vb * 2 ^ 112 + qp_frac vb ->
  qp_e va <= qp_e vb
  /\ qp_sig va * 2 ^ (qp_e va - 1) <= qp_sig vb * 2 ^ (qp_e vb - 1).
Proof.
  intros Hm.
  pose proof (qp_exp_range va). pose proof (qp_exp_range vb).
  pose proof (qp_frac_range va). pose proof (qp_frac_range vb).
  assert (Hee : qp_exp va <= qp_exp vb) by nia.
  assert (He : qp_e va <= qp_e vb) by (unfold qp_e; lia).
  split; [exact He|].
  destruct (Z.eq_dec (qp_e va) (qp_e vb)) as [Eq|Ne].
  - rewrite Eq. apply Z.mul_le_mono_nonneg_r; [apply Z.pow_nonneg; lia|].
    unfold qp_sig, qp_e in *.
    destruct (0 <? qp_exp va) eqn:E1; destruct (0 <? qp_exp vb) eqn:E2; lia.
  - pose proof (scaled_magnitude_lt va vb ltac:(lia)). lia.
Qed.

(** A finite magnitude is below the overflow bound [2^32878], and at most
    half of it when the exponent is not the largest. *)
Lemma scaled_below_pow2 v k : qp_exp v + 112 <= k ->
  qp_sig v * 2 ^ (qp_e v - 1) < 2 ^ k.
Proof.
  intros Hk. pose proof (qp_e_range v) as He. pose proof (qp_exp_range v) as Hx.
  pose proof (pow2_mul_upper (qp_sig v) (qp_e v - 1) (qp_sig_range v) ltac:(lia)) as Hup.
  destruct (Z.eq_dec (qp_exp v) 0) as [E0|E0].
  - rewrite qp_sig_subnormal by assumption. unfold qp_e. rewrite E0.
    cbn [Z.max Z.compare]. change (1 - 1) with 0. rewrite Z.pow_0_r, Z.mul_1_r.
    pose proof (qp_frac_range v).
    assert (2 ^ 112 <= 2 ^ k) by (apply Z.pow_le_mono_r; lia). lia.
  - assert (qp_e v = qp_exp v) by (unfold qp_e; lia).
    assert (2 ^ (113 + (qp_e v - 1)) <= 2 ^ k) by (apply Z.pow_le_mono_r; lia). lia.
Qed.

Lemma overflow_bound_pow2 : exists k, k = 32878 /\ qp_overflow_bound = 2 ^ k.
Proof.
  exists 32878. split; [reflexivity|].
  unfold qp_overflow_bound, qp_one. rewrite <- Z.pow_add_r by lia. reflexivity.
Qed.

Section AddOverflowCore.
Variables (v1 v2 k : Z).
Hypothesis Hk : k = 32878.
Hypothesis F1 : qp_exp v1 < 0x7fff.
Hypothesis F2 : qp_exp v2 < 0x7fff.
Hypothesis Hee : qp_e v2 <= qp_e v1.
Hypothesis Hvv : qp_sig v2 * 2 ^ (qp_e v2 - 1) <= qp_sig v1 * 2 ^ (qp_e v1 - 1).
Hypothesis Hov : 2 ^ k <= qp_sig v1 * 2 ^ (qp_e v1 - 1) + qp_sig v2 * 2 ^ (qp_e v2 - 1).

Lemma add_overflow_exp : qp_e v1 = 0x7ffe.
Proof.
  pose proof (qp_exp_range v1) as Hx. pose proof (qp_e_range v1) as He.
  destruct (Z.le_gt_cases (qp_exp v1) 0x7ffd) as [Hle|Hgt]; [exfalso|unfold qp_e; lia].
  pose proof (scaled_below_pow2 v1 (k - 1) ltac:(lia)) as Hb.
  assert (E : 2 ^ k = 2 * 2 ^ (k - 1)).
  { replace k with (Z.succ (k - 1)) at 1 by lia. apply Z.pow_succ_r. lia. }
  lia.
Qed.

(** The significands on the common scale of the smaller exponent. *)
Lemma add_overflow_sigs :
  2 ^ 113 * 2 ^ (qp_e v1 - qp_e v2) <= qp_sig v1 * 2 ^ (qp_e v1 - qp_e v2) + qp_sig v2.
Proof.
  pose proof add_overflow_exp as He1. pose proof (qp_e_range v2) as He2.
  assert (Hp : 0 < 2 ^ (qp_e v2 - 1)) by (apply Z.pow_pos_nonneg; lia).
  assert (E1 : 2 ^ (qp_e v1 - 1) = 2 ^ (qp_e v1 - qp_e v2) * 2 ^ (qp_e v2 - 1)).
  { rewrite <- Z.pow_add_r by lia. f_equal. lia. }
  assert (E2 : 2 ^ k = 2 ^ 113 * 2 ^ (qp_e v1 - 1)).
  { rewrite <- Z.pow_add_r by lia. f_equal. lia. }
  rewrite E2, E1 in Hov. rewrite E1 in Hvv.
  apply (Z.mul_le_mono_pos_r _ _ (2 ^ (qp_e v2 - 1)) Hp).
  lia.
Qed.

Lemma add_overflow_carry :
  2 ^ 116 <= vec_adduqm (qp_sig v1 * 2 ^ 3)
               (xsaddqpo_align (mk_dw (qp_e v1) (qp_e v1)) (mk_dw (qp_e v2) (qp_e v2))
                  (qp_sig v2 * 2 ^ 3)) < 2 ^ 120.
Proof.
  pose proof add_overflow_sigs as Hs.
  pose proof (qp_e_range v1) as He1. pose proof (qp_e_range v2) as He2.
  pose proof (qp_sig_range v1) as Hs1. pose proof (qp_sig_range v2) as Hs2.
  rewrite xsaddqpo_align_eq by lia. unfold vec_adduqm.
  set (d := qp_e v1 - qp_e v2) in *.
  assert (Hd : 0 <= d) by (unfold d; lia).
  assert (HD : 0 < 2 ^ d) by (apply Z.pow_pos_nonneg; lia).
  destruct (qp_e v2 <? qp_e v1) eqn:Elt.
  - apply Z.ltb_lt in Elt.
    destruct (d <? 128) eqn:Ed.
    + apply Z.ltb_lt in Ed.
      set (B := qp_sig v2 * 2 ^ 3) in *.
      assert (Hlow : 2 ^ 116 - qp_sig v1 * 2 ^ 3 <= B / 2 ^ d).
      { apply Z.div_le_lower_bound; [lia|]. unfold B. nia. }
      assert (Hup : B / 2 ^ d <= B).
      { apply Z.div_le_upper_bound; [lia|]. unfold B. nia. }
      assert (Hp : 0 <= (if B mod 2 ^ d =? 0 then 0 else 1) <= 1)
        by (destruct (B mod 2 ^ d =? 0); lia).
      pose proof (lor_bit_bounds (B / 2 ^ d) _ ltac:(apply Z.div_pos; unfold B; lia) Hp) as Hl.
      rewrite Z.mod_small by (unfold B in *; lia). unfold B in *. lia.
    + apply Z.ltb_ge in Ed. exfalso.
      assert (2 ^ 128 <= 2 ^ d) by (apply Z.pow_le_mono_r; lia). nia.
  - apply Z.ltb_ge in Elt. assert (d = 0) by (unfold d; lia).
    replace (2 ^ d) with 1 in Hs by (replace d with 0 by lia; reflexivity).
    rewrite Z.mod_small by lia. lia.
Qed.
End AddOverflowCore.

Lemma xsaddqpo_overflow vfa vfb : is_vec vfa -> is_vec vfb ->
  qp_is_finite vfa = true -> qp_is_finite vfb = true ->
  qp_overflow_bound <= Z.abs (qp_scaled vfa + qp_scaled vfb) ->
  vec_xsaddqpo vfa vfb = qp_pack (qp_scaled vfa + qp_scaled vfb <? 0) 0x7ffe (2 ^ 112 - 1).
Proof.
  intros Ha Hb Fa Fb Hov.
  destruct overflow_bound_pow2 as (k & Hk & HT). rewrite HT in Hov.
  rewrite xsaddqpo_finite by assumption.
  unfold qp_is_finite in Fa, Fb. apply Z.ltb_lt in Fa, Fb.
  pose proof (scaled_below_pow2 vfa k ltac:(lia)) as Ba.
  pose proof (scaled_below_pow2 vfb k ltac:(lia)) as Bb.
  pose proof (scaled_nonneg vfa) as Na. pose proof (scaled_nonneg vfb) as Nb.
  pose proof (qp_e_range vfa) as Hea. pose proof (qp_e_range vfb) as Heb.
  assert (Hp : 0 < 2 ^ k) by (apply Z.pow_pos_nonneg; lia).
  rewrite xsaddqpo_combine_eq by (try apply qp_mag_range; try apply qp_sig_range; apply qp_e_range).
  cbv zeta. unfold qp_scaled in *.
  assert (Hs : qp_sign vfb = qp_sign vfa
               /\ ((if qp_sign vfa then -1 else 1) * (qp_sig vfa * 2 ^ (qp_e vfa - 1))
                   + (if qp_sign vfb then -1 else 1) * (qp_sig vfb * 2 ^ (qp_e vfb - 1)) <? 0)
                  = qp_sign vfa
               /\ 2 ^ k <= qp_sig vfa * 2 ^ (qp_e vfa - 1) + qp_sig vfb * 2 ^ (qp_e vfb - 1)).
  { destruct (qp_sign vfa), (qp_sign vfb); repeat split; lia. }
  destruct Hs as (Hsb & Hneg & Hsum). rewrite Hneg, Hsb, xorb_nilpotent. clear Hneg Hov.
  destruct (qp_exp vfa * 2 ^ 112 + qp_frac vfa <? qp_exp vfb * 2 ^ 112 + qp_frac vfb) eqn:Elt.
  - apply Z.ltb_lt in Elt.
    destruct (mag_le_scaled vfa vfb ltac:(lia)) as [Hee Hvv].
    assert (He1 : qp_e vfb = 0x7ffe) by (apply (add_overflow_exp vfb vfa k); assumption || lia).
    pose proof (add_overflow_carry vfb vfa k Hk Fb Hee Hvv ltac:(lia)) as Hc.
    set (S := vec_adduqm _ _) in *.
    replace (S =? 0) with false by lia.
    pose proof (xsaddqpo_normalize_carry S (qp_e vfb) Hc ltac:(lia)) as Hn.
    destruct (xsaddqpo_normalize S (mk_dw (qp_e vfb) (qp_e vfb))) as [s' q']. cbn [snd] in Hn.
    subst q'. rewrite all_ge_naninf by lia.
    replace (32767 <=? qp_e vfb + 1) with true by lia. apply max_or_sign.
  - apply Z.ltb_ge in Elt.
    destruct (mag_le_scaled vfb vfa ltac:(lia)) as [Hee Hvv].
    assert (He1 : qp_e vfa = 0x7ffe) by (apply (add_overflow_exp vfa vfb k); assumption || lia).
    pose proof (add_overflow_carry vfa vfb k Hk Fa Hee Hvv ltac:(lia)) as Hc.
    set (S := vec_adduqm _ _) in *.
    replace (S =? 0) with false by lia.
    pose proof (xsaddqpo_normalize_carry S (qp_e vfa) Hc ltac:(lia)) as Hn.
    destruct (xsaddqpo_normalize S (mk_dw (qp_e vfa) (qp_e vfa))) as [s' q']. cbn [snd] in Hn.
    subst q'. rewrite all_ge_naninf by lia.
    replace (32767 <=? qp_e vfa + 1) with true by lia. apply max_or_sign.
Qed.

(** ** Multiply: the stages of the finite path *)

Lemma map2_lanes_shift w n m f a : 0 < w ->
  (f 0 0) mod 2 ^ w = 0 ->
  map2_lanes w (n + m) f (a * 2 ^ (w * Z.of_nat n)) 0
  = 2 ^ (w * Z.of_nat n) * map2_lanes w m f a 0.
Proof.
  intros Hw Hf. induction n as [|n IH].
  - cbn [Nat.add Z.of_nat]. rewrite Z.mul_0_r, Z.pow_0_r, Z.mul_1_r, Z.mul_1_l. reflexivity.
  - assert (Hp : 0 < 2 ^ w) by (apply Z.pow_pos_nonneg; lia).
    assert (E : a * 2 ^ (w * Z.of_nat (S n)) = (a * 2 ^ (w * Z.of_nat n)) * 2 ^ w).
    { rewrite <- Z.mul_assoc, <- Z.pow_add_r by lia. do 2 f_equal. lia. }
    assert (E2 : 2 ^ (w * Z.of_nat (S n)) = 2 ^ w * 2 ^ (w * Z.of_nat n)).
    { rewrite <- Z.pow_add_r by lia. f_equal. lia. }
    cbn [Nat.add]. rewrite map2_lanes_S, E, Z.mod_mul, Z.div_mul by lia.
    rewrite Z.mod_0_l, Z.div_0_l, Hf, IH by lia.
    rewrite E2. lia.
Qed.

Lemma cmpgt_h_exp e : 0 <= e < 2 ^ 15 ->
  vec_cmpgt_h (e * 2 ^ 112) q_zero = bmask 16 (0 <? e) * 2 ^ 112.
Proof.
  intros He. unfold vec_cmpgt_h. rewrite q_zero_eq.
  pose proof (map2_lanes_shift 16 7 1 (fun x y => bmask 16 (y <? x)) e ltac:(lia)
                ltac:(reflexivity)) as H.
  change (16 * Z.of_nat 7) with 112 in H. change (7 + 1)%nat with 8%nat in H.
  rewrite H. cbn [map2_lanes].
  rewrite (Z.mod_small e) by lia. change (0 mod 2 ^ 16) with 0.
  rewrite (Z.mod_small (bmask 16 _)) by (apply bmask_range; lia). lia.
Qed.

Lemma sel_hidden_h f c : 0 <= f < 2 ^ 112 ->
  vec_sel f (vec_splat_u16 1) (bmask 16 c * 2 ^ 112) = f + (if c then 2 ^ 112 else 0).
Proof.
  intros Hf. unfold vec_sel. destruct c; cbn [bmask].
  - assert (Hd : Z.ldiff f (Z.ones 16 * 2 ^ 112) = f).
    { rewrite <- Z.shiftl_mul_pow2 by lia. Z.bitblast; testbit_bounds; btauto. }
    rewrite Hd.
    change (Z.land (vec_splat_u16 1) (Z.ones 16 * 2 ^ 112)) with (Z.shiftl 1 112).
    rewrite Z.lor_comm, <- add_lor_disj by lia. lia.
  - rewrite Z.mul_0_l, Z.ldiff_0_r, Z.land_0_r, Z.lor_0_r. lia.
Qed.

Lemma xsmulqpo_extract_eq vfa vfb : is_vec vfa -> is_vec vfb ->
  xsmulqpo_extract vfa vfb (qp_exp vfa * 2 ^ 112 + qp_frac vfa)
    (qp_exp vfb * 2 ^ 112 + qp_frac vfb)
  = (qp_sig vfa, qp_sig vfb).
Proof.
  intros Ha Hb. unfold xsmulqpo_extract. cbv zeta.
  pose proof (qp_exp_range vfa) as Hea. pose proof (qp_exp_range vfb) as Heb.
  pose proof (qp_frac_range vfa) as Hfa. pose proof (qp_frac_range vfb) as Hfb.
  rewrite mask128_sig_eq. unfold vec_and_bin128_2_vui32t, vec_and, vec_andc.
  rewrite !Z.land_ones, !Z.ldiff_ones_r by lia. fold (qp_frac vfa) (qp_frac vfb).
  rewrite !Z.shiftr_div_pow2, !Z.shiftl_mul_pow2 by lia.
  replace ((qp_exp vfa * 2 ^ 112 + qp_frac vfa) / 2 ^ 112) with (qp_exp vfa)
    by (rewrite Z.add_comm, Z.div_add, Z.div_small by lia; reflexivity).
  replace ((qp_exp vfb * 2 ^ 112 + qp_frac vfb) / 2 ^ 112) with (qp_exp vfb)
    by (rewrite Z.add_comm, Z.div_add, Z.div_small by lia; reflexivity).
  rewrite !cmpgt_h_exp, !sel_hidden_h by assumption. reflexivity.
Qed.

Lemma selud_dwmask a1 a0 b1 b0 c1 c0 :
  0 <= a1 < 2 ^ 64 -> 0 <= a0 < 2 ^ 64 -> 0 <= b1 < 2 ^ 64 -> 0 <= b0 < 2 ^ 64 ->
  vec_selud (mk_dw a1 a0) (mk_dw b1 b0) (mk_dw (bmask 64 c1) (bmask 64 c0))
  = mk_dw (if c1 then b1 else a1) (if c0 then b0 else a0).
Proof.
  intros Ha1 Ha0 Hb1 Hb0. unfold vec_selud, vec_sel, mk_dw.
  destruct c1, c0; cbn [bmask]; rewrite ?Z.mul_0_l, ?Z.add_0_l, ?Z.add_0_r;
    rewrite ?(add_lor_disj a1 a0 64), ?(add_lor_disj b1 b0 64),
      ?(add_lor_disj b1 a0 64), ?(add_lor_disj a1 b0 64),
      ?(add_lor_disj (Z.ones 64) (Z.ones 64) 64) by (try (cbn; lia); lia);
    rewrite <- ?Z.shiftl_mul_pow2 by lia;
    Z.bitblast; testbit_bounds; btauto.
Qed.

Lemma exp_bias_eq : vec_srhi vec_mask64_f128exp 1 = mk_dw 0x3fff 0x3fff.
Proof. vm_compute. reflexivity. Qed.

Lemma xsmulqpo_exp_eq va vb :
  xsmulqpo_exp (mk_dw (qp_exp va) (qp_exp vb))
  = mk_dw ((qp_e va + qp_e vb - 0x3fff) mod 2 ^ 64) ((qp_e vb + qp_e va - 0x3fff) mod 2 ^ 64).
Proof.
  unfold xsmulqpo_exp. cbv zeta.
  pose proof (qp_exp_range va) as Hea. pose proof (qp_exp_range vb) as Heb.
  pose proof (qp_e_range va) as Hqa. pose proof (qp_e_range vb) as Hqb.
  rewrite exp_bias_eq. replace q_zero with (mk_dw 0 0) by reflexivity.
  unfold vec_cmpequd, vec_splat_u64. rewrite map2_dw, splat_dw by lia.
  rewrite !(Z.mod_small (bmask 64 _)) by (apply bmask_range; lia).
  rewrite selud_dwmask by lia.
  assert (E : forall v, (if qp_exp v =? 0 then 1 else qp_exp v) = qp_e v)
    by (intros v; unfold qp_e; pose proof (qp_exp_range v);
        destruct (Z.eqb_spec (qp_exp v) 0); lia).
  rewrite !E. rewrite swapd_mk by lia.
  unfold vec_addudm, vec_subudm. rewrite map2_dw by lia.
  rewrite !(Z.mod_small (_ + _)) by lia.
  rewrite map2_dw by lia. reflexivity.
Qed.

Lemma elem_hw_h x : 0 <= x < 2 ^ 128 -> elem 16 8 VEC_HW_H x = x / 2 ^ 112.
Proof.
  intros Hx. unfold elem, VEC_HW_H. change (16 * (Z.of_nat 8 - 1 - 0)) with 112.
  apply Z.mod_small. split; [apply Z.div_pos; lia|apply Z.div_lt_upper_bound; lia].
Qed.

Lemma xsmulqpo_carry_eq ph pl q :
  0 <= ph < 2 ^ 114 -> 0 <= pl < 2 ^ 128 -> 0 <= q < 2 ^ 63 ->
  xsmulqpo_carry ph pl (mk_dw q q)
  = if 2 ^ 113 <=? ph
    then (ph / 2 ^ 1, vec_slqi (vec_sldqi ph pl 120) 7, mk_dw (q + 1) (q + 1))
    else (ph, pl, mk_dw q q).
Proof.
  intros Hh Hl Hq. unfold xsmulqpo_carry. cbv zeta.
  unfold vec_cmpgt_h, vec_splat_h, vec_splat_u16. rewrite map2_lanes_splat by lia.
  rewrite elem_hw_h by lia. cbv beta.
  assert (Hd : 0 <= ph / 2 ^ 112 < 4).
  { split; [apply Z.div_pos; lia|apply Z.div_lt_upper_bound; lia]. }
  rewrite (Z.mod_small (ph / 2 ^ 112)) by lia. change (1 mod 2 ^ 16) with 1.
  assert (Hc : (1 <? ph / 2 ^ 112) = (2 ^ 113 <=? ph)).
  { destruct (2 ^ 113 <=? ph) eqn:E.
    - apply Z.leb_le in E. apply Z.ltb_lt.
      assert (2 <= ph / 2 ^ 112); [apply Z.div_le_lower_bound; lia|lia].
    - apply Z.leb_gt in E. apply Z.ltb_ge.
      assert (ph / 2 ^ 112 < 2); [apply Z.div_lt_upper_bound; lia|lia]. }
  rewrite Hc.
  replace (splat 16 8 (bmask 16 (2 ^ 113 <=? ph))) with (bmask 128 (2 ^ 113 <=? ph))
    by (destruct (2 ^ 113 <=? ph); reflexivity).
  unfold vec_seluq, vec_selud, vec_srqi, vec_addudm, vec_splat_u64.
  rewrite splat_dw, map2_dw by lia. rewrite (Z.mod_small (q + 1)) by lia.
  assert (is_vec (ph / 2 ^ 1)).
  { split; [apply Z.div_pos; lia|apply Z.div_lt_upper_bound; lia]. }
  rewrite !sel_bmask by (try apply is_vec_mod; try apply mk_dw_range; try assumption;
                         unfold is_vec; lia).
  destruct (2 ^ 113 <=? ph); reflexivity.
Qed.

Lemma xsmulqpo_tiny_not ph pl q : 1 <= q < 2 ^ 63 ->
  xsmulqpo_tiny ph pl (mk_dw q q) = (ph, pl, ph, mk_dw q q).
Proof.
  intros Hq. unfold xsmulqpo_tiny. cbv zeta.
  unfold vec_cmpsd_all_lt, vec_splat_u64. rewrite splat_dw, all2_dw by lia.
  unfold signed. change (64 - 1) with 63.
  replace (q <? 2 ^ 63) with true by lia. replace (1 <? 2 ^ 63) with true by reflexivity.
  replace (q <? 1) with false by lia. reflexivity.
Qed.

Lemma xsmulqpo_denorm_not ph pl q_sig q_exp : 2 ^ 112 <= ph < 2 ^ 113 ->
  xsmulqpo_denorm ph pl q_sig q_exp = (pl, q_sig, q_exp).
Proof.
  intros Hh. unfold xsmulqpo_denorm. cbv zeta.
  unfold vec_all_eq_h, vec_splat_h. rewrite q_zero_eq.
  change 0 with (splat 16 8 0) at 1. rewrite all2_lanes_splat by lia.
  rewrite elem_hw_h by lia.
  assert (ph / 2 ^ 112 = 1).
  { symmetry. apply Z.div_unique with (r := ph - 2 ^ 112); lia. }
  replace (ph / 2 ^ 112) with 1 by lia. reflexivity.
Qed.

Lemma all_eq_w_nonzero x : 0 < x < 2 ^ 128 -> vec_all_eq_w x q_zero = false.
Proof.
  intros Hx. unfold vec_all_eq_w. rewrite q_zero_eq. cbn [all2_lanes].
  rewrite !Z.div_0_l, !Z.mod_0_l by lia.
  pose proof (Z.div_mod x (2 ^ 32) ltac:(lia)) as H0.
  pose proof (Z.div_mod (x / 2 ^ 32) (2 ^ 32) ltac:(lia)) as H1.
  pose proof (Z.div_mod (x / 2 ^ 32 / 2 ^ 32) (2 ^ 32) ltac:(lia)) as H2.
  pose proof (Z.div_mod (x / 2 ^ 32 / 2 ^ 32 / 2 ^ 32) (2 ^ 32) ltac:(lia)) as H3.
  assert (H4 : x / 2 ^ 32 / 2 ^ 32 / 2 ^ 32 / 2 ^ 32 = 0).
  { rewrite !Z.div_div by lia. apply Z.div_small. lia. }
  destruct (Z.eqb_spec (x mod 2 ^ 32) 0); [|reflexivity].
  destruct (Z.eqb_spec ((x / 2 ^ 32) mod 2 ^ 32) 0); [|reflexivity].
  destruct (Z.eqb_spec ((x / 2 ^ 32 / 2 ^ 32) mod 2 ^ 32) 0); [|reflexivity].
  destruct (Z.eqb_spec ((x / 2 ^ 32 / 2 ^ 32 / 2 ^ 32) mod 2 ^ 32) 0); [|reflexivity].
  exfalso. lia.
Qed.

(** ** Multiply: overflow to the largest finite value *)

(** On the scale of [qp_scaled], a product of two values carries the factor
    [qp_one] twice. *)
Lemma mul_overflow_bound_pow2 : exists k, k = 49372 /\ qp_overflow_bound * qp_one = 2 ^ k.
Proof.
  exists 49372. split; [reflexivity|].
  unfold qp_overflow_bound, qp_one. rewrite <- !Z.pow_add_r by lia. reflexivity.
Qed.

Lemma mul_overflow_arith v1 v2 k : k = 49372 ->
  qp_exp v1 < 0x7fff -> qp_exp v2 < 0x7fff ->
  2 ^ k <= (qp_sig v1 * 2 ^ (qp_e v1 - 1)) * (qp_sig v2 * 2 ^ (qp_e v2 - 1)) ->
  2 ^ 224 <= qp_sig v1 * qp_sig v2 < 2 ^ 226
  /\ 0x7fff <= qp_e v1 + qp_e v2 - 0x3fff + (if 2 ^ 225 <=? qp_sig v1 * qp_sig v2 then 1 else 0).
Proof.
  intros Hk F1 F2 Hov.
  pose proof (qp_sig_range v1) as S1. pose proof (qp_sig_range v2) as S2.
  pose proof (qp_e_range v1) as E1. pose proof (qp_e_range v2) as E2.
  pose proof (qp_exp_range v1) as X1. pose proof (qp_exp_range v2) as X2.
  assert (En1 : qp_e v1 <= 0x7ffe) by (unfold qp_e; lia).
  assert (En2 : qp_e v2 <= 0x7ffe) by (unfold qp_e; lia).
  set (P := qp_sig v1 * qp_sig v2) in *.
  set (n := qp_e v1 + qp_e v2 - 2).
  assert (Hprod : qp_sig v1 * 2 ^ (qp_e v1 - 1) * (qp_sig v2 * 2 ^ (qp_e v2 - 1)) = P * 2 ^ n).
  { unfold n, P. replace (qp_e v1 + qp_e v2 - 2) with ((qp_e v1 - 1) + (qp_e v2 - 1)) by lia.
    rewrite Z.pow_add_r by lia. ring. }
  rewrite Hprod in Hov. clear Hprod.
  assert (Hn : 0 <= n) by (unfold n; lia).
  assert (Hpn : 0 < 2 ^ n) by (apply Z.pow_pos_nonneg; lia).
  assert (Hlt : forall j, 0 <= j -> P < 2 ^ j -> k < j + n).
  { intros j Hj HP. apply (Z.pow_lt_mono_r_iff 2); [lia|lia|].
    rewrite Z.pow_add_r by lia. nia. }
  assert (HP226 : P < 2 ^ 226).
  { unfold P. change (2 ^ 226) with (2 ^ 113 * 2 ^ 113). nia. }
  pose proof (Hlt 226 ltac:(lia) HP226) as H226.
  assert (D1 : qp_e v1 = Z.max (qp_exp v1) 1) by reflexivity.
  assert (D2 : qp_e v2 = Z.max (qp_exp v2) 1) by reflexivity.
  assert (N1 : 0 < qp_exp v1) by (unfold n in H226; lia).
  assert (N2 : 0 < qp_exp v2) by (unfold n in H226; lia).
  pose proof (qp_sig_normal v1 N1) as L1. pose proof (qp_sig_normal v2 N2) as L2.
  assert (HP224 : 2 ^ 224 <= P).
  { unfold P. change (2 ^ 224) with (2 ^ 112 * 2 ^ 112). nia. }
  split; [lia|].
  destruct (Z.leb_spec (2 ^ 225) P) as [Hc|Hc].
  - unfold n in H226. lia.
  - pose proof (Hlt 225 ltac:(lia) Hc) as H225. unfold n in H225. lia.
Qed.

Lemma xsmulqpo_overflow vfa vfb : is_vec vfa -> is_vec vfb ->
  qp_is_finite vfa = true -> qp_is_finite vfb = true ->
  qp_overflow_bound * qp_one <= Z.abs (qp_scaled vfa * qp_scaled vfb) ->
  vec_xsmulqpo vfa vfb = qp_pack (xorb (qp_sign vfa) (qp_sign vfb)) 0x7ffe (2 ^ 112 - 1).
Proof.
  intros Ha Hb Fa Fb Hov.
  destruct mul_overflow_bound_pow2 as (k & Hk & HT). rewrite HT in Hov. clear HT.
  rewrite Z.abs_mul, !qp_scaled_abs in Hov.
  unfold qp_is_finite in Fa, Fb.
  pose proof Fa as Fa'. pose proof Fb as Fb'. apply Z.ltb_lt in Fa', Fb'.
  destruct (mul_overflow_arith vfa vfb k Hk Fa' Fb' Hov) as [HP Hq].
  pose proof (qp_sig_range vfa) as Sa. pose proof (qp_sig_range vfb) as Sb.
  pose proof (qp_e_range vfa) as Ea. pose proof (qp_e_range vfb) as Eb.
  assert (Pa : 0 < qp_sig vfa) by nia.
  assert (Pb : 0 < qp_sig vfb) by nia.
  unfold vec_xsmulqpo. cbv zeta.
  rewrite xxxexpqpp_eq, all_finite_eq by auto using qp_exp_range.
  rewrite Fa, Fb. cbn [andb].
  rewrite !mag_eq, !sign_eq, xsmulqpo_extract_eq by assumption.
  cbv beta iota.
  rewrite !slqi_small by lia.
  unfold vec_muludq. cbv beta iota.
  rewrite !all_eq_w_nonzero by lia. cbn [orb].
  rewrite xsmulqpo_exp_eq.
  rewrite (Z.add_comm (qp_e vfb)).
  set (q := qp_e vfa + qp_e vfb - 16383) in *.
  assert (Hq0 : 0x7ffe <= q < 2 ^ 16).
  { unfold q in *. destruct (2 ^ 225 <=? qp_sig vfa * qp_sig vfb); lia. }
  rewrite (Z.mod_small q) by lia.
  assert (Hmul : qp_sig vfa * 2 ^ 8 * (qp_sig vfb * 2 ^ 8) = qp_sig vfa * qp_sig vfb * 2 ^ 16) by ring.
  rewrite Hmul. clear Hmul.
  set (P := qp_sig vfa * qp_sig vfb) in *.
  assert (Hph : P * 2 ^ 16 / 2 ^ 128 = P / 2 ^ 112).
  { change (2 ^ 128) with (2 ^ 16 * 2 ^ 112).
    rewrite <- Z.div_div, Z.div_mul by lia. reflexivity. }
  rewrite Hph. clear Hph.
  set (ph := P / 2 ^ 112).
  assert (Bph : 2 ^ 112 <= ph < 2 ^ 114).
  { unfold ph. split; [apply Z.div_le_lower_bound; lia|apply Z.div_lt_upper_bound; lia]. }
  assert (Hc : (2 ^ 113 <=? ph) = (2 ^ 225 <=? P)).
  { unfold ph. destruct (Z.leb_spec (2 ^ 225) P) as [H|H].
    - apply Z.leb_le. apply Z.div_le_lower_bound; lia.
    - apply Z.leb_gt. apply Z.div_lt_upper_bound; lia. }
  set (pl := (P * 2 ^ 16) mod 2 ^ 128).
  assert (Bpl : 0 <= pl < 2 ^ 128) by (apply Z.mod_pos_bound; lia).
  rewrite xsmulqpo_carry_eq by lia.
  rewrite <- Hc in Hq.
  destruct (2 ^ 113 <=? ph) eqn:Ec.
  - apply Z.leb_le in Ec. cbv beta iota.
    rewrite xsmulqpo_tiny_not by lia. cbv beta iota.
    assert (Bh : 2 ^ 112 <= ph / 2 ^ 1 < 2 ^ 113).
    { split; [apply Z.div_le_lower_bound; lia|apply Z.div_lt_upper_bound; lia]. }
    rewrite xsmulqpo_denorm_not by assumption. cbv beta iota.
    rewrite all_ge_naninf by lia.
    replace (32767 <=? q + 1) with true by lia.
    unfold vec_xfer_vui32t_2_bin128. rewrite xor_sign. apply max_or_sign.
  - apply Z.leb_gt in Ec. cbv beta iota.
    rewrite xsmulqpo_tiny_not by lia. cbv beta iota.
    rewrite xsmulqpo_denorm_not by lia. cbv beta iota.
    rewrite all_ge_naninf by lia.
    replace (32767 <=? q) with true by lia.
    unfold vec_xfer_vui32t_2_bin128. rewrite xor_sign. apply max_or_sign.
Qed.

(** ** Overflow under round-to-odd *)

Lemma qp_one_pos : 0 < qp_one.
Proof. unfold qp_one. apply Z.pow_pos_nonneg; lia. Qed.

Lemma top_exponent_magnitude v j : j = 16383 -> qp_exp v = 0x7ffe ->
  2 ^ j * qp_one <= qp_sig v * 2 ^ (qp_e v - 1).
Proof. intros Hj He. apply magnitude_ge_pow2; lia. Qed.

(** Two operands of the largest finite exponent overflow when they are
    multiplied, and when they are added with equal signs. *)
Lemma top_exponent_overflow va vb : qp_exp va = 0x7ffe -> qp_exp vb = 0x7ffe ->
  (qp_sign va = qp_sign vb -> qp_overflow_bound <= Z.abs (qp_scaled va + qp_scaled vb))
  /\ qp_overflow_bound * qp_one <= Z.abs (qp_scaled va * qp_scaled vb).
Proof.
  intros Ea Eb.
  assert (HB : exists j, j = 16383 /\ qp_overflow_bound = 2 ^ (j + 1) * qp_one).
  { exists 16383. split; [reflexivity|]. unfold qp_overflow_bound.
    change 16384 with (16383 + 1). reflexivity. }
  destruct HB as (j & Hj & HB). rewrite HB. clear HB.
  pose proof (top_exponent_magnitude va j Hj Ea) as Ma.
  pose proof (top_exponent_magnitude vb j Hj Eb) as Mb.
  pose proof qp_one_pos as Ho.
  assert (H2 : 2 <= 2 ^ j).
  { change 2 with (2 ^ 1) at 1. apply Z.pow_le_mono_r; lia. }
  rewrite Z.pow_add_r, Z.pow_1_r by lia.
  rewrite Z.abs_mul, !qp_scaled_abs. unfold qp_scaled.
  set (X := qp_sig va * 2 ^ (qp_e va - 1)) in *.
  set (Y := qp_sig vb * 2 ^ (qp_e vb - 1)) in *.
  set (T := 2 ^ j) in *. set (O := qp_one) in *.
  split.
  - intros Hs. rewrite Hs. destruct (qp_sign vb); lia.
  - assert (H1 : (T * O) * (T * O) <= X * Y) by (apply Z.mul_le_mono_nonneg; nia).
    assert (H3 : T * 2 * O * O <= (T * O) * (T * O)) by nia.
    lia.
Qed.

Lemma max_finite_not_inf s : qp_is_inf (qp_pack s 0x7ffe (2 ^ 112 - 1)) = false.
Proof. destruct s; reflexivity. Qed.

(** The sign of a nonzero exact product is the XOR of the operands' signs. *)
Lemma product_sign va vb : 0 < Z.abs (qp_scaled va * qp_scaled vb) ->
  (qp_scaled va * qp_scaled vb <? 0) = xorb (qp_sign va) (qp_sign vb).
Proof.
  intros Hnz. rewrite Z.abs_mul, !qp_scaled_abs in Hnz. unfold qp_scaled.
  pose proof (scaled_nonneg va). pose proof (scaled_nonneg vb).
  set (X := qp_sig va * 2 ^ (qp_e va - 1)) in *.
  set (Y := qp_sig vb * 2 ^ (qp_e vb - 1)) in *.
  destruct (qp_sign va), (qp_sign vb); cbn [xorb];
    [apply Z.ltb_ge|apply Z.ltb_lt|apply Z.ltb_lt|apply Z.ltb_ge]; nia.
Qed.

(** C2. For finite operands whose exact sum (respectively product) has a
    magnitude of at least 2^16384, that is, an exponent above the largest
    biased exponent 0x7ffe, vec_xsaddqpo (respectively vec_xsmulqpo) returns
    the largest finite magnitude (biased exponent 0x7ffe, all-ones fraction)
    with the sign of the exact result, and not infinity.  In particular the
    product of two operands of the largest finite magnitude is the largest
    finite magnitude with the XOR of the operands' signs. *)
Theorem round_to_odd_overflow_max_finite vfa vfb : is_vec vfa -> is_vec vfb ->
  qp_is_finite vfa = true -> qp_is_finite vfb = true ->
  (qp_overflow_bound <= Z.abs (qp_scaled vfa + qp_scaled vfb) ->
   vec_xsaddqpo vfa vfb = Z.lor qp_max_finite (sign_bit (qp_scaled vfa + qp_scaled vfb <? 0))
   /\ qp_exp (vec_xsaddqpo vfa vfb) = 0x7ffe
   /\ qp_frac (vec_xsaddqpo vfa vfb) = 2 ^ 112 - 1
   /\ qp_is_inf (vec_xsaddqpo vfa vfb) = false)
  /\ (qp_overflow_bound * qp_one <= Z.abs (qp_scaled vfa * qp_scaled vfb) ->
      vec_xsmulqpo vfa vfb = Z.lor qp_max_finite (sign_bit (qp_scaled vfa * qp_scaled vfb <? 0))
      /\ qp_exp (vec_xsmulqpo vfa vfb) = 0x7ffe
      /\ qp_frac (vec_xsmulqpo vfa vfb) = 2 ^ 112 - 1
      /\ qp_is_inf (vec_xsmulqpo vfa vfb) = false)
  /\ (forall sa sb : bool,
      vec_xsmulqpo (Z.lor qp_max_finite (sign_bit sa)) (Z.lor qp_max_finite (sign_bit sb))
      = Z.lor qp_max_finite (sign_bit (xorb sa sb))).
Proof.
  intros Ha Hb Fa Fb.
  assert (HM : forall s, Z.lor qp_max_finite (sign_bit s) = qp_pack s 0x7ffe (2 ^ 112 - 1))
    by (intros s; destruct s; reflexivity).
  assert (HE : forall s, qp_exp (qp_pack s 0x7ffe (2 ^ 112 - 1)) = 0x7ffe)
    by (intros s; destruct s; reflexivity).
  assert (HF : forall s, qp_frac (qp_pack s 0x7ffe (2 ^ 112 - 1)) = 2 ^ 112 - 1)
    by (intros s; destruct s; reflexivity).
  split; [|split].
  - intros Hov. rewrite (xsaddqpo_overflow vfa vfb Ha Hb Fa Fb Hov), HM.
    repeat split; [apply HE|apply HF|apply max_finite_not_inf].
  - intros Hov. rewrite (xsmulqpo_overflow vfa vfb Ha Hb Fa Fb Hov), HM.
    assert (Hnz : 0 < Z.abs (qp_scaled vfa * qp_scaled vfb)).
    { destruct mul_overflow_bound_pow2 as (k & Hk & HT). rewrite HT in Hov.
      assert (0 < 2 ^ k) by (apply Z.pow_pos_nonneg; lia). lia. }
    rewrite (product_sign vfa vfb Hnz).
    repeat split; [apply HE|apply HF|apply max_finite_not_inf].
  - intros sa sb. rewrite !HM.
    assert (Hv : forall s, is_vec (qp_pack s 0x7ffe (2 ^ 112 - 1)))
      by (intros s; apply qp_pack_range; lia).
    assert (Hs : forall s, qp_sign (qp_pack s 0x7ffe (2 ^ 112 - 1)) = s)
      by (intros s; apply qp_sign_pack; lia).
    assert (Hfin : forall s, qp_is_finite (qp_pack s 0x7ffe (2 ^ 112 - 1)) = true)
      by (intros s; unfold qp_is_finite; rewrite HE; reflexivity).
    rewrite (xsmulqpo_overflow _ _ (Hv sa) (Hv sb) (Hfin sa) (Hfin sb)).
    + rewrite !Hs. reflexivity.
    + apply top_exponent_overflow; apply HE.
Qed.

Lemma round_to_odd_overflow_max_finite_witness :
  vec_xsaddqpo (qp_pack true 0x7ffe 0) (qp_pack true 0x7ffe 5)
  = Z.lor qp_max_finite (sign_bit (qp_scaled (qp_pack true 0x7ffe 0)
                                    + qp_scaled (qp_pack true 0x7ffe 5) <? 0))
  /\ vec_xsmulqpo (qp_pack true 0x7ffe 0) (qp_pack true 0x7ffe 5)
     = Z.lor qp_max_finite (sign_bit (qp_scaled (qp_pack true 0x7ffe 0)
                                      * qp_scaled (qp_pack true 0x7ffe 5) <? 0)).
Proof.
  pose proof (round_to_odd_overflow_max_finite (qp_pack true 0x7ffe 0) (qp_pack true 0x7ffe 5)
                ltac:(vm_compute; split; [discriminate|reflexivity])
                ltac:(vm_compute; split; [discriminate|reflexivity])
                ltac:(vm_compute; reflexivity) ltac:(vm_compute; reflexivity))
    as (Hadd & Hmul & _).
  pose proof (top_exponent_overflow (qp_pack true 0x7ffe 0) (qp_pack true 0x7ffe 5)
                ltac:(vm_compute; reflexivity) ltac:(vm_compute; reflexivity)) as (Oadd & Omul).
  split.
  - apply Hadd. apply Oadd. vm_compute. reflexivity.
  - apply Hmul. apply Omul.
Defined.

(** * Further properties of the code *)

(** ** Data classes *)

Lemma lanes4_eq a b : is_vec a -> is_vec b ->
  a mod 2 ^ 32 = b mod 2 ^ 32 ->
  (a / 2 ^ 32) mod 2 ^ 32 = (b / 2 ^ 32) mod 2 ^ 32 ->
  (a / 2 ^ 32 / 2 ^ 32) mod 2 ^ 32 = (b / 2 ^ 32 / 2 ^ 32) mod 2 ^ 32 ->
  (a / 2 ^ 32 / 2 ^ 32 / 2 ^ 32) mod 2 ^ 32 = (b / 2 ^ 32 / 2 ^ 32 / 2 ^ 32) mod 2 ^ 32 ->
  a = b.
Proof.
  intros Ha Hb E0 E1 E2 E3. unfold is_vec in *.
  assert (D : forall x, 0 <= x < 2 ^ 128 ->
            x = x mod 2 ^ 32 + 2 ^ 32 * ((x / 2 ^ 32) mod 2 ^ 32)
                + 2 ^ 64 * ((x / 2 ^ 32 / 2 ^ 32) mod 2 ^ 32)
                + 2 ^ 96 * ((x / 2 ^ 32 / 2 ^ 32 / 2 ^ 32) mod 2 ^ 32)).
  { intros x Hx.
    pose proof (Z.div_mod x (2 ^ 32) ltac:(lia)) as H0.
    pose proof (Z.div_mod (x / 2 ^ 32) (2 ^ 32) ltac:(lia)) as H1.
    pose proof (Z.div_mod (x / 2 ^ 32 / 2 ^ 32) (2 ^ 32) ltac:(lia)) as H2.
    pose proof (Z.div_mod (x / 2 ^ 32 / 2 ^ 32 / 2 ^ 32) (2 ^ 32) ltac:(lia)) as H3.
    assert (H4 : x / 2 ^ 32 / 2 ^ 32 / 2 ^ 32 / 2 ^ 32 = 0).
    { rewrite !Z.div_div by lia. apply Z.div_small. lia. }
    lia. }
  rewrite (D a Ha), (D b Hb), E0, E1, E2, E3. reflexivity.
Qed.

(** [vec_all_eq] on words of two vectors is equality of the vectors. *)
Lemma all_eq_w_eqb a b : is_vec a -> is_vec b -> vec_all_eq_w a b = (a =? b).
Proof.
  intros Ha Hb. unfold vec_all_eq_w. cbn [all2_lanes].
  destruct (Z.eqb_spec a b) as [->|Hne].
  - rewrite !Z.eqb_refl. reflexivity.
  - destruct (Z.eqb_spec (a mod 2 ^ 32) (b mod 2 ^ 32)) as [E0|]; [|reflexivity].
    destruct (Z.eqb_spec ((a / 2 ^ 32) mod 2 ^ 32) ((b / 2 ^ 32) mod 2 ^ 32)) as [E1|];
      [|reflexivity].
    destruct (Z.eqb_spec ((a / 2 ^ 32 / 2 ^ 32) mod 2 ^ 32) ((b / 2 ^ 32 / 2 ^ 32) mod 2 ^ 32))
      as [E2|]; [|reflexivity].
    destruct (Z.eqb_spec ((a / 2 ^ 32 / 2 ^ 32 / 2 ^ 32) mod 2 ^ 32)
                ((b / 2 ^ 32 / 2 ^ 32 / 2 ^ 32) mod 2 ^ 32)) as [E3|]; [|reflexivity].
    exfalso. apply Hne. now apply lanes4_eq.
Qed.

Lemma all_eq_d_eqb a b : is_vec a -> is_vec b -> vec_all_eq_d a b = (a =? b).
Proof.
  intros Ha Hb. unfold vec_all_eq_d.
  rewrite (vec_dw a Ha), (vec_dw b Hb) at 1.
  pose proof (div_range a 64 128 Ha ltac:(lia)) as Da.
  pose proof (div_range b 64 128 Hb ltac:(lia)) as Db.
  pose proof (Z.mod_pos_bound a (2 ^ 64) ltac:(lia)).
  pose proof (Z.mod_pos_bound b (2 ^ 64) ltac:(lia)).
  change (2 ^ (128 - 64)) with (2 ^ 64) in *.
  rewrite all2_dw by lia.
  pose proof (Z.div_mod a (2 ^ 64) ltac:(lia)). pose proof (Z.div_mod b (2 ^ 64) ltac:(lia)).
  destruct (Z.eqb_spec (a mod 2 ^ 64) (b mod 2 ^ 64));
    destruct (Z.eqb_spec (a / 2 ^ 64) (b / 2 ^ 64));
    destruct (Z.eqb_spec a b); cbn [andb]; try reflexivity; exfalso; try lia.
  all: subst; congruence.
Qed.

Lemma expmask_const : CONST_VINT128_W 0x7fff0000 0 0 0 = Z.shiftl (Z.ones 15) 112.
Proof. reflexivity. Qed.

Lemma exp_field_range v : is_vec (qp_exp v * 2 ^ 112).
Proof. pose proof (qp_exp_range v). unfold is_vec. lia. Qed.

Lemma mod127_range v : is_vec (v mod 2 ^ 127).
Proof. pose proof (Z.mod_pos_bound v (2 ^ 127) ltac:(lia)). unfold is_vec. lia. Qed.

Lemma abs_bits v : is_vec v ->
  vec_andc_bin128_2_vui32t v (CONST_VINT128_W 0x80000000 0 0 0)
  = qp_exp v * 2 ^ 112 + qp_frac v.
Proof.
  intros Hv. unfold vec_andc_bin128_2_vui32t, vec_andc.
  rewrite signmask_eq, clear_sign, qp_mag by assumption. reflexivity.
Qed.

Lemma all_isfinite_eq v : vec_all_isfinitef128 v = qp_is_finite v.
Proof.
  unfold vec_all_isfinitef128, vec_and_bin128_2_vui32t, vec_and. cbv zeta.
  rewrite expmask_const, land_expmask.
  rewrite all_eq_w_eqb by (try apply exp_field_range; unfold is_vec; cbn; lia).
  unfold qp_is_finite. pose proof (qp_exp_range v). rewrite Z.shiftl_mul_pow2 by lia.
  change (Z.ones 15) with 32767.
  destruct (Z.eqb_spec (qp_exp v * 2 ^ 112) (32767 * 2 ^ 112)); cbn [negb]; lia.
Qed.

Lemma all_isinf_eq v : is_vec v -> vec_all_isinff128 v = qp_is_inf v.
Proof.
  intros Hv. unfold vec_all_isinff128. cbv zeta.
  rewrite mag_eq, mask128_exp_eq by assumption.
  pose proof (qp_exp_range v). pose proof (qp_frac_range v).
  rewrite all_eq_w_eqb by (unfold is_vec; cbn; lia).
  unfold qp_is_inf. rewrite Z.shiftl_mul_pow2 by lia. change (Z.ones 15) with 32767.
  destruct (Z.eqb_spec (qp_exp v) 32767); destruct (Z.eqb_spec (qp_frac v) 0);
    cbn [andb]; lia.
Qed.

Lemma all_isnormal_eq v : vec_all_isnormalf128 v = qp_is_normal v.
Proof.
  unfold vec_all_isnormalf128, vec_and_bin128_2_vui32t, vec_and. cbv zeta.
  rewrite expmask_const, land_expmask.
  change (CONST_VINT128_W 0 0 0 0) with 0.
  rewrite !all_eq_w_eqb by (try apply exp_field_range; unfold is_vec; cbn; lia).
  unfold qp_is_normal. pose proof (qp_exp_range v). rewrite Z.shiftl_mul_pow2 by lia.
  change (Z.ones 15) with 32767.
  destruct (Z.eqb_spec (qp_exp v * 2 ^ 112) (32767 * 2 ^ 112));
    destruct (Z.eqb_spec (qp_exp v * 2 ^ 112) 0); cbn [negb orb]; lia.
Qed.

Lemma all_issubnormal_eq v : is_vec v -> vec_all_issubnormalf128 v = qp_is_subnormal v.
Proof.
  intros Hv. unfold vec_all_issubnormalf128. cbv zeta.
  rewrite abs_bits by assumption.
  change (CONST_VINT128_DW 281474976710656 0) with (2 ^ 112).
  change (CONST_VINT128_DW 0 0) with 0.
  unfold vec_cmpuq_all_gt, vec_cmpuq_all_eq, qp_is_subnormal.
  pose proof (qp_exp_range v). pose proof (qp_frac_range v).
  destruct (Z.eqb_spec (qp_exp v) 0); destruct (Z.eqb_spec (qp_frac v) 0);
    cbn [andb negb]; lia.
Qed.

Lemma all_iszero_eq v : is_vec v -> vec_all_iszerof128 v = qp_is_zero v.
Proof.
  intros Hv. unfold vec_all_iszerof128. cbv zeta.
  rewrite abs_bits by assumption. change (CONST_VINT128_DW 0 0) with 0.
  pose proof (qp_exp_range v). pose proof (qp_frac_range v).
  rewrite all_eq_d_eqb by (unfold is_vec; lia).
  unfold qp_is_zero.
  destruct (Z.eqb_spec (qp_exp v) 0); destruct (Z.eqb_spec (qp_frac v) 0);
    cbn [andb]; lia.
Qed.

(** X1. The data class predicates that return [int] decide the classes by
    the exponent and fraction fields, whatever the sign: finite (exponent
    below 32767), infinity (exponent 32767, fraction 0), NaN (exponent
    32767, fraction not 0), normal (exponent neither 0 nor 32767),
    subnormal (exponent 0, fraction not 0), zero (exponent 0, fraction 0). *)
Theorem class_predicates_decide_fields (v : Z) : is_vec v ->
  vec_all_isfinitef128 v = (qp_exp v <? 0x7fff)
  /\ vec_all_isinff128 v = ((qp_exp v =? 0x7fff) && (qp_frac v =? 0))
  /\ vec_all_isnanf128 v = ((qp_exp v =? 0x7fff) && negb (qp_frac v =? 0))
  /\ vec_all_isnormalf128 v = ((0 <? qp_exp v) && (qp_exp v <? 0x7fff))
  /\ vec_all_issubnormalf128 v = ((qp_exp v =? 0) && negb (qp_frac v =? 0))
  /\ vec_all_iszerof128 v = ((qp_exp v =? 0) && (qp_frac v =? 0)).
Proof.
  intros Hv. repeat split.
  - apply all_isfinite_eq.
  - now apply all_isinf_eq.
  - now apply all_isnan_eq.
  - apply all_isnormal_eq.
  - now apply all_issubnormal_eq.
  - now apply all_iszero_eq.
Qed.

Lemma class_predicates_decide_fields_witness :
  vec_all_isnormalf128 (qp_pack true 0x3fff 5) = true
  /\ vec_all_issubnormalf128 (qp_pack true 0x3fff 5) = false.
Proof.
  pose proof (class_predicates_decide_fields (qp_pack true 0x3fff 5)
                ltac:(vm_compute; split; [discriminate|reflexivity]))
    as (_ & _ & _ & Hn & Hs & _).
  rewrite Hn, Hs. split; vm_compute; reflexivity.
Defined.

(** X2. The five classes zero, subnormal, normal, infinity and NaN
    partition the bit patterns: exactly one of the five predicates holds,
    and the finite ones are the zero, subnormal and normal ones. *)
Theorem class_predicates_partition (v : Z) : is_vec v ->
  Z.b2z (vec_all_iszerof128 v) + Z.b2z (vec_all_issubnormalf128 v)
  + Z.b2z (vec_all_isnormalf128 v) + Z.b2z (vec_all_isinff128 v)
  + Z.b2z (vec_all_isnanf128 v) = 1
  /\ vec_all_isfinitef128 v
     = vec_all_iszerof128 v || vec_all_issubnormalf128 v || vec_all_isnormalf128 v.
Proof.
  intros Hv.
  rewrite all_isfinite_eq, all_isinf_eq, all_isnan_eq, all_isnormal_eq,
    all_issubnormal_eq, all_iszero_eq by assumption.
  unfold qp_is_finite, qp_is_inf, qp_is_nan, qp_is_normal, qp_is_subnormal, qp_is_zero.
  pose proof (qp_exp_range v).
  destruct (Z.eqb_spec (qp_exp v) 0); destruct (Z.eqb_spec (qp_exp v) 32767);
    destruct (Z.eqb_spec (qp_frac v) 0);
    destruct (Z.ltb_spec 0 (qp_exp v)); destruct (Z.ltb_spec (qp_exp v) 32767);
    cbn [andb orb negb Z.b2z]; try lia; split; reflexivity.
Qed.

Lemma class_predicates_partition_witness :
  vec_all_isfinitef128 (qp_pack false 0 9)
  = vec_all_iszerof128 (qp_pack false 0 9) || vec_all_issubnormalf128 (qp_pack false 0 9)
    || vec_all_isnormalf128 (qp_pack false 0 9).
Proof.
  apply (proj2 (class_predicates_partition (qp_pack false 0 9)
                  ltac:(vm_compute; split; [discriminate|reflexivity]))).
Defined.

Lemma elem_w4_h a3 a2 a1 a0 :
  0 <= a3 < 2 ^ 32 -> 0 <= a2 < 2 ^ 32 -> 0 <= a1 < 2 ^ 32 -> 0 <= a0 < 2 ^ 32 ->
  elem 32 4 VEC_W_H (CONST_VINT128_W a3 a2 a1 a0) = a3.
Proof.
  intros H3 H2 H1 H0. unfold elem, VEC_W_H, CONST_VINT128_W.
  rewrite (Z.mod_small a3), (Z.mod_small a2), (Z.mod_small a1), (Z.mod_small a0) by lia.
  change (32 * (Z.of_nat 4 - 1 - 0)) with 96.
  replace (a3 * 2 ^ 96 + a2 * 2 ^ 64 + a1 * 2 ^ 32 + a0)
    with ((a2 * 2 ^ 64 + a1 * 2 ^ 32 + a0) + a3 * 2 ^ 96) by lia.
  rewrite Z.div_add, Z.div_small by lia. apply Z.mod_small. lia.
Qed.

Lemma splat_w_bmask c : splat 32 4 (bmask 32 c) = bmask 128 c.
Proof. destruct c; reflexivity. Qed.

Lemma nor_bmask c1 c2 : vec_nor (bmask 128 c1) (bmask 128 c2) = bmask 128 (negb (c1 || c2)).
Proof. destruct c1, c2; reflexivity. Qed.

(** Word 0 of the compare of the exponent field with a constant. *)
Lemma cmpeq_exp_word e k : 0 <= e < 2 ^ 15 -> 0 <= k < 2 ^ 15 ->
  vec_cmpeq_w (e * 2 ^ 112) (CONST_VINT128_W (k * 2 ^ 16) 0 0 0)
  = CONST_VINT128_W (bmask 32 (e =? k)) (Z.ones 32) (Z.ones 32) (Z.ones 32).
Proof.
  intros He Hk. rewrite (expfield_w4 e He). unfold vec_cmpeq_w.
  rewrite map2_w4 by lia. cbn [Z.eqb bmask].
  replace (e * 2 ^ 16 =? k * 2 ^ 16) with (e =? k); [reflexivity|].
  destruct (Z.eqb_spec e k); destruct (Z.eqb_spec (e * 2 ^ 16) (k * 2 ^ 16)); lia.
Qed.

Lemma isfinite_eq v : vec_isfinitef128 v = bmask 128 (qp_is_finite v).
Proof.
  unfold vec_isfinitef128, vec_and_bin128_2_vui32t, vec_and. cbv zeta.
  rewrite expmask_const, land_expmask.
  pose proof (qp_exp_range v) as He.
  change (Z.shiftl (Z.ones 15) 112) with (CONST_VINT128_W (32767 * 2 ^ 16) 0 0 0).
  rewrite cmpeq_exp_word by lia. unfold vec_splat_w.
  rewrite elem_w4_h by (try apply bmask_range; cbn; lia).
  rewrite splat_w_bmask, nor_bmask, orb_diag. unfold qp_is_finite. f_equal.
  destruct (Z.eqb_spec (qp_exp v) 32767); cbn [negb]; lia.
Qed.

Lemma isnormal_eq v : vec_isnormalf128 v = bmask 128 (qp_is_normal v).
Proof.
  unfold vec_isnormalf128, vec_and_bin128_2_vui32t, vec_and. cbv zeta.
  rewrite expmask_const, land_expmask.
  pose proof (qp_exp_range v) as He.
  change (Z.shiftl (Z.ones 15) 112) with (CONST_VINT128_W (32767 * 2 ^ 16) 0 0 0).
  change (CONST_VINT128_W 0 0 0 0) with (CONST_VINT128_W (0 * 2 ^ 16) 0 0 0).
  rewrite !cmpeq_exp_word by lia. unfold qp_is_normal.
  destruct (Z.eqb_spec (qp_exp v) 32767); destruct (Z.eqb_spec (qp_exp v) 0);
    destruct (Z.ltb_spec 0 (qp_exp v)); destruct (Z.ltb_spec (qp_exp v) 32767);
    try lia; reflexivity.
Qed.

Lemma isinf_eq v : is_vec v -> vec_isinff128 v = bmask 128 (qp_is_inf v).
Proof.
  intros Hv. unfold vec_isinff128. cbv zeta. rewrite abs_bits by assumption.
  unfold vec_cmpequq, qp_is_inf. f_equal.
  change (CONST_VINT128_W 2147418112 0 0 0) with (32767 * 2 ^ 112).
  pose proof (qp_exp_range v). pose proof (qp_frac_range v).
  destruct (Z.eqb_spec (qp_exp v) 32767); destruct (Z.eqb_spec (qp_frac v) 0);
    cbn [andb]; lia.
Qed.

Lemma issubnormal_eq v : is_vec v ->
  vec_issubnormalf128 v = bmask 128 (qp_is_subnormal v).
Proof.
  intros Hv. unfold vec_issubnormalf128. cbv zeta. rewrite abs_bits by assumption.
  unfold vec_cmpltuq, vec_cmpequq. rewrite bmask_andc. f_equal.
  change (CONST_VINT128_W 65536 0 0 0) with (2 ^ 112).
  change (CONST_VINT128_W 0 0 0 0) with 0. unfold qp_is_subnormal.
  pose proof (qp_exp_range v). pose proof (qp_frac_range v).
  destruct (Z.eqb_spec (qp_exp v) 0); destruct (Z.eqb_spec (qp_frac v) 0);
    cbn [andb negb]; lia.
Qed.

Lemma iszero_eq v : is_vec v -> vec_iszerof128 v = bmask 128 (qp_is_zero v).
Proof.
  intros Hv. unfold vec_iszerof128. cbv zeta. rewrite abs_bits by assumption.
  unfold vec_cmpequq, qp_is_zero. f_equal. change (CONST_VINT128_DW 0 0) with 0.
  pose proof (qp_exp_range v). pose proof (qp_frac_range v).
  destruct (Z.eqb_spec (qp_exp v) 0); destruct (Z.eqb_spec (qp_frac v) 0);
    cbn [andb]; lia.
Qed.

(** X3. Each data class predicate that returns a vector bool returns all
    ones when the predicate that returns [int] is true and all zeros when
    it is false, so the two forms always agree. *)
Theorem class_vector_forms_agree (v w : Z) : is_vec v -> is_vec w ->
  vec_isfinitef128 v = bmask 128 (vec_all_isfinitef128 v)
  /\ vec_isinff128 v = bmask 128 (vec_all_isinff128 v)
  /\ vec_isnanf128 v = bmask 128 (vec_all_isnanf128 v)
  /\ vec_isnormalf128 v = bmask 128 (vec_all_isnormalf128 v)
  /\ vec_issubnormalf128 v = bmask 128 (vec_all_issubnormalf128 v)
  /\ vec_iszerof128 v = bmask 128 (vec_all_iszerof128 v)
  /\ vec_isunorderedf128 v w = bmask 128 (vec_all_isunorderedf128 v w).
Proof.
  intros Hv Hw.
  rewrite all_isfinite_eq, all_isinf_eq, all_isnan_eq, all_isnormal_eq,
    all_issubnormal_eq, all_iszero_eq by assumption.
  repeat split.
  - apply isfinite_eq.
  - now apply isinf_eq.
  - now apply isnan_eq.
  - apply isnormal_eq.
  - now apply issubnormal_eq.
  - now apply iszero_eq.
  - unfold vec_isunorderedf128, vec_all_isunorderedf128.
    rewrite !isnan_eq, !all_isnan_eq by assumption. apply bmask_or.
Qed.

Lemma class_vector_forms_agree_witness :
  vec_isnormalf128 (qp_pack true 0x3fff 5) = bmask 128 (vec_all_isnormalf128 (qp_pack true 0x3fff 5))
  /\ vec_isunorderedf128 (qp_pack true 0x3fff 5) (qp_pack false 0x7fff 1) = Z.ones 128.
Proof.
  pose proof (class_vector_forms_agree (qp_pack true 0x3fff 5) (qp_pack false 0x7fff 1)
                ltac:(vm_compute; split; [discriminate|reflexivity])
                ltac:(vm_compute; split; [discriminate|reflexivity]))
    as (_ & _ & _ & Hn & _ & _ & Hu).
  split; [exact Hn|]. rewrite Hu. vm_compute. reflexivity.
Defined.

(** X4. vec_isinf_signf128 returns 1 for +Infinity, -1 for -Infinity and
    0 for every other bit pattern (finite values and NaNs). *)
Theorem isinf_sign_result (v : Z) : is_vec v ->
  vec_isinf_signf128 v
  = if qp_is_inf v then (if qp_sign v then -1 else 1) else 0.
Proof.
  intros Hv. unfold vec_isinf_signf128. cbv zeta.
  rewrite abs_bits by assumption.
  pose proof (qp_exp_range v). pose proof (qp_frac_range v).
  rewrite all_eq_w_eqb by (unfold is_vec; cbn; lia).
  change (CONST_VINT128_W 2147418112 0 0 0) with (32767 * 2 ^ 112).
  destruct (qp_is_inf v) eqn:Ei.
  - pose proof (qp_inf_eq v Hv Ei) as Ev. unfold qp_is_inf in Ei.
    apply andb_true_iff in Ei as [E1 E2]. apply Z.eqb_eq in E1, E2. rewrite E1, E2.
    unfold vec_xfer_bin128_2_vui32t. rewrite Ev at 1.
    destruct (qp_sign v); reflexivity.
  - unfold qp_is_inf in Ei.
    destruct (Z.eqb_spec (qp_exp v * 2 ^ 112 + qp_frac v) (32767 * 2 ^ 112)); [|reflexivity].
    exfalso.
    destruct (Z.eqb_spec (qp_exp v) 32767); destruct (Z.eqb_spec (qp_frac v) 0);
      cbn [andb] in Ei; try discriminate; lia.
Qed.

Lemma isinf_sign_result_witness :
  vec_isinf_signf128 (qp_pack true 0x7fff 0) = -1.
Proof.
  rewrite (isinf_sign_result (qp_pack true 0x7fff 0)
             ltac:(vm_compute; split; [discriminate|reflexivity])).
  vm_compute. reflexivity.
Defined.

(** ** Sign manipulation *)

Lemma lor_sign_bit m s : 0 <= m < 2 ^ 127 -> Z.lor m (sign_bit s) = sign_bit s + m.
Proof.
  intros Hm. destruct s; cbn [sign_bit].
  - rewrite Z.lor_comm. change (Z.lor (2 ^ 127) m) with (Z.lor (Z.shiftl 1 127) m).
    rewrite <- add_lor_disj by lia. lia.
  - rewrite Z.lor_0_r. lia.
Qed.

Lemma absf128_eq v : is_vec v -> vec_absf128 v = qp_pack false (qp_exp v) (qp_frac v).
Proof.
  intros Hv. unfold vec_absf128, vec_xfer_vui32t_2_bin128. cbv zeta.
  rewrite abs_bits by assumption. unfold qp_pack, sign_bit. lia.
Qed.

Lemma copysignf128_eq x y : is_vec x -> is_vec y ->
  vec_copysignf128 x y = qp_pack (qp_sign x) (qp_exp y) (qp_frac y).
Proof.
  intros Hx Hy.
  unfold vec_copysignf128, vec_xfer_vui32t_2_bin128, vec_xfer_bin128_2_vui32t, vec_sel.
  cbv zeta.
  pose proof (abs_bits y Hy) as Hm. pose proof (qp_sign_land x Hx) as Hs.
  unfold vec_andc_bin128_2_vui32t, vec_andc, vec_and_bin128_2_vui32t, vec_and in Hm, Hs.
  rewrite Hm, Hs, lor_sign_bit by apply qp_mag_range.
  unfold qp_pack. lia.
Qed.

(** X5. vec_absf128 clears the sign bit and keeps the exponent and the
    fraction of every bit pattern (NaNs included); it is idempotent and
    absorbs a negation of its operand. *)
Theorem absf128_clears_sign_only (v : Z) : is_vec v ->
  is_vec (vec_absf128 v)
  /\ qp_sign (vec_absf128 v) = false
  /\ qp_exp (vec_absf128 v) = qp_exp v
  /\ qp_frac (vec_absf128 v) = qp_frac v
  /\ vec_absf128 (vec_absf128 v) = vec_absf128 v
  /\ vec_absf128 (vec_negf128 v) = vec_absf128 v.
Proof.
  intros Hv. pose proof (qp_exp_range v) as He. pose proof (qp_frac_range v) as Hf.
  destruct (negf128_fields v Hv) as (Hn & _ & En & Fn).
  assert (Hr : is_vec (qp_pack false (qp_exp v) (qp_frac v))) by (apply qp_pack_range; lia).
  rewrite (absf128_eq (vec_negf128 v)), En, Fn by assumption.
  rewrite !(absf128_eq v Hv), (absf128_eq _ Hr).
  rewrite qp_sign_pack, qp_exp_pack, qp_frac_pack by lia.
  repeat split; try reflexivity; apply Hr.
Qed.

Lemma absf128_clears_sign_only_witness :
  vec_absf128 (vec_negf128 (qp_pack false 0x7fff 9)) = vec_absf128 (qp_pack false 0x7fff 9).
Proof.
  pose proof (absf128_clears_sign_only (qp_pack false 0x7fff 9)
                ltac:(vm_compute; split; [discriminate|reflexivity]))
    as (_ & _ & _ & _ & _ & H).
  exact H.
Defined.

(** X6. The software branch of vec_nabsf128 applies the same
    and-with-complement of the sign mask as vec_absf128: its result has
    the exponent and fraction of the operand and the sign bit clear. *)
Theorem nabsf128_software_branch (v : Z) : is_vec v ->
  vec_nabsf128 v = qp_pack false (qp_exp v) (qp_frac v)
  /\ qp_sign (vec_nabsf128 v) = false
  /\ qp_exp (vec_nabsf128 v) = qp_exp v
  /\ qp_frac (vec_nabsf128 v) = qp_frac v.
Proof.
  intros Hv. pose proof (qp_exp_range v) as He. pose proof (qp_frac_range v) as Hf.
  assert (E : vec_nabsf128 v = qp_pack false (qp_exp v) (qp_frac v)).
  { unfold vec_nabsf128, vec_xfer_vui32t_2_bin128. cbv zeta.
    rewrite abs_bits by assumption. unfold qp_pack, sign_bit. lia. }
  rewrite E, qp_sign_pack, qp_exp_pack, qp_frac_pack by lia. repeat split.
Qed.

Lemma nabsf128_software_branch_witness :
  qp_sign (vec_nabsf128 (qp_pack true 0x3fff 0)) = false.
Proof.
  pose proof (nabsf128_software_branch (qp_pack true 0x3fff 0)
                ltac:(vm_compute; split; [discriminate|reflexivity])) as (_ & H & _).
  exact H.
Defined.

(** X7. vec_negf128 flips the sign bit and keeps the exponent and the
    fraction of every bit pattern (zeros, infinities and NaNs included);
    applied twice it returns its operand. *)
Theorem negf128_involution (v : Z) : is_vec v ->
  qp_sign (vec_negf128 v) = negb (qp_sign v)
  /\ qp_exp (vec_negf128 v) = qp_exp v
  /\ qp_frac (vec_negf128 v) = qp_frac v
  /\ vec_negf128 (vec_negf128 v) = v.
Proof.
  intros Hv. destruct (negf128_fields v Hv) as (Hn & Sn & En & Fn).
  repeat split; try assumption.
  rewrite (negf128_eq _ Hn), Sn, En, Fn, negb_involutive. symmetry. now apply qp_fields.
Qed.

Lemma negf128_involution_witness :
  vec_negf128 (vec_negf128 (qp_pack true 0x7fff 3)) = qp_pack true 0x7fff 3.
Proof.
  pose proof (negf128_involution (qp_pack true 0x7fff 3)
                ltac:(vm_compute; split; [discriminate|reflexivity])) as (_ & _ & _ & H).
  exact H.
Defined.

(** X8. vec_copysignf128 (f128x, f128y) returns the sign of its FIRST
    operand with the exponent and fraction of its SECOND operand. *)
Theorem copysignf128_sign_of_first (x y : Z) : is_vec x -> is_vec y ->
  qp_sign (vec_copysignf128 x y) = qp_sign x
  /\ qp_exp (vec_copysignf128 x y) = qp_exp y
  /\ qp_frac (vec_copysignf128 x y) = qp_frac y
  /\ vec_absf128 (vec_copysignf128 x y) = vec_absf128 y
  /\ vec_copysignf128 y y = y.
Proof.
  intros Hx Hy. pose proof (qp_exp_range y) as He. pose proof (qp_frac_range y) as Hf.
  assert (Hr : is_vec (qp_pack (qp_sign x) (qp_exp y) (qp_frac y)))
    by (apply qp_pack_range; lia).
  rewrite (copysignf128_eq y y Hy Hy), <- (qp_fields y Hy).
  rewrite (copysignf128_eq x y Hx Hy), (absf128_eq _ Hr), (absf128_eq y Hy).
  rewrite qp_sign_pack, qp_exp_pack, qp_frac_pack by lia. repeat split.
Qed.

Lemma copysignf128_sign_of_first_witness :
  qp_sign (vec_copysignf128 (qp_pack true 0x3fff 0) (qp_pack false 0x4000 7)) = true
  /\ qp_exp (vec_copysignf128 (qp_pack true 0x3fff 0) (qp_pack false 0x4000 7)) = 0x4000.
Proof.
  pose proof (copysignf128_sign_of_first (qp_pack true 0x3fff 0) (qp_pack false 0x4000 7)
                ltac:(vm_compute; split; [discriminate|reflexivity])
                ltac:(vm_compute; split; [discriminate|reflexivity])) as (Hs & He & _).
  rewrite Hs, He. split; vm_compute; reflexivity.
Defined.

Lemma signbitf128_eq v : is_vec v -> vec_signbitf128 v = qp_sign v.
Proof.
  intros Hv. unfold vec_signbitf128. cbv zeta. rewrite qp_sign_land by assumption.
  rewrite all_eq_w_eqb by (try apply sign_bit_range; unfold is_vec; cbn; lia).
  rewrite signmask_eq. destruct (qp_sign v); reflexivity.
Qed.

(** X9. vec_signbitf128 returns true, and vec_setb_qp returns all ones,
    exactly when bit 127 of the operand is set, for every bit pattern:
    -0.0, negative NaNs and -Infinity count as negative. *)
Theorem signbit_and_setb (v : Z) : is_vec v ->
  vec_signbitf128 v = Z.testbit v 127
  /\ vec_setb_qp v = (if Z.testbit v 127 then Z.ones 128 else 0)
  /\ vec_signbitf128 (vec_negf128 v) = negb (vec_signbitf128 v).
Proof.
  intros Hv. destruct (negf128_fields v Hv) as (Hn & Sn & _).
  rewrite (signbitf128_eq _ Hn), Sn, signbitf128_eq, setb_qp_eq by assumption.
  repeat split.
Qed.

Lemma signbit_and_setb_witness :
  vec_signbitf128 (2 ^ 127) = true /\ vec_setb_qp (2 ^ 127) = Z.ones 128.
Proof.
  pose proof (signbit_and_setb (2 ^ 127) ltac:(vm_compute; split; [discriminate|reflexivity]))
    as (H1 & H2 & _).
  rewrite H1, H2. split; reflexivity.
Defined.

(** ** Compares *)

Lemma sign_mag_decomp v : is_vec v ->
  v = sign_bit (qp_sign v) + qp_magnitude v /\ 0 <= qp_magnitude v < 2 ^ 127.
Proof.
  intros Hv. unfold qp_magnitude. rewrite qp_mag by assumption.
  split; [|apply qp_mag_range].
  rewrite (qp_fields v Hv) at 1. unfold qp_pack. lia.
Qed.

Lemma cmp_operand_eq v : is_vec v -> cmp_operand v = 2 ^ 127 + qp_signed_magnitude v.
Proof.
  intros Hv. unfold cmp_operand, vec_xfer_bin128_2_vui128t. cbv zeta.
  destruct (sign_mag_decomp v Hv) as [Ev Hm].
  rewrite setb_qp_eq, signmask_eq by assumption.
  change (CONST_VINT128_W 0 0 0 0) with 0.
  unfold qp_signed_magnitude, vec_xor, vec_subuqm.
  set (m := qp_magnitude v) in *.
  destruct (qp_sign v); cbn [sign_bit] in Ev.
  - rewrite sel_bmask.
    + rewrite Ev. replace (0 - (2 ^ 127 + m)) with ((2 ^ 127 - m) + (-1) * 2 ^ 128) by lia.
      rewrite Z.mod_add by lia. apply Z.mod_small. lia.
    + rewrite Ev. replace (2 ^ 127 + m) with (m + 2 ^ 127) by lia.
      rewrite <- lxor_signmask, Z.lxor_assoc, Z.lxor_nilpotent, Z.lxor_0_r by lia.
      unfold is_vec. lia.
    + apply is_vec_mod.
  - rewrite sel_bmask.
    + rewrite Ev, Z.add_0_l, lxor_signmask by lia. lia.
    + rewrite Ev, Z.add_0_l, lxor_signmask by lia. unfold is_vec. lia.
    + apply is_vec_mod.
Qed.

Lemma signed_magnitude_range v : - 2 ^ 127 < qp_signed_magnitude v < 2 ^ 127.
Proof.
  unfold qp_signed_magnitude, qp_magnitude.
  pose proof (Z.mod_pos_bound v (2 ^ 127) ltac:(lia)). destruct (qp_sign v); lia.
Qed.

(** Two patterns have the same signed magnitude when they are equal or
    both zeros. *)
Lemma same_signed_magnitude a b : is_vec a -> is_vec b ->
  ((a =? b) || (Z.lor a b =? 2 ^ 127)) = (qp_signed_magnitude a =? qp_signed_magnitude b).
Proof.
  intros Ha Hb. rewrite or_is_signmask, !qp_zero_mag by assumption.
  destruct (sign_mag_decomp a Ha) as [Ea Hma]. destruct (sign_mag_decomp b Hb) as [Eb Hmb].
  unfold qp_signed_magnitude. fold (qp_magnitude a) (qp_magnitude b).
  set (ma := qp_magnitude a) in *. set (mb := qp_magnitude b) in *.
  destruct (qp_sign a), (qp_sign b); cbn [sign_bit] in Ea, Eb;
    destruct (Z.eqb_spec a b); destruct (Z.eqb_spec ma 0); destruct (Z.eqb_spec mb 0);
    cbn [andb orb]; symmetry; try (apply Z.eqb_eq; lia); apply Z.eqb_neq; lia.
Qed.

Section UzCompares.
Variables vfa vfb : Z.
Hypothesis Ha : is_vec vfa.
Hypothesis Hb : is_vec vfb.
Let sa := qp_signed_magnitude vfa.
Let sb := qp_signed_magnitude vfb.

Lemma cmpgtuzqp_eq : vec_cmpgtuzqp vfa vfb = bmask 128 (sb <? sa).
Proof.
  change (vec_cmpgtuzqp vfa vfb) with (vec_cmpgtuq (cmp_operand vfa) (cmp_operand vfb)).
  rewrite !cmp_operand_eq by assumption. unfold vec_cmpgtuq. f_equal. subst sa sb.
  destruct (Z.ltb_spec (2 ^ 127 + qp_signed_magnitude vfb) (2 ^ 127 + qp_signed_magnitude vfa));
    destruct (Z.ltb_spec (qp_signed_magnitude vfb) (qp_signed_magnitude vfa)); lia.
Qed.

Lemma cmpgeuzqp_eq : vec_cmpgeuzqp vfa vfb = bmask 128 (sb <=? sa).
Proof.
  change (vec_cmpgeuzqp vfa vfb) with (vec_cmpgeuq (cmp_operand vfa) (cmp_operand vfb)).
  rewrite !cmp_operand_eq by assumption. unfold vec_cmpgeuq. f_equal. subst sa sb.
  destruct (Z.leb_spec (2 ^ 127 + qp_signed_magnitude vfb) (2 ^ 127 + qp_signed_magnitude vfa));
    destruct (Z.leb_spec (qp_signed_magnitude vfb) (qp_signed_magnitude vfa)); lia.
Qed.

Lemma cmpltuzqp_eq : vec_cmpltuzqp vfa vfb = bmask 128 (sa <? sb).
Proof.
  change (vec_cmpltuzqp vfa vfb) with (vec_cmpltuq (cmp_operand vfa) (cmp_operand vfb)).
  rewrite !cmp_operand_eq by assumption. unfold vec_cmpltuq. f_equal. subst sa sb.
  destruct (Z.ltb_spec (2 ^ 127 + qp_signed_magnitude vfa) (2 ^ 127 + qp_signed_magnitude vfb));
    destruct (Z.ltb_spec (qp_signed_magnitude vfa) (qp_signed_magnitude vfb)); lia.
Qed.

Lemma cmpleuzqp_eq : vec_cmpleuzqp vfa vfb = bmask 128 (sa <=? sb).
Proof.
  change (vec_cmpleuzqp vfa vfb) with (vec_cmpleuq (cmp_operand vfa) (cmp_operand vfb)).
  rewrite !cmp_operand_eq by assumption. unfold vec_cmpleuq. f_equal. subst sa sb.
  destruct (Z.leb_spec (2 ^ 127 + qp_signed_magnitude vfa) (2 ^ 127 + qp_signed_magnitude vfb));
    destruct (Z.leb_spec (qp_signed_magnitude vfa) (qp_signed_magnitude vfb)); lia.
Qed.

Lemma cmpequzqp_eq : vec_cmpequzqp vfa vfb = bmask 128 (sa =? sb).
Proof.
  unfold vec_cmpequzqp, vec_xfer_bin128_2_vui64t, vec_cmpequq. cbv zeta.
  rewrite bmask_or, signmask_eq. unfold vec_or. f_equal. now apply same_signed_magnitude.
Qed.

Lemma cmpneuzqp_eq : vec_cmpneuzqp vfa vfb = bmask 128 (negb (sa =? sb)).
Proof.
  unfold vec_cmpneuzqp, vec_xfer_bin128_2_vui64t, vec_cmpequq. cbv zeta.
  rewrite nor_bmask, signmask_eq. unfold vec_or. do 2 f_equal.
  now apply same_signed_magnitude.
Qed.

Let unordered := qp_is_nan vfa || qp_is_nan vfb.

Lemma unordered_eq : vec_isunorderedf128 vfa vfb = bmask 128 unordered.
Proof. unfold vec_isunorderedf128. rewrite !isnan_eq by assumption. apply bmask_or. Qed.

Lemma cmpgtuqp_eq : vec_cmpgtuqp vfa vfb = bmask 128 ((sb <? sa) && negb unordered).
Proof.
  change (vec_cmpgtuqp vfa vfb)
    with (vec_andc (vec_cmpgtuzqp vfa vfb) (vec_isunorderedf128 vfa vfb)).
  rewrite cmpgtuzqp_eq, unordered_eq. apply bmask_andc.
Qed.

Lemma cmpgeuqp_eq : vec_cmpgeuqp vfa vfb = bmask 128 ((sb <=? sa) && negb unordered).
Proof.
  change (vec_cmpgeuqp vfa vfb)
    with (vec_andc (vec_cmpgeuzqp vfa vfb) (vec_isunorderedf128 vfa vfb)).
  rewrite cmpgeuzqp_eq, unordered_eq. apply bmask_andc.
Qed.

Lemma cmpltuqp_eq : vec_cmpltuqp vfa vfb = bmask 128 ((sa <? sb) && negb unordered).
Proof.
  change (vec_cmpltuqp vfa vfb)
    with (vec_andc (vec_cmpltuzqp vfa vfb) (vec_isunorderedf128 vfa vfb)).
  rewrite cmpltuzqp_eq, unordered_eq. apply bmask_andc.
Qed.

Lemma cmpleuqp_eq : vec_cmpleuqp vfa vfb = bmask 128 ((sa <=? sb) && negb unordered).
Proof.
  change (vec_cmpleuqp vfa vfb)
    with (vec_andc (vec_cmpleuzqp vfa vfb) (vec_isunorderedf128 vfa vfb)).
  rewrite cmpleuzqp_eq, unordered_eq. apply bmask_andc.
Qed.

Lemma cmpequqp_sm : vec_cmpequqp vfa vfb = bmask 128 ((sa =? sb) && negb unordered).
Proof.
  change (vec_cmpequqp vfa vfb)
    with (vec_andc (vec_cmpequzqp vfa vfb) (vec_isunorderedf128 vfa vfb)).
  rewrite cmpequzqp_eq, unordered_eq. apply bmask_andc.
Qed.

Lemma cmpneuqp_eq : vec_cmpneuqp vfa vfb = bmask 128 (negb (sa =? sb) || unordered).
Proof.
  change (vec_cmpneuqp vfa vfb)
    with (vec_or (vec_cmpneuzqp vfa vfb) (vec_isunorderedf128 vfa vfb)).
  rewrite cmpneuzqp_eq, unordered_eq. apply bmask_or.
Qed.
End UzCompares.

(** X10. The zeros-unordered compares decide the order of the signed
    magnitudes (sign, exponent and fraction read as one signed number) of
    every two bit patterns: +0.0 and -0.0 compare equal, and a NaN is not
    tested for, it compares by its bits as a magnitude above infinity. *)
Theorem uz_compares_by_signed_magnitude (vfa vfb : Z) : is_vec vfa -> is_vec vfb ->
  vec_cmpequzqp vfa vfb = bmask 128 (qp_signed_magnitude vfa =? qp_signed_magnitude vfb)
  /\ vec_cmpneuzqp vfa vfb
     = bmask 128 (negb (qp_signed_magnitude vfa =? qp_signed_magnitude vfb))
  /\ vec_cmpgtuzqp vfa vfb = bmask 128 (qp_signed_magnitude vfb <? qp_signed_magnitude vfa)
  /\ vec_cmpgeuzqp vfa vfb = bmask 128 (qp_signed_magnitude vfb <=? qp_signed_magnitude vfa)
  /\ vec_cmpltuzqp vfa vfb = bmask 128 (qp_signed_magnitude vfa <? qp_signed_magnitude vfb)
  /\ vec_cmpleuzqp vfa vfb = bmask 128 (qp_signed_magnitude vfa <=? qp_signed_magnitude vfb).
Proof.
  intros Ha Hb. repeat split.
  - now apply cmpequzqp_eq.
  - now apply cmpneuzqp_eq.
  - now apply cmpgtuzqp_eq.
  - now apply cmpgeuzqp_eq.
  - now apply cmpltuzqp_eq.
  - now apply cmpleuzqp_eq.
Qed.

Lemma uz_compares_by_signed_magnitude_witness :
  vec_cmpequzqp 0 (2 ^ 127) = Z.ones 128
  /\ vec_cmpgtuzqp (qp_pack false 0x7fff 1) (qp_pack false 0x7fff 0) = Z.ones 128.
Proof.
  split.
  - pose proof (uz_compares_by_signed_magnitude 0 (2 ^ 127)
                  ltac:(vm_compute; split; [discriminate|reflexivity])
                  ltac:(vm_compute; split; [discriminate|reflexivity])) as (H & _).
    rewrite H. vm_compute. reflexivity.
  - pose proof (uz_compares_by_signed_magnitude (qp_pack false 0x7fff 1) (qp_pack false 0x7fff 0)
                  ltac:(vm_compute; split; [discriminate|reflexivity])
                  ltac:(vm_compute; split; [discriminate|reflexivity])) as (_ & _ & H & _).
    rewrite H. vm_compute. reflexivity.
Defined.

(** X11. With a NaN in either operand the IEEE-unordered compares greater
    than, greater or equal, less than and less or equal return all zeros
    and not-equal returns all ones, whatever the other operand. *)
Theorem u_compares_unordered (vfa vfb : Z) : is_vec vfa -> is_vec vfb ->
  (qp_is_nan vfa || qp_is_nan vfb) = true ->
  vec_cmpgtuqp vfa vfb = 0 /\ vec_cmpgeuqp vfa vfb = 0
  /\ vec_cmpltuqp vfa vfb = 0 /\ vec_cmpleuqp vfa vfb = 0
  /\ vec_cmpneuqp vfa vfb = Z.ones 128.
Proof.
  intros Ha Hb Hn.
  rewrite cmpgtuqp_eq, cmpgeuqp_eq, cmpltuqp_eq, cmpleuqp_eq, cmpneuqp_eq by assumption.
  rewrite Hn. cbn [negb]. rewrite !andb_false_r, orb_true_r. repeat split.
Qed.

Lemma u_compares_unordered_witness :
  vec_cmpgeuqp (qp_pack false 0x7fff 1) (qp_pack false 0x7fff 1) = 0
  /\ vec_cmpneuqp (qp_pack false 0x7fff 1) (qp_pack false 0x7fff 1) = Z.ones 128.
Proof.
  pose proof (u_compares_unordered (qp_pack false 0x7fff 1) (qp_pack false 0x7fff 1)
                ltac:(vm_compute; split; [discriminate|reflexivity])
                ltac:(vm_compute; split; [discriminate|reflexivity])
                ltac:(vm_compute; reflexivity)) as (_ & H1 & _ & _ & H2).
  split; assumption.
Defined.

(** The magnitude field and the scaled magnitude order alike. *)
Lemma magnitude_scaled_lt a b : is_vec a -> is_vec b ->
  qp_magnitude a < qp_magnitude b
  <-> qp_sig a * 2 ^ (qp_e a - 1) < qp_sig b * 2 ^ (qp_e b - 1).
Proof.
  intros Ha Hb. unfold qp_magnitude. rewrite !qp_mag by assumption. split.
  - intros Hlt. destruct (mag_le_scaled a b ltac:(lia)) as [_ Hle].
    destruct (Z.eq_dec (qp_sig a * 2 ^ (qp_e a - 1)) (qp_sig b * 2 ^ (qp_e b - 1))) as [E|]; [|lia].
    destruct (scaled_magnitude_inj a b E). lia.
  - intros Hlt.
    destruct (Z.lt_ge_cases (qp_exp a * 2 ^ 112 + qp_frac a) (qp_exp b * 2 ^ 112 + qp_frac b))
      as [|Hge]; [assumption|].
    destruct (mag_le_scaled b a ltac:(lia)). lia.
Qed.

Lemma signed_magnitude_scaled_lt a b : is_vec a -> is_vec b ->
  qp_signed_magnitude a < qp_signed_magnitude b <-> qp_scaled a < qp_scaled b.
Proof.
  intros Ha Hb.
  pose proof (magnitude_scaled_lt a b Ha Hb) as Hab.
  pose proof (magnitude_scaled_lt b a Hb Ha) as Hba.
  assert (H0 : is_vec 0) by (unfold is_vec; lia).
  pose proof (magnitude_scaled_lt 0 a H0 Ha) as Hza.
  pose proof (magnitude_scaled_lt 0 b H0 Hb) as Hzb.
  change (qp_magnitude 0) with 0 in Hza, Hzb.
  change (qp_sig 0 * 2 ^ (qp_e 0 - 1)) with 0 in Hza, Hzb.
  destruct (sign_mag_decomp a Ha) as [_ Hma]. destruct (sign_mag_decomp b Hb) as [_ Hmb].
  pose proof (scaled_nonneg a) as Na. pose proof (scaled_nonneg b) as Nb.
  unfold qp_signed_magnitude, qp_scaled.
  set (ma := qp_magnitude a) in *. set (mb := qp_magnitude b) in *.
  set (Ma := qp_sig a * 2 ^ (qp_e a - 1)) in *. set (Mb := qp_sig b * 2 ^ (qp_e b - 1)) in *.
  destruct (qp_sign a), (qp_sign b); lia.
Qed.

Section UCompareValues.
Variables vfa vfb : Z.
Hypothesis Ha : is_vec vfa.
Hypothesis Hb : is_vec vfb.

Lemma sm_ltb_scaled :
  (qp_signed_magnitude vfa <? qp_signed_magnitude vfb) = (qp_scaled vfa <? qp_scaled vfb).
Proof.
  pose proof (signed_magnitude_scaled_lt vfa vfb Ha Hb).
  destruct (Z.ltb_spec (qp_signed_magnitude vfa) (qp_signed_magnitude vfb));
    destruct (Z.ltb_spec (qp_scaled vfa) (qp_scaled vfb)); lia.
Qed.

Lemma sm_leb_scaled :
  (qp_signed_magnitude vfa <=? qp_signed_magnitude vfb) = (qp_scaled vfa <=? qp_scaled vfb).
Proof.
  pose proof (signed_magnitude_scaled_lt vfb vfa Hb Ha).
  destruct (Z.leb_spec (qp_signed_magnitude vfa) (qp_signed_magnitude vfb));
    destruct (Z.leb_spec (qp_scaled vfa) (qp_scaled vfb)); lia.
Qed.

Lemma sm_eqb_scaled :
  (qp_signed_magnitude vfa =? qp_signed_magnitude vfb) = (qp_scaled vfa =? qp_scaled vfb).
Proof.
  pose proof (signed_magnitude_scaled_lt vfb vfa Hb Ha).
  pose proof (signed_magnitude_scaled_lt vfa vfb Ha Hb).
  destruct (Z.eqb_spec (qp_signed_magnitude vfa) (qp_signed_magnitude vfb));
    destruct (Z.eqb_spec (qp_scaled vfa) (qp_scaled vfb)); lia.
Qed.
End UCompareValues.

Lemma finite_not_nan v : qp_is_finite v = true -> qp_is_nan v = false.
Proof.
  unfold qp_is_finite, qp_is_nan. intros H.
  destruct (Z.eqb_spec (qp_exp v) 32767); [lia|reflexivity].
Qed.

(** X12. For finite operands the IEEE-unordered compares decide the order
    of the exact values ([qp_scaled], the value times 2^16494): each
    returns all ones when the relation holds between the values and all
    zeros otherwise; +0.0 and -0.0 have the same value. *)
Theorem u_compares_decide_value_order (vfa vfb : Z) : is_vec vfa -> is_vec vfb ->
  qp_is_finite vfa = true -> qp_is_finite vfb = true ->
  vec_cmpequqp vfa vfb = bmask 128 (qp_scaled vfa =? qp_scaled vfb)
  /\ vec_cmpneuqp vfa vfb = bmask 128 (negb (qp_scaled vfa =? qp_scaled vfb))
  /\ vec_cmpgtuqp vfa vfb = bmask 128 (qp_scaled vfb <? qp_scaled vfa)
  /\ vec_cmpgeuqp vfa vfb = bmask 128 (qp_scaled vfb <=? qp_scaled vfa)
  /\ vec_cmpltuqp vfa vfb = bmask 128 (qp_scaled vfa <? qp_scaled vfb)
  /\ vec_cmpleuqp vfa vfb = bmask 128 (qp_scaled vfa <=? qp_scaled vfb).
Proof.
  intros Ha Hb Fa Fb.
  rewrite cmpequqp_sm, cmpneuqp_eq, cmpgtuqp_eq, cmpgeuqp_eq, cmpltuqp_eq, cmpleuqp_eq
    by assumption.
  rewrite (finite_not_nan vfa Fa), (finite_not_nan vfb Fb). cbn [orb negb].
  rewrite !andb_true_r, orb_false_r.
  rewrite (sm_eqb_scaled vfa vfb), (sm_ltb_scaled vfa vfb), (sm_ltb_scaled vfb vfa),
    (sm_leb_scaled vfa vfb), (sm_leb_scaled vfb vfa) by assumption.
  repeat split.
Qed.

Lemma u_compares_decide_value_order_witness :
  vec_cmpgtuqp (qp_pack false 1 0) (qp_pack true 2 0) = Z.ones 128.
Proof.
  pose proof (u_compares_decide_value_order (qp_pack false 1 0) (qp_pack true 2 0)
                ltac:(vm_compute; split; [discriminate|reflexivity])
                ltac:(vm_compute; split; [discriminate|reflexivity])
                ltac:(vm_compute; reflexivity) ltac:(vm_compute; reflexivity))
    as (_ & _ & H & _).
  rewrite H. vm_compute. reflexivity.
Defined.

Lemma not_nan_magnitude v : is_vec v -> qp_is_nan v = false ->
  qp_magnitude v <= 0x7fff * 2 ^ 112
  /\ (qp_is_finite v = true -> qp_magnitude v < 0x7fff * 2 ^ 112).
Proof.
  intros Hv Hn. unfold qp_magnitude. rewrite qp_mag by assumption.
  pose proof (qp_exp_range v). pose proof (qp_frac_range v).
  unfold qp_is_nan, qp_is_finite in *.
  destruct (Z.eqb_spec (qp_exp v) 32767); destruct (Z.eqb_spec (qp_frac v) 0);
    cbn [andb negb] in Hn; try discriminate; split; try lia; intros; lia.
Qed.

(** X13. Infinities bound the ordered values: +Infinity compares greater
    or equal to, and -Infinity less or equal to, every operand that is not
    a NaN, and strictly so against every finite operand. *)
Theorem u_compares_infinity_bounds (v : Z) : is_vec v -> qp_is_nan v = false ->
  vec_cmpgeuqp (qp_pack false 0x7fff 0) v = Z.ones 128
  /\ vec_cmpleuqp (qp_pack true 0x7fff 0) v = Z.ones 128
  /\ (qp_is_finite v = true ->
      vec_cmpgtuqp (qp_pack false 0x7fff 0) v = Z.ones 128
      /\ vec_cmpltuqp (qp_pack true 0x7fff 0) v = Z.ones 128).
Proof.
  intros Hv Hn.
  assert (Hp : is_vec (qp_pack false 0x7fff 0)) by (vm_compute; split; [discriminate|reflexivity]).
  assert (Hm : is_vec (qp_pack true 0x7fff 0)) by (vm_compute; split; [discriminate|reflexivity]).
  rewrite cmpgeuqp_eq, cmpleuqp_eq, cmpgtuqp_eq, cmpltuqp_eq by assumption.
  rewrite Hn.
  change (qp_is_nan (qp_pack false 32767 0)) with false.
  change (qp_is_nan (qp_pack true 32767 0)) with false. cbn [orb negb].
  rewrite !andb_true_r.
  change (qp_signed_magnitude (qp_pack false 32767 0)) with (32767 * 2 ^ 112).
  change (qp_signed_magnitude (qp_pack true 32767 0)) with (- (32767 * 2 ^ 112)).
  destruct (not_nan_magnitude v Hv Hn) as [Hle Hlt].
  destruct (sign_mag_decomp v Hv) as [_ Hr].
  unfold qp_signed_magnitude.
  split; [|split].
  - replace (_ <=? _) with true; [reflexivity|]. symmetry. apply Z.leb_le.
    destruct (qp_sign v); lia.
  - replace (_ <=? _) with true; [reflexivity|]. symmetry. apply Z.leb_le.
    destruct (qp_sign v); lia.
  - intros Hf. specialize (Hlt Hf). split.
    + replace (_ <? _) with true; [reflexivity|]. symmetry. apply Z.ltb_lt.
      destruct (qp_sign v); lia.
    + replace (_ <? _) with true; [reflexivity|]. symmetry. apply Z.ltb_lt.
      destruct (qp_sign v); lia.
Qed.

Lemma u_compares_infinity_bounds_witness :
  vec_cmpgtuqp (qp_pack false 0x7fff 0) (qp_pack false 0x7ffe 1) = Z.ones 128.
Proof.
  pose proof (u_compares_infinity_bounds (qp_pack false 0x7ffe 1)
                ltac:(vm_compute; split; [discriminate|reflexivity])
                ltac:(vm_compute; reflexivity)) as (_ & _ & H).
  apply H. vm_compute. reflexivity.
Defined.

(** X14. The IEEE-unordered compares are consistent on every pair of bit
    patterns: not-equal is the complement of equal, greater-or-equal is
    greater-than or equal, less-or-equal is less-than or equal, and
    swapping the operands turns less-than into greater-than. *)
Theorem u_compares_consistent (vfa vfb : Z) : is_vec vfa -> is_vec vfb ->
  vec_cmpneuqp vfa vfb = vec_nor (vec_cmpequqp vfa vfb) (vec_cmpequqp vfa vfb)
  /\ vec_cmpgeuqp vfa vfb = vec_or (vec_cmpgtuqp vfa vfb) (vec_cmpequqp vfa vfb)
  /\ vec_cmpleuqp vfa vfb = vec_or (vec_cmpltuqp vfa vfb) (vec_cmpequqp vfa vfb)
  /\ vec_cmpltuqp vfa vfb = vec_cmpgtuqp vfb vfa
  /\ vec_cmpleuqp vfa vfb = vec_cmpgeuqp vfb vfa.
Proof.
  intros Ha Hb.
  rewrite (cmpgtuqp_eq vfb vfa), (cmpgeuqp_eq vfb vfa) by assumption.
  rewrite cmpequqp_sm, cmpneuqp_eq, cmpgtuqp_eq, cmpgeuqp_eq, cmpltuqp_eq, cmpleuqp_eq
    by assumption.
  rewrite nor_bmask, !bmask_or.
  rewrite (orb_comm (qp_is_nan vfb)).
  set (sa := qp_signed_magnitude vfa). set (sb := qp_signed_magnitude vfb).
  destruct (qp_is_nan vfa || qp_is_nan vfb); cbn [negb];
    rewrite ?andb_false_r, ?andb_true_r, ?orb_false_r, ?orb_true_r, ?orb_diag;
    repeat split; f_equal;
    destruct (Z.eqb_spec sa sb); destruct (Z.ltb_spec sb sa); destruct (Z.leb_spec sb sa);
    destruct (Z.ltb_spec sa sb); destruct (Z.leb_spec sa sb); cbn [orb negb]; try reflexivity; lia.
Qed.

Lemma u_compares_consistent_witness :
  vec_cmpltuqp (qp_pack false 1 0) (qp_pack true 2 0)
  = vec_cmpgtuqp (qp_pack true 2 0) (qp_pack false 1 0).
Proof.
  pose proof (u_compares_consistent (qp_pack false 1 0) (qp_pack true 2 0)
                ltac:(vm_compute; split; [discriminate|reflexivity])
                ltac:(vm_compute; split; [discriminate|reflexivity]))
    as (_ & _ & _ & H & _).
  exact H.
Defined.

(** ** Total-order compares *)

Lemma sel_bmask3 c1 c2 s :
  vec_sel (bmask 128 c1) (bmask 128 c2) (bmask 128 s) = bmask 128 (if s then c2 else c1).
Proof. destruct c1, c2, s; reflexivity. Qed.

Lemma signed_quadword v : is_vec v ->
  signed 128 v = (if qp_sign v then - 2 ^ 127 else 0) + qp_magnitude v.
Proof.
  intros Hv. destruct (sign_mag_decomp v Hv) as [Ev Hm]. unfold signed.
  change (128 - 1) with 127. set (m := qp_magnitude v) in *.
  destruct (qp_sign v); cbn [sign_bit] in Ev.
  - replace (v <? 2 ^ 127) with false by lia. lia.
  - replace (v <? 2 ^ 127) with true by lia. lia.
Qed.

(** The sign test of the total-order compares is [vec_setb_qp]. *)
Lemma to_signbool v : is_vec v ->
  vec_sra_b (vec_splat_b (vec_xfer_bin128_2_vui128t v) VEC_BYTE_H) (vec_splat_u8 7)
  = bmask 128 (qp_sign v).
Proof. intros Hv. exact (setb_qp_eq v Hv). Qed.

Section ToCompares.
Variables vfa vfb : Z.
Hypothesis Ha : is_vec vfa.
Hypothesis Hb : is_vec vfb.
Let ta := qp_total_order vfa.
Let tb := qp_total_order vfb.

Lemma to_facts :
  vfa = sign_bit (qp_sign vfa) + qp_magnitude vfa /\ 0 <= qp_magnitude vfa < 2 ^ 127
  /\ vfb = sign_bit (qp_sign vfb) + qp_magnitude vfb /\ 0 <= qp_magnitude vfb < 2 ^ 127
  /\ signed 128 vfa = (if qp_sign vfa then - 2 ^ 127 else 0) + qp_magnitude vfa
  /\ signed 128 vfb = (if qp_sign vfb then - 2 ^ 127 else 0) + qp_magnitude vfb.
Proof.
  destruct (sign_mag_decomp vfa Ha). destruct (sign_mag_decomp vfb Hb).
  repeat split; try assumption; try lia; now apply signed_quadword.
Qed.

Lemma cmpgttoqp_eq : vec_cmpgttoqp vfa vfb = bmask 128 (tb <? ta).
Proof.
  unfold vec_cmpgttoqp. cbv zeta. rewrite to_signbool by assumption.
  unfold vec_xfer_bin128_2_vui128t, vec_cmpgtsq, vec_cmpltuq.
  rewrite sel_bmask3. f_equal. unfold ta, tb, qp_total_order.
  destruct to_facts as (Ea & Hma & Eb & Hmb & Sa & Sb). rewrite Sa, Sb.
  set (ma := qp_magnitude vfa) in *. set (mb := qp_magnitude vfb) in *.
  destruct (qp_sign vfa), (qp_sign vfb); cbn [sign_bit] in Ea, Eb;
    match goal with |- ?x = ?y => destruct x eqn:E1; destruct y eqn:E2 end; lia.
Qed.

Lemma cmpgetoqp_eq : vec_cmpgetoqp vfa vfb = bmask 128 (tb <=? ta).
Proof.
  unfold vec_cmpgetoqp. cbv zeta. rewrite to_signbool by assumption.
  unfold vec_xfer_bin128_2_vui128t, vec_cmpgesq, vec_cmpleuq.
  rewrite sel_bmask3. f_equal. unfold ta, tb, qp_total_order.
  destruct to_facts as (Ea & Hma & Eb & Hmb & Sa & Sb). rewrite Sa, Sb.
  set (ma := qp_magnitude vfa) in *. set (mb := qp_magnitude vfb) in *.
  destruct (qp_sign vfa), (qp_sign vfb); cbn [sign_bit] in Ea, Eb;
    match goal with |- ?x = ?y => destruct x eqn:E1; destruct y eqn:E2 end; lia.
Qed.

Lemma cmplttoqp_eq : vec_cmplttoqp vfa vfb = bmask 128 (ta <? tb).
Proof.
  unfold vec_cmplttoqp. cbv zeta. rewrite to_signbool by assumption.
  unfold vec_xfer_bin128_2_vui128t, vec_cmpltsq, vec_cmpgtuq.
  rewrite sel_bmask3. f_equal. unfold ta, tb, qp_total_order.
  destruct to_facts as (Ea & Hma & Eb & Hmb & Sa & Sb). rewrite Sa, Sb.
  set (ma := qp_magnitude vfa) in *. set (mb := qp_magnitude vfb) in *.
  destruct (qp_sign vfa), (qp_sign vfb); cbn [sign_bit] in Ea, Eb;
    match goal with |- ?x = ?y => destruct x eqn:E1; destruct y eqn:E2 end; lia.
Qed.

Lemma cmpletoqp_eq : vec_cmpletoqp vfa vfb = bmask 128 (ta <=? tb).
Proof.
  unfold vec_cmpletoqp. cbv zeta. rewrite to_signbool by assumption.
  unfold vec_xfer_bin128_2_vui128t, vec_cmplesq, vec_cmpgeuq.
  rewrite sel_bmask3. f_equal. unfold ta, tb, qp_total_order.
  destruct to_facts as (Ea & Hma & Eb & Hmb & Sa & Sb). rewrite Sa, Sb.
  set (ma := qp_magnitude vfa) in *. set (mb := qp_magnitude vfb) in *.
  destruct (qp_sign vfa), (qp_sign vfb); cbn [sign_bit] in Ea, Eb;
    match goal with |- ?x = ?y => destruct x eqn:E1; destruct y eqn:E2 end; lia.
Qed.

Lemma to_eqb : (vfa =? vfb) = (ta =? tb).
Proof.
  unfold ta, tb, qp_total_order.
  destruct to_facts as (Ea & Hma & Eb & Hmb & _).
  set (ma := qp_magnitude vfa) in *. set (mb := qp_magnitude vfb) in *.
  destruct (qp_sign vfa), (qp_sign vfb); cbn [sign_bit] in Ea, Eb;
    match goal with |- ?x = ?y => destruct x eqn:E1; destruct y eqn:E2 end; lia.
Qed.

Lemma cmpeqtoqp_eq : vec_cmpeqtoqp vfa vfb = bmask 128 (ta =? tb).
Proof. unfold vec_cmpeqtoqp, vec_xfer_bin128_2_vui128t, vec_cmpequq. now rewrite to_eqb. Qed.

Lemma cmpnetoqp_eq : vec_cmpnetoqp vfa vfb = bmask 128 (negb (ta =? tb)).
Proof. unfold vec_cmpnetoqp, vec_xfer_bin128_2_vui128t, vec_cmpneuq. now rewrite to_eqb. Qed.

(** The total order and the signed magnitudes order alike, except that
    the total order separates -0 from +0. *)
Lemma to_ltb_sm : (qp_is_zero vfa && qp_is_zero vfb) = false ->
  (ta <? tb) = (qp_signed_magnitude vfa <? qp_signed_magnitude vfb)
  /\ (ta <=? tb) = (qp_signed_magnitude vfa <=? qp_signed_magnitude vfb)
  /\ (ta =? tb) = (qp_signed_magnitude vfa =? qp_signed_magnitude vfb).
Proof.
  intros Hz. rewrite !qp_zero_mag in Hz by assumption.
  fold (qp_magnitude vfa) (qp_magnitude vfb) in Hz.
  unfold ta, tb, qp_total_order, qp_signed_magnitude.
  destruct to_facts as (_ & Hma & _ & Hmb & _).
  set (ma := qp_magnitude vfa) in *. set (mb := qp_magnitude vfb) in *.
  assert (Hnz : 0 < ma \/ 0 < mb).
  { destruct (Z.eqb_spec ma 0); destruct (Z.eqb_spec mb 0); cbn [andb] in Hz;
      try discriminate; lia. }
  destruct (qp_sign vfa), (qp_sign vfb); repeat split;
    match goal with |- ?x = ?y => destruct x eqn:E1; destruct y eqn:E2 end; lia.
Qed.
End ToCompares.

(** X15. The total-order compares decide, for every two bit patterns, a
    strict total order of the patterns: a pattern with the sign bit set is
    below every pattern with it clear (so -0.0 is below +0.0), patterns
    of equal sign are ordered by their exponent-and-fraction field
    (reversed when negative), NaNs lie beyond the infinities, and equal
    means identical bits. *)
Theorem total_order_compares (vfa vfb : Z) : is_vec vfa -> is_vec vfb ->
  vec_cmpeqtoqp vfa vfb = bmask 128 (qp_total_order vfa =? qp_total_order vfb)
  /\ vec_cmpnetoqp vfa vfb = bmask 128 (negb (qp_total_order vfa =? qp_total_order vfb))
  /\ vec_cmpgttoqp vfa vfb = bmask 128 (qp_total_order vfb <? qp_total_order vfa)
  /\ vec_cmpgetoqp vfa vfb = bmask 128 (qp_total_order vfb <=? qp_total_order vfa)
  /\ vec_cmplttoqp vfa vfb = bmask 128 (qp_total_order vfa <? qp_total_order vfb)
  /\ vec_cmpletoqp vfa vfb = bmask 128 (qp_total_order vfa <=? qp_total_order vfb)
  /\ (qp_total_order vfa = qp_total_order vfb <-> vfa = vfb).
Proof.
  intros Ha Hb. repeat split.
  - now apply cmpeqtoqp_eq.
  - now apply cmpnetoqp_eq.
  - now apply cmpgttoqp_eq.
  - now apply cmpgetoqp_eq.
  - now apply cmplttoqp_eq.
  - now apply cmpletoqp_eq.
  - intros E. apply Z.eqb_eq. rewrite (to_eqb vfa vfb Ha Hb). now apply Z.eqb_eq.
  - intros ->. reflexivity.
Qed.

Lemma total_order_compares_witness :
  vec_cmplttoqp (2 ^ 127) 0 = Z.ones 128
  /\ vec_cmpgttoqp (qp_pack false 0x7fff 1) (qp_pack false 0x7fff 0) = Z.ones 128.
Proof.
  split.
  - pose proof (total_order_compares (2 ^ 127) 0
                  ltac:(vm_compute; split; [discriminate|reflexivity])
                  ltac:(vm_compute; split; [discriminate|reflexivity]))
      as (_ & _ & _ & _ & H & _).
    rewrite H. vm_compute. reflexivity.
  - pose proof (total_order_compares (qp_pack false 0x7fff 1) (qp_pack false 0x7fff 0)
                  ltac:(vm_compute; split; [discriminate|reflexivity])
                  ltac:(vm_compute; split; [discriminate|reflexivity]))
      as (_ & _ & H & _).
    rewrite H. vm_compute. reflexivity.
Defined.

(** X16. When neither operand is a NaN and the operands are not both
    zeros, each total-order compare returns what the IEEE-unordered
    compare of the same relation returns. *)
Theorem total_order_agrees_with_unordered (vfa vfb : Z) : is_vec vfa -> is_vec vfb ->
  qp_is_nan vfa = false -> qp_is_nan vfb = false ->
  (qp_is_zero vfa && qp_is_zero vfb) = false ->
  vec_cmpeqtoqp vfa vfb = vec_cmpequqp vfa vfb
  /\ vec_cmpnetoqp vfa vfb = vec_cmpneuqp vfa vfb
  /\ vec_cmpgttoqp vfa vfb = vec_cmpgtuqp vfa vfb
  /\ vec_cmpgetoqp vfa vfb = vec_cmpgeuqp vfa vfb
  /\ vec_cmplttoqp vfa vfb = vec_cmpltuqp vfa vfb
  /\ vec_cmpletoqp vfa vfb = vec_cmpleuqp vfa vfb.
Proof.
  intros Ha Hb Na Nb Hz.
  rewrite cmpeqtoqp_eq, cmpnetoqp_eq, cmpgttoqp_eq, cmpgetoqp_eq, cmplttoqp_eq, cmpletoqp_eq
    by assumption.
  rewrite cmpequqp_sm, cmpneuqp_eq, cmpgtuqp_eq, cmpgeuqp_eq, cmpltuqp_eq, cmpleuqp_eq
    by assumption.
  rewrite Na, Nb. cbn [orb negb]. rewrite !andb_true_r, orb_false_r.
  destruct (to_ltb_sm vfa vfb Ha Hb Hz) as (L1 & L2 & L3).
  assert (Hz' : (qp_is_zero vfb && qp_is_zero vfa) = false) by (now rewrite andb_comm).
  destruct (to_ltb_sm vfb vfa Hb Ha Hz') as (R1 & R2 & _).
  rewrite L1, L2, L3, R1, R2. repeat split.
Qed.

Lemma total_order_agrees_with_unordered_witness :
  vec_cmpgttoqp (qp_pack false 1 0) (2 ^ 127) = vec_cmpgtuqp (qp_pack false 1 0) (2 ^ 127).
Proof.
  pose proof (total_order_agrees_with_unordered (qp_pack false 1 0) (2 ^ 127)
                ltac:(vm_compute; split; [discriminate|reflexivity])
                ltac:(vm_compute; split; [discriminate|reflexivity])
                ltac:(vm_compute; reflexivity) ltac:(vm_compute; reflexivity)
                ltac:(vm_compute; reflexivity)) as (_ & _ & H & _).
  exact H.
Defined.

(** ** The compares that return [int] *)

Lemma all_ne_w_bmask c : vec_all_ne_w (bmask 128 c) (vec_splat_u32 0) = c.
Proof. destruct c; reflexivity. Qed.

(** X17. Every compare that returns [int] is true exactly when the
    compare of the same family and relation that returns a vector bool
    returns all ones, and false exactly when that one returns all zeros. *)
Theorem int_compares_agree_with_vector (vfa vfb : Z) : is_vec vfa -> is_vec vfb ->
  (vec_cmpeqtoqp vfa vfb = bmask 128 (vec_cmpqp_all_toeq vfa vfb)
   /\ vec_cmpnetoqp vfa vfb = bmask 128 (vec_cmpqp_all_tone vfa vfb)
   /\ vec_cmpgttoqp vfa vfb = bmask 128 (vec_cmpqp_all_togt vfa vfb)
   /\ vec_cmpgetoqp vfa vfb = bmask 128 (vec_cmpqp_all_toge vfa vfb)
   /\ vec_cmplttoqp vfa vfb = bmask 128 (vec_cmpqp_all_tolt vfa vfb)
   /\ vec_cmpletoqp vfa vfb = bmask 128 (vec_cmpqp_all_tole vfa vfb))
  /\ (vec_cmpequzqp vfa vfb = bmask 128 (vec_cmpqp_all_uzeq vfa vfb)
      /\ vec_cmpneuzqp vfa vfb = bmask 128 (vec_cmpqp_all_uzne vfa vfb)
      /\ vec_cmpgtuzqp vfa vfb = bmask 128 (vec_cmpqp_all_uzgt vfa vfb)
      /\ vec_cmpgeuzqp vfa vfb = bmask 128 (vec_cmpqp_all_uzge vfa vfb)
      /\ vec_cmpltuzqp vfa vfb = bmask 128 (vec_cmpqp_all_uzlt vfa vfb)
      /\ vec_cmpleuzqp vfa vfb = bmask 128 (vec_cmpqp_all_uzle vfa vfb))
  /\ (vec_cmpequqp vfa vfb = bmask 128 (vec_cmpqp_all_eq vfa vfb)
      /\ vec_cmpneuqp vfa vfb = bmask 128 (vec_cmpqp_all_ne vfa vfb)
      /\ vec_cmpgtuqp vfa vfb = bmask 128 (vec_cmpqp_all_gt vfa vfb)
      /\ vec_cmpgeuqp vfa vfb = bmask 128 (vec_cmpqp_all_ge vfa vfb)
      /\ vec_cmpltuqp vfa vfb = bmask 128 (vec_cmpqp_all_lt vfa vfb)
      /\ vec_cmpleuqp vfa vfb = bmask 128 (vec_cmpqp_all_le vfa vfb)).
Proof.
  intros Ha Hb.
  assert (Hu : vec_all_isunorderedf128 vfa vfb = (qp_is_nan vfa || qp_is_nan vfb))
    by (unfold vec_all_isunorderedf128; now rewrite !all_isnan_eq).
  split; [|split].
  - repeat split.
    + change (vec_cmpqp_all_togt vfa vfb)
        with (vec_all_ne_w (vec_cmpgttoqp vfa vfb) (vec_splat_u32 0)).
      rewrite cmpgttoqp_eq, all_ne_w_bmask by assumption. reflexivity.
    + change (vec_cmpqp_all_toge vfa vfb)
        with (vec_all_ne_w (vec_cmpgetoqp vfa vfb) (vec_splat_u32 0)).
      rewrite cmpgetoqp_eq, all_ne_w_bmask by assumption. reflexivity.
    + change (vec_cmpqp_all_tolt vfa vfb)
        with (vec_all_ne_w (vec_cmplttoqp vfa vfb) (vec_splat_u32 0)).
      rewrite cmplttoqp_eq, all_ne_w_bmask by assumption. reflexivity.
    + change (vec_cmpqp_all_tole vfa vfb)
        with (vec_all_ne_w (vec_cmpletoqp vfa vfb) (vec_splat_u32 0)).
      rewrite cmpletoqp_eq, all_ne_w_bmask by assumption. reflexivity.
  - repeat split; try reflexivity.
    + unfold vec_cmpequzqp, vec_cmpqp_all_uzeq, vec_cmpequq, vec_cmpuq_all_eq. cbv zeta.
      rewrite bmask_or. f_equal. apply orb_comm.
    + unfold vec_cmpneuzqp, vec_cmpqp_all_uzne, vec_cmpequq, vec_cmpuq_all_ne. cbv zeta.
      rewrite nor_bmask. f_equal. rewrite negb_orb. apply andb_comm.
  - repeat split.
    + unfold vec_cmpqp_all_eq, vec_cmpuq_all_eq. cbv zeta. rewrite Hu.
      change (vec_cmpequqp vfa vfb)
        with (vec_andc (vec_cmpequzqp vfa vfb) (vec_isunorderedf128 vfa vfb)).
      unfold vec_cmpequzqp, vec_cmpequq. cbv zeta.
      rewrite bmask_or, unordered_eq, bmask_andc by assumption.
      f_equal. f_equal. apply orb_comm.
    + unfold vec_cmpqp_all_ne, vec_cmpuq_all_ne. cbv zeta. rewrite Hu.
      change (vec_cmpneuqp vfa vfb)
        with (vec_or (vec_cmpneuzqp vfa vfb) (vec_isunorderedf128 vfa vfb)).
      unfold vec_cmpneuzqp, vec_cmpequq. cbv zeta.
      rewrite nor_bmask, unordered_eq, bmask_or by assumption.
      f_equal. f_equal. rewrite negb_orb. apply andb_comm.
    + unfold vec_cmpqp_all_gt. cbv zeta. rewrite Hu.
      change (vec_cmpgtuqp vfa vfb)
        with (vec_andc (vec_cmpgtuq (cmp_operand vfa) (cmp_operand vfb))
                (vec_isunorderedf128 vfa vfb)).
      rewrite unordered_eq by assumption. apply bmask_andc.
    + unfold vec_cmpqp_all_ge. cbv zeta. rewrite Hu.
      change (vec_cmpgeuqp vfa vfb)
        with (vec_andc (vec_cmpgeuq (cmp_operand vfa) (cmp_operand vfb))
                (vec_isunorderedf128 vfa vfb)).
      rewrite unordered_eq by assumption. apply bmask_andc.
    + unfold vec_cmpqp_all_lt. cbv zeta. rewrite Hu.
      change (vec_cmpltuqp vfa vfb)
        with (vec_andc (vec_cmpltuq (cmp_operand vfa) (cmp_operand vfb))
                (vec_isunorderedf128 vfa vfb)).
      rewrite unordered_eq by assumption. apply bmask_andc.
    + unfold vec_cmpqp_all_le. cbv zeta. rewrite Hu.
      change (vec_cmpleuqp vfa vfb)
        with (vec_andc (vec_cmpleuq (cmp_operand vfa) (cmp_operand vfb))
                (vec_isunorderedf128 vfa vfb)).
      rewrite unordered_eq by assumption. apply bmask_andc.
Qed.

Lemma int_compares_agree_with_vector_witness :
  vec_cmpgtuqp (qp_pack false 2 0) (qp_pack true 1 0)
  = bmask 128 (vec_cmpqp_all_gt (qp_pack false 2 0) (qp_pack true 1 0)).
Proof.
  pose proof (int_compares_agree_with_vector (qp_pack false 2 0) (qp_pack true 1 0)
                ltac:(vm_compute; split; [discriminate|reflexivity])
                ltac:(vm_compute; split; [discriminate|reflexivity]))
    as (_ & _ & (_ & _ & H & _)).
  exact H.
Defined.

(** ** Exponent compares, insert and extract *)

Lemma exp_field v :
  vec_and_bin128_2_vui32t v (CONST_VINT128_W 0x7fff0000 0 0 0) = qp_exp v * 2 ^ 112.
Proof.
  unfold vec_and_bin128_2_vui32t, vec_and. rewrite expmask_const. apply land_expmask.
Qed.

Lemma nan_exp v : qp_is_nan v = true -> qp_exp v = 0x7fff.
Proof.
  unfold qp_is_nan. intros H. apply andb_true_iff in H as [H _]. now apply Z.eqb_eq.
Qed.

(** X18. On the software branch the exponent compares test the 15-bit
    biased exponent fields and nothing else: vec_cmpqp_exp_eq, _gt and _lt
    are true exactly when the exponent of vfa is equal to, greater than,
    less than the exponent of vfb, and vec_cmpqp_exp_unordered makes the
    same test as vec_cmpqp_exp_lt.  NaN operands get no special result:
    for two NaNs vec_cmpqp_exp_eq is true and vec_cmpqp_exp_unordered is
    false. *)
Theorem exp_compares_fields_only (vfa vfb : Z) :
  vec_cmpqp_exp_eq vfa vfb = (qp_exp vfa =? qp_exp vfb)
  /\ vec_cmpqp_exp_gt vfa vfb = (qp_exp vfb <? qp_exp vfa)
  /\ vec_cmpqp_exp_lt vfa vfb = (qp_exp vfa <? qp_exp vfb)
  /\ vec_cmpqp_exp_unordered vfa vfb = (qp_exp vfa <? qp_exp vfb)
  /\ (qp_is_nan vfa = true -> qp_is_nan vfb = true ->
      vec_cmpqp_exp_eq vfa vfb = true /\ vec_cmpqp_exp_unordered vfa vfb = false).
Proof.
  unfold vec_cmpqp_exp_eq, vec_cmpqp_exp_gt, vec_cmpqp_exp_lt, vec_cmpqp_exp_unordered.
  cbv zeta. rewrite !exp_field.
  unfold vec_cmpuq_all_eq, vec_cmpuq_all_gt, vec_cmpuq_all_lt.
  pose proof (qp_exp_range vfa). pose proof (qp_exp_range vfb).
  assert (E1 : (qp_exp vfa * 2 ^ 112 =? qp_exp vfb * 2 ^ 112) = (qp_exp vfa =? qp_exp vfb)).
  { destruct (Z.eqb_spec (qp_exp vfa * 2 ^ 112) (qp_exp vfb * 2 ^ 112));
      destruct (Z.eqb_spec (qp_exp vfa) (qp_exp vfb)); lia. }
  assert (E2 : (qp_exp vfb * 2 ^ 112 <? qp_exp vfa * 2 ^ 112) = (qp_exp vfb <? qp_exp vfa)).
  { destruct (Z.ltb_spec (qp_exp vfb * 2 ^ 112) (qp_exp vfa * 2 ^ 112));
      destruct (Z.ltb_spec (qp_exp vfb) (qp_exp vfa)); lia. }
  assert (E3 : (qp_exp vfa * 2 ^ 112 <? qp_exp vfb * 2 ^ 112) = (qp_exp vfa <? qp_exp vfb)).
  { destruct (Z.ltb_spec (qp_exp vfa * 2 ^ 112) (qp_exp vfb * 2 ^ 112));
      destruct (Z.ltb_spec (qp_exp vfa) (qp_exp vfb)); lia. }
  rewrite E1, E2, E3. split; [reflexivity|]. split; [reflexivity|].
  split; [reflexivity|]. split; [reflexivity|].
  intros Na Nb. rewrite (nan_exp vfa Na), (nan_exp vfb Nb). split; reflexivity.
Qed.

Lemma exp_compares_fields_only_witness :
  vec_cmpqp_exp_eq (qp_pack false 0x7fff 1) (qp_pack true 0x7fff 2) = true
  /\ vec_cmpqp_exp_unordered (qp_pack false 0x7fff 1) (qp_pack true 0x7fff 2) = false.
Proof.
  pose proof (exp_compares_fields_only (qp_pack false 0x7fff 1) (qp_pack true 0x7fff 2))
    as (_ & _ & _ & _ & H).
  apply H; vm_compute; reflexivity.
Defined.

Lemma xsxsigqp_range v : is_vec v ->
  0 <= vec_xsxsigqp v < 2 ^ 113 /\ vec_xsxsigqp v mod 2 ^ 112 = qp_frac v.
Proof.
  intros Hv. rewrite xsxsigqp_eq by assumption. pose proof (qp_frac_range v).
  destruct ((0 <? qp_exp v) && (qp_exp v <? 32767)).
  - split; [lia|]. replace (qp_frac v + 2 ^ 112) with (qp_frac v + 1 * 2 ^ 112) by lia.
    rewrite Z.mod_add by lia. apply Z.mod_small. lia.
  - rewrite Z.add_0_r. split; [lia|]. apply Z.mod_small. lia.
Qed.

(** X19. Extract and insert are inverse: inserting the exponent that
    vec_xsxexpqp extracts into the significand that vec_xsxsigqp extracts
    gives back the operand without its sign, and the operand itself once
    its sign bit is ORed into the significand; this holds for every bit
    pattern.  The extracted exponent is the biased exponent field (in the
    high doubleword, the low one zero) and the extracted significand is
    the fraction with the hidden bit set for normal values only. *)
Theorem extract_insert_roundtrip (v : Z) : is_vec v ->
  vec_xsxexpqp v = mk_dw (qp_exp v) 0
  /\ vec_xsxsigqp v
     = qp_frac v + (if (0 <? qp_exp v) && (qp_exp v <? 0x7fff) then 2 ^ 112 else 0)
  /\ vec_xsiexpqp (vec_xsxsigqp v) (vec_xsxexpqp v) = vec_absf128 v
  /\ vec_xsiexpqp
       (vec_or (vec_xsxsigqp v) (vec_and_bin128_2_vui32t v (CONST_VINT128_W 0x80000000 0 0 0)))
       (vec_xsxexpqp v) = v.
Proof.
  intros Hv. pose proof (qp_exp_range v) as He.
  destruct (xsxsigqp_range v Hv) as [Hr Hf].
  split; [apply xsxexpqp_eq|]. split; [now apply xsxsigqp_eq|].
  rewrite qp_sign_land, xsxexpqp_eq by assumption.
  split.
  - replace (vec_xsxsigqp v) with (vec_or (vec_xsxsigqp v) (sign_bit false))
      by (unfold vec_or; cbn [sign_bit]; apply Z.lor_0_r).
    rewrite xsiexpqp_pack, Hf, absf128_eq by (assumption || lia). reflexivity.
  - rewrite xsiexpqp_pack, Hf by (assumption || lia). symmetry. now apply qp_fields.
Qed.

Lemma extract_insert_roundtrip_witness :
  vec_xsiexpqp
    (vec_or (vec_xsxsigqp (qp_pack true 0 77))
       (vec_and_bin128_2_vui32t (qp_pack true 0 77) (CONST_VINT128_W 0x80000000 0 0 0)))
    (vec_xsxexpqp (qp_pack true 0 77)) = qp_pack true 0 77.
Proof.
  pose proof (extract_insert_roundtrip (qp_pack true 0 77)
                ltac:(vm_compute; split; [discriminate|reflexivity])) as (_ & _ & _ & H).
  exact H.
Defined.

(** X20. vec_xxxexpqpp extracts both exponents at once: the biased
    exponent of vfa in the high doubleword and that of vfb in the low
    doubleword, the same values as two vec_xsxexpqp calls merged. *)
Theorem xxxexpqpp_both_exponents (vfa vfb : Z) : is_vec vfa -> is_vec vfb ->
  dw_h (vec_xxxexpqpp vfa vfb) = qp_exp vfa
  /\ dw_l (vec_xxxexpqpp vfa vfb) = qp_exp vfb
  /\ vec_xxxexpqpp vfa vfb = vec_mrgahd (vec_xsxexpqp vfa) (vec_xsxexpqp vfb).
Proof.
  intros Ha Hb. pose proof (qp_exp_range vfa). pose proof (qp_exp_range vfb).
  rewrite xxxexpqpp_eq, !xsxexpqp_eq by assumption. unfold vec_mrgahd.
  rewrite !dw_h_mk, dw_l_mk by lia. repeat split.
Qed.

Lemma xxxexpqpp_both_exponents_witness :
  dw_h (vec_xxxexpqpp (qp_pack true 5 1) (qp_pack false 9 2)) = 5
  /\ dw_l (vec_xxxexpqpp (qp_pack true 5 1) (qp_pack false 9 2)) = 9.
Proof.
  pose proof (xxxexpqpp_both_exponents (qp_pack true 5 1) (qp_pack false 9 2)
                ltac:(vm_compute; split; [discriminate|reflexivity])
                ltac:(vm_compute; split; [discriminate|reflexivity])) as (H1 & H2 & _).
  rewrite H1, H2. split; vm_compute; reflexivity.
Defined.

(** ** Quad to unsigned quadword *)

Lemma xscvqpuqz_eq v : is_vec v ->
  vec_xscvqpuqz v =
    if qp_exp v =? 0x7fff
    then bmask 128 ((qp_frac v =? 0) && negb (qp_sign v))
    else if (0x3fff <=? qp_exp v) && negb (qp_sign v)
         then if qp_exp v <? 0x3fff + 128
              then qp_sig v * 2 ^ (qp_exp v - 0x3fff) / 2 ^ 112
              else 2 ^ 128 - 1
         else 0.
Proof.
  intros Hv. unfold vec_xscvqpuqz. cbv zeta.
  pose proof (qp_exp_range v) as He. pose proof (qp_frac_range v) as Hf.
  rewrite xsxexpqp_eq, xsxsigqp_eq, setb_qp_eq by assumption.
  unfold vec_splatd. rewrite elem_dw_h, splat_dw by lia.
  rewrite !const_dw by lia.
  unfold vec_cmpud_all_eq, vec_cmpud_all_ge, vec_cmpud_all_lt.
  rewrite bmask128_dw.
  replace (all2_lanes 64 2 Z.eqb (mk_dw (bmask 64 (qp_sign v)) (bmask 64 (qp_sign v))) 0)
    with (negb (qp_sign v)) by (destruct (qp_sign v); reflexivity).
  rewrite !all2_dw by lia.
  rewrite !andb_diag. rewrite <- bmask128_dw.
  destruct (qp_exp v =? 32767) eqn:E; cbn [negb].
  - replace ((0 <? qp_exp v) && (qp_exp v <? 32767)) with false by lia.
    rewrite Z.add_0_r. unfold vec_cmpequq. apply bmask_andc.
  - destruct ((16383 <=? qp_exp v) && negb (qp_sign v)) eqn:E1; [|reflexivity].
    apply andb_true_iff in E1 as [E1 E2].
    destruct (qp_exp v <? 16383 + 128) eqn:E3; [|reflexivity].
    replace ((0 <? qp_exp v) && (qp_exp v <? 32767)) with true by lia.
    assert (Hs : qp_frac v + 2 ^ 112 = qp_sig v).
    { unfold qp_sig. replace (0 <? qp_exp v) with true by lia. reflexivity. }
    rewrite Hs. pose proof (qp_sig_range v) as Hsr.
    unfold vec_slqi, vec_srq, vec_subudm.
    rewrite map2_dw by lia. rewrite (Z.mod_small (qp_sig v * 2 ^ 15)) by lia.
    rewrite (Z.mod_small (16383 + 127 - qp_exp v)) by lia.
    set (d := 16383 + 127 - qp_exp v).
    replace (mk_dw d d mod 128) with d.
    2:{ unfold mk_dw. replace (d * 2 ^ 64 + d) with (d + (d * 2 ^ 57) * 128) by lia.
        rewrite Z.mod_add by lia. symmetry. apply Z.mod_small. unfold d. lia. }
    apply div_pow2_shift; unfold d; lia.
Qed.

Lemma magnitude_ge_pow2_scaled v k : 0 <= k -> qp_sign v = false ->
  2 ^ k * qp_one <= qp_scaled v <-> 16383 + k <= qp_exp v.
Proof. intros Hk Hp. rewrite qp_scaled_pos by assumption. now apply magnitude_ge_pow2. Qed.

(** X21. vec_xscvqpuqz saturates instead of wrapping: a positive finite
    value of magnitude at least 2^128, and +Infinity, give all ones
    (2^128 - 1); a NaN of either sign, every negative input and every
    finite value of magnitude below 1 give 0; a positive finite value in
    [1, 2^128) gives its integer part (truncation toward zero). *)
Theorem xscvqpuqz_saturates (f128 : Z) : is_vec f128 ->
  (qp_is_finite f128 = true -> qp_sign f128 = false ->
   2 ^ 128 * qp_one <= qp_scaled f128 -> vec_xscvqpuqz f128 = 2 ^ 128 - 1)
  /\ (qp_is_inf f128 = true -> qp_sign f128 = false -> vec_xscvqpuqz f128 = 2 ^ 128 - 1)
  /\ (qp_is_nan f128 = true -> vec_xscvqpuqz f128 = 0)
  /\ (qp_sign f128 = true -> vec_xscvqpuqz f128 = 0)
  /\ (qp_is_finite f128 = true -> Z.abs (qp_scaled f128) < qp_one -> vec_xscvqpuqz f128 = 0)
  /\ (qp_is_finite f128 = true -> qp_sign f128 = false ->
      qp_one <= qp_scaled f128 < 2 ^ 128 * qp_one ->
      vec_xscvqpuqz f128 = qp_scaled f128 / qp_one).
Proof.
  intros Hv. rewrite xscvqpuqz_eq by assumption.
  pose proof (qp_exp_range f128) as He. pose proof (qp_sig_range f128) as Hs.
  pose proof (magnitude_ge_pow2 f128 128 ltac:(lia)) as M128.
  pose proof (magnitude_ge_one f128) as M0.
  repeat apply conj.
  - intros Hf Hp Hm. unfold qp_is_finite in Hf. rewrite qp_scaled_pos in Hm by assumption.
    apply M128 in Hm. rewrite Hp.
    replace (qp_exp f128 =? 32767) with false by lia.
    replace (16383 <=? qp_exp f128) with true by lia.
    replace (qp_exp f128 <? 16383 + 128) with false by lia. reflexivity.
  - intros Hi Hp. destruct (qp_inf_fields f128 Hi) as [E F]. rewrite E, F, Hp. reflexivity.
  - intros Hn. unfold qp_is_nan in Hn. apply andb_true_iff in Hn as [E F].
    rewrite E. apply negb_true_iff in F. rewrite F. reflexivity.
  - intros Hn. rewrite Hn. cbn [negb]. rewrite !andb_false_r.
    destruct (qp_exp f128 =? 32767); reflexivity.
  - intros Hf Hm. unfold qp_is_finite in Hf. rewrite qp_scaled_abs in Hm.
    replace (qp_exp f128 =? 32767) with false by lia.
    replace (16383 <=? qp_exp f128) with false by lia. reflexivity.
  - intros Hf Hp [Hm1 Hm2]. unfold qp_is_finite in Hf. rewrite qp_scaled_pos in * by assumption.
    apply M0 in Hm1. rewrite Hp.
    assert (~ 16383 + 128 <= qp_exp f128) by (intros Hc; apply M128 in Hc; lia).
    replace (qp_exp f128 =? 32767) with false by lia.
    replace (16383 <=? qp_exp f128) with true by lia.
    replace (qp_exp f128 <? 16383 + 128) with true by lia.
    cbn [negb andb]. symmetry. apply scaled_trunc. lia.
Qed.

Lemma xscvqpuqz_saturates_witness :
  vec_xscvqpuqz (qp_pack false (16383 + 128) 0) = 2 ^ 128 - 1
  /\ vec_xscvqpuqz (qp_pack true 0x3fff 1) = 0.
Proof.
  split.
  - pose proof (xscvqpuqz_saturates (qp_pack false (16383 + 128) 0)
                  ltac:(vm_compute; split; [discriminate|reflexivity])) as (H & _).
    apply H; [vm_compute; reflexivity|vm_compute; reflexivity|].
    apply magnitude_ge_pow2_scaled; [lia|vm_compute; reflexivity|]. vm_compute. discriminate.
  - pose proof (xscvqpuqz_saturates (qp_pack true 0x3fff 1)
                  ltac:(vm_compute; split; [discriminate|reflexivity])) as (_ & _ & _ & H & _).
    apply H. vm_compute. reflexivity.
Defined.

(** ** Doubleword integers to quad *)

Lemma clzd_dw h l : 0 <= h < 2 ^ 64 -> 0 <= l < 2 ^ 64 ->
  vec_clzd (mk_dw h l) = mk_dw (clz 64 h) (clz 64 l).
Proof.
  intros Hh Hl. unfold vec_clzd.
  change (map2_lanes 64 2 (fun x _ : Z => clz 64 x) (mk_dw h l) 0)
    with (map2_lanes 64 2 (fun x _ : Z => clz 64 x) (mk_dw h l) (mk_dw 0 0)).
  rewrite map2_dw by lia.
  assert (C : forall x, 0 <= x < 2 ^ 64 -> 0 <= clz 64 x < 2 ^ 64).
  { intros x Hx. unfold clz. destruct (Z.eqb_spec x 0); [lia|].
    pose proof (Z.log2_nonneg x). assert (Z.log2 x < 64) by (apply Z.log2_lt_pow2; lia). lia. }
  rewrite !Z.mod_small by (apply C; lia). reflexivity.
Qed.

Lemma xsiexpqp_unsigned q e x :
  0 <= q < 2 ^ 113 -> 0 <= e < 2 ^ 15 -> 0 <= x < 2 ^ 64 ->
  vec_xsiexpqp q (mk_dw e x) = qp_pack false e (q mod 2 ^ 112).
Proof.
  intros Hq He Hx. rewrite <- (xsiexpqp_pack false q e x) by assumption.
  unfold vec_or. cbn [sign_bit]. now rewrite Z.lor_0_r.
Qed.

(** The normalisation shared by the doubleword and the subnormal double
    conversions: count leading zeros, shift left, adjust the exponent
    constant [B], insert. *)
Lemma cvt_dw_norm B m s : 63 <= B < 2 ^ 15 -> 0 < m < 2 ^ 64 ->
  vec_xsiexpqp
    (vec_or (vec_srqi (vec_vsld (mk_dw m 0) (vec_clzd (mk_dw m 0))) 15) (sign_bit s))
    (vec_subudm (mk_dw B 0) (vec_clzd (mk_dw m 0)))
  = qp_pack s (B - 63 + Z.log2 m) ((m * 2 ^ (112 - Z.log2 m)) mod 2 ^ 112)
  /\ 2 ^ 112 <= m * 2 ^ (112 - Z.log2 m) < 2 ^ 113
  /\ 0 <= Z.log2 m < 64.
Proof.
  intros HB Hm.
  pose proof (Z.log2_spec m ltac:(lia)) as Hl. pose proof (Z.log2_nonneg m) as Hk0.
  assert (Hk : Z.log2 m < 64) by (apply Z.log2_lt_pow2; lia).
  set (k := Z.log2 m) in *.
  rewrite Z.pow_succ_r in Hl by lia.
  assert (Hp : 0 < 2 ^ k) by (apply Z.pow_pos_nonneg; lia).
  assert (Hc : 0 < 2 ^ (63 - k)) by (apply Z.pow_pos_nonneg; lia).
  assert (E63 : 2 ^ k * 2 ^ (63 - k) = 2 ^ 63).
  { rewrite <- Z.pow_add_r by lia. f_equal. lia. }
  assert (E112 : 2 ^ (112 - k) = 2 ^ (63 - k) * 2 ^ 49).
  { rewrite <- Z.pow_add_r by lia. f_equal. lia. }
  assert (Hq : 2 ^ 63 <= m * 2 ^ (63 - k) < 2 ^ 64) by nia.
  rewrite clzd_dw by lia. unfold clz. replace (m =? 0) with false by lia.
  cbn [Z.eqb]. fold k. replace (64 - 1 - k) with (63 - k) by lia.
  unfold vec_vsld, vec_subudm. rewrite !map2_dw by lia.
  rewrite (Z.mod_small (63 - k)) by lia. change (64 mod 64) with 0.
  rewrite Z.pow_0_r, Z.mul_0_l, Z.mod_0_l by lia.
  rewrite (Z.mod_small (m * 2 ^ (63 - k))) by lia.
  rewrite (Z.mod_small (B - (63 - k))) by lia.
  unfold vec_srqi, mk_dw at 1. rewrite Z.add_0_r.
  replace (m * 2 ^ (63 - k) * 2 ^ 64 / 2 ^ 15) with (m * 2 ^ (112 - k)).
  2:{ rewrite E112. replace (m * 2 ^ (63 - k) * 2 ^ 64) with (m * 2 ^ (63 - k) * 2 ^ 49 * 2 ^ 15) by lia.
      rewrite Z.div_mul by lia. lia. }
  assert (Hr : 2 ^ 112 <= m * 2 ^ (112 - k) < 2 ^ 113) by (rewrite E112; lia).
  split; [|split; [exact Hr|lia]].
  pose proof (Z.mod_pos_bound (0 - 64) (2 ^ 64) ltac:(lia)).
  rewrite xsiexpqp_pack by lia. f_equal. lia.
Qed.

Lemma cvt_dw_core m s : 0 < m < 2 ^ 64 ->
  vec_xsiexpqp
    (vec_or (vec_srqi (vec_vsld (mk_dw m 0) (vec_clzd (mk_dw m 0))) 15) (sign_bit s))
    (vec_subudm (CONST_VINT64_DW (0x3fff + 63) 0) (vec_clzd (mk_dw m 0)))
  = qp_pack s (0x3fff + Z.log2 m) ((m * 2 ^ (112 - Z.log2 m)) mod 2 ^ 112)
  /\ 2 ^ 112 <= m * 2 ^ (112 - Z.log2 m) < 2 ^ 113
  /\ 0 <= Z.log2 m < 64.
Proof.
  intros Hm. rewrite const_dw by lia.
  destruct (cvt_dw_norm (16383 + 63) m s ltac:(lia) Hm) as (E & Hr & Hk).
  split; [|split; assumption]. rewrite E. reflexivity.
Qed.

Lemma packed_normal_scaled s k q j : 0 <= k < 2 ^ 14 -> 2 ^ 112 <= q < 2 ^ 113 -> 0 <= j ->
  q = j * 2 ^ (112 - k) -> k <= 112 ->
  qp_scaled (qp_pack s (0x3fff + k) (q mod 2 ^ 112)) = (if s then -1 else 1) * (j * qp_one).
Proof.
  intros Hk Hq Hj Ej Hk2.
  pose proof (Z.mod_pos_bound q (2 ^ 112) ltac:(lia)) as Hm.
  unfold qp_scaled, qp_sig, qp_e.
  rewrite qp_sign_pack, qp_exp_pack, qp_frac_pack by lia.
  replace (0 <? 16383 + k) with true by lia.
  assert (Hsig : q mod 2 ^ 112 + 2 ^ 112 = q).
  { pose proof (Z.div_mod q (2 ^ 112) ltac:(lia)).
    assert (q / 2 ^ 112 = 1); [|lia].
    symmetry. apply Z.div_unique with (r := q - 2 ^ 112); lia. }
  rewrite Hsig. replace (Z.max (16383 + k) 1 - 1) with (16382 + k) by lia.
  f_equal. rewrite Ej, <- Z.mul_assoc, <- Z.pow_add_r by lia. f_equal.
  unfold qp_one. f_equal. lia.
Qed.

Lemma xscvudqp_eq n l : 0 <= n < 2 ^ 64 -> 0 <= l < 2 ^ 64 ->
  vec_xscvudqp (mk_dw n l)
  = if n =? 0 then 0
    else qp_pack false (0x3fff + Z.log2 n) ((n * 2 ^ (112 - Z.log2 n)) mod 2 ^ 112).
Proof.
  intros Hn Hl. unfold vec_xscvudqp. cbv zeta.
  rewrite dw_h_mk, !const_dw by lia. unfold vec_cmpud_all_eq. rewrite all2_dw by lia.
  cbn [Z.eqb andb]. destruct (Z.eqb_spec n 0) as [->|Hne]; [reflexivity|].
  destruct (cvt_dw_core n false ltac:(lia)) as (E & Hr & Hk).
  rewrite const_dw in E by lia. unfold vec_or in E. cbn [sign_bit] in E.
  rewrite Z.lor_0_r in E. exact E.
Qed.

(** X22. vec_xscvudqp converts exactly: for every unsigned 64-bit n in
    the high doubleword (whatever the low doubleword holds) the result is
    a non-negative finite quad whose value is n, +0.0 for n = 0; and
    converting back with vec_xscvqpudz returns n. *)
Theorem xscvudqp_exact (n l : Z) : 0 <= n < 2 ^ 64 -> 0 <= l < 2 ^ 64 ->
  is_vec (vec_xscvudqp (mk_dw n l))
  /\ qp_sign (vec_xscvudqp (mk_dw n l)) = false
  /\ qp_is_finite (vec_xscvudqp (mk_dw n l)) = true
  /\ qp_scaled (vec_xscvudqp (mk_dw n l)) = n * qp_one
  /\ (n = 0 -> vec_xscvudqp (mk_dw n l) = 0)
  /\ dw_h (vec_xscvqpudz (vec_xscvudqp (mk_dw n l))) = n.
Proof.
  intros Hn Hl. rewrite xscvudqp_eq by assumption.
  destruct (Z.eqb_spec n 0) as [->|Hne].
  - change (qp_scaled 0) with 0. rewrite Z.mul_0_l.
    repeat split; vm_compute; congruence.
  - destruct (cvt_dw_core n false ltac:(lia)) as (_ & Hr & Hk).
    set (k := Z.log2 n) in *. set (q := n * 2 ^ (112 - k)) in *.
    pose proof (Z.mod_pos_bound q (2 ^ 112) ltac:(lia)) as Hm.
    assert (Hv : is_vec (qp_pack false (16383 + k) (q mod 2 ^ 112)))
      by (apply qp_pack_range; lia).
    split; [exact Hv|]. split; [apply qp_sign_pack; lia|].
    split; [unfold qp_is_finite; rewrite qp_exp_pack by lia; lia|].
    split.
    { rewrite (packed_normal_scaled false k q n) by (try reflexivity; lia). lia. }
    split; [lia|].
    rewrite xscvqpudz_eq by assumption.
    assert (Hp : 0 < 2 ^ k) by (apply Z.pow_pos_nonneg; lia).
    assert (Hsig : qp_sig (qp_pack false (16383 + k) (q mod 2 ^ 112)) = q).
    { unfold qp_sig. rewrite qp_exp_pack, qp_frac_pack by lia.
      replace (0 <? 16383 + k) with true by lia.
      pose proof (Z.div_mod q (2 ^ 112) ltac:(lia)).
      assert (q / 2 ^ 112 = 1); [|lia].
      symmetry. apply Z.div_unique with (r := q - 2 ^ 112); lia. }
    rewrite Hsig, qp_exp_pack, qp_sign_pack by lia.
    replace (16383 + k =? 32767) with false by lia.
    replace (16383 <=? 16383 + k) with true by lia.
    replace (16383 + k <? 16383 + 64) with true by lia. cbn [negb andb].
    replace (16383 + k - 16383) with k by lia.
    assert (Eq : q * 2 ^ k = n * 2 ^ 112).
    { unfold q. rewrite <- Z.mul_assoc, <- Z.pow_add_r by lia. do 2 f_equal. lia. }
    rewrite Eq, Z.div_mul by lia. apply dw_h_mk; lia.
Qed.

Lemma xscvudqp_exact_witness :
  qp_scaled (vec_xscvudqp (mk_dw 12345 7)) = 12345 * qp_one
  /\ dw_h (vec_xscvqpudz (vec_xscvudqp (mk_dw 12345 7))) = 12345.
Proof.
  pose proof (xscvudqp_exact 12345 7 ltac:(lia) ltac:(lia)) as (_ & _ & _ & H1 & _ & H2).
  split; assumption.
Defined.

Lemma sign_of_high_dw n : 0 <= n < 2 ^ 64 -> qp_sign (mk_dw n 0) = (2 ^ 63 <=? n).
Proof.
  intros Hn. rewrite qp_sign_div by (apply mk_dw_range; lia).
  unfold mk_dw. rewrite Z.add_0_r. change (2 ^ 127) with (2 ^ 63 * 2 ^ 64).
  rewrite Z.div_mul_cancel_r by lia.
  destruct (Z.leb_spec (2 ^ 63) n).
  - assert (n / 2 ^ 63 = 1); [|lia].
    symmetry. apply Z.div_unique with (r := n - 2 ^ 63); lia.
  - rewrite Z.div_small by lia. reflexivity.
Qed.

Lemma sdqp_magnitude n : 0 <= n < 2 ^ 64 ->
  vec_sel (mk_dw n 0) (vec_subudm (mk_dw 0 0) (mk_dw n 0))
    (vec_cmpequd (sign_bit (2 ^ 63 <=? n)) (mk_dw (2 ^ 63) 0))
  = mk_dw (if 2 ^ 63 <=? n then 2 ^ 64 - n else n) 0.
Proof.
  intros Hn. set (s := 2 ^ 63 <=? n).
  rewrite sign_bit_dw. unfold vec_cmpequd, vec_subudm.
  rewrite !map2_dw by (destruct s; lia).
  change (Z.sub 0 0 mod 2 ^ 64) with 0.
  replace ((if s then 2 ^ 63 else 0) =? 2 ^ 63) with s by (destruct s; reflexivity).
  change (0 =? 0) with true.
  rewrite !(Z.mod_small (bmask 64 _)) by (apply bmask_range; lia).
  pose proof (Z.mod_pos_bound (0 - n) (2 ^ 64) ltac:(lia)) as Hneg.
  fold (vec_selud (mk_dw n 0) (mk_dw ((0 - n) mod 2 ^ 64) 0) (mk_dw (bmask 64 s) (bmask 64 true))).
  rewrite selud_dwmask by lia. f_equal.
  unfold s. destruct (Z.leb_spec (2 ^ 63) n); [|reflexivity].
  replace (0 - n) with ((2 ^ 64 - n) + (-1) * 2 ^ 64) by lia.
  rewrite Z.mod_add by lia. apply Z.mod_small. lia.
Qed.

Lemma xscvsdqp_eq n l : 0 <= n < 2 ^ 64 -> 0 <= l < 2 ^ 64 ->
  vec_xscvsdqp (mk_dw n l)
  = if n =? 0 then 0
    else let m := if 2 ^ 63 <=? n then 2 ^ 64 - n else n in
         qp_pack (2 ^ 63 <=? n) (0x3fff + Z.log2 m) ((m * 2 ^ (112 - Z.log2 m)) mod 2 ^ 112).
Proof.
  intros Hn Hl. unfold vec_xscvsdqp. cbv zeta.
  rewrite dw_h_mk, !const_dw by lia. unfold vec_cmpud_all_eq. rewrite all2_dw by lia.
  cbn [Z.eqb andb]. destruct (Z.eqb_spec n 0) as [->|Hne]; [reflexivity|].
  pose proof (qp_sign_land (mk_dw n 0) ltac:(apply mk_dw_range; lia)) as Hs.
  unfold vec_and_bin128_2_vui32t in Hs. rewrite !Hs, !sign_of_high_dw by lia. clear Hs.
  change (CONST_VINT128_W 2147483648 0 0 0) with (mk_dw (2 ^ 63) 0).
  rewrite !sdqp_magnitude by lia.
  set (m := if 2 ^ 63 <=? n then 2 ^ 64 - n else n).
  assert (Hm : 0 < m < 2 ^ 64) by (unfold m; destruct (Z.leb_spec (2 ^ 63) n); lia).
  destruct (cvt_dw_core m (2 ^ 63 <=? n) Hm) as (E & _). rewrite const_dw in E by lia. exact E.
Qed.

(** X23. vec_xscvsdqp converts exactly: for every 64-bit n in the high
    doubleword, read as a two's complement integer, the result is the
    finite quad whose value is that integer; it is the unsigned
    conversion of n when n is not negative and the negated unsigned
    conversion of its magnitude when it is. *)
Theorem xscvsdqp_exact (n l : Z) : 0 <= n < 2 ^ 64 -> 0 <= l < 2 ^ 64 ->
  vec_xscvsdqp (mk_dw n l)
  = (if n <? 2 ^ 63 then vec_xscvudqp (mk_dw n l)
     else vec_negf128 (vec_xscvudqp (mk_dw (2 ^ 64 - n) l)))
  /\ qp_scaled (vec_xscvsdqp (mk_dw n l)) = signed 64 n * qp_one.
Proof.
  intros Hn Hl. rewrite xscvsdqp_eq by assumption. cbv zeta.
  unfold signed. change (64 - 1) with 63.
  destruct (Z.eqb_spec n 0) as [->|Hne].
  - cbn [Z.ltb Z.compare]. rewrite xscvudqp_eq by lia. cbn [Z.eqb].
    change (qp_scaled 0) with 0. rewrite Z.mul_0_l. split; reflexivity.
  - destruct (Z.leb_spec (2 ^ 63) n) as [Hs|Hs].
    + replace (n <? 2 ^ 63) with false by lia.
      set (m := 2 ^ 64 - n).
      assert (Hm : 0 < m < 2 ^ 64) by (unfold m; lia).
      destruct (cvt_dw_core m true Hm) as (_ & Hr & Hk).
      pose proof (Z.mod_pos_bound (m * 2 ^ (112 - Z.log2 m)) (2 ^ 112) ltac:(lia)) as Hf.
      split.
      * rewrite xscvudqp_eq by lia. replace (m =? 0) with false by lia.
        rewrite negf128_eq by (apply qp_pack_range; lia).
        rewrite qp_sign_pack, qp_exp_pack, qp_frac_pack by lia. reflexivity.
      * rewrite (packed_normal_scaled true (Z.log2 m) _ m) by (try reflexivity; lia).
        unfold m. lia.
    + replace (n <? 2 ^ 63) with true by lia.
      destruct (cvt_dw_core n false ltac:(lia)) as (_ & Hr & Hk).
      split.
      * rewrite xscvudqp_eq by lia. replace (n =? 0) with false by lia. reflexivity.
      * rewrite (packed_normal_scaled false (Z.log2 n) _ n) by (try reflexivity; lia). lia.
Qed.

Lemma xscvsdqp_exact_witness :
  qp_scaled (vec_xscvsdqp (mk_dw (2 ^ 64 - 3) 0)) = signed 64 (2 ^ 64 - 3) * qp_one.
Proof.
  pose proof (xscvsdqp_exact (2 ^ 64 - 3) 0 ltac:(lia) ltac:(lia)) as (_ & H).
  exact H.
Defined.

(** ** Signed quadword to quad *)

Lemma xscvuqqp_block n :
  vec_xscvuqqp n
  = if n =? 0 then 0 else vec_xsiexpqp (fst (cvt_quadword_round n)) (snd (cvt_quadword_round n)).
Proof. reflexivity. Qed.

Lemma xscvsqqp_block n :
  vec_xscvsqqp n
  = if n =? 0 then 0
    else let m := vec_seluq n (vec_negsq n) (vec_setb_sq n) in
         vec_xsiexpqp
           (vec_or (fst (cvt_quadword_round m)) (vec_and n (CONST_VINT128_W 0x80000000 0 0 0)))
           (snd (cvt_quadword_round m)).
Proof. reflexivity. Qed.

(** The rounded significand has at most 113 bits and the exponent is in
    range. *)
Lemma cvt_quadword_round_shape m : 0 < m < 2 ^ 128 ->
  exists Q e, cvt_quadword_round m = (Q, mk_dw e 0) /\ 0 <= Q < 2 ^ 113 /\ 0 <= e < 2 ^ 15.
Proof.
  intros Hm. destruct (clzq_eq m Hm) as (Hc & Hcr & HN).
  set (c := 127 - Z.log2 m) in *. set (N := m * 2 ^ c) in *.
  unfold cvt_quadword_round. cbv zeta. rewrite Hc.
  unfold vec_slq. rewrite (Z.mod_small c 128) by lia. fold N.
  rewrite (Z.mod_small N) by lia. rewrite srhi_low_bit.
  set (o := ((N mod 2 ^ 16) / 2 ^ 15) mod 2).
  assert (Ho : 0 <= o < 2) by (apply Z.mod_pos_bound; lia).
  assert (Hor : 0 <= vec_or N o < 2 ^ 128) by (apply lor_range; lia).
  set (N1 := vec_or N o) in *.
  change (CONST_VINT128_W 0 0 0 16383) with 16383.
  unfold vec_addcuq, vec_adduqm.
  set (cy := (N1 + 16383) / 2 ^ 128).
  assert (Hcy : cy = 0 \/ cy = 1).
  { unfold cy. destruct (Z.lt_ge_cases (N1 + 16383) (2 ^ 128)).
    - left. apply Z.div_small. lia.
    - right. symmetry. apply Z.div_unique with (r := N1 + 16383 - 2 ^ 128); lia. }
  pose proof (Z.div_mod (N1 + 16383) (2 ^ 128) ltac:(lia)) as Hdm. fold cy in Hdm.
  pose proof (Z.mod_pos_bound (N1 + 16383) (2 ^ 128) ltac:(lia)) as Hmr.
  set (S := (N1 + 16383) mod 2 ^ 128) in *.
  assert (Hexp : vec_swapd (vec_addudm (vec_subudm (CONST_VINT64_DW 0 (16383 + 127)) c) cy)
                 = mk_dw (16383 + 127 - c + cy) 0).
  { change (CONST_VINT64_DW 0 (16383 + 127)) with (mk_dw 0 (16383 + 127)).
    replace c with (mk_dw 0 c) at 1 by (unfold mk_dw; lia).
    replace cy with (mk_dw 0 cy) at 1 by (unfold mk_dw; lia).
    unfold vec_subudm, vec_addudm. rewrite map2_dw by lia.
    change ((0 - 0) mod 2 ^ 64) with 0. rewrite (Z.mod_small (16383 + 127 - c)) by lia.
    rewrite map2_dw by lia.
    change ((0 + 0) mod 2 ^ 64) with 0. rewrite (Z.mod_small (16383 + 127 - c + cy)) by lia.
    apply swapd_mk; lia. }
  rewrite Hexp.
  assert (Hq4 : 0 <= vec_srqi S 15 < 2 ^ 113).
  { unfold vec_srqi. split; [apply Z.div_pos; lia|apply Z.div_lt_upper_bound; lia]. }
  destruct Hcy as [E|E]; rewrite E in *.
  - exists (vec_srqi S 15), (16383 + 127 - c + 0).
    unfold vec_setb_cyq. rewrite Z.bits_0. cbn [bmask]. rewrite sel_zero.
    repeat split; lia.
  - exists (2 ^ 112), (16383 + 127 - c + 1).
    unfold vec_setb_cyq. change (Z.testbit 1 0) with true.
    rewrite sel_bmask by (try apply is_vec_mod; unfold is_vec; lia).
    assert (HS : 0 <= S < 16383) by lia.
    assert (Hc112 : vec_sldqi 1 S 112 = 2 ^ 112).
    { unfold vec_sldqi.
      replace ((1 * 2 ^ 128 + S) * 2 ^ 112) with (S * 2 ^ 112 + 2 ^ 112 * 2 ^ 128) by lia.
      rewrite Z.div_add, (Z.div_small (S * 2 ^ 112)) by lia. reflexivity. }
    rewrite Hc112. repeat split; lia.
Qed.

Lemma sq_magnitude n : is_vec n ->
  vec_seluq n (vec_negsq n) (vec_setb_sq n) = (if n <? 2 ^ 127 then n else 2 ^ 128 - n)
  /\ vec_and n (CONST_VINT128_W 0x80000000 0 0 0) = sign_bit (negb (n <? 2 ^ 127)).
Proof.
  intros Hn. pose proof (qp_sign_land n Hn) as Hs.
  unfold vec_and_bin128_2_vui32t in Hs. rewrite Hs.
  unfold vec_setb_sq. fold (qp_sign n).
  assert (Es : qp_sign n = negb (n <? 2 ^ 127)).
  { rewrite qp_sign_div by assumption. destruct Hn.
    destruct (Z.ltb_spec n (2 ^ 127)); cbn [negb].
    - rewrite Z.div_small by lia. reflexivity.
    - assert (n / 2 ^ 127 = 1); [|lia].
      symmetry. apply Z.div_unique with (r := n - 2 ^ 127); lia. }
  rewrite Es. split; [|reflexivity].
  unfold vec_seluq, vec_negsq. rewrite sel_bmask by (assumption || apply is_vec_mod).
  destruct Hn. destruct (Z.ltb_spec n (2 ^ 127)); cbn [negb]; [reflexivity|].
  replace (0 - n) with ((2 ^ 128 - n) + (-1) * 2 ^ 128) by lia.
  rewrite Z.mod_add by lia. apply Z.mod_small. lia.
Qed.

(** X24. vec_xscvsqqp is the unsigned conversion of the magnitude with
    the sign put back: for a 128-bit n read as a two's complement
    integer, the result is vec_xscvuqqp (n) when n is not negative and
    the negation of vec_xscvuqqp (-n) when it is, rounding included; so
    the rounding to nearest even is symmetric around zero. *)
Theorem xscvsqqp_sign_magnitude (n : Z) : is_vec n ->
  vec_xscvsqqp n
  = if n <? 2 ^ 127 then vec_xscvuqqp n else vec_negf128 (vec_xscvuqqp (2 ^ 128 - n)).
Proof.
  intros Hn. rewrite xscvsqqp_block. cbv zeta.
  destruct (sq_magnitude n Hn) as [Em Es]. rewrite Em, Es. clear Em Es.
  destruct Hn as [Hn0 Hn1].
  destruct (Z.eqb_spec n 0) as [->|Hne]; [reflexivity|].
  destruct (Z.ltb_spec n (2 ^ 127)) as [Hlt|Hge]; cbn [negb].
  - rewrite xscvuqqp_block. replace (n =? 0) with false by lia.
    unfold vec_or. cbn [sign_bit]. now rewrite Z.lor_0_r.
  - rewrite xscvuqqp_block. replace (2 ^ 128 - n =? 0) with false by lia.
    destruct (cvt_quadword_round_shape (2 ^ 128 - n) ltac:(lia)) as (Q & e & E & HQ & He).
    rewrite E. cbn [fst snd].
    rewrite xsiexpqp_pack, xsiexpqp_unsigned by lia.
    pose proof (Z.mod_pos_bound Q (2 ^ 112) ltac:(lia)).
    rewrite negf128_eq by (apply qp_pack_range; lia).
    rewrite qp_sign_pack, qp_exp_pack, qp_frac_pack by lia. reflexivity.
Qed.

Lemma xscvsqqp_sign_magnitude_witness :
  vec_xscvsqqp (2 ^ 128 - 5) = vec_negf128 (vec_xscvuqqp (2 ^ 128 - (2 ^ 128 - 5))).
Proof.
  apply (xscvsqqp_sign_magnitude (2 ^ 128 - 5)).
  vm_compute. split; [discriminate|reflexivity].
Defined.

(** ** Quad to double, round to odd: the range limits *)

Lemma dp_insert_exp_hidden h sbit e :
  0 <= h < 2 ^ 53 -> 0 <= sbit < 2 ^ 1 -> 0 <= e < 2 ^ 11 ->
  Z.lor (Z.ldiff (Z.lor h (Z.shiftl sbit 63)) (Z.shiftl (Z.ones 11) 52)) (Z.shiftl e 52)
  = sbit * 2 ^ 63 + e * 2 ^ 52 + h mod 2 ^ 52.
Proof.
  intros Hh Hs He.
  pose proof (Z.mod_pos_bound h (2 ^ 52) ltac:(lia)) as Hm.
  replace (sbit * 2 ^ 63 + e * 2 ^ 52 + h mod 2 ^ 52)
    with ((sbit * 2 ^ 11 + e) * 2 ^ 52 + h mod 2 ^ 52) by lia.
  rewrite (add_lor_disj _ (h mod 2 ^ 52) 52), (add_lor_disj _ e 11) by lia.
  rewrite <- Z.land_ones by lia.
  Z.bitblast; testbit_bounds; btauto.
Qed.

Lemma xviexpdp_hidden h s e :
  0 <= h < 2 ^ 53 -> 0 <= e < 2 ^ 11 ->
  vec_xviexpdp (vec_or (mk_dw h 0) (sign_bit s)) (mk_dw e 0)
  = mk_dw (dp_pack s e (h mod 2 ^ 52)) 0.
Proof.
  intros Hh He. unfold vec_xviexpdp, vec_or.
  set (sbit := if s then 1 else 0).
  assert (Hs : 0 <= sbit < 2 ^ 1) by (unfold sbit; destruct s; lia).
  assert (E : Z.lor (mk_dw h 0) (sign_bit s) = mk_dw (Z.lor h (Z.shiftl sbit 63)) 0).
  { unfold mk_dw, sign_bit, sbit. rewrite !Z.add_0_r, <- !Z.shiftl_mul_pow2 by lia.
    destruct s.
    - change (2 ^ 127) with (Z.shiftl (Z.shiftl 1 63) 64). rewrite <- Z.shiftl_lor. reflexivity.
    - rewrite Z.shiftl_0_l, !Z.lor_0_r. reflexivity. }
  rewrite E.
  assert (Hl : 0 <= Z.lor h (Z.shiftl sbit 63) < 2 ^ 64).
  { apply lor_range; [lia|lia|]. unfold sbit. destruct s; cbn; lia. }
  rewrite map2_dw by lia.
  rewrite (Z.mod_small e (2 ^ 11)) by lia.
  rewrite dp_insert_exp_hidden by assumption.
  change (Z.lor (Z.ldiff 0 (Z.shiftl (Z.ones 11) 52)) (Z.shiftl (0 mod 2 ^ 11) 52) mod 2 ^ 64)
    with 0.
  pose proof (Z.mod_pos_bound h (2 ^ 52) ltac:(lia)) as Hm.
  f_equal. unfold dp_pack, sbit. rewrite Z.mod_small by (destruct s; lia). destruct s; lia.
Qed.

(** The range tests on the exponent of a finite operand. *)
Lemma xscvqpdpo_finite f128 : is_vec f128 -> qp_exp f128 <> 0x7fff ->
  vec_xscvqpdpo f128
  = let q_sig := vec_xsxsigqp f128 in
    let E := qp_exp f128 in
    let '(d_sig, d_exp) :=
      if 0x3fff - 1022 <=? E then
        if E <=? 0x3fff + 1023 then
          let q_sig := vec_slqi q_sig 4 in
          let d_X := vec_slqi (vec_mrgald 0 (vec_cmpgtud q_sig 0)) 1 in
          (vec_or q_sig d_X, vec_subudm (mk_dw E 0) (mk_dw (0x3fff - 0x3ff) 0))
        else (mk_dw 0x001fffffffffffff 0, mk_dw 0x7fe 0)
      else
        let q_delta := vec_subudm (mk_dw (0x3fff - 1022) (0x3fff - 1022)) (mk_dw E E) in
        if 0x3fff - (1022 + 53) <? E then
          let q_sig := vec_slqi q_sig 4 in
          let d_sig := vec_srq q_sig q_delta in
          let d_X := vec_slqi (vec_mrgald 0 (vec_cmpgtud d_sig 0)) 1 in
          (vec_or d_sig d_X, 0)
        else (vec_swapd (vec_addcuq q_sig q_ones), 0) in
    vec_xviexpdp (vec_or (CONST_VINT64_DW (dw_h d_sig) 0) (sign_bit (qp_sign f128))) d_exp.
Proof.
  intros Hv He. unfold vec_xscvqpdpo. cbv zeta.
  pose proof (qp_exp_range f128) as Hr.
  rewrite xsxexpqp_eq, qp_sign_land by assumption.
  unfold vec_splatd. rewrite elem_dw_h, splat_dw by lia.
  change (CONST_VINT64_DW (16383 - 1023) 0) with (mk_dw (16383 - 1023) 0).
  change (CONST_VINT64_DW (16383 - 1022) (16383 - 1022))
    with (mk_dw (16383 - 1022) (16383 - 1022)).
  change (CONST_VINT64_DW (16383 + 1023) (16383 + 1023))
    with (mk_dw (16383 + 1023) (16383 + 1023)).
  change (CONST_VINT64_DW (16383 - (1022 + 53)) (16383 - (1022 + 53)))
    with (mk_dw (16383 - (1022 + 53)) (16383 - (1022 + 53))).
  change (CONST_VINT64_DW 32767 32767) with (mk_dw 32767 32767).
  change (CONST_VINT64_DW 9007199254740991 0) with (mk_dw 9007199254740991 0).
  change (CONST_VINT64_DW 2046 0) with (mk_dw 2046 0).
  unfold vec_cmpud_all_eq, vec_cmpud_all_ge, vec_cmpud_all_le, vec_cmpud_all_gt.
  rewrite !all2_dw by lia. rewrite !andb_diag.
  replace (qp_exp f128 =? 32767) with false by lia. cbn [negb].
  change (vec_splat_s32 (-1)) with q_ones.
  reflexivity.
Qed.

Lemma xsxsigqp_zero v : is_vec v -> qp_exp v < 0x7fff ->
  (vec_xsxsigqp v =? 0) = qp_is_zero v.
Proof.
  intros Hv He. rewrite xsxsigqp_eq by assumption. unfold qp_is_zero.
  pose proof (qp_exp_range v). pose proof (qp_frac_range v).
  destruct (Z.eqb_spec (qp_exp v) 0) as [E|E].
  - rewrite E. cbn [Z.ltb Z.compare andb]. rewrite Z.add_0_r. reflexivity.
  - replace ((0 <? qp_exp v) && (qp_exp v <? 32767)) with true by lia.
    cbn [andb]. apply Z.eqb_neq. lia.
Qed.

Lemma dw_h_lor a b : dw_h (Z.lor a b) = Z.lor (dw_h a) (dw_h b).
Proof.
  unfold dw_h. rewrite <- !Z.shiftr_div_pow2, <- !Z.land_ones by lia.
  rewrite Z.shiftr_lor. apply Z.land_lor_distr_l.
Qed.

Lemma mk_dw_split x : x = mk_dw (x / 2 ^ 64) (x mod 2 ^ 64).
Proof. unfold mk_dw. pose proof (Z.div_mod x (2 ^ 64) ltac:(lia)). lia. Qed.

(** The sticky bit of the doubleword results: any bit left in the low
    doubleword is ORed into the least significant bit of the high one. *)
Lemma sticky_dw h l : 0 <= h < 2 ^ 64 -> 0 <= l < 2 ^ 64 ->
  dw_h (vec_or (mk_dw h l) (vec_slqi (vec_mrgald 0 (vec_cmpgtud (mk_dw h l) 0)) 1))
  = Z.lor h (if 0 <? l then 1 else 0).
Proof.
  intros Hh Hl. unfold vec_cmpgtud.
  match goal with |- context [map2_lanes 64 2 ?F (mk_dw h l) 0] =>
    change (map2_lanes 64 2 F (mk_dw h l) 0) with (map2_lanes 64 2 F (mk_dw h l) (mk_dw 0 0))
  end.
  rewrite map2_dw by lia. unfold vec_mrgald, vec_or.
  rewrite dw_l_mk by (apply Z.mod_pos_bound; lia).
  rewrite dw_h_lor, dw_h_mk by lia. f_equal.
  destruct (0 <? l); reflexivity.
Qed.

Lemma sticky_x x : is_vec x ->
  dw_h (vec_or x (vec_slqi (vec_mrgald 0 (vec_cmpgtud x 0)) 1))
  = Z.lor (x / 2 ^ 64) (if 0 <? x mod 2 ^ 64 then 1 else 0).
Proof.
  intros [H0 H1]. rewrite (mk_dw_split x) at 1 2.
  apply sticky_dw.
  - split; [apply Z.div_pos; lia|apply Z.div_lt_upper_bound; lia].
  - apply Z.mod_pos_bound. lia.
Qed.

(** The result for a finite operand: sign, exponent and fraction of the
    double in the high doubleword. *)
Lemma xscvqpdpo_finite_pack f128 : is_vec f128 -> qp_is_finite f128 = true ->
  exists e f,
    0 <= e < 0x7ff /\ 0 <= f < 2 ^ 52
    /\ vec_xscvqpdpo f128 = mk_dw (dp_pack (qp_sign f128) e f) 0
    /\ (e =? 0) && (f =? 0) = qp_is_zero f128
    /\ (0x3fff - 1022 <= qp_exp f128 <= 0x3fff + 1023 -> e = qp_exp f128 - (0x3fff - 0x3ff))
    /\ (0x3fff + 1023 < qp_exp f128 -> e = 0x7fe /\ f = 2 ^ 52 - 1)
    /\ (qp_exp f128 <= 0x3fff - 1075 -> e = 0 /\ f = if qp_is_zero f128 then 0 else 1).
Proof.
  intros Hv Hf. unfold qp_is_finite in Hf. apply Z.ltb_lt in Hf.
  pose proof (qp_exp_range f128) as Hr. pose proof (qp_frac_range f128) as Hfr.
  rewrite xscvqpdpo_finite by (assumption || lia). cbv zeta.
  destruct (Z.leb_spec (16383 - 1022) (qp_exp f128)) as [Ht|Ht].
  - assert (Hz : qp_is_zero f128 = false).
    { unfold qp_is_zero. replace (qp_exp f128 =? 0) with false by lia. reflexivity. }
    destruct (Z.leb_spec (qp_exp f128) (16383 + 1023)) as [Hh|Hh].
    + cbv beta iota. rewrite xsxsigqp_eq by assumption.
      replace ((0 <? qp_exp f128) && (qp_exp f128 <? 32767)) with true by lia.
      set (q := qp_frac f128 + 2 ^ 112).
      assert (Hq : 2 ^ 112 <= q < 2 ^ 113) by (unfold q; lia).
      assert (Hs : vec_slqi q 4 = q * 2 ^ 4) by (apply slqi_small; lia).
      rewrite Hs. rewrite sticky_x by (unfold is_vec; lia).
      set (stk := if 0 <? (q * 2 ^ 4) mod 2 ^ 64 then 1 else 0).
      assert (Hstk : 0 <= stk <= 1) by (unfold stk; destruct (0 <? _); lia).
      assert (Hh0 : 2 ^ 52 <= q * 2 ^ 4 / 2 ^ 64 < 2 ^ 53).
      { split; [apply Z.div_le_lower_bound; lia|apply Z.div_lt_upper_bound; lia]. }
      set (h := q * 2 ^ 4 / 2 ^ 64) in *.
      pose proof (lor_bit_bounds h stk ltac:(lia) Hstk) as Hl.
      assert (Hu : 0 <= Z.lor h stk < 2 ^ 53) by (apply lor_range; lia).
      rewrite const_dw by lia.
      unfold vec_subudm. rewrite map2_dw by lia.
      rewrite (Z.mod_small (qp_exp f128 - (16383 - 1023))) by lia.
      change ((0 - 0) mod 2 ^ 64) with 0.
      rewrite xviexpdp_hidden by lia.
      exists (qp_exp f128 - (16383 - 1023)), (Z.lor h stk mod 2 ^ 52).
      split; [lia|]. split; [apply Z.mod_pos_bound; lia|]. split; [reflexivity|].
      split; [rewrite Hz; replace (qp_exp f128 - (16383 - 1023) =? 0) with false by lia;
              reflexivity|].
      split; [intros; reflexivity|]. split; intros; lia.
    + cbv beta iota. rewrite dw_h_mk, const_dw by lia.
      rewrite (xviexpdp_hidden (2 ^ 53 - 1)) by lia.
      exists 2046, (2 ^ 52 - 1).
      split; [lia|]. split; [lia|]. split; [reflexivity|].
      split; [rewrite Hz; reflexivity|].
      split; [intros; lia|]. split; [intros; split; reflexivity|intros; lia].
  - destruct (Z.ltb_spec (16383 - (1022 + 53)) (qp_exp f128)) as [Hl|Hl].
    + assert (Hz : qp_is_zero f128 = false).
      { unfold qp_is_zero. replace (qp_exp f128 =? 0) with false by lia. reflexivity. }
      cbv beta iota. rewrite xsxsigqp_eq by assumption.
      replace ((0 <? qp_exp f128) && (qp_exp f128 <? 32767)) with true by lia.
      set (q := qp_frac f128 + 2 ^ 112).
      assert (Hq : 2 ^ 112 <= q < 2 ^ 113) by (unfold q; lia).
      assert (Hs : vec_slqi q 4 = q * 2 ^ 4) by (apply slqi_small; lia).
      rewrite Hs. unfold vec_subudm. rewrite !map2_dw by lia.
      set (dl := 16383 - 1022 - qp_exp f128).
      assert (Hdl : 1 <= dl <= 52) by (unfold dl; lia).
      rewrite !(Z.mod_small dl) by lia.
      unfold vec_srq. rewrite !dw_mod128 by lia.
      assert (Hp : 0 < 2 ^ dl) by (apply Z.pow_pos_nonneg; lia).
      assert (E116 : 2 ^ (116 - dl) * 2 ^ dl = 2 ^ 116)
        by (rewrite <- Z.pow_add_r by lia; f_equal; lia).
      assert (Hlow : 2 ^ 64 <= 2 ^ (116 - dl)) by (apply Z.pow_le_mono_r; lia).
      assert (H2 : 2 <= 2 ^ dl) by (change 2 with (2 ^ 1) at 1; apply Z.pow_le_mono_r; lia).
      assert (HD : 2 ^ 64 <= q * 2 ^ 4 / 2 ^ dl < 2 ^ 116).
      { split; [apply Z.div_le_lower_bound; nia|apply Z.div_lt_upper_bound; nia]. }
      set (D := q * 2 ^ 4 / 2 ^ dl) in *.
      rewrite sticky_x by (unfold is_vec; lia).
      set (stk := if 0 <? D mod 2 ^ 64 then 1 else 0).
      assert (Hstk : 0 <= stk <= 1) by (unfold stk; destruct (0 <? _); lia).
      assert (Hh0 : 1 <= D / 2 ^ 64 < 2 ^ 52).
      { split; [apply Z.div_le_lower_bound; lia|apply Z.div_lt_upper_bound; lia]. }
      set (h := D / 2 ^ 64) in *.
      pose proof (lor_bit_bounds h stk ltac:(lia) Hstk) as Hlb.
      assert (Hu : 0 <= Z.lor h stk < 2 ^ 52) by (apply lor_range; lia).
      rewrite const_dw by lia.
      change (vec_xviexpdp (vec_or (mk_dw (Z.lor h stk) 0) (sign_bit (qp_sign f128))) 0)
        with (vec_xviexpdp (vec_or (mk_dw (Z.lor h stk) 0) (sign_bit (qp_sign f128)))
                (mk_dw 0 0)).
      rewrite xviexpdp_hidden by lia. rewrite Z.mod_small by lia.
      exists 0, (Z.lor h stk).
      split; [lia|]. split; [lia|]. split; [reflexivity|].
      split; [rewrite Hz; replace (Z.lor h stk =? 0) with false by lia; reflexivity|].
      split; intros; lia.
    + cbv beta iota. destruct (xsxsigqp_range f128 Hv) as [Hq _].
      rewrite addcuq_ones by (unfold is_vec; lia).
      rewrite xsxsigqp_zero by (assumption || lia).
      destruct (qp_is_zero f128).
      * change (CONST_VINT64_DW (dw_h (vec_swapd 0)) 0) with (mk_dw 0 0).
        change (vec_xviexpdp (vec_or (mk_dw 0 0) (sign_bit (qp_sign f128))) 0)
          with (vec_xviexpdp (vec_or (mk_dw 0 0) (sign_bit (qp_sign f128))) (mk_dw 0 0)).
        rewrite xviexpdp_hidden by lia.
        exists 0, 0. repeat split; try lia; intros; lia.
      * change (CONST_VINT64_DW (dw_h (vec_swapd 1)) 0) with (mk_dw 1 0).
        change (vec_xviexpdp (vec_or (mk_dw 1 0) (sign_bit (qp_sign f128))) 0)
          with (vec_xviexpdp (vec_or (mk_dw 1 0) (sign_bit (qp_sign f128))) (mk_dw 0 0)).
        rewrite xviexpdp_hidden by lia.
        exists 0, 1. repeat split; try lia; intros; lia.
Qed.

(** X25. vec_xscvqpdpo (round to odd) never returns an infinity, a NaN
    or a zero for a finite nonzero operand.  For every finite operand the
    low doubleword of the result is zero and the high doubleword is a
    finite double of the same sign, which is a zero exactly when the
    operand is a zero.  An operand in the normal range of double (biased
    exponent from 0x3fff - 1022 to 0x3fff + 1023) gives a normal double
    with the exponent rebiased: rounding never carries into the exponent.
    A finite operand too large for a double (biased exponent above
    0x3fff + 1023) gives the largest finite double of its sign; a nonzero
    operand too small for any subnormal double (biased exponent at most
    0x3fff - 1075) gives the smallest subnormal double of its sign; a
    zero gives the zero of its sign. *)
Theorem xscvqpdpo_range_limits (f128 : Z) : is_vec f128 -> qp_is_finite f128 = true ->
  vec_xscvqpdpo f128 = mk_dw (dw_h (vec_xscvqpdpo f128)) 0
  /\ dp_sign (dw_h (vec_xscvqpdpo f128)) = qp_sign f128
  /\ dp_exp (dw_h (vec_xscvqpdpo f128)) < 0x7ff
  /\ dp_is_inf (dw_h (vec_xscvqpdpo f128)) = false
  /\ dp_is_nan (dw_h (vec_xscvqpdpo f128)) = false
  /\ (dp_exp (dw_h (vec_xscvqpdpo f128)) =? 0) && (dp_frac (dw_h (vec_xscvqpdpo f128)) =? 0)
     = qp_is_zero f128
  /\ (0x3fff - 1022 <= qp_exp f128 <= 0x3fff + 1023 ->
      dp_exp (dw_h (vec_xscvqpdpo f128)) = qp_exp f128 - (0x3fff - 0x3ff))
  /\ (0x3fff + 1023 < qp_exp f128 ->
      vec_xscvqpdpo f128 = mk_dw (dp_pack (qp_sign f128) 0x7fe (2 ^ 52 - 1)) 0)
  /\ (qp_exp f128 <= 0x3fff - 1075 ->
      vec_xscvqpdpo f128
      = mk_dw (dp_pack (qp_sign f128) 0 (if qp_is_zero f128 then 0 else 1)) 0).
Proof.
  intros Hv Hf.
  destruct (xscvqpdpo_finite_pack f128 Hv Hf) as (e & f & He & Hfr & E & Hz & Hn & Hb & Ht).
  rewrite E.
  pose proof (dp_pack_range (qp_sign f128) e f ltac:(lia) Hfr) as Hr.
  rewrite dw_h_mk by lia.
  unfold dp_is_inf, dp_is_nan.
  rewrite dp_sign_pack, dp_exp_pack, dp_frac_pack by lia.
  replace (e =? 2047) with false by lia.
  split; [reflexivity|]. split; [reflexivity|]. split; [lia|].
  split; [reflexivity|]. split; [reflexivity|]. split; [exact Hz|].
  split; [exact Hn|]. split.
  - intros H. destruct (Hb H) as [-> ->]. reflexivity.
  - intros H. destruct (Ht H) as [-> ->]. reflexivity.
Qed.

Lemma xscvqpdpo_range_limits_witness :
  vec_xscvqpdpo (qp_pack true 0x7ffe 0) = mk_dw (dp_pack true 0x7fe (2 ^ 52 - 1)) 0
  /\ vec_xscvqpdpo (qp_pack false 1 0) = mk_dw (dp_pack false 0 1) 0
  /\ dp_exp (dw_h (vec_xscvqpdpo (qp_pack false 0x3fff 1))) = 0x3ff.
Proof.
  split; [|split].
  - pose proof (xscvqpdpo_range_limits (qp_pack true 0x7ffe 0)
                  ltac:(vm_compute; split; [discriminate|reflexivity])
                  ltac:(vm_compute; reflexivity)) as (_ & _ & _ & _ & _ & _ & _ & H & _).
    apply H. vm_compute. reflexivity.
  - pose proof (xscvqpdpo_range_limits (qp_pack false 1 0)
                  ltac:(vm_compute; split; [discriminate|reflexivity])
                  ltac:(vm_compute; reflexivity)) as (_ & _ & _ & _ & _ & _ & _ & _ & H).
    apply H. vm_compute. discriminate.
  - pose proof (xscvqpdpo_range_limits (qp_pack false 0x3fff 1)
                  ltac:(vm_compute; split; [discriminate|reflexivity])
                  ltac:(vm_compute; reflexivity)) as (_ & _ & _ & _ & _ & _ & H & _).
    apply H. vm_compute. split; discriminate.
Defined.

(** ** Double to quad *)

Lemma dp_sign_leb d : 0 <= d < 2 ^ 64 -> dp_sign d = (2 ^ 63 <=? d).
Proof.
  intros Hd. unfold dp_sign.
  rewrite Z.testbit_odd, Z.shiftr_div_pow2 by lia.
  destruct (Z.leb_spec (2 ^ 63) d).
  - replace (d / 2 ^ 63) with 1; [reflexivity|].
    apply Z.div_unique with (r := d - 2 ^ 63); lia.
  - rewrite Z.div_small by lia. reflexivity.
Qed.

Lemma dp_exp_range d : 0 <= dp_exp d < 2 ^ 11.
Proof. unfold dp_exp. apply Z.mod_pos_bound. lia. Qed.

Lemma dp_frac_range d : 0 <= dp_frac d < 2 ^ 52.
Proof. unfold dp_frac. apply Z.mod_pos_bound. lia. Qed.

Lemma dp_fields d : 0 <= d < 2 ^ 64 -> d = dp_pack (dp_sign d) (dp_exp d) (dp_frac d).
Proof.
  intros Hd. rewrite dp_sign_leb by assumption. unfold dp_pack, dp_exp, dp_frac.
  pose proof (Z.div_mod d (2 ^ 52) ltac:(lia)) as E1.
  pose proof (Z.div_mod (d / 2 ^ 52) (2 ^ 11) ltac:(lia)) as E2.
  pose proof (Z.mod_pos_bound d (2 ^ 52) ltac:(lia)).
  pose proof (Z.mod_pos_bound (d / 2 ^ 52) (2 ^ 11) ltac:(lia)).
  assert (0 <= d / 2 ^ 52 < 2 ^ 12).
  { split; [apply Z.div_pos; lia|apply Z.div_lt_upper_bound; lia]. }
  assert (0 <= d / 2 ^ 52 / 2 ^ 11 < 2).
  { split; [apply Z.div_pos; lia|apply Z.div_lt_upper_bound; lia]. }
  destruct (Z.leb_spec (2 ^ 63) d); lia.
Qed.

Lemma xvxexpdp_dw d : 0 <= d < 2 ^ 64 -> vec_xvxexpdp (mk_dw d 0) = mk_dw (dp_exp d) 0.
Proof.
  intros Hd. unfold vec_xvxexpdp.
  change (map2_lanes 64 2 (fun x _ : Z => (x / 2 ^ 52) mod 2 ^ 11) (mk_dw d 0) 0)
    with (map2_lanes 64 2 (fun x _ : Z => (x / 2 ^ 52) mod 2 ^ 11) (mk_dw d 0) (mk_dw 0 0)).
  rewrite map2_dw by lia. fold (dp_exp d). pose proof (dp_exp_range d).
  rewrite Z.mod_small by lia. reflexivity.
Qed.

Lemma xvxsigdp_dw d : 0 <= d < 2 ^ 64 ->
  vec_xvxsigdp (mk_dw d 0)
  = mk_dw (dp_frac d + (if (0 <? dp_exp d) && (dp_exp d <? 0x7ff) then 2 ^ 52 else 0)) 0.
Proof.
  intros Hd. unfold vec_xvxsigdp.
  match goal with |- map2_lanes 64 2 ?F _ 0 = _ =>
    change (map2_lanes 64 2 F (mk_dw d 0) 0) with (map2_lanes 64 2 F (mk_dw d 0) (mk_dw 0 0))
  end.
  rewrite map2_dw by lia. fold (dp_exp d) (dp_frac d).
  pose proof (dp_frac_range d).
  rewrite Z.mod_small by (destruct ((0 <? dp_exp d) && (dp_exp d <? 2047)); lia).
  reflexivity.
Qed.

(** The result of the conversion, class by class. *)
Lemma xscvdpqp_eq d l : 0 <= d < 2 ^ 64 -> 0 <= l < 2 ^ 64 ->
  vec_xscvdpqp (mk_dw d l)
  = if dp_exp d =? 0x7ff then qp_pack (dp_sign d) 0x7fff (dp_frac d * 2 ^ 60)
    else if negb (dp_exp d =? 0) then
      qp_pack (dp_sign d) (dp_exp d + (0x3fff - 0x3ff)) (dp_frac d * 2 ^ 60)
    else if dp_frac d =? 0 then qp_pack (dp_sign d) 0 0
    else qp_pack (dp_sign d) (0x3fff - 1074 + Z.log2 (dp_frac d))
           ((dp_frac d * 2 ^ (112 - Z.log2 (dp_frac d))) mod 2 ^ 112).
Proof.
  intros Hd Hl. unfold vec_xscvdpqp. cbv zeta.
  rewrite dw_h_mk by lia. rewrite (const_dw d 0) by lia.
  change (CONST_VINT64_DW (16383 - 1023) 0) with (mk_dw (16383 - 1023) 0).
  change (CONST_VINT64_DW 2047 0) with (mk_dw 2047 0).
  change (CONST_VINT64_DW 0 0) with (mk_dw 0 0).
  change (CONST_VINT64_DW 32767 0) with (mk_dw 32767 0).
  change (CONST_VINT64_DW (16383 - (1023 - 12)) 0) with (mk_dw (16383 - (1023 - 12)) 0).
  rewrite xvxexpdp_dw, xvxsigdp_dw by assumption.
  change (vec_and (mk_dw d 0) (CONST_VINT128_W 2147483648 0 0 0))
    with (vec_and_bin128_2_vui32t (mk_dw d 0) (CONST_VINT128_W 2147483648 0 0 0)).
  rewrite qp_sign_land by (apply mk_dw_range; lia).
  rewrite sign_of_high_dw, <- dp_sign_leb by assumption.
  pose proof (dp_exp_range d) as He. pose proof (dp_frac_range d) as Hf.
  set (e := dp_exp d) in *. set (f := dp_frac d) in *. set (s := dp_sign d).
  unfold vec_cmpud_all_eq.
  assert (Hsig : 0 <= f + (if (0 <? e) && (e <? 2047) then 2 ^ 52 else 0) < 2 ^ 64).
  { destruct ((0 <? e) && (e <? 2047)); lia. }
  rewrite !all2_dw by lia. cbn [Z.eqb andb].
  assert (Hsr : forall h, 0 <= h < 2 ^ 64 -> vec_srqi (mk_dw h 0) 4 = h * 2 ^ 60).
  { intros h Hh. unfold vec_srqi, mk_dw. rewrite Z.add_0_r.
    replace (h * 2 ^ 64) with (h * 2 ^ 60 * 2 ^ 4) by lia. apply Z.div_mul. lia. }
  destruct (Z.eqb_spec e 2047) as [E|E]; cbn [negb].
  - replace ((0 <? e) && (e <? 2047)) with false by lia. rewrite Z.add_0_r.
    rewrite Hsr by lia. rewrite xsiexpqp_pack by lia.
    rewrite Z.mod_small by lia. reflexivity.
  - destruct (Z.eqb_spec e 0) as [E0|E0]; cbn [negb].
    + replace ((0 <? e) && (e <? 2047)) with false by lia. rewrite Z.add_0_r.
      destruct (Z.eqb_spec f 0) as [F|F].
      * rewrite F, E0. change (mk_dw 0 0) with 0 at 1.
        rewrite xsiexpqp_pack by lia. reflexivity.
      * destruct (cvt_dw_norm (16383 - (1023 - 12)) f s ltac:(lia) ltac:(lia)) as (R & _ & _).
        rewrite R. reflexivity.
    + replace ((0 <? e) && (e <? 2047)) with true by lia.
      rewrite Hsr by lia. unfold vec_addudm. rewrite map2_dw by lia.
      rewrite (Z.mod_small (e + (16383 - 1023))) by lia. change ((0 + 0) mod 2 ^ 64) with 0.
      rewrite xsiexpqp_pack by lia. f_equal.
      replace ((f + 2 ^ 52) * 2 ^ 60) with (f * 2 ^ 60 + 1 * 2 ^ 112) by lia.
      rewrite Z.mod_add by lia. apply Z.mod_small. lia.
Qed.

Lemma dp_scaled_fields d :
  dp_scaled d
  = (if dp_sign d then -1 else 1)
    * ((dp_frac d + (if 0 <? dp_exp d then 2 ^ 52 else 0)) * 2 ^ (Z.max (dp_exp d) 1 - 1)).
Proof. reflexivity. Qed.

Lemma qp_scaled_pack s e f : 0 <= e < 2 ^ 15 -> 0 <= f < 2 ^ 112 ->
  qp_scaled (qp_pack s e f)
  = (if s then -1 else 1) * ((f + (if 0 <? e then 2 ^ 112 else 0)) * 2 ^ (Z.max e 1 - 1)).
Proof.
  intros He Hf. unfold qp_scaled, qp_sig, qp_e.
  rewrite qp_sign_pack, qp_exp_pack, qp_frac_pack by lia. reflexivity.
Qed.

Lemma qp_quiet_pack s e f : 0 <= e < 2 ^ 15 -> 0 <= f < 2 ^ 112 ->
  qp_is_quiet (qp_pack s e f) = Z.testbit f 111.
Proof.
  intros He Hf. unfold qp_is_quiet.
  rewrite <- (qp_frac_pack s e f Hf) at 2. unfold qp_frac.
  rewrite Z.testbit_mod_pow2 by lia. reflexivity.
Qed.

(** X26. vec_xscvdpqp converts exactly, whatever the low doubleword of
    its operand holds: the sign is kept; a finite double gives the finite
    quad of the same value (a zero gives the zero of its sign, and a
    subnormal double gives a normal quad); an infinity or a NaN gives
    exponent 0x7fff with the 52 fraction bits moved to the top of the
    quad fraction, so an infinity stays an infinity and a NaN keeps its
    payload and its quiet bit as it is: a signalling NaN is not
    quieted. *)
Theorem xscvdpqp_exact (d l : Z) : 0 <= d < 2 ^ 64 -> 0 <= l < 2 ^ 64 ->
  is_vec (vec_xscvdpqp (mk_dw d l))
  /\ qp_sign (vec_xscvdpqp (mk_dw d l)) = dp_sign d
  /\ (dp_exp d = 0x7ff ->
      qp_exp (vec_xscvdpqp (mk_dw d l)) = 0x7fff
      /\ qp_frac (vec_xscvdpqp (mk_dw d l)) = dp_frac d * 2 ^ 60
      /\ qp_is_quiet (vec_xscvdpqp (mk_dw d l)) = dp_is_quiet d)
  /\ (dp_exp d <> 0x7ff ->
      qp_is_finite (vec_xscvdpqp (mk_dw d l)) = true
      /\ qp_is_subnormal (vec_xscvdpqp (mk_dw d l)) = false
      /\ qp_scaled (vec_xscvdpqp (mk_dw d l)) = dp_scaled d * dp_qp_scale).
Proof.
  intros Hd Hl. rewrite xscvdpqp_eq by assumption.
  pose proof (dp_exp_range d) as He. pose proof (dp_frac_range d) as Hf.
  rewrite dp_scaled_fields.
  assert (Hq : dp_is_quiet d = Z.testbit (dp_frac d) 51).
  { unfold dp_is_quiet, dp_frac. rewrite Z.testbit_mod_pow2 by lia. reflexivity. }
  set (e := dp_exp d) in *. set (f := dp_frac d) in *. set (s := dp_sign d).
  destruct (Z.eqb_spec e 2047) as [E|E].
  - assert (Hv : is_vec (qp_pack s 32767 (f * 2 ^ 60))) by (apply qp_pack_range; lia).
    split; [exact Hv|]. split; [apply qp_sign_pack; lia|].
    split; [|intros; contradiction]. intros _.
    rewrite qp_exp_pack, qp_frac_pack by lia. repeat split.
    rewrite qp_quiet_pack, Hq, Z.mul_pow2_bits by lia. reflexivity.
  - split.
    { destruct (Z.eqb_spec e 0); cbn [negb]; [destruct (f =? 0)|]; apply qp_pack_range;
        try lia.
      - split; [|pose proof (Z.log2_nonneg f); assert (Z.log2 f < 52); [|lia]].
        + pose proof (Z.log2_nonneg f). lia.
        + destruct (Z.eq_dec f 0) as [->|]; [cbn; lia|]. apply Z.log2_lt_pow2; lia.
      - apply Z.mod_pos_bound. lia. }
    split.
    { destruct (Z.eqb_spec e 0); cbn [negb]; [destruct (Z.eqb_spec f 0)|]; apply qp_sign_pack;
        try lia.
      - pose proof (Z.log2_nonneg f). assert (Z.log2 f < 52) by (apply Z.log2_lt_pow2; lia). lia.
      - apply Z.mod_pos_bound. lia. }
    split; [intros; contradiction|]. intros _.
    destruct (Z.eqb_spec e 0) as [E0|E0]; cbn [negb].
    + replace (0 <? e) with false by lia. rewrite Z.add_0_r.
      replace (Z.max e 1 - 1) with 0 by lia. rewrite Z.pow_0_r, Z.mul_1_r.
      destruct (Z.eqb_spec f 0) as [F|F].
      * rewrite F, Z.mul_0_r, Z.mul_0_l. repeat split; destruct s; reflexivity.
      * destruct (cvt_dw_norm (16383 - (1023 - 12)) f s ltac:(lia) ltac:(lia)) as (_ & Hr & Hk).
        assert (Hk2 : Z.log2 f < 52) by (apply Z.log2_lt_pow2; lia).
        set (k := Z.log2 f) in *. set (q := f * 2 ^ (112 - k)) in *.
        pose proof (Z.mod_pos_bound q (2 ^ 112) ltac:(lia)) as Hm.
        split; [unfold qp_is_finite; rewrite qp_exp_pack by lia; lia|].
        split; [unfold qp_is_subnormal; rewrite qp_exp_pack by lia;
                replace (16383 - 1074 + k =? 0) with false by lia; reflexivity|].
        rewrite qp_scaled_pack by lia.
        replace (0 <? 16383 - 1074 + k) with true by lia.
        assert (Hsig : q mod 2 ^ 112 + 2 ^ 112 = q).
        { pose proof (Z.div_mod q (2 ^ 112) ltac:(lia)).
          assert (q / 2 ^ 112 = 1); [|lia].
          symmetry. apply Z.div_unique with (r := q - 2 ^ 112); lia. }
        rewrite Hsig. replace (Z.max (16383 - 1074 + k) 1 - 1) with (15308 + k) by lia.
        rewrite <- Z.mul_assoc. f_equal. unfold q.
        rewrite <- Z.mul_assoc, <- Z.pow_add_r by lia. f_equal.
        unfold dp_qp_scale. f_equal. lia.
    + split; [unfold qp_is_finite; rewrite qp_exp_pack by lia; lia|].
      split; [unfold qp_is_subnormal; rewrite qp_exp_pack by lia;
              replace (e + (16383 - 1023) =? 0) with false by lia; reflexivity|].
      rewrite qp_scaled_pack by lia.
      replace (0 <? e + (16383 - 1023)) with true by lia.
      replace (0 <? e) with true by lia.
      replace (Z.max (e + (16383 - 1023)) 1 - 1) with (60 + (e - 1) + 15300) by lia.
      replace (Z.max e 1 - 1) with (e - 1) by lia.
      rewrite <- Z.mul_assoc. f_equal.
      replace (f * 2 ^ 60 + 2 ^ 112) with ((f + 2 ^ 52) * 2 ^ 60) by lia.
      rewrite <- !Z.mul_assoc. f_equal.
      unfold dp_qp_scale. rewrite <- !Z.pow_add_r by lia. f_equal. lia.
Qed.

Lemma xscvdpqp_exact_witness :
  qp_scaled (vec_xscvdpqp (mk_dw (dp_pack true 0 3) 9))
  = dp_scaled (dp_pack true 0 3) * dp_qp_scale
  /\ qp_frac (vec_xscvdpqp (mk_dw (dp_pack false 0x7ff 1) 9)) = 2 ^ 60.
Proof.
  split.
  - pose proof (xscvdpqp_exact (dp_pack true 0 3) 9 ltac:(vm_compute; split; congruence)
                  ltac:(lia)) as (_ & _ & _ & H).
    apply H. vm_compute. discriminate.
  - pose proof (xscvdpqp_exact (dp_pack false 0x7ff 1) 9 ltac:(vm_compute; split; congruence)
                  ltac:(lia)) as (_ & _ & H & _).
    apply H. vm_compute. reflexivity.
Defined.

Lemma dp_pack_lor_quiet s e f : 0 <= e < 2 ^ 11 -> 0 <= f < 2 ^ 52 ->
  Z.lor (dp_pack s e f) (2 ^ 51) = dp_pack s e (Z.lor f (2 ^ 51)).
Proof.
  intros He Hf. unfold dp_pack.
  assert (Hl : 0 <= Z.lor f (2 ^ 51) < 2 ^ 52) by (apply lor_range; lia).
  replace ((if s then 2 ^ 63 else 0) + e * 2 ^ 52 + f)
    with (((if s then 2 ^ 11 else 0) + e) * 2 ^ 52 + f) by (destruct s; lia).
  replace ((if s then 2 ^ 63 else 0) + e * 2 ^ 52 + Z.lor f (2 ^ 51))
    with (((if s then 2 ^ 11 else 0) + e) * 2 ^ 52 + Z.lor f (2 ^ 51)) by (destruct s; lia).
  rewrite !(add_lor_disj _ _ 52) by lia. symmetry. apply Z.lor_assoc.
Qed.

Lemma sticky_of_high_dw h : 0 <= h < 2 ^ 64 ->
  vec_slqi (vec_mrgald 0 (vec_cmpgtud (mk_dw h 0) 0)) 1 = 0.
Proof.
  intros Hh. unfold vec_cmpgtud.
  match goal with |- context [map2_lanes 64 2 ?F (mk_dw h 0) 0] =>
    change (map2_lanes 64 2 F (mk_dw h 0) 0) with (map2_lanes 64 2 F (mk_dw h 0) (mk_dw 0 0))
  end.
  rewrite map2_dw by lia. unfold vec_mrgald. rewrite dw_l_mk by (cbn; lia). reflexivity.
Qed.

(** X27. Converting a double to quad with vec_xscvdpqp and back with
    vec_xscvqpdpo returns the double bit for bit, for every finite value
    (zeros and subnormals included) and infinity; a NaN comes back with
    its sign and payload and the quiet bit set.  The low doubleword of
    the result is zero. *)
Theorem xscvdpqp_xscvqpdpo_roundtrip (d l : Z) : 0 <= d < 2 ^ 64 -> 0 <= l < 2 ^ 64 ->
  vec_xscvqpdpo (vec_xscvdpqp (mk_dw d l))
  = mk_dw (if dp_is_nan d then Z.lor d (2 ^ 51) else d) 0.
Proof.
  intros Hd Hl. rewrite xscvdpqp_eq by assumption.
  pose proof (dp_exp_range d) as He. pose proof (dp_frac_range d) as Hf.
  pose proof (dp_fields d Hd) as Ed. unfold dp_is_nan.
  set (e := dp_exp d) in *. set (f := dp_frac d) in *. set (s := dp_sign d) in *.
  destruct (Z.eqb_spec e 2047) as [E|E]; cbn [andb].
  - rewrite xscvqpdpo_naninf
      by (try apply qp_pack_range; try (rewrite qp_exp_pack by lia; reflexivity); lia).
    rewrite qp_sign_pack, qp_frac_pack by lia.
    rewrite Z.div_mul by lia.
    replace (f * 2 ^ 60 =? 0) with (f =? 0) by lia.
    destruct (Z.eqb_spec f 0) as [F|F]; cbn [negb].
    + rewrite Ed at 1. rewrite E, F. reflexivity.
    + rewrite Ed at 1. rewrite E, dp_pack_lor_quiet by lia. reflexivity.
  - destruct (Z.eqb_spec e 0) as [E0|E0]; cbn [negb].
    + destruct (Z.eqb_spec f 0) as [F|F].
      * rewrite xscvqpdpo_finite
          by (try apply qp_pack_range; try (rewrite qp_exp_pack by lia); lia).
        cbv zeta. rewrite qp_exp_pack, qp_sign_pack by lia.
        replace (16383 - 1022 <=? 0) with false by lia.
        replace (16383 - (1022 + 53) <? 0) with false by lia.
        destruct (xsxsigqp_range (qp_pack s 0 0) ltac:(apply qp_pack_range; lia)) as [Hq _].
        rewrite addcuq_ones by (unfold is_vec; lia).
        rewrite xsxsigqp_zero
          by (try apply qp_pack_range; try (rewrite qp_exp_pack by lia); lia).
        unfold qp_is_zero. rewrite qp_exp_pack, qp_frac_pack by lia. cbn [Z.eqb andb].
        change (CONST_VINT64_DW (dw_h (vec_swapd 0)) 0) with (mk_dw 0 0).
        change (vec_xviexpdp (vec_or (mk_dw 0 0) (sign_bit s)) 0)
          with (vec_xviexpdp (vec_or (mk_dw 0 0) (sign_bit s)) (mk_dw 0 0)).
        rewrite xviexpdp_hidden by lia. rewrite Ed at 1. rewrite E0, F. reflexivity.
      * destruct (cvt_dw_norm (16383 - (1023 - 12)) f s ltac:(lia) ltac:(lia)) as (_ & Hr & Hk).
        assert (Hk2 : Z.log2 f < 52) by (apply Z.log2_lt_pow2; lia).
        set (k := Z.log2 f) in *. set (q := f * 2 ^ (112 - k)) in *.
        pose proof (Z.mod_pos_bound q (2 ^ 112) ltac:(lia)) as Hm.
        assert (Hv : is_vec (qp_pack s (16383 - 1074 + k) (q mod 2 ^ 112)))
          by (apply qp_pack_range; lia).
        rewrite xscvqpdpo_finite by (try assumption; rewrite qp_exp_pack by lia; lia).
        cbv zeta. rewrite xsxsigqp_eq by assumption.
        rewrite qp_exp_pack, qp_sign_pack, qp_frac_pack by lia.
        replace (16383 - 1022 <=? 16383 - 1074 + k) with false by lia.
        replace (16383 - (1022 + 53) <? 16383 - 1074 + k) with true by lia.
        replace ((0 <? 16383 - 1074 + k) && (16383 - 1074 + k <? 32767)) with true by lia.
        assert (Hsig : q mod 2 ^ 112 + 2 ^ 112 = q).
        { pose proof (Z.div_mod q (2 ^ 112) ltac:(lia)).
          assert (q / 2 ^ 112 = 1); [|lia].
          symmetry. apply Z.div_unique with (r := q - 2 ^ 112); lia. }
        rewrite Hsig.
        unfold vec_subudm. rewrite map2_dw by lia.
        replace ((16383 - 1022 - (16383 - 1074 + k)) mod 2 ^ 64) with (52 - k)
          by (rewrite Z.mod_small; lia).
        assert (Hsh : vec_srq (vec_slqi q 4) (mk_dw (52 - k) (52 - k)) = mk_dw f 0).
        { unfold vec_srq, vec_slqi. rewrite (Z.mod_small (q * 2 ^ 4)) by lia.
          replace (mk_dw (52 - k) (52 - k) mod 128) with (52 - k).
          2:{ unfold mk_dw.
              apply Z.mod_unique with (q := (52 - k) * 2 ^ 57); lia. }
          unfold q, mk_dw. rewrite Z.add_0_r.
          replace (f * 2 ^ (112 - k) * 2 ^ 4) with (f * 2 ^ 64 * 2 ^ (52 - k)).
          - apply Z.div_mul. apply Z.pow_nonzero; lia.
          - rewrite <- !Z.mul_assoc, <- !Z.pow_add_r by lia. do 2 f_equal. lia. }
        rewrite Hsh. rewrite sticky_of_high_dw by lia.
        unfold vec_or at 2. rewrite Z.lor_0_r.
        rewrite dw_h_mk, const_dw by lia.
        change (vec_xviexpdp (vec_or (mk_dw f 0) (sign_bit s)) 0)
          with (vec_xviexpdp (vec_or (mk_dw f 0) (sign_bit s)) (mk_dw 0 0)).
        rewrite xviexpdp_hidden by lia. rewrite Z.mod_small by lia.
        rewrite Ed at 1. rewrite E0. reflexivity.
    + assert (Hv : is_vec (qp_pack s (e + (16383 - 1023)) (f * 2 ^ 60)))
        by (apply qp_pack_range; lia).
      rewrite xscvqpdpo_finite by (try assumption; rewrite qp_exp_pack by lia; lia).
      cbv zeta. rewrite xsxsigqp_eq by assumption.
      rewrite qp_exp_pack, qp_sign_pack, qp_frac_pack by lia.
      replace (16383 - 1022 <=? e + (16383 - 1023)) with true by lia.
      replace (e + (16383 - 1023) <=? 16383 + 1023) with true by lia.
      replace ((0 <? e + (16383 - 1023)) && (e + (16383 - 1023) <? 32767)) with true by lia.
      assert (Hsh : vec_slqi (f * 2 ^ 60 + 2 ^ 112) 4 = mk_dw (f + 2 ^ 52) 0).
      { unfold vec_slqi, mk_dw. rewrite Z.mod_small by lia. lia. }
      rewrite Hsh. rewrite sticky_of_high_dw by lia.
      unfold vec_or at 2. rewrite Z.lor_0_r.
      rewrite dw_h_mk, const_dw by lia.
      unfold vec_subudm. rewrite map2_dw by lia.
      replace ((e + (16383 - 1023) - (16383 - 1023)) mod 2 ^ 64) with e
        by (rewrite Z.mod_small; lia).
      change ((0 - 0) mod 2 ^ 64) with 0.
      rewrite xviexpdp_hidden by lia.
      replace ((f + 2 ^ 52) mod 2 ^ 52) with f.
      2:{ apply Z.mod_unique with (q := 1); lia. }
      rewrite Ed at 1. reflexivity.
Qed.

Lemma xscvdpqp_xscvqpdpo_roundtrip_witness :
  vec_xscvqpdpo (vec_xscvdpqp (mk_dw (dp_pack true 0 3) 9))
  = mk_dw (if dp_is_nan (dp_pack true 0 3)
           then Z.lor (dp_pack true 0 3) (2 ^ 51) else dp_pack true 0 3) 0.
Proof.
  apply (xscvdpqp_xscvqpdpo_roundtrip (dp_pack true 0 3) 9); [vm_compute; split; congruence|lia].
Defined.

(** ** Operand order in add and multiply *)

Lemma qp_class v :
  qp_is_finite v = true \/ qp_is_inf v = true \/ qp_is_nan v = true.
Proof.
  unfold qp_is_finite, qp_is_inf, qp_is_nan. pose proof (qp_exp_range v).
  destruct (Z.ltb_spec (qp_exp v) 32767); [left; reflexivity|right].
  replace (qp_exp v =? 32767) with true by lia.
  destruct (qp_frac v =? 0); [left|right]; reflexivity.
Qed.

Lemma same_fields_eq va vb : is_vec va -> is_vec vb ->
  qp_sign va = qp_sign vb ->
  qp_exp va * 2 ^ 112 + qp_frac va = qp_exp vb * 2 ^ 112 + qp_frac vb -> va = vb.
Proof.
  intros Ha Hb Hs Hm.
  pose proof (qp_frac_range va). pose proof (qp_frac_range vb).
  rewrite (qp_fields va Ha), (qp_fields vb Hb), Hs. unfold qp_pack. lia.
Qed.

(** Infinity plus a finite value, in either operand order. *)
Lemma xsaddqpo_inf_finite vfa vfb : is_vec vfa -> is_vec vfb ->
  (qp_is_inf vfa = true /\ qp_is_finite vfb = true)
  \/ (qp_is_finite vfa = true /\ qp_is_inf vfb = true) ->
  vec_xsaddqpo vfa vfb = if qp_is_inf vfa then vfa else vfb.
Proof.
  intros Ha Hb Hc. unfold vec_xsaddqpo. cbv zeta.
  rewrite xxxexpqpp_eq, all_finite_eq by auto using qp_exp_range.
  rewrite !all_isnan_eq, !sign_eq by assumption.
  rewrite all_naninf_eq, any_naninf_h by apply qp_exp_range.
  destruct Hc as [[Ia Fb]|[Fa Ib]].
  - rewrite (qp_inf_not_nan vfa Ia), (qp_finite_not_nan vfb Fb), Ia.
    destruct (qp_inf_fields vfa Ia) as [Ea _]. unfold qp_is_finite in Fb.
    rewrite Ea, Fb. replace (qp_exp vfb =? 32767) with false by lia. reflexivity.
  - rewrite (qp_inf_not_nan vfb Ib), (qp_finite_not_nan vfa Fa).
    destruct (qp_inf_fields vfb Ib) as [Eb _]. unfold qp_is_finite in Fa.
    unfold qp_is_inf at 1. rewrite Eb, Fa.
    replace (qp_exp vfa =? 32767) with false by lia. reflexivity.
Qed.

Lemma xsaddqpo_finite_comm vfa vfb : is_vec vfa -> is_vec vfb ->
  qp_is_finite vfa = true -> qp_is_finite vfb = true ->
  vec_xsaddqpo vfa vfb = vec_xsaddqpo vfb vfa.
Proof.
  intros Ha Hb Fa Fb. rewrite !xsaddqpo_finite by assumption.
  rewrite !xsaddqpo_combine_eq
    by (try apply qp_mag_range; try apply qp_sig_range; apply qp_e_range).
  cbv zeta. rewrite (xorb_comm (qp_sign vfb)).
  pose proof (qp_e_range vfa) as Hea. pose proof (qp_sig_range vfa) as Hsa.
  set (ma := qp_exp vfa * 2 ^ 112 + qp_frac vfa).
  set (mb := qp_exp vfb * 2 ^ 112 + qp_frac vfb).
  destruct (Z.compare_spec ma mb) as [E|L|G].
  - assert (Hm : qp_exp vfa = qp_exp vfb /\ qp_frac vfa = qp_frac vfb).
    { pose proof (qp_frac_range vfa). pose proof (qp_frac_range vfb).
      pose proof (qp_exp_range vfa). pose proof (qp_exp_range vfb).
      unfold ma, mb in E. lia. }
    destruct Hm as [He Hf].
    assert (Hsig : qp_sig vfb = qp_sig vfa) by (unfold qp_sig; now rewrite He, Hf).
    assert (Hqe : qp_e vfb = qp_e vfa) by (unfold qp_e; now rewrite He).
    rewrite E, Z.ltb_irrefl, Hsig, Hqe.
    destruct (qp_sign vfa), (qp_sign vfb); cbn [xorb]; try reflexivity.
    + rewrite align_same_exp by lia. unfold vec_subuqm. rewrite Z.sub_diag. reflexivity.
    + rewrite align_same_exp by lia. unfold vec_subuqm. rewrite Z.sub_diag. reflexivity.
  - replace (ma <? mb) with true by lia. replace (mb <? ma) with false by lia.
    destruct (qp_sign vfa), (qp_sign vfb); reflexivity.
  - replace (ma <? mb) with false by lia. replace (mb <? ma) with true by lia.
    destruct (qp_sign vfa), (qp_sign vfb); reflexivity.
Qed.

(** X28. vec_xsaddqpo does not depend on the order of its operands
    unless both are NaN: then the first operand is the one returned
    (quieted), so the two orders differ exactly when the two quieted NaNs
    do. *)
Theorem xsaddqpo_commutative (vfa vfb : Z) : is_vec vfa -> is_vec vfb ->
  (qp_is_nan vfa && qp_is_nan vfb = false ->
   vec_xsaddqpo vfa vfb = vec_xsaddqpo vfb vfa)
  /\ (qp_is_nan vfa && qp_is_nan vfb = true ->
      vec_xsaddqpo vfa vfb = Z.lor vfa qp_qbit
      /\ vec_xsaddqpo vfb vfa = Z.lor vfb qp_qbit).
Proof.
  intros Ha Hb. split; intros Hn.
  - destruct (qp_is_nan vfa) eqn:Na; [|destruct (qp_is_nan vfb) eqn:Nb].
    + cbn [andb] in Hn.
      rewrite !xsaddqpo_nan by (assumption || (rewrite Na, ?orb_true_r; reflexivity)).
      rewrite Na, Hn. reflexivity.
    + rewrite !xsaddqpo_nan by (assumption || (rewrite Nb, ?orb_true_r; reflexivity)).
      rewrite Na, Nb. reflexivity.
    + destruct (qp_class vfa) as [Fa|[Ia|C]]; [| |congruence];
        (destruct (qp_class vfb) as [Fb|[Ib|C]]; [| |congruence]).
      * apply xsaddqpo_finite_comm; assumption.
      * rewrite !xsaddqpo_inf_finite by (assumption || tauto). rewrite Ib.
        destruct (qp_is_inf vfa) eqn:Ia; [|reflexivity].
        destruct (qp_inf_fields vfa Ia). unfold qp_is_finite in Fa. lia.
      * rewrite !xsaddqpo_inf_finite by (assumption || tauto). rewrite Ia.
        destruct (qp_is_inf vfb) eqn:Ib; [|reflexivity].
        destruct (qp_inf_fields vfb Ib). unfold qp_is_finite in Fb. lia.
      * rewrite !xsaddqpo_inf_inf by assumption. rewrite (xorb_comm (qp_sign vfb)).
        destruct (xorb (qp_sign vfa) (qp_sign vfb)) eqn:Ex; [reflexivity|].
        destruct (qp_inf_fields vfa Ia) as [Ea Fa]. destruct (qp_inf_fields vfb Ib) as [Eb Fb].
        apply same_fields_eq; try assumption; [|lia].
        destruct (qp_sign vfa), (qp_sign vfb); cbn in Ex; congruence.
  - apply andb_true_iff in Hn as [Na Nb].
    rewrite !xsaddqpo_nan by (assumption || (rewrite Na, ?orb_true_r; reflexivity)).
    rewrite Na, Nb. split; reflexivity.
Qed.

Lemma xsaddqpo_commutative_witness :
  vec_xsaddqpo (qp_pack false 5 7) (qp_pack true 0x7fff 0)
  = vec_xsaddqpo (qp_pack true 0x7fff 0) (qp_pack false 5 7)
  /\ vec_xsaddqpo (qp_pack false 0x7fff 1) (qp_pack true 0x7fff 2)
     = Z.lor (qp_pack false 0x7fff 1) qp_qbit.
Proof.
  split.
  - pose proof (xsaddqpo_commutative (qp_pack false 5 7) (qp_pack true 0x7fff 0)
                  ltac:(vm_compute; split; congruence)
                  ltac:(vm_compute; split; congruence)) as (H & _).
    apply H. vm_compute. reflexivity.
  - pose proof (xsaddqpo_commutative (qp_pack false 0x7fff 1) (qp_pack true 0x7fff 2)
                  ltac:(vm_compute; split; congruence)
                  ltac:(vm_compute; split; congruence)) as (_ & H).
    apply H. vm_compute. reflexivity.
Defined.

Lemma xsmulqpo_finite_comm vfa vfb : is_vec vfa -> is_vec vfb ->
  qp_is_finite vfa = true -> qp_is_finite vfb = true ->
  vec_xsmulqpo vfa vfb = vec_xsmulqpo vfb vfa.
Proof.
  intros Ha Hb Fa Fb. unfold vec_xsmulqpo. cbv zeta.
  rewrite !xxxexpqpp_eq, !all_finite_eq by auto using qp_exp_range.
  unfold qp_is_finite in Fa, Fb. rewrite Fa, Fb. cbn [andb].
  rewrite !mag_eq, !sign_eq, !xsmulqpo_extract_eq by assumption.
  cbv beta iota. unfold vec_muludq. cbv beta iota.
  rewrite !xsmulqpo_exp_eq, !xor_sign.
  rewrite (Z.mul_comm (vec_slqi (qp_sig vfb) 8) (vec_slqi (qp_sig vfa) 8)).
  rewrite (orb_comm (vec_all_eq_w (vec_slqi (qp_sig vfb) 8) q_zero)).
  rewrite (Z.add_comm (qp_e vfb) (qp_e vfa)), (xorb_comm (qp_sign vfb)).
  reflexivity.
Qed.

(** X29. vec_xsmulqpo does not depend on the order of its operands
    unless both are NaN: then the first operand is the one returned
    (quieted). *)
Theorem xsmulqpo_commutative (vfa vfb : Z) : is_vec vfa -> is_vec vfb ->
  (qp_is_nan vfa && qp_is_nan vfb = false ->
   vec_xsmulqpo vfa vfb = vec_xsmulqpo vfb vfa)
  /\ (qp_is_nan vfa && qp_is_nan vfb = true ->
      vec_xsmulqpo vfa vfb = Z.lor vfa qp_qbit
      /\ vec_xsmulqpo vfb vfa = Z.lor vfb qp_qbit).
Proof.
  intros Ha Hb. split; intros Hn.
  - destruct (qp_is_nan vfa) eqn:Na; [|destruct (qp_is_nan vfb) eqn:Nb].
    + cbn [andb] in Hn.
      rewrite !xsmulqpo_nan by (assumption || (rewrite Na, ?orb_true_r; reflexivity)).
      rewrite Na, Hn. reflexivity.
    + rewrite !xsmulqpo_nan by (assumption || (rewrite Nb, ?orb_true_r; reflexivity)).
      rewrite Na, Nb. reflexivity.
    + destruct (qp_class vfa) as [Fa|[Ia|C]]; [| |congruence];
        (destruct (qp_class vfb) as [Fb|[Ib|C]]; [| |congruence]).
      * apply xsmulqpo_finite_comm; assumption.
      * rewrite !xsmulqpo_inf_finite by (assumption || tauto).
        rewrite (orb_comm (qp_is_zero vfb)), (xorb_comm (qp_sign vfb)). reflexivity.
      * rewrite !xsmulqpo_inf_finite by (assumption || tauto).
        rewrite (orb_comm (qp_is_zero vfb)), (xorb_comm (qp_sign vfb)). reflexivity.
      * rewrite !xsmulqpo_inf_inf by assumption.
        rewrite (xorb_comm (qp_sign vfb)). reflexivity.
  - apply andb_true_iff in Hn as [Na Nb].
    rewrite !xsmulqpo_nan by (assumption || (rewrite Na, ?orb_true_r; reflexivity)).
    rewrite Na, Nb. split; reflexivity.
Qed.

Lemma xsmulqpo_commutative_witness :
  vec_xsmulqpo (qp_pack false 5 7) (qp_pack true 0x7fff 0)
  = vec_xsmulqpo (qp_pack true 0x7fff 0) (qp_pack false 5 7)
  /\ vec_xsmulqpo (qp_pack false 0x7fff 1) (qp_pack true 0x7fff 2)
     = Z.lor (qp_pack false 0x7fff 1) qp_qbit.
Proof.
  split.
  - pose proof (xsmulqpo_commutative (qp_pack false 5 7) (qp_pack true 0x7fff 0)
                  ltac:(vm_compute; split; congruence)
                  ltac:(vm_compute; split; congruence)) as (H & _).
    apply H. vm_compute. reflexivity.
  - pose proof (xsmulqpo_commutative (qp_pack false 0x7fff 1) (qp_pack true 0x7fff 2)
                  ltac:(vm_compute; split; congruence)
                  ltac:(vm_compute; split; congruence)) as (_ & H).
    apply H. vm_compute. reflexivity.
Defined.

Lemma qp_sig_zero_iff v : (qp_sig v =? 0) = qp_is_zero v.
Proof.
  unfold qp_is_zero, qp_sig. pose proof (qp_exp_range v). pose proof (qp_frac_range v).
  destruct (Z.eqb_spec (qp_exp v) 0) as [E|E].
  - rewrite E. cbn [Z.ltb Z.compare andb]. rewrite Z.add_0_r. reflexivity.
  - replace (0 <? qp_exp v) with true by lia. cbn [andb]. lia.
Qed.

(** X30. In vec_xsmulqpo a zero times a finite operand, in either order,
    is a zero whose sign is the exclusive or of the operand signs: the
    product is tested for a zero significand before any exponent
    arithmetic or rounding. *)
Theorem xsmulqpo_zero_operand (vfa vfb : Z) : is_vec vfa -> is_vec vfb ->
  qp_is_finite vfa = true -> qp_is_finite vfb = true ->
  qp_is_zero vfa || qp_is_zero vfb = true ->
  vec_xsmulqpo vfa vfb = qp_pack (xorb (qp_sign vfa) (qp_sign vfb)) 0 0.
Proof.
  intros Ha Hb Fa Fb Hz. unfold vec_xsmulqpo. cbv zeta.
  rewrite xxxexpqpp_eq, all_finite_eq by auto using qp_exp_range.
  unfold qp_is_finite in Fa, Fb. rewrite Fa, Fb. cbn [andb].
  rewrite !mag_eq, !sign_eq, xsmulqpo_extract_eq by assumption.
  cbv beta iota. unfold vec_muludq. cbv beta iota.
  pose proof (qp_sig_range vfa) as Sa. pose proof (qp_sig_range vfb) as Sb.
  rewrite !slqi_small by lia.
  rewrite !all_eq_w_eqb by (unfold is_vec; rewrite ?q_zero_eq; lia).
  rewrite q_zero_eq.
  replace (qp_sig vfa * 2 ^ 8 =? 0) with (qp_sig vfa =? 0) by lia.
  replace (qp_sig vfb * 2 ^ 8 =? 0) with (qp_sig vfb =? 0) by lia.
  rewrite !qp_sig_zero_iff, Hz, xor_sign.
  unfold vec_xfer_vui32t_2_bin128, qp_pack. lia.
Qed.

Lemma xsmulqpo_zero_operand_witness :
  vec_xsmulqpo (qp_pack true 0 0) (qp_pack false 0x4000 5) = qp_pack true 0 0.
Proof.
  apply (xsmulqpo_zero_operand (qp_pack true 0 0) (qp_pack false 0x4000 5));
    vm_compute; try reflexivity; split; congruence.
Defined.

(** ** The rounding step inside add, subtract and multiply *)

Lemma lor_1_any t : Z.lor t 1 = 2 * (t / 2) + 1.
Proof.
  apply Z.bits_inj'; intros i Hi.
  destruct (Z.eq_dec i 0) as [->|Hne].
  - rewrite Z.lor_spec, Z.testbit_odd_0. apply orb_true_r.
  - assert (H1 : Z.testbit 1 i = false) by (apply (Z.pow2_bits_false 0); lia).
    rewrite Z.lor_spec, H1, orb_false_r.
    replace (Z.testbit (2 * (t / 2) + 1) i)
      with (Z.testbit (2 * (t / 2) + 1) (Z.succ (i - 1))) by (f_equal; lia).
    rewrite Z.testbit_odd_succ by lia.
    replace (t / 2) with (t / 2 ^ 1) by reflexivity.
    rewrite Z.div_pow2_bits by lia. f_equal. lia.
Qed.

(** Forcing the least significant bit: no increment beyond that bit and
    no carry out of a 113-bit significand. *)
Lemma forced_lsb_bounds t (sticky : bool) :
  let r := if sticky then Z.lor t 1 else t in
  t <= r <= Z.lor t 1 /\ r / 2 = t / 2 /\ (t < 2 ^ 113 -> r < 2 ^ 113)
  /\ Z.testbit r 0 = Z.testbit t 0 || sticky.
Proof.
  cbv zeta. pose proof (lor_1_any t) as E.
  pose proof (Z.div_mod t 2 ltac:(lia)) as Hd. pose proof (Z.mod_pos_bound t 2 ltac:(lia)) as Hm.
  assert (Hh : Z.lor t 1 / 2 = t / 2).
  { rewrite E, Z.mul_comm, Z.div_add_l by lia. change (1 / 2) with 0. lia. }
  assert (Hc : t < 2 ^ 113 -> Z.lor t 1 < 2 ^ 113).
  { intros Ht. assert (t / 2 < 2 ^ 112) by (apply Z.div_lt_upper_bound; lia). lia. }
  destruct sticky.
  - split; [lia|]. split; [exact Hh|]. split; [exact Hc|].
    rewrite Z.lor_spec. reflexivity.
  - split; [lia|]. split; [reflexivity|]. split; [tauto|].
    rewrite orb_false_r. reflexivity.
Qed.

Lemma round_to_odd_grx_any s :
  round_to_odd_grx s = if s mod 2 ^ 3 =? 0 then s / 2 ^ 3 else Z.lor (s / 2 ^ 3) 1.
Proof.
  unfold round_to_odd_grx, vec_splat_u128, vec_and, vec_srqi, vec_or. cbv zeta.
  change (7 mod 2 ^ 128) with (Z.ones 3). rewrite Z.land_ones by lia.
  rewrite addcuq_ones.
  - destruct (s mod 2 ^ 3 =? 0); [apply Z.lor_0_r|reflexivity].
  - pose proof (Z.mod_pos_bound s (2 ^ 3) ltac:(lia)). unfold is_vec. lia.
Qed.

(** [xsaddqpo_combine] is the zero test, the rounding step, the overflow
    test and the insertion applied to the intermediate result. *)
Lemma xsaddqpo_combine_round a_mag b_mag a_sign b_sign a_sig b_sig x_exp
      s_sum s_sig q_exp q_sign :
  xsaddqpo_sum a_mag b_mag a_sign b_sign a_sig b_sig x_exp = (s_sum, s_sig, q_exp, q_sign) ->
  s_sum <> 0 -> vec_cmpud_all_ge q_exp vec_mask64_f128exp = false ->
  xsaddqpo_combine a_mag b_mag a_sign b_sign a_sig b_sig x_exp
  = vec_xsiexpqp
      (vec_or (if s_sig mod 2 ^ 3 =? 0 then s_sig / 2 ^ 3 else Z.lor (s_sig / 2 ^ 3) 1) q_sign)
      q_exp
  /\ q_sign = vec_sel a_sign b_sign (vec_cmpltuq a_mag b_mag).
Proof.
  unfold xsaddqpo_sum, xsaddqpo_combine. cbv zeta. intros H Hz Hov.
  destruct (xsaddqpo_normalize _ _) as [n_sig n_exp].
  injection H as <- <- <- <-.
  unfold vec_cmpuq_all_eq. rewrite q_zero_eq.
  match goal with |- context [?x =? 0] => replace (x =? 0) with false by lia end.
  rewrite Hov, round_to_odd_grx_any. split; reflexivity.
Qed.

Lemma sign_bit_lsb s : Z.testbit (sign_bit s) 0 = false.
Proof. destruct s; reflexivity. Qed.

Lemma sel_lsb a b m :
  Z.testbit a 0 = false -> Z.testbit b 0 = false -> Z.testbit (vec_sel a b m) 0 = false.
Proof.
  intros Ha Hb. unfold vec_sel.
  rewrite Z.lor_spec, Z.ldiff_spec, Z.land_spec, Ha, Hb. reflexivity.
Qed.

(** Inserting the exponent leaves the least significant bit of the
    significand alone. *)
Lemma xsiexpqp_lsb sig e : Z.testbit (vec_xsiexpqp sig e) 0 = Z.testbit sig 0.
Proof.
  unfold vec_xsiexpqp, vec_xfer_vui32t_2_bin128, vec_sel. cbv zeta.
  rewrite mask128_exp_eq, Z.lor_spec, Z.ldiff_spec, Z.land_spec.
  change (Z.testbit (32767 * 2 ^ 112) 0) with false.
  rewrite andb_false_r, orb_false_r. cbn [negb]. apply andb_true_r.
Qed.

Lemma xsmulqpo_insert_lsb q_sig q_sign q_exp :
  Z.testbit (xsmulqpo_insert q_sig q_sign q_exp) 0 = Z.testbit q_sig 0 || Z.testbit q_sign 0.
Proof.
  unfold xsmulqpo_insert, vec_xfer_vui32t_2_bin128, vec_sel, vec_or. cbv zeta.
  rewrite Z.lor_spec, Z.ldiff_spec, Z.land_spec, Z.lor_spec.
  change (Z.testbit (vec_sld vec_mask64_f128exp q_zero 14) 0) with false.
  rewrite andb_false_r, orb_false_r. cbn [negb]. apply andb_true_r.
Qed.

Lemma lor_sign_frac r s : Z.lor r (sign_bit s) mod 2 ^ 112 = r mod 2 ^ 112.
Proof.
  destruct s; cbn [sign_bit]; [|now rewrite Z.lor_0_r].
  apply Z.bits_inj'; intros i Hi. rewrite !Z.testbit_mod_pow2 by lia.
  destruct (Z.ltb_spec i 112); [|reflexivity].
  rewrite Z.lor_spec, (Z.pow2_bits_false 127 i) by lia. now rewrite orb_false_r.
Qed.

(** Inserting the exponent leaves the 112 fraction bits of the
    significand alone. *)
Lemma xsiexpqp_frac sig e : qp_frac (vec_xsiexpqp sig e) = sig mod 2 ^ 112.
Proof.
  unfold qp_frac, vec_xsiexpqp, vec_xfer_vui32t_2_bin128, vec_sel. cbv zeta.
  rewrite mask128_exp_eq.
  apply Z.bits_inj'; intros i Hi. rewrite !Z.testbit_mod_pow2 by lia.
  destruct (Z.ltb_spec i 112); [|reflexivity].
  rewrite Z.lor_spec, Z.ldiff_spec, Z.land_spec.
  rewrite (Z.shiftl_spec_low (Z.ones 15) 112 i) by lia.
  rewrite andb_false_r, orb_false_r. cbn [negb]. now rewrite andb_true_r.
Qed.

Lemma xsmulqpo_insert_frac q_sig s q_exp :
  qp_frac (xsmulqpo_insert q_sig (sign_bit s) q_exp) = q_sig mod 2 ^ 112.
Proof.
  rewrite <- (lor_sign_frac q_sig s).
  unfold qp_frac, xsmulqpo_insert, vec_xfer_vui32t_2_bin128, vec_sel, vec_or. cbv zeta.
  change (vec_sld vec_mask64_f128exp q_zero 14) with (Z.shiftl (Z.ones 15) 112).
  apply Z.bits_inj'; intros i Hi. rewrite !Z.testbit_mod_pow2 by lia.
  destruct (Z.ltb_spec i 112); [|reflexivity].
  rewrite Z.lor_spec, Z.ldiff_spec, Z.land_spec.
  rewrite (Z.shiftl_spec_low (Z.ones 15) 112 i) by lia.
  rewrite andb_false_r, orb_false_r. cbn [negb]. now rewrite andb_true_r.
Qed.

Lemma sel_range a b m : is_vec a -> is_vec b -> is_vec (vec_sel a b m).
Proof.
  intros Ha Hb. unfold vec_sel.
  assert (E : Z.lor (Z.ldiff a m) (Z.land b m) = Z.lor (Z.ldiff a m) (Z.land b m) mod 2 ^ 128).
  { apply Z.bits_inj'; intros i Hi. rewrite Z.testbit_mod_pow2 by lia.
    destruct (Z.ltb_spec i 128); [reflexivity|].
    rewrite Z.lor_spec, Z.ldiff_spec, Z.land_spec.
    rewrite (testbit_high a 128 i), (testbit_high b 128 i) by (unfold is_vec in *; lia).
    reflexivity. }
  rewrite E. apply is_vec_mod.
Qed.

Lemma ldiff_range a m : is_vec a -> is_vec (Z.ldiff a m).
Proof.
  intros Ha.
  assert (E : Z.ldiff a m = Z.ldiff a m mod 2 ^ 128).
  { apply Z.bits_inj'; intros i Hi. rewrite Z.testbit_mod_pow2 by lia.
    destruct (Z.ltb_spec i 128); [reflexivity|].
    rewrite Z.ldiff_spec, (testbit_high a 128 i) by (unfold is_vec in *; lia).
    reflexivity. }
  rewrite E. apply is_vec_mod.
Qed.

(** The low product quadword stays a quadword through the stages. *)
Lemma xsmulqpo_carry_low ph pl q : is_vec pl ->
  is_vec (snd (fst (xsmulqpo_carry ph pl q))).
Proof.
  intros Hp. unfold xsmulqpo_carry. cbv zeta. cbn [fst snd].
  unfold vec_seluq. apply sel_range; [assumption|]. unfold vec_slqi. apply is_vec_mod.
Qed.

Lemma xsmulqpo_tiny_low ph pl q : is_vec pl ->
  is_vec (snd (fst (fst (xsmulqpo_tiny ph pl q)))).
Proof.
  intros Hp. unfold xsmulqpo_tiny. cbv zeta.
  destruct (vec_cmpsd_all_lt _ _); [|exact Hp].
  destruct (vec_cmpud_all_gt _ _); cbn [fst snd].
  - unfold vec_andc. apply ldiff_range. unfold vec_adduqm. apply is_vec_mod.
  - unfold vec_sldq, vec_sldqi. apply is_vec_mod.
Qed.

Lemma xsmulqpo_denorm_low ph pl qs q : is_vec pl ->
  is_vec (fst (fst (xsmulqpo_denorm ph pl qs q))).
Proof.
  intros Hp. unfold xsmulqpo_denorm. cbv zeta.
  destruct (vec_all_eq_h _ _); [|exact Hp].
  destruct (vec_cmpsd_all_gt _ _); cbn [fst snd]; [|exact Hp].
  unfold vec_slq. apply is_vec_mod.
Qed.

Lemma xsaddqpo_round_result a_mag b_mag sa sb a_sig b_sig x_exp s_sum s_sig q_exp q_sign :
  xsaddqpo_sum a_mag b_mag (sign_bit sa) (sign_bit sb) a_sig b_sig x_exp
  = (s_sum, s_sig, q_exp, q_sign) ->
  s_sum <> 0 -> vec_cmpud_all_ge q_exp vec_mask64_f128exp = false ->
  let t := s_sig / 2 ^ 3 in
  let r := if s_sig mod 2 ^ 3 =? 0 then t else Z.lor t 1 in
  let res := xsaddqpo_combine a_mag b_mag (sign_bit sa) (sign_bit sb) a_sig b_sig x_exp in
  res = vec_xsiexpqp (vec_or r q_sign) q_exp
  /\ qp_frac res = r mod 2 ^ 112
  /\ Z.testbit res 0 = Z.testbit t 0 || negb (s_sig mod 2 ^ 3 =? 0)
  /\ t <= r <= Z.lor t 1 /\ r / 2 = t / 2 /\ (t < 2 ^ 113 -> r < 2 ^ 113).
Proof.
  intros H Hz Hov. cbv zeta.
  destruct (xsaddqpo_combine_round _ _ _ _ _ _ _ _ _ _ _ H Hz Hov) as [E Es].
  rewrite E.
  assert (Hq : q_sign = sign_bit (if a_mag <? b_mag then sb else sa)).
  { rewrite Es. unfold vec_cmpltuq. rewrite sel_bmask by apply sign_bit_range.
    destruct (a_mag <? b_mag); reflexivity. }
  pose proof (forced_lsb_bounds (s_sig / 2 ^ 3) (negb (s_sig mod 2 ^ 3 =? 0))) as Hb.
  cbv zeta in Hb.
  split; [reflexivity|].
  rewrite xsiexpqp_frac, xsiexpqp_lsb, Hq. unfold vec_or.
  rewrite lor_sign_frac, Z.lor_spec, sign_bit_lsb, orb_false_r.
  destruct (s_sig mod 2 ^ 3 =? 0); cbn [negb] in *;
    destruct Hb as (H1 & H2 & H3 & H4); repeat split; try assumption; lia.
Qed.

(** ** The significand of the intermediate result has 113 bits *)

Lemma clzq_range x j : 0 <= x < 2 ^ j -> 0 <= j <= 128 ->
  128 - j <= vec_clzq x <= 128.
Proof.
  intros Hx Hj. unfold vec_clzq. destruct (Z.eqb_spec x 0) as [->|Hne]; [lia|].
  pose proof (Z.log2_nonneg x). assert (Z.log2 x < j) by (apply Z.log2_lt_pow2; lia). lia.
Qed.

(** Shifting left by at most the leading zeros above bit [j] keeps a
    value, and whatever is shifted in below it, under [2^j]. *)
Lemma clzq_shift_bound x j n : 0 <= x < 2 ^ j -> 0 <= j <= 128 ->
  0 <= n <= vec_clzq x - (128 - j) -> (x + 1) * 2 ^ n <= 2 ^ j.
Proof.
  intros Hx Hj Hn. unfold vec_clzq in Hn.
  destruct (Z.eqb_spec x 0) as [->|Hne].
  - rewrite Z.mul_1_l. apply Z.pow_le_mono_r; lia.
  - pose proof (Z.log2_nonneg x) as Hl0.
    destruct (Z.log2_spec x ltac:(lia)) as [_ Hhi].
    assert (Hp : 0 < 2 ^ n) by (apply Z.pow_pos_nonneg; lia).
    assert (E : 2 ^ Z.succ (Z.log2 x) * 2 ^ n <= 2 ^ j).
    { rewrite <- Z.pow_add_r by lia. apply Z.pow_le_mono_r; lia. }
    nia.
Qed.

Lemma clzq_lanes x k : 0 <= k <= vec_clzq x -> vec_clzq x <= 128 ->
  vec_subudm (vec_splatd (vec_clzq x) VEC_DW_L) (vec_splat_u64 k)
  = mk_dw (vec_clzq x - k) (vec_clzq x - k).
Proof.
  intros Hk Hc. unfold vec_splatd, vec_splat_u64, elem, VEC_DW_L.
  change (64 * (Z.of_nat 2 - 1 - 1)) with 0. rewrite Z.pow_0_r, Z.div_1_r.
  rewrite (Z.mod_small (vec_clzq x)) by lia.
  rewrite !splat_dw by lia. unfold vec_subudm. rewrite map2_dw by lia.
  rewrite Z.mod_small by lia. reflexivity.
Qed.

Lemma map2_lanes_low f a b :
  map2_lanes 64 2 f a b mod 2 ^ 64 = f (a mod 2 ^ 64) (b mod 2 ^ 64) mod 2 ^ 64.
Proof.
  rewrite map2_lanes_S.
  set (X := f (a mod 2 ^ 64) (b mod 2 ^ 64) mod 2 ^ 64).
  set (Y := map2_lanes 64 1 f (a / 2 ^ 64) (b / 2 ^ 64)).
  replace (X + 2 ^ 64 * Y) with (X + Y * 2 ^ 64) by lia.
  rewrite Z.mod_add by lia. unfold X. apply Z.mod_mod. lia.
Qed.

Lemma mod128_low x : x mod 128 = (x mod 2 ^ 64) mod 128.
Proof.
  pose proof (Z.div_mod x (2 ^ 64) ltac:(lia)) as E.
  rewrite E at 1.
  replace (2 ^ 64 * (x / 2 ^ 64) + x mod 2 ^ 64)
    with (x mod 2 ^ 64 + (2 ^ 57 * (x / 2 ^ 64)) * 128) by lia.
  apply Z.mod_add. lia.
Qed.

(** Multiply, the carry stage: the high product quadword drops to 113
    bits. *)
Lemma xsmulqpo_carry_high ph pl q : 0 <= ph < 2 ^ 114 ->
  0 <= fst (fst (xsmulqpo_carry ph pl q)) < 2 ^ 113.
Proof.
  intros Hh. unfold xsmulqpo_carry. cbv zeta. cbn [fst snd].
  unfold vec_cmpgt_h, vec_splat_h, vec_splat_u16. rewrite map2_lanes_splat by lia.
  rewrite elem_hw_h by lia. cbv beta.
  assert (Hd : 0 <= ph / 2 ^ 112 < 4).
  { split; [apply Z.div_pos; lia|apply Z.div_lt_upper_bound; lia]. }
  rewrite (Z.mod_small (ph / 2 ^ 112)) by lia. change (1 mod 2 ^ 16) with 1.
  replace (splat 16 8 (bmask 16 (1 <? ph / 2 ^ 112))) with (bmask 128 (1 <? ph / 2 ^ 112))
    by (destruct (1 <? ph / 2 ^ 112); reflexivity).
  unfold vec_seluq, vec_srqi.
  assert (Hs : 0 <= ph / 2 ^ 1 < 2 ^ 113).
  { split; [apply Z.div_pos; lia|apply Z.div_lt_upper_bound; lia]. }
  rewrite sel_bmask by (unfold is_vec; lia).
  destruct (Z.ltb_spec 1 (ph / 2 ^ 112)) as [Hc|Hc]; [exact Hs|].
  pose proof (Z.div_mod ph (2 ^ 112) ltac:(lia)).
  pose proof (Z.mod_pos_bound ph (2 ^ 112) ltac:(lia)). lia.
Qed.

Lemma srq_le a b : 0 <= a -> 0 <= vec_srq a b <= a.
Proof.
  intros Ha. unfold vec_srq.
  pose proof (Z.mod_pos_bound b 128 ltac:(lia)) as Hb.
  assert (Hp : 0 < 2 ^ (b mod 128)) by (apply Z.pow_pos_nonneg; lia).
  split; [apply Z.div_pos; lia|apply Z.div_le_upper_bound; nia].
Qed.

(** Multiply, the tiny stage: the high quadword and the significand do not
    grow. *)
Lemma xsmulqpo_tiny_high ph pl q : 0 <= ph ->
  0 <= fst (fst (fst (xsmulqpo_tiny ph pl q))) <= ph
  /\ 0 <= snd (fst (xsmulqpo_tiny ph pl q)) <= ph.
Proof.
  intros Hh. unfold xsmulqpo_tiny. cbv zeta.
  destruct (vec_cmpsd_all_lt _ _); [|cbn [fst snd]; lia].
  destruct (vec_cmpud_all_gt _ _); cbn [fst snd].
  - rewrite q_zero_eq. lia.
  - pose proof (srq_le ph (vec_subudm (vec_splat_u64 1) q) Hh). lia.
Qed.

(** Multiply, the denormal stage: the significand stays within 113
    bits. *)
Lemma xsmulqpo_denorm_sig ph pl qs q : 0 <= ph < 2 ^ 113 -> is_vec pl ->
  0 <= qs < 2 ^ 113 ->
  0 <= snd (fst (xsmulqpo_denorm ph pl qs q)) < 2 ^ 113.
Proof.
  intros Hh Hl Hq. unfold xsmulqpo_denorm. cbv zeta.
  destruct (vec_all_eq_h _ _) eqn:Eh; [|exact Hq].
  destruct (vec_cmpsd_all_gt _ _); [|exact Hq]. cbn [fst snd].
  assert (Hph : 0 <= ph < 2 ^ 113) by lia.
  unfold vec_all_eq_h, vec_splat_h in Eh. rewrite q_zero_eq in Eh.
  change 0 with (splat 16 8 0) in Eh at 1. rewrite all2_lanes_splat in Eh by lia.
  rewrite elem_hw_h in Eh by lia.
  assert (Hd : 0 <= ph / 2 ^ 112 < 2).
  { split; [apply Z.div_pos; lia|apply Z.div_lt_upper_bound; lia]. }
  rewrite (Z.mod_small (ph / 2 ^ 112)) in Eh by lia. change (0 mod 2 ^ 16) with 0 in Eh.
  apply Z.eqb_eq in Eh.
  assert (Hp2 : 0 <= ph < 2 ^ 112).
  { pose proof (Z.div_mod ph (2 ^ 112) ltac:(lia)).
    pose proof (Z.mod_pos_bound ph (2 ^ 112) ltac:(lia)). lia. }
  pose proof (clzq_range ph 112 Hp2 ltac:(lia)) as Hc.
  rewrite clzq_lanes by lia.
  set (c := vec_clzq ph) in *.
  unfold vec_sldq, vec_sldqi.
  set (n := vec_minud (mk_dw (c - 15) (c - 15)) (vec_subudm q (vec_splat_u64 1)) mod 128).
  assert (Hn : 0 <= n <= c - 15).
  { unfold n, vec_minud. rewrite mod128_low, map2_lanes_low.
    rewrite mk_dw_mod by lia.
    pose proof (Z.mod_pos_bound (vec_subudm q (vec_splat_u64 1)) (2 ^ 64) ltac:(lia)) as Hm.
    set (y := vec_subudm q (vec_splat_u64 1) mod 2 ^ 64) in *.
    rewrite (Z.mod_small (Z.min (c - 15) y)) by lia.
    rewrite Z.mod_small by lia. lia. }
  pose proof (clzq_shift_bound ph 113 n Hph ltac:(lia) ltac:(unfold c in *; lia)) as Hb.
  assert (Hp : 0 < 2 ^ n) by (apply Z.pow_pos_nonneg; lia).
  destruct Hl as [Hl0 Hl1].
  assert (Hx : 0 <= (ph * 2 ^ 128 + pl) * 2 ^ n / 2 ^ 128 < 2 ^ 113).
  { split; [apply Z.div_pos; nia|]. apply Z.div_lt_upper_bound; [lia|]. nia. }
  rewrite Z.mod_small by lia. exact Hx.
Qed.

Lemma sel_range_k a b m k : 0 <= k -> 0 <= a < 2 ^ k -> 0 <= b < 2 ^ k ->
  0 <= vec_sel a b m < 2 ^ k.
Proof.
  intros Hk Ha Hb. unfold vec_sel.
  assert (E : Z.lor (Z.ldiff a m) (Z.land b m) = Z.lor (Z.ldiff a m) (Z.land b m) mod 2 ^ k).
  { apply Z.bits_inj'; intros i Hi. rewrite Z.testbit_mod_pow2 by lia.
    destruct (Z.ltb_spec i k); [reflexivity|].
    rewrite Z.lor_spec, Z.ldiff_spec, Z.land_spec.
    rewrite (testbit_high a k i), (testbit_high b k i) by lia. reflexivity. }
  rewrite E. apply Z.mod_pos_bound. apply Z.pow_pos_nonneg; lia.
Qed.

(** Add, the normalisation: a sum below [2^117] comes out below [2^116],
    the Guard, Round and Sticky bits included. *)
Lemma xsaddqpo_normalize_sig s q : 0 <= s < 2 ^ 117 ->
  0 <= fst (xsaddqpo_normalize s q) < 2 ^ 116.
Proof.
  intros Hs. unfold xsaddqpo_normalize. cbv zeta.
  unfold vec_all_gt_b, vec_all_le_b, vec_splat_b, vec_splat_u8.
  rewrite !all2_lanes_splat by lia.
  unfold elem. change (8 * (Z.of_nat 16 - 1 - 1)) with 112.
  rewrite Z.mod_mod by lia. change (15 mod 2 ^ 8) with 15. change (7 mod 2 ^ 8) with 7.
  assert (Hd : 0 <= s / 2 ^ 112 < 2 ^ 5).
  { split; [apply Z.div_pos; lia|apply Z.div_lt_upper_bound; lia]. }
  rewrite (Z.mod_small (s / 2 ^ 112)) by lia.
  pose proof (Z.div_mod s (2 ^ 112) ltac:(lia)) as Hdm.
  pose proof (Z.mod_pos_bound s (2 ^ 112) ltac:(lia)) as Hm.
  destruct (Z.ltb_spec 15 (s / 2 ^ 112)) as [Hc|Hc]; cbn [fst].
  - unfold vec_or, vec_srqi, vec_and, vec_splat_u128.
    change (1 mod 2 ^ 128) with (Z.ones 1). rewrite Z.land_ones by lia.
    pose proof (Z.mod_pos_bound s (2 ^ 1) ltac:(lia)).
    apply lor_range; [lia| |lia].
    split; [apply Z.div_pos; lia|apply Z.div_lt_upper_bound; lia].
  - destruct (Z.leb_spec (s / 2 ^ 112) 7) as [Hl|Hl]; cbn [fst]; [|lia].
    assert (Hs5 : 0 <= s < 2 ^ 115) by lia.
    pose proof (clzq_range s 116 ltac:(lia) ltac:(lia)) as Hcr.
    rewrite clzq_lanes by lia.
    set (c := vec_clzq s) in *.
    unfold vec_seluq. apply sel_range_k; [lia|lia|].
    unfold vec_slq.
    set (n := vec_minud (mk_dw (c - 12) (c - 12)) (vec_subudm q (vec_splat_u64 1)) mod 128).
    assert (Hn : 0 <= n <= c - 12).
    { unfold n, vec_minud. rewrite mod128_low, map2_lanes_low.
      rewrite mk_dw_mod by lia.
      pose proof (Z.mod_pos_bound (vec_subudm q (vec_splat_u64 1)) (2 ^ 64) ltac:(lia)) as Hy.
      set (y := vec_subudm q (vec_splat_u64 1) mod 2 ^ 64) in *.
      rewrite (Z.mod_small (Z.min (c - 12) y)) by lia.
      rewrite Z.mod_small by lia. lia. }
    pose proof (clzq_shift_bound s 116 n ltac:(lia) ltac:(lia) ltac:(unfold c in *; lia)) as Hb.
    assert (Hp : 0 < 2 ^ n) by (apply Z.pow_pos_nonneg; lia).
    rewrite Z.mod_small by nia. nia.
Qed.

(** The larger magnitude has the larger exponent, and the larger
    significand when the exponents agree; it is normal when they do
    not. *)
Lemma ordered_sigs v1 v2 :
  qp_exp v2 * 2 ^ 112 + qp_frac v2 <= qp_exp v1 * 2 ^ 112 + qp_frac v1 ->
  qp_e v2 <= qp_e v1
  /\ (qp_e v2 = qp_e v1 -> qp_sig v2 <= qp_sig v1)
  /\ (qp_e v2 < qp_e v1 -> 2 ^ 112 <= qp_sig v1).
Proof.
  intros Hm.
  pose proof (qp_exp_range v1). pose proof (qp_exp_range v2).
  pose proof (qp_frac_range v1). pose proof (qp_frac_range v2).
  assert (Hee : qp_exp v2 <= qp_exp v1) by nia.
  unfold qp_e, qp_sig.
  split; [lia|]. split.
  - intros He. destruct (Z.ltb_spec 0 (qp_exp v1)); destruct (Z.ltb_spec 0 (qp_exp v2)); nia.
  - intros He. destruct (Z.ltb_spec 0 (qp_exp v1)); lia.
Qed.

(** The aligned smaller operand does not exceed the larger one. *)
Lemma aligned_le v1 v2 :
  qp_exp v2 * 2 ^ 112 + qp_frac v2 <= qp_exp v1 * 2 ^ 112 + qp_frac v1 ->
  0 <= xsaddqpo_align (mk_dw (qp_e v1) (qp_e v1)) (mk_dw (qp_e v2) (qp_e v2)) (qp_sig v2 * 2 ^ 3)
    <= qp_sig v1 * 2 ^ 3.
Proof.
  intros Hm. destruct (ordered_sigs v1 v2 Hm) as (He & Hs & Hn).
  pose proof (qp_e_range v1) as He1. pose proof (qp_e_range v2) as He2.
  pose proof (qp_sig_range v1) as Hs1. pose proof (qp_sig_range v2) as Hs2.
  rewrite xsaddqpo_align_eq by lia.
  set (B := qp_sig v2 * 2 ^ 3) in *.
  destruct (Z.ltb_spec (qp_e v2) (qp_e v1)) as [Hlt|Hge].
  - specialize (Hn Hlt).
    destruct (Z.ltb_spec (qp_e v1 - qp_e v2) 128) as [Hd|Hd].
    + set (d := qp_e v1 - qp_e v2) in *.
      assert (H2 : 2 <= 2 ^ d) by (change 2 with (2 ^ 1) at 1; apply Z.pow_le_mono_r; lia).
      assert (Hq : 0 <= B / 2 ^ d < 2 ^ 115).
      { split; [apply Z.div_pos; unfold B; lia|].
        apply Z.div_lt_upper_bound; [lia|]. unfold B. nia. }
      assert (Hp : 0 <= (if B mod 2 ^ d =? 0 then 0 else 1) <= 1)
        by (destruct (B mod 2 ^ d =? 0); lia).
      pose proof (lor_bit_bounds (B / 2 ^ d) _ ltac:(lia) Hp). lia.
    + destruct (B =? 0); lia.
  - specialize (Hs ltac:(lia)). unfold B. lia.
Qed.

Section SumStages.
Variables (ma mb siga sigb ea eb : Z) (sa sb : bool).
Hypothesis Hma : 0 <= ma < 2 ^ 127.
Hypothesis Hmb : 0 <= mb < 2 ^ 127.
Hypothesis Hsa : 0 <= siga < 2 ^ 113.
Hypothesis Hsb : 0 <= sigb < 2 ^ 113.
Hypothesis Hea : 1 <= ea < 2 ^ 15.
Hypothesis Heb : 1 <= eb < 2 ^ 15.

(** The operands after the swap, as in [xsaddqpo_combine_eq]. *)
Lemma xsaddqpo_sum_eq :
  xsaddqpo_sum ma mb (sign_bit sa) (sign_bit sb) siga sigb (mk_dw ea eb)
  = let lt := ma <? mb in
    let e1 := if lt then eb else ea in
    let e2 := if lt then ea else eb in
    let a_sig := (if lt then sigb else siga) * 2 ^ 3 in
    let b_sig := xsaddqpo_align (mk_dw e1 e1) (mk_dw e2 e2) ((if lt then siga else sigb) * 2 ^ 3) in
    let s_sum := if xorb sa sb then vec_subuqm a_sig b_sig else vec_adduqm a_sig b_sig in
    let '(s_sig, q_exp) := xsaddqpo_normalize s_sum (mk_dw e1 e1) in
    (s_sum, s_sig, q_exp, sign_bit (if lt then sb else sa)).
Proof.
  unfold xsaddqpo_sum. cbv zeta.
  rewrite xor_sign, setb_sq_sign. unfold vec_cmpltuq.
  rewrite !slqi_small by lia. rewrite swapd_mk by lia.
  unfold vec_seluq, vec_selud.
  pose proof (sign_bit_range sa). pose proof (sign_bit_range sb).
  assert (is_vec (siga * 2 ^ 3)) by (unfold is_vec; lia).
  assert (is_vec (sigb * 2 ^ 3)) by (unfold is_vec; lia).
  assert (is_vec (mk_dw ea eb)) by (apply mk_dw_range; lia).
  assert (is_vec (mk_dw eb ea)) by (apply mk_dw_range; lia).
  rewrite !(sel_bmask _ _ (ma <? mb)) by assumption.
  unfold vec_splatd.
  destruct (ma <? mb).
  - rewrite elem_dw_h, elem_dw_l, !splat_dw by lia.
    rewrite sel_bmask by (apply is_vec_mod).
    destruct (xorb sa sb); reflexivity.
  - rewrite elem_dw_h, elem_dw_l, !splat_dw by lia.
    rewrite sel_bmask by (apply is_vec_mod).
    destruct (xorb sa sb); reflexivity.
Qed.
End SumStages.

(** The normalised significand of the intermediate result of add and
    subtract is below [2^116]: 113 bits above Guard, Round and Sticky. *)
Lemma xsaddqpo_sum_sig_range va vb sa sb :
  0 <= snd (fst (fst (xsaddqpo_sum
                        (qp_exp va * 2 ^ 112 + qp_frac va) (qp_exp vb * 2 ^ 112 + qp_frac vb)
                        (sign_bit sa) (sign_bit sb)
                        (qp_sig va) (qp_sig vb) (mk_dw (qp_e va) (qp_e vb))))) < 2 ^ 116.
Proof.
  rewrite xsaddqpo_sum_eq
    by (try apply qp_mag_range; try apply qp_sig_range; apply qp_e_range).
  cbv zeta.
  set (ma := qp_exp va * 2 ^ 112 + qp_frac va).
  set (mb := qp_exp vb * 2 ^ 112 + qp_frac vb).
  pose proof (qp_sig_range va) as Sa. pose proof (qp_sig_range vb) as Sb.
  assert (Core : forall v1 v2 (x : bool),
             qp_exp v2 * 2 ^ 112 + qp_frac v2 <= qp_exp v1 * 2 ^ 112 + qp_frac v1 ->
             0 <= (if x
                   then vec_subuqm (qp_sig v1 * 2 ^ 3)
                          (xsaddqpo_align (mk_dw (qp_e v1) (qp_e v1)) (mk_dw (qp_e v2) (qp_e v2))
                             (qp_sig v2 * 2 ^ 3))
                   else vec_adduqm (qp_sig v1 * 2 ^ 3)
                          (xsaddqpo_align (mk_dw (qp_e v1) (qp_e v1)) (mk_dw (qp_e v2) (qp_e v2))
                             (qp_sig v2 * 2 ^ 3))) < 2 ^ 117).
  { intros v1 v2 x Hm. pose proof (aligned_le v1 v2 Hm) as Hal.
    pose proof (qp_sig_range v1). unfold vec_subuqm, vec_adduqm.
    destruct x; rewrite Z.mod_small by lia; lia. }
  destruct (Z.ltb_spec ma mb) as [Hlt|Hge].
  - pose proof (Core vb va (xorb sa sb) ltac:(unfold ma, mb in Hlt; lia)) as Hr.
    pose proof (xsaddqpo_normalize_sig _ (mk_dw (qp_e vb) (qp_e vb)) Hr) as Hn.
    destruct (xsaddqpo_normalize _ _) as [x y]. exact Hn.
  - pose proof (Core va vb (xorb sa sb) ltac:(unfold ma, mb in Hge; lia)) as Hr.
    pose proof (xsaddqpo_normalize_sig _ (mk_dw (qp_e va) (qp_e va)) Hr) as Hn.
    destruct (xsaddqpo_normalize _ _) as [x y]. exact Hn.
Qed.

Lemma xsaddqpo_intermediate_eq vfa vfb : is_vec vfa -> is_vec vfb ->
  xsaddqpo_intermediate vfa vfb
  = xsaddqpo_sum (qp_exp vfa * 2 ^ 112 + qp_frac vfa) (qp_exp vfb * 2 ^ 112 + qp_frac vfb)
      (sign_bit (qp_sign vfa)) (sign_bit (qp_sign vfb))
      (qp_sig vfa) (qp_sig vfb) (mk_dw (qp_e vfa) (qp_e vfb)).
Proof.
  intros Ha Hb. unfold xsaddqpo_intermediate. cbv zeta.
  rewrite xxxexpqpp_eq, !mag_eq, !sign_eq, xsaddqpo_extract_eq by assumption.
  reflexivity.
Qed.

Lemma xssubqpo_finite vfa vfb : is_vec vfa -> is_vec vfb ->
  qp_is_finite vfa = true -> qp_is_finite vfb = true ->
  vec_xssubqpo vfa vfb
  = xsaddqpo_combine (qp_exp vfa * 2 ^ 112 + qp_frac vfa) (qp_exp vfb * 2 ^ 112 + qp_frac vfb)
      (sign_bit (qp_sign vfa)) (sign_bit (negb (qp_sign vfb)))
      (qp_sig vfa) (qp_sig vfb) (mk_dw (qp_e vfa) (qp_e vfb))
  /\ xssubqpo_intermediate vfa vfb
     = xsaddqpo_sum (qp_exp vfa * 2 ^ 112 + qp_frac vfa) (qp_exp vfb * 2 ^ 112 + qp_frac vfb)
         (sign_bit (qp_sign vfa)) (sign_bit (negb (qp_sign vfb)))
         (qp_sig vfa) (qp_sig vfb) (mk_dw (qp_e vfa) (qp_e vfb)).
Proof.
  intros Ha Hb Fa Fb. unfold qp_is_finite in Fa, Fb.
  unfold vec_xssubqpo, xssubqpo_intermediate. cbv zeta.
  rewrite !xxxexpqpp_eq, all_finite_eq, !mag_eq, !sign_eq by auto using qp_exp_range.
  rewrite Fa, Fb. cbn [andb].
  rewrite !xsaddqpo_extract_eq by assumption. rewrite sub_signmask, !xor_signmask.
  split; reflexivity.
Qed.

(** Multiply for finite nonzero operands: the overflow test, the rounding
    step and the insertion applied to the intermediate result. *)
Lemma xsmulqpo_stage_form vfa vfb : is_vec vfa -> is_vec vfb ->
  qp_is_finite vfa = true -> qp_is_finite vfb = true ->
  qp_is_zero vfa = false -> qp_is_zero vfb = false ->
  vec_xsmulqpo vfa vfb
  = (let '(p_sig_l, q_sig, q_exp, q_sign) := xsmulqpo_intermediate vfa vfb in
     if vec_cmpud_all_ge q_exp vec_mask64_f128exp
     then vec_or (CONST_VINT128_W 0x7ffeffff (-1) (-1) (-1)) q_sign
     else xsmulqpo_insert (round_to_odd_low q_sig p_sig_l) q_sign q_exp)
  /\ is_vec (fst (fst (fst (xsmulqpo_intermediate vfa vfb))))
  /\ 0 <= snd (fst (fst (xsmulqpo_intermediate vfa vfb))) < 2 ^ 113
  /\ snd (xsmulqpo_intermediate vfa vfb) = sign_bit (xorb (qp_sign vfa) (qp_sign vfb)).
Proof.
  intros Ha Hb Fa Fb Za Zb.
  unfold qp_is_finite in Fa, Fb.
  pose proof (qp_sig_range vfa) as Sa. pose proof (qp_sig_range vfb) as Sb.
  unfold vec_xsmulqpo, xsmulqpo_intermediate. cbv zeta.
  rewrite !xxxexpqpp_eq, all_finite_eq by auto using qp_exp_range.
  rewrite Fa, Fb. cbn [andb].
  rewrite !mag_eq, !sign_eq, !xsmulqpo_extract_eq by assumption.
  cbv beta iota. unfold vec_muludq. cbv beta iota.
  rewrite !all_eq_w_eqb by (try apply is_vec_mod; unfold is_vec; rewrite ?q_zero_eq; lia).
  rewrite !slqi_small by lia.
  rewrite q_zero_eq.
  replace (qp_sig vfa * 2 ^ 8 =? 0) with (qp_sig vfa =? 0) by lia.
  replace (qp_sig vfb * 2 ^ 8 =? 0) with (qp_sig vfb =? 0) by lia.
  rewrite !qp_sig_zero_iff, Za, Zb. cbn [orb].
  set (P := qp_sig vfa * 2 ^ 8 * (qp_sig vfb * 2 ^ 8)) in *.
  assert (Hpl : is_vec (P mod 2 ^ 128)) by apply is_vec_mod.
  assert (Hph : 0 <= P / 2 ^ 128 < 2 ^ 114).
  { unfold P. split; [apply Z.div_pos; nia|apply Z.div_lt_upper_bound; nia]. }
  pose proof (xsmulqpo_carry_low (P / 2 ^ 128) (P mod 2 ^ 128)
                (xsmulqpo_exp (mk_dw (qp_exp vfa) (qp_exp vfb))) Hpl) as L1.
  pose proof (xsmulqpo_carry_high (P / 2 ^ 128) (P mod 2 ^ 128)
                (xsmulqpo_exp (mk_dw (qp_exp vfa) (qp_exp vfb))) Hph) as R1.
  destruct (xsmulqpo_carry _ _ _) as [[ph1 pl1] qe1]. cbn [fst snd] in L1, R1.
  pose proof (xsmulqpo_tiny_low ph1 pl1 qe1 L1) as L2.
  pose proof (xsmulqpo_tiny_high ph1 pl1 qe1 ltac:(lia)) as R2.
  destruct (xsmulqpo_tiny _ _ _) as [[[ph2 pl2] qs2] qe2]. cbn [fst snd] in L2, R2.
  pose proof (xsmulqpo_denorm_low ph2 pl2 qs2 qe2 L2) as L3.
  pose proof (xsmulqpo_denorm_sig ph2 pl2 qs2 qe2 ltac:(lia) L2 ltac:(lia)) as R3.
  destruct (xsmulqpo_denorm _ _ _ _) as [[pl3 qs3] qe3]. cbn [fst snd] in *.
  rewrite xor_sign.
  split; [reflexivity|]. split; [exact L3|]. split; [exact R3|reflexivity].
Qed.

(** C1. The final rounding step of vec_xsaddqpo, vec_xssubqpo and
    vec_xsmulqpo is round to odd.  For all finite operands, whatever the
    intermediate result is that the code before the rounding step
    computes (for add and subtract the normalised significand [s_sig]
    with the Guard, Round and Sticky bits in its low three bits; for
    multiply the truncated significand [q_sig] and the product bits below
    it, [p_sig_l]), and unless the operation returns early (a zero sum, a
    zero operand of multiply) or overflows: the value returned is the sign
    and the exponent inserted into the rounded significand [r], where [r]
    is the truncated significand with its least significant bit ORed to 1
    when a bit below it is nonzero, and the truncated significand
    unchanged otherwise; the fraction field of the value returned is the
    low 112 bits of [r] and its least significant bit is that of [r].
    [r] lies between the truncated significand and the truncated
    significand with its LSB forced and differs from it in the LSB at
    most (no increment); the truncated significand has at most 113 bits
    and so has [r] (no carry out). *)
Theorem round_to_odd_forces_lsb (vfa vfb : Z) :
  is_vec vfa -> is_vec vfb -> qp_is_finite vfa = true -> qp_is_finite vfb = true ->
  (forall s_sum s_sig q_exp q_sign,
     xsaddqpo_intermediate vfa vfb = (s_sum, s_sig, q_exp, q_sign) ->
     s_sum <> 0 -> vec_cmpud_all_ge q_exp vec_mask64_f128exp = false ->
     let t := s_sig / 2 ^ 3 in
     let r := if s_sig mod 2 ^ 3 =? 0 then t else Z.lor t 1 in
     vec_xsaddqpo vfa vfb = vec_xsiexpqp (vec_or r q_sign) q_exp
     /\ qp_frac (vec_xsaddqpo vfa vfb) = r mod 2 ^ 112
     /\ Z.testbit (vec_xsaddqpo vfa vfb) 0 = Z.testbit t 0 || negb (s_sig mod 2 ^ 3 =? 0)
     /\ t <= r <= Z.lor t 1 /\ r / 2 = t / 2 /\ 0 <= t < 2 ^ 113 /\ r < 2 ^ 113)
  /\ (forall s_sum s_sig q_exp q_sign,
        xssubqpo_intermediate vfa vfb = (s_sum, s_sig, q_exp, q_sign) ->
        s_sum <> 0 -> vec_cmpud_all_ge q_exp vec_mask64_f128exp = false ->
        let t := s_sig / 2 ^ 3 in
        let r := if s_sig mod 2 ^ 3 =? 0 then t else Z.lor t 1 in
        vec_xssubqpo vfa vfb = vec_xsiexpqp (vec_or r q_sign) q_exp
        /\ qp_frac (vec_xssubqpo vfa vfb) = r mod 2 ^ 112
        /\ Z.testbit (vec_xssubqpo vfa vfb) 0 = Z.testbit t 0 || negb (s_sig mod 2 ^ 3 =? 0)
        /\ t <= r <= Z.lor t 1 /\ r / 2 = t / 2 /\ 0 <= t < 2 ^ 113 /\ r < 2 ^ 113)
  /\ (forall p_sig_l q_sig q_exp q_sign,
        qp_is_zero vfa = false -> qp_is_zero vfb = false ->
        xsmulqpo_intermediate vfa vfb = (p_sig_l, q_sig, q_exp, q_sign) ->
        vec_cmpud_all_ge q_exp vec_mask64_f128exp = false ->
        let r := if p_sig_l =? 0 then q_sig else Z.lor q_sig 1 in
        vec_xsmulqpo vfa vfb = xsmulqpo_insert r q_sign q_exp
        /\ qp_frac (vec_xsmulqpo vfa vfb) = r mod 2 ^ 112
        /\ Z.testbit (vec_xsmulqpo vfa vfb) 0 = Z.testbit q_sig 0 || negb (p_sig_l =? 0)
        /\ q_sig <= r <= Z.lor q_sig 1 /\ r / 2 = q_sig / 2
        /\ 0 <= q_sig < 2 ^ 113 /\ r < 2 ^ 113).
Proof.
  intros Ha Hb Fa Fb.
  split; [|split].
  - intros s_sum s_sig q_exp q_sign H Hz Hov.
    rewrite xsaddqpo_intermediate_eq in H by assumption.
    rewrite xsaddqpo_finite by assumption.
    pose proof (xsaddqpo_sum_sig_range vfa vfb (qp_sign vfa) (qp_sign vfb)) as R.
    rewrite H in R. cbn [fst snd] in R.
    assert (Ht : 0 <= s_sig / 2 ^ 3 < 2 ^ 113).
    { split; [apply Z.div_pos; lia|apply Z.div_lt_upper_bound; lia]. }
    destruct (xsaddqpo_round_result _ _ _ _ _ _ _ _ _ _ _ H Hz Hov)
      as (E1 & E2 & E3 & E4 & E5 & E6).
    repeat split; try assumption; lia.
  - intros s_sum s_sig q_exp q_sign H Hz Hov.
    destruct (xssubqpo_finite vfa vfb Ha Hb Fa Fb) as [E Ei].
    rewrite Ei in H. rewrite E.
    pose proof (xsaddqpo_sum_sig_range vfa vfb (qp_sign vfa) (negb (qp_sign vfb))) as R.
    rewrite H in R. cbn [fst snd] in R.
    assert (Ht : 0 <= s_sig / 2 ^ 3 < 2 ^ 113).
    { split; [apply Z.div_pos; lia|apply Z.div_lt_upper_bound; lia]. }
    destruct (xsaddqpo_round_result _ _ _ _ _ _ _ _ _ _ _ H Hz Hov)
      as (E1 & E2 & E3 & E4 & E5 & E6).
    repeat split; try assumption; lia.
  - intros p_sig_l q_sig q_exp q_sign Za Zb H Hov.
    destruct (xsmulqpo_stage_form vfa vfb Ha Hb Fa Fb Za Zb) as (E & Lp & Rq & Es).
    rewrite H in E, Lp, Rq, Es. cbn [fst snd] in Lp, Rq, Es. cbv beta iota in E.
    rewrite Hov in E. rewrite round_to_odd_low_eq in E by assumption.
    rewrite E. split; [reflexivity|].
    rewrite Es at 1 2. rewrite xsmulqpo_insert_frac. split; [reflexivity|].
    rewrite xsmulqpo_insert_lsb, sign_bit_lsb, orb_false_r.
    pose proof (forced_lsb_bounds q_sig (negb (p_sig_l =? 0))) as Hbd. cbv zeta in Hbd.
    destruct (p_sig_l =? 0); cbn [negb] in *;
      destruct Hbd as (H1 & H2 & H3 & H4); repeat split; try assumption; lia.
Qed.

Lemma round_to_odd_forces_lsb_witness :
  vec_xsaddqpo (qp_pack false 0x3fff 0) (qp_pack false 0x3f8e 0) = qp_pack false 0x3fff 1
  /\ vec_xssubqpo (qp_pack false 0x3fff 1) (qp_pack false 0x3f8d 0) = qp_pack false 0x3fff 1
  /\ vec_xsmulqpo (qp_pack false 0x3fff 1) (qp_pack true 0x3fff 1) = qp_pack true 0x3fff 3.
Proof.
  split; [|split].
  - pose proof (round_to_odd_forces_lsb (qp_pack false 0x3fff 0) (qp_pack false 0x3f8e 0)
                  ltac:(vm_compute; split; [discriminate|reflexivity])
                  ltac:(vm_compute; split; [discriminate|reflexivity])
                  ltac:(vm_compute; reflexivity) ltac:(vm_compute; reflexivity))
      as (H & _ & _).
    edestruct H as (E & _);
      [vm_compute; reflexivity|vm_compute; discriminate|vm_compute; reflexivity|].
    rewrite E. vm_compute. reflexivity.
  - pose proof (round_to_odd_forces_lsb (qp_pack false 0x3fff 1) (qp_pack false 0x3f8d 0)
                  ltac:(vm_compute; split; [discriminate|reflexivity])
                  ltac:(vm_compute; split; [discriminate|reflexivity])
                  ltac:(vm_compute; reflexivity) ltac:(vm_compute; reflexivity))
      as (_ & H & _).
    edestruct H as (E & _);
      [vm_compute; reflexivity|vm_compute; discriminate|vm_compute; reflexivity|].
    rewrite E. vm_compute. reflexivity.
  - pose proof (round_to_odd_forces_lsb (qp_pack false 0x3fff 1) (qp_pack true 0x3fff 1)
                  ltac:(vm_compute; split; [discriminate|reflexivity])
                  ltac:(vm_compute; split; [discriminate|reflexivity])
                  ltac:(vm_compute; reflexivity) ltac:(vm_compute; reflexivity))
      as (_ & _ & H).
    edestruct H as (E & _);
      [vm_compute; reflexivity|vm_compute; reflexivity|vm_compute; reflexivity
      |vm_compute; reflexivity|].
    rewrite E. vm_compute. reflexivity.
Defined.
